(** * quest-chromakey-mr: the chroma-key compositor and its stereo placement driver

    A shallow embedding of [js/chromakey.js], [js/ui-controller.js] and
    [js/app.js].  Each JavaScript module is a Rocq [Module] of the same name
    whose definitions follow the source functions line by line; module-level
    [let] variables become the fields of a state record, and the browser
    (WebGL contexts, animation-frame queues, the WebXR device) is an explicit
    host state that the code reads and writes.

    Numbers.  A number is a [JS.number]: a rational for every finite
    value, [NaN], or a signed infinity; there is no signed zero.  The
    controller's handlers ([ui-controller.js]) work on the decimal values of
    the controls, with the exact operations of [JS].  The driver's matrix
    code and the shader stage work in binary floating point ([Float]): every
    operation returns the number of its format nearest to the exact result
    (ties to even, overflow to an infinity), the driver in binary64 with
    [Float32Array] entries in binary32, the fragment stage in the format
    that [precision mediump float] selects on the device. *)

From Stdlib Require Import QArith Qminmax Qabs Qround Qpower Lqa ZArith List String Ascii Bool Lia.
From stdpp Require Import base gmap strings list pretty.

Open Scope Q_scope.

(* ================================================================= *)
(** ** JavaScript values *)

Module JS.

Inductive number : Type :=
| Num (q : Q)
| NaN
| Infinity (negative : bool).

(** Unary minus. *)
Definition neg (a : number) : number :=
  match a with
  | Num q => Num (- q)
  | NaN => NaN
  | Infinity s => Infinity (negb s)
  end.

(** [a + b]. *)
Definition add (a b : number) : number :=
  match a, b with
  | NaN, _ | _, NaN => NaN
  | Num p, Num q => Num (p + q)
  | Infinity s, Num _ | Num _, Infinity s => Infinity s
  | Infinity s, Infinity s' => if Bool.eqb s s' then Infinity s else NaN
  end.

(** [a - b]. *)
Definition sub (a b : number) : number := add a (neg b).

(** [a * b]. *)
Definition mul (a b : number) : number :=
  match a, b with
  | NaN, _ | _, NaN => NaN
  | Num p, Num q => Num (p * q)
  | Infinity s, Num q | Num q, Infinity s =>
      match q ?= 0 with
      | Eq => NaN
      | Gt => Infinity s
      | Lt => Infinity (negb s)
      end
  | Infinity s, Infinity s' => Infinity (xorb s s')
  end.

(** [a / b] for a non-zero finite divisor, the only use the code makes of
    division ([videoWidth / videoHeight] behind a truthiness test). *)
Definition div (a b : number) : number :=
  match a, b with
  | NaN, _ | _, NaN => NaN
  | Num p, Num q =>
      match q ?= 0 with
      | Eq => match p ?= 0 with
              | Eq => NaN
              | Gt => Infinity false
              | Lt => Infinity true
              end
      | _ => Num (p / q)
      end
  | Infinity s, Num q => Infinity (if Qle_bool 0 q then s else negb s)
  | Num _, Infinity _ => Num 0
  | Infinity _, Infinity _ => NaN
  end.

(** [a < b]; every comparison with [NaN] is false. *)
Definition lt (a b : number) : bool :=
  match a, b with
  | NaN, _ | _, NaN => false
  | Num p, Num q => negb (Qle_bool q p)
  | Infinity true, Infinity true => false
  | Infinity true, _ => true
  | _, Infinity true => false
  | Infinity false, _ => false
  | Num _, Infinity false => true
  end.

(** [a > b]. *)
Definition gt (a b : number) : bool := lt b a.

(** [a <= b]. *)
Definition le (a b : number) : bool :=
  match a, b with
  | NaN, _ | _, NaN => false
  | Num p, Num q => Qle_bool p q
  | Infinity true, _ => true
  | _, Infinity false => true
  | _, _ => false
  end.

(** [Math.max(a, b)] and [Math.min(a, b)]: [NaN] if either argument is. *)
Definition Math_max (a b : number) : number :=
  match a, b with
  | NaN, _ | _, NaN => NaN
  | _, _ => if lt a b then b else a
  end.

Definition Math_min (a b : number) : number :=
  match a, b with
  | NaN, _ | _, NaN => NaN
  | _, _ => if lt b a then b else a
  end.

(** ToBoolean on a number, as in [if (video.videoWidth)]. *)
Definition truthy (a : number) : bool :=
  match a with
  | Num q => negb (Qeq_bool q 0)
  | NaN => false
  | Infinity _ => true
  end.

(** The finite value a number stands for, if any. *)
Definition finite (a : number) : option Q :=
  match a with
  | Num q => Some q
  | _ => None
  end.

(** [a] is the finite value [q] (up to equality of rationals). *)
Definition is_num (a : number) (q : Q) : Prop :=
  match a with
  | Num p => p == q
  | _ => False
  end.

(** What a caller can hand to [parseFloat]: a number or a string. *)
Inductive value : Type :=
| VNum (n : number)
| VStr (s : string).

(** *** [parseFloat] on strings

    The longest prefix of the trimmed input that is a StrDecimalLiteral:
    an optional sign, then [Infinity] or digits with an optional fraction
    and an optional exponent.  Characters are bytes, so the white space
    skipped is the ASCII white space. *)

Definition is_white (c : ascii) : bool :=
  let n := nat_of_ascii c in
  ((n =? 32) || (n =? 9) || (n =? 10) || (n =? 11) || (n =? 12) || (n =? 13))%nat.

Definition is_digit (c : ascii) : bool :=
  let n := nat_of_ascii c in ((48 <=? n) && (n <=? 57))%nat.

Definition digit_val (c : ascii) : Z := Z.of_nat (nat_of_ascii c - 48).

Fixpoint skip_white (s : list ascii) : list ascii :=
  match s with
  | c :: r => if is_white c then skip_white r else s
  | [] => []
  end.

(** Reads a run of digits: its value after [acc], how many were read, and
    the rest of the input. *)
Fixpoint read_digits (s : list ascii) (acc : Z) (n : nat) : Z * nat * list ascii :=
  match s with
  | c :: r => if is_digit c then read_digits r (10 * acc + digit_val c)%Z (S n)
              else (acc, n, s)
  | [] => (acc, n, [])
  end.

Fixpoint starts_with (p s : list ascii) : bool :=
  match p, s with
  | [], _ => true
  | a :: p', b :: s' => if Ascii.eqb a b then starts_with p' s' else false
  | _ :: _, [] => false
  end.

Definition read_sign (s : list ascii) : bool * list ascii :=
  match s with
  | "-"%char :: r => (true, r)
  | "+"%char :: r => (false, r)
  | _ => (false, s)
  end.

(** The exponent part [e], sign, digits, taken only when at least one digit follows. *)
Definition read_exponent (s : list ascii) : Z :=
  match s with
  | c :: r =>
      if (Ascii.eqb c "e" || Ascii.eqb c "E")%bool then
        let '(eneg, r') := read_sign r in
        let '(ev, ne, _) := read_digits r' 0%Z 0%nat in
        match ne with
        | O => 0%Z
        | S _ => if eneg then (- ev)%Z else ev
        end
      else 0%Z
  | [] => 0%Z
  end.

Definition parse_decimal (s : string) : number :=
  let s1 := skip_white (list_ascii_of_string s) in
  let '(negative, s2) := read_sign s1 in
  if starts_with (list_ascii_of_string "Infinity") s2 then Infinity negative
  else
    let '(ip, ni, s3) := read_digits s2 0%Z 0%nat in
    let '(fp, nf, s4) :=
      match s3 with
      | "."%char :: r => read_digits r 0%Z 0%nat
      | _ => (0%Z, 0%nat, s3)
      end in
    match (ni + nf)%nat with
    | O => NaN
    | S _ =>
        let scale := Qpower 10 (Z.of_nat nf) in
        let mantissa := (inject_Z ip * scale + inject_Z fp) / scale in
        let v := mantissa * Qpower 10 (read_exponent s4) in
        Num (Qred (if negative then - v else v))
    end.

(** [parseFloat(v)]: a number is first converted to its string and parsed
    back, which returns the number itself. *)
Definition parseFloat (v : value) : number :=
  match v with
  | VNum n => n
  | VStr s => parse_decimal s
  end.

End JS.

(* ================================================================= *)
(** ** Binary floating point *)

(** Arithmetic as IEEE 754 defines it for a binary format: the result of
    an operation is the exact result rounded to nearest, ties to even,
    with gradual underflow and with overflow to an infinity.  Numbers keep
    the type [JS.number]; zero has no sign. *)

Module Float.

(** A binary format: [prec] significant bits, finite values below
    [2^emax] in magnitude, subnormal numbers included. *)
Record format : Type := mkFormat { prec : Z; emax : Z }.

Definition binary16 : format := mkFormat 11 16.
Definition binary32 : format := mkFormat 24 128.
Definition binary64 : format := mkFormat 53 1024.

(** The exponent of the smallest positive number of the format. *)
Definition emin (f : format) : Z := 3 - emax f - prec f.

Definition pow2 (e : Z) : Q := 2 ^ e.

(** [floor (log2 |q|)] for a non-zero [q]. *)
Definition ilog2 (q : Q) : Z :=
  let k := (Z.log2 (Z.abs (Qnum q)) - Z.log2 (Zpos (Qden q)))%Z in
  if Qle_bool (pow2 k) (Qabs q) then k else (k - 1)%Z.

(** The nearest integer, ties to even. *)
Definition rint (q : Q) : Z :=
  let n := Qfloor q in
  match Qcompare (q - inject_Z n) (1 # 2) with
  | Lt => n
  | Gt => (n + 1)%Z
  | Eq => if Z.even n then n else (n + 1)%Z
  end.

(** The exponent of the last place of [q] in the format, and the multiple
    of that place nearest to [q]. *)
Definition exponent (f : format) (q : Q) : Z :=
  Z.max (ilog2 q - (prec f - 1)) (emin f).

Definition nearest (f : format) (q : Q) : Q :=
  let e := exponent f q in
  inject_Z (rint (q / pow2 e)) * pow2 e.

(** Rounding to nearest, ties to even, overflowing to an infinity. *)
Definition round (f : format) (q : Q) : JS.number :=
  if Qeq_bool q 0 then JS.Num 0
  else
    let r := nearest f q in
    if Qle_bool (pow2 (emax f)) (Qabs r) then JS.Infinity (negb (Qle_bool 0 q))
    else JS.Num (Qred r).

(** Conversion of a number to the format. *)
Definition rnd (f : format) (a : JS.number) : JS.number :=
  match a with
  | JS.Num q => round f q
  | _ => a
  end.

(** The four operations: the exact result, rounded. *)
Definition add (f : format) (a b : JS.number) : JS.number := rnd f (JS.add a b).
Definition sub (f : format) (a b : JS.number) : JS.number := rnd f (JS.sub a b).
Definition mul (f : format) (a b : JS.number) : JS.number := rnd f (JS.mul a b).
Definition div (f : format) (a b : JS.number) : JS.number := rnd f (JS.div a b).

End Float.

(* ================================================================= *)
(** ** The shader stages (GLSL) *)

Module GLSL.

(** A [float] of the stage: a number of the format its precision
    qualifier selects, [NaN] or an infinity. *)
Definition float : Type := JS.number.

Record vec3 : Type := Vec3 { v3x : float; v3y : float; v3z : float }.
Record vec4 : Type := Vec4 { v4x : float; v4y : float; v4z : float; v4w : float }.

Section Stages.

(** The format [precision mediump float] selects on the device.  GLSL ES
    asks for at least 10 bits of relative precision and magnitudes up to
    [2^14]; devices use binary16 or binary32.  The stage is evaluated with
    every operation rounded to nearest in that format; GLSL ES lets a
    device be less accurate than that. *)
Variable mediump : Float.format.

(** A literal, as a number of the format. *)
Definition lit (q : Q) : float := Float.round mediump q.

(** [clamp(x, lo, hi) = min(max(x, lo), hi)], where [max(x, y)] is [y] if
    [x < y] and [x] otherwise, and [min(x, y)] is [y] if [y < x] and [x]
    otherwise. *)
Definition clamp (x lo hi : float) : float :=
  let m := if JS.lt x lo then lo else x in
  if JS.lt hi m then hi else m.

(** [smoothstep(edge0, edge1, x)]: [t = clamp((x - edge0) / (edge1 -
    edge0), 0.0, 1.0)], then [t * t * (3.0 - 2.0 * t)], every operation
    rounded.  GLSL leaves the result undefined when [edge0 >= edge1]. *)
Definition smoothstep (edge0 edge1 x : float) : float :=
  let t := clamp (Float.div mediump (Float.sub mediump x edge0)
                                    (Float.sub mediump edge1 edge0))
                 (lit 0) (lit 1) in
  Float.mul mediump (Float.mul mediump t t)
            (Float.sub mediump (lit 3) (Float.mul mediump (lit 2) t)).

(** The alpha the fragment stage derives from a key distance [diff]
    (line 32 of [FRAG_SRC]). *)
Definition alpha (uTolerance uSmoothing diff : float) : float :=
  smoothstep uTolerance (Float.add mediump uTolerance uSmoothing) diff.

(** The built-in [distance] (a Euclidean norm, computed to the device's
    precision) is left abstract. *)
Variable distance : vec3 -> vec3 -> float.

(** [FRAG_SRC]: [None] is [discard], [Some c] is the written
    [gl_FragColor]. *)
Definition FRAG_main (uKeyColor : vec3) (uTolerance uSmoothing : float)
           (texColor : vec4) : option vec4 :=
  let rgb := Vec3 (v4x texColor) (v4y texColor) (v4z texColor) in
  let diff := distance rgb uKeyColor in
  let a := alpha uTolerance uSmoothing diff in
  if JS.lt a (lit 0.01) then None
  else Some (Vec4 (v3x rgb) (v3y rgb) (v3z rgb) a).

End Stages.

End GLSL.


(* ================================================================= *)
(** ** Objects the code stores and passes around *)

(** What [KEY_COLORS[name]] can evaluate to: one of the literal's arrays, or
    a member that the object literal inherits from [Object.prototype]. *)
Inductive jsobj : Type :=
| Arr (elems : list JS.number)
| Inherited (member : string).

(** The two canvases of the page. *)
Inductive Canvas : Type := preview_canvas | xr_canvas.

Definition Canvas_eqb (a b : Canvas) : bool :=
  match a, b with
  | preview_canvas, preview_canvas | xr_canvas, xr_canvas => true
  | _, _ => false
  end.

(** A WebGL object (program, buffer, texture): the context that created it,
    named by its canvas, and a serial number. *)
Record Handle : Type := mkHandle { h_ctx : Canvas; h_id : nat }.

Definition Handle_eqb (a b : Handle) : bool :=
  Canvas_eqb (h_ctx a) (h_ctx b) && Nat.eqb (h_id a) (h_id b).

Inductive UniformName : Type :=
| n_uProjection | n_uView | n_uModel | n_uVideoTexture
| n_uKeyColor | n_uTolerance | n_uSmoothing.

Definition UniformName_eqb (a b : UniformName) : bool :=
  match a, b with
  | n_uProjection, n_uProjection | n_uView, n_uView | n_uModel, n_uModel
  | n_uVideoTexture, n_uVideoTexture | n_uKeyColor, n_uKeyColor
  | n_uTolerance, n_uTolerance | n_uSmoothing, n_uSmoothing => true
  | _, _ => false
  end.

(** A uniform location belongs to the program it was queried from. *)
Record Location : Type := mkLocation { loc_program : Handle; loc_name : UniformName }.

Record Viewport : Type := mkViewport { vp_x : Z; vp_y : Z; vp_width : Z; vp_height : Z }.

(** The calls the code makes on a WebGL context, in the order issued. *)
Inductive GLCmd : Type :=
| gl_useProgram (p : Handle)
| gl_bindFramebuffer (fb : option nat)
| gl_viewport (v : Viewport)
| gl_clearColor (r g b a : Q)
| gl_clear (color depth : bool)
| gl_uniformMatrix4fv (loc : option Location) (m : list JS.number)
| gl_uniform3fv (loc : option Location) (v : jsobj)
| gl_uniform1f (loc : option Location) (v : JS.number)
| gl_uniform1i (loc : option Location) (v : Z)
| gl_activeTexture (unit : nat)
| gl_bindTexture (t : option Handle)
| gl_texParameteri (pname : string) (param : string)
| gl_texImage2D (frame : nat)
| gl_bindBuffer (b : option Handle)
| gl_bufferData (data : list Q)
| gl_enableVertexAttribArray (index : nat)
| gl_vertexAttribPointer (index size stride offset : nat)
| gl_enable (cap : string)
| gl_blendFunc (sfactor dfactor : string)
| gl_drawArrays (first count : nat).

(** *** What the context does with these calls

    Only the part the properties below read: which program is in use, the
    uniform values (kept per program), the bound framebuffer, the viewport,
    and, for every [drawArrays], a snapshot of all of these.  A call with an
    object of another context, or with a location of a program that is not
    in use, is an INVALID_OPERATION and changes nothing. *)

Inductive UValue : Type :=
| UMat (m : list JS.number)
| UObj (v : jsobj)
| UFloat (x : JS.number)
| UInt (z : Z).

Record Draw : Type := mkDraw {
  d_framebuffer : option nat;
  d_viewport : option Viewport;
  d_program : option Handle;
  d_uniform : UniformName -> option UValue
}.

Record GLMachine : Type := mkGLMachine {
  m_program : option Handle;
  m_uniforms : Location -> option UValue;
  m_framebuffer : option nat;
  m_viewport : option Viewport;
  m_draws : list Draw
}.

Definition Location_eqb (a b : Location) : bool :=
  Handle_eqb (loc_program a) (loc_program b) && UniformName_eqb (loc_name a) (loc_name b).

Definition set_uniform (loc : option Location) (v : UValue) (m : GLMachine) : GLMachine :=
  match loc, m_program m with
  | Some l, Some p =>
      if Handle_eqb (loc_program l) p then
        mkGLMachine (m_program m)
                    (fun l' => if Location_eqb l' l then Some v else m_uniforms m l')
                    (m_framebuffer m) (m_viewport m) (m_draws m)
      else m
  | _, _ => m
  end.

(** What a draw sees. *)
Definition snapshot (m : GLMachine) : Draw :=
  mkDraw (m_framebuffer m) (m_viewport m) (m_program m)
         (fun n => match m_program m with
                   | Some p => m_uniforms m (mkLocation p n)
                   | None => None
                   end).

Definition gl_exec (c : Canvas) (m : GLMachine) (cmd : GLCmd) : GLMachine :=
  match cmd with
  | gl_useProgram p =>
      if Canvas_eqb (h_ctx p) c then
        mkGLMachine (Some p) (m_uniforms m) (m_framebuffer m) (m_viewport m) (m_draws m)
      else m
  | gl_bindFramebuffer fb =>
      mkGLMachine (m_program m) (m_uniforms m) fb (m_viewport m) (m_draws m)
  | gl_viewport v =>
      mkGLMachine (m_program m) (m_uniforms m) (m_framebuffer m) (Some v) (m_draws m)
  | gl_uniformMatrix4fv loc x => set_uniform loc (UMat x) m
  | gl_uniform3fv loc x => set_uniform loc (UObj x) m
  | gl_uniform1f loc x => set_uniform loc (UFloat x) m
  | gl_uniform1i loc x => set_uniform loc (UInt x) m
  | gl_drawArrays _ _ =>
      mkGLMachine (m_program m) (m_uniforms m) (m_framebuffer m) (m_viewport m)
                  (m_draws m ++ [snapshot m])
  | _ => m
  end.

(** The uniform a call writes, if it is a uniform call. *)
Definition uniform_write (cmd : GLCmd) : option (option Location * UValue) :=
  match cmd with
  | gl_uniformMatrix4fv loc x => Some (loc, UMat x)
  | gl_uniform3fv loc x => Some (loc, UObj x)
  | gl_uniform1f loc x => Some (loc, UFloat x)
  | gl_uniform1i loc x => Some (loc, UInt x)
  | _ => None
  end.

Definition is_draw (cmd : GLCmd) : bool :=
  match cmd with gl_drawArrays _ _ => true | _ => false end.

Definition gl_fresh : GLMachine := mkGLMachine None (fun _ => None) None None [].

Definition gl_run (c : Canvas) (cmds : list GLCmd) : GLMachine :=
  fold_left (gl_exec c) cmds gl_fresh.

(* ================================================================= *)
(** ** State *)

(** The part of the [<video>] element the renderer reads, and two things
    the browser knows about it: whether WebGL may read its frames (it may
    not when the media is cross-origin and was fetched without CORS
    approval, as after [loadDirect(url, false)]), and whether the element is
    allowed to play when asked to. *)
Record HTMLVideo : Type := mkVideo {
  paused : bool;
  videoWidth : N;
  videoHeight : N;
  currentFrame : nat;
  origin_clean : bool;
  play_allowed : bool
}.

(** The size attributes of a canvas. *)
Record CanvasState : Type := mkCanvas {
  width : Z;
  height : Z;
  clientWidth : Z;
  clientHeight : Z
}.

(** Requests made to [navigator.xr], to the session and to a frame. *)
Inductive XRCall : Type :=
| xr_isSessionSupported
| xr_requestSession
| xr_updateRenderState
| xr_requestReferenceSpace
| xr_requestAnimationFrame
| xr_addEventListener_end
| xr_getViewerPose
| xr_end.

(** Everything the code asks of the browser, in the order asked. *)
Inductive HostCall : Type :=
| GL (c : Canvas) (cmd : GLCmd)
| XR (call : XRCall)
| requestAnimationFrame (id : nat)
| cancelAnimationFrame (id : nat)
| video_play.

(** The browser. *)
Record HostState : Type := mkHost {
  preview : CanvasState;
  xrc : CanvasState;
  trace : list HostCall;
  next_handle : nat;
  (** pending [requestAnimationFrame(loop)] callbacks, by id *)
  raf_pending : list nat;
  raf_next : nat;
  navigator_xr : bool;
  (** the running immersive session, if any *)
  xr_active : option nat;
  xr_next_session : nat;
  (** [onXREnd] listens for the running session's [end] event *)
  xr_end_listener : bool;
  (** pending [xrSession.requestAnimationFrame(xrRenderLoop)] callbacks *)
  xr_frame_requests : nat
}.

(** [chromakey.js]: the module's [let] variables.  The seven uniform
    locations are assigned together in [init], all from one program, so one
    field records that program. *)
Record ChromaKeyState : Type := mkChromaKey {
  gl : option Canvas;
  program : option Handle;
  videoTexture : option Handle;
  quadVAO : option Handle;
  uniformsOf : option Handle;
  currentKeyColor : jsobj;
  currentTolerance : JS.number;
  currentSmoothing : JS.number
}.

(** [video-player.js]: what the renderer can observe. *)
Record VideoPlayerState : Type := mkVideoPlayer {
  video : option HTMLVideo;
  isReady : bool
}.

(** [ui-controller.js]: the module's [let] variables and the two pieces of
    the page the driver writes (the status bar and the overlay). *)
Record UIState : Type := mkUI {
  currentColor : string;
  tolerance : JS.number;
  smoothing : JS.number;
  screenDistance : JS.number;
  screenScale : JS.number;
  screenOffsetX : JS.number;
  screenOffsetY : JS.number;
  statusBar_textContent : string;
  statusBar_className : string;
  xrOverlay_visible : bool
}.

(** [app.js]: the module's [let] variables. *)
Record AppState : Type := mkApp {
  xrSession : option nat;
  xrRefSpace : option nat;
  xrGLLayer : option nat;
  previewAnimId : option nat;
  isXR : bool
}.

Record World : Type := mkWorld {
  host : HostState;
  chroma : ChromaKeyState;
  player : VideoPlayerState;
  ui : UIState;
  app : AppState
}.

(** *** Field updates *)

Definition with_host (f : HostState -> HostState) (w : World) : World :=
  mkWorld (f (host w)) (chroma w) (player w) (ui w) (app w).
Definition with_chroma (f : ChromaKeyState -> ChromaKeyState) (w : World) : World :=
  mkWorld (host w) (f (chroma w)) (player w) (ui w) (app w).
Definition with_player (f : VideoPlayerState -> VideoPlayerState) (w : World) : World :=
  mkWorld (host w) (chroma w) (f (player w)) (ui w) (app w).
Definition with_ui (f : UIState -> UIState) (w : World) : World :=
  mkWorld (host w) (chroma w) (player w) (f (ui w)) (app w).
Definition with_app (f : AppState -> AppState) (w : World) : World :=
  mkWorld (host w) (chroma w) (player w) (ui w) (f (app w)).

Definition canvas_state (c : Canvas) (h : HostState) : CanvasState :=
  match c with
  | preview_canvas => preview h
  | xr_canvas => xrc h
  end.

Definition with_canvas (c : Canvas) (f : CanvasState -> CanvasState) (h : HostState) : HostState :=
  match c with
  | preview_canvas =>
      mkHost (f (preview h)) (xrc h) (trace h) (next_handle h) (raf_pending h) (raf_next h)
             (navigator_xr h) (xr_active h) (xr_next_session h) (xr_end_listener h)
             (xr_frame_requests h)
  | xr_canvas =>
      mkHost (preview h) (f (xrc h)) (trace h) (next_handle h) (raf_pending h) (raf_next h)
             (navigator_xr h) (xr_active h) (xr_next_session h) (xr_end_listener h)
             (xr_frame_requests h)
  end.

Definition log_calls (new : list HostCall) (h : HostState) : HostState :=
  mkHost (preview h) (xrc h) (trace h ++ new) (next_handle h) (raf_pending h) (raf_next h)
         (navigator_xr h) (xr_active h) (xr_next_session h) (xr_end_listener h)
         (xr_frame_requests h).

Definition set_next_handle (n : nat) (h : HostState) : HostState :=
  mkHost (preview h) (xrc h) (trace h) n (raf_pending h) (raf_next h)
         (navigator_xr h) (xr_active h) (xr_next_session h) (xr_end_listener h)
         (xr_frame_requests h).

Definition set_raf (pending : list nat) (next : nat) (h : HostState) : HostState :=
  mkHost (preview h) (xrc h) (trace h) (next_handle h) pending next
         (navigator_xr h) (xr_active h) (xr_next_session h) (xr_end_listener h)
         (xr_frame_requests h).

Definition set_xr (active : option nat) (next : nat) (listener : bool) (requests : nat)
           (h : HostState) : HostState :=
  mkHost (preview h) (xrc h) (trace h) (next_handle h) (raf_pending h) (raf_next h)
         (navigator_xr h) active next listener requests.

Definition set_size (w h : Z) (c : CanvasState) : CanvasState :=
  mkCanvas w h (clientWidth c) (clientHeight c).

(** The calls made on the context of canvas [c], and the draws it has
    performed. *)
Fixpoint cmds_of (c : Canvas) (t : list HostCall) : list GLCmd :=
  match t with
  | GL c' cmd :: r => if Canvas_eqb c' c then cmd :: cmds_of c r else cmds_of c r
  | _ :: r => cmds_of c r
  | [] => []
  end.

Definition machine (c : Canvas) (w : World) : GLMachine :=
  gl_run c (cmds_of c (trace (host w))).

Definition draws (c : Canvas) (w : World) : list Draw := m_draws (machine c w).

(* ================================================================= *)
(** ** Statements: state passing with exceptions *)

Inductive outcome (A : Type) : Type :=
| Ok (a : A)
| Throw (message : string).
Arguments Ok {A} a.
Arguments Throw {A} message.

Definition M (A : Type) : Type := World -> outcome A * World.

Definition ret {A} (a : A) : M A := fun w => (Ok a, w).

Definition bind {A B} (c : M A) (k : A -> M B) : M B :=
  fun w => match c w with
           | (Ok a, w') => k a w'
           | (Throw e, w') => (Throw e, w')
           end.

Definition throw {A} (message : string) : M A := fun w => (Throw message, w).

(** [try { body } catch (err) { handler(err.message) }]. *)
Definition try_catch {A} (body : M A) (handler : string -> M A) : M A :=
  fun w => match body w with
           | (Ok a, w') => (Ok a, w')
           | (Throw e, w') => handler e w'
           end.

Definition get : M World := fun w => (Ok w, w).
Definition modify (f : World -> World) : M unit := fun w => (Ok tt, f w).

Notation "'let*' x ':=' c 'in' k" := (bind c (fun x => k))
  (at level 10, x name, c at level 100, k at level 200).
Notation "c '>>' k" := (bind c (fun _ => k))
  (at level 90, right associativity).

(** The state a statement leaves behind, and whether it completed. *)
Definition exec {A} (c : M A) (w : World) : World := snd (c w).
Definition completes {A} (c : M A) (w : World) : bool :=
  match fst (c w) with Ok _ => true | Throw _ => false end.

(** Issue WebGL calls on a context reference; on [null] the property access
    throws. *)
Definition gl_calls (g : option Canvas) (new : list GLCmd) : M unit :=
  match g with
  | Some c => modify (with_host (log_calls (map (GL c) new)))
  | None => throw "TypeError: Cannot read properties of null"
  end.

(** [gl.createBuffer()], [gl.createTexture()], [gl.createProgram()]. *)
Definition new_handle (c : Canvas) : M Handle :=
  let* w := get in
  let n := next_handle (host w) in
  modify (with_host (set_next_handle (S n))) >>
  ret (mkHandle c n).

(* ================================================================= *)
(** ** [chromakey.js] *)

Module ChromaKey.

(** The own properties of the [KEY_COLORS] literal. *)
Definition KEY_COLORS : gmap string (list JS.number) :=
  <["green" := [JS.Num 0.0; JS.Num 1.0; JS.Num 0.0]]>
  (<["blue" := [JS.Num 0.0; JS.Num 0.0; JS.Num 1.0]]>
  (<["black" := [JS.Num 0.0; JS.Num 0.0; JS.Num 0.0]]> ∅)).

(** An object literal's prototype is [Object.prototype]; these are its
    members, every one of them a function or an object. *)
Definition Object_prototype : list string :=
  [ "constructor"; "hasOwnProperty"; "isPrototypeOf"; "propertyIsEnumerable";
    "toLocaleString"; "toString"; "valueOf"; "__proto__";
    "__defineGetter__"; "__defineSetter__"; "__lookupGetter__"; "__lookupSetter__" ]%string.

(** [KEY_COLORS[name]]: the own property, else the inherited member, else
    [undefined]. *)
Definition KEY_COLORS_get (name : string) : option jsobj :=
  match KEY_COLORS !! name with
  | Some a => Some (Arr a)
  | None => if existsb (String.eqb name) Object_prototype
            then Some (Inherited name) else None
  end.

(** The vertices of [createQuad]: position (x, y, z) and texture
    coordinate (u, v) per vertex. *)
Definition quad_verts : list Q :=
  [ -1; -1; 0;   0; 1;
     1; -1; 0;   1; 1;
     1;  1; 0;   1; 0;
    -1; -1; 0;   0; 1;
     1;  1; 0;   1; 0;
    -1;  1; 0;   0; 0 ].

Definition IDENTITY : list JS.number :=
  map JS.Num [ 1;0;0;0;  0;1;0;0;  0;0;1;0;  0;0;0;1 ].

(** The module before [init]: [currentKeyColor = KEY_COLORS.green]. *)
Definition initial : ChromaKeyState :=
  mkChromaKey None None None None None
              (Arr [JS.Num 0.0; JS.Num 1.0; JS.Num 0.0]) (JS.Num 0.35) (JS.Num 0.10).

Definition set_gl (g : option Canvas) (s : ChromaKeyState) : ChromaKeyState :=
  mkChromaKey g (program s) (videoTexture s) (quadVAO s) (uniformsOf s)
              (currentKeyColor s) (currentTolerance s) (currentSmoothing s).
Definition set_program (p : Handle) (s : ChromaKeyState) : ChromaKeyState :=
  mkChromaKey (gl s) (Some p) (videoTexture s) (quadVAO s) (uniformsOf s)
              (currentKeyColor s) (currentTolerance s) (currentSmoothing s).
Definition set_uniformsOf (p : option Handle) (s : ChromaKeyState) : ChromaKeyState :=
  mkChromaKey (gl s) (program s) (videoTexture s) (quadVAO s) p
              (currentKeyColor s) (currentTolerance s) (currentSmoothing s).
Definition set_quadVAO (b : Handle) (s : ChromaKeyState) : ChromaKeyState :=
  mkChromaKey (gl s) (program s) (videoTexture s) (Some b) (uniformsOf s)
              (currentKeyColor s) (currentTolerance s) (currentSmoothing s).
Definition set_videoTexture (t : Handle) (s : ChromaKeyState) : ChromaKeyState :=
  mkChromaKey (gl s) (program s) (Some t) (quadVAO s) (uniformsOf s)
              (currentKeyColor s) (currentTolerance s) (currentSmoothing s).
Definition set_currentKeyColor (v : jsobj) (s : ChromaKeyState) : ChromaKeyState :=
  mkChromaKey (gl s) (program s) (videoTexture s) (quadVAO s) (uniformsOf s)
              v (currentTolerance s) (currentSmoothing s).
Definition set_currentTolerance (v : JS.number) (s : ChromaKeyState) : ChromaKeyState :=
  mkChromaKey (gl s) (program s) (videoTexture s) (quadVAO s) (uniformsOf s)
              (currentKeyColor s) v (currentSmoothing s).
Definition set_currentSmoothing (v : JS.number) (s : ChromaKeyState) : ChromaKeyState :=
  mkChromaKey (gl s) (program s) (videoTexture s) (quadVAO s) (uniformsOf s)
              (currentKeyColor s) (currentTolerance s) v.

(** The location variable [uName]: [undefined] before [init]. *)
Definition u (s : ChromaKeyState) (n : UniformName) : option Location :=
  match uniformsOf s with
  | Some p => Some (mkLocation p n)
  | None => None
  end.

(** How the browser answers [init]'s requests on a canvas. *)
Inductive ContextAnswer : Type :=
| NoWebGL
| ShaderCompileError (log : string)
| ProgramLinkError (log : string)
| ContextOk.

(** [createProgram(vertSrc, fragSrc)]; the shader objects are not kept. *)
Definition createProgram (c : Canvas) (answer : ContextAnswer) : M Handle :=
  match answer with
  | ShaderCompileError log => throw ("Shader compile error: " ++ log)
  | ProgramLinkError log => throw ("Program link error: " ++ log)
  | _ => new_handle c
  end.

Definition createQuad (c : Canvas) : M Handle :=
  let* buf := new_handle c in
  gl_calls (Some c)
    [ gl_bindBuffer (Some buf); gl_bufferData quad_verts;
      gl_enableVertexAttribArray 0; gl_vertexAttribPointer 0 3 20 0;
      gl_enableVertexAttribArray 1; gl_vertexAttribPointer 1 2 20 12 ] >>
  ret buf.

(** [init(canvas, ctxAttrs)].  A canvas has one context, so the context is
    named by its canvas; the context attributes do not enter the model. *)
Definition init (canvas : Canvas) (answer : ContextAnswer) : M Canvas :=
  let g := match answer with NoWebGL => None | _ => Some canvas end in
  modify (with_chroma (set_gl g)) >>
  match g with
  | None => throw "WebGL not supported"
  | Some c =>
      let* p := createProgram c answer in
      modify (with_chroma (set_program p)) >>
      gl_calls (Some c) [ gl_useProgram p ] >>
      modify (with_chroma (set_uniformsOf (Some p))) >>
      let* quad := createQuad c in
      modify (with_chroma (set_quadVAO quad)) >>
      let* tex := new_handle c in
      modify (with_chroma (set_videoTexture tex)) >>
      gl_calls (Some c)
        [ gl_bindTexture (Some tex);
          gl_texParameteri "TEXTURE_WRAP_S" "CLAMP_TO_EDGE";
          gl_texParameteri "TEXTURE_WRAP_T" "CLAMP_TO_EDGE";
          gl_texParameteri "TEXTURE_MIN_FILTER" "LINEAR";
          gl_texParameteri "TEXTURE_MAG_FILTER" "LINEAR";
          gl_enable "BLEND";
          gl_blendFunc "SRC_ALPHA" "ONE_MINUS_SRC_ALPHA" ] >>
      ret c
  end.

(** [updateTexture(video)].  [texImage2D] refuses a video that is not
    origin-clean with a SecurityError and uploads nothing. *)
Definition updateTexture (v : HTMLVideo) : M unit :=
  let* w := get in
  match gl (chroma w), videoTexture (chroma w) with
  | Some c, Some tex =>
      gl_calls (Some c) [ gl_bindTexture (Some tex) ] >>
      if origin_clean v
      then gl_calls (Some c) [ gl_texImage2D (currentFrame v) ]
      else throw "SecurityError: Failed to execute 'texImage2D'"
  | _, _ => ret tt
  end.

(** [render(projectionMatrix, viewMatrix, modelMatrix, framebuffer, viewport)].
    [uniform3fv] takes a sequence of numbers; handed anything else the
    call throws a TypeError. *)
Definition render (projectionMatrix viewMatrix modelMatrix : list JS.number)
           (framebuffer : option nat) (viewport : option Viewport) : M unit :=
  let* w := get in
  let s := chroma w in
  match gl s, program s with
  | Some c, Some prog =>
      gl_calls (Some c)
        ([ gl_bindFramebuffer framebuffer ]
         ++ match viewport with Some v => [ gl_viewport v ] | None => [] end
         ++ [ gl_useProgram prog;
              gl_uniformMatrix4fv (u s n_uProjection) projectionMatrix;
              gl_uniformMatrix4fv (u s n_uView) viewMatrix;
              gl_uniformMatrix4fv (u s n_uModel) modelMatrix ]) >>
      match currentKeyColor s with
      | Arr _ => ret tt
      | Inherited _ => throw "TypeError: Failed to execute 'uniform3fv'"
      end >>
      gl_calls (Some c)
        [ gl_uniform3fv (u s n_uKeyColor) (currentKeyColor s);
          gl_uniform1f (u s n_uTolerance) (currentTolerance s);
          gl_uniform1f (u s n_uSmoothing) (currentSmoothing s);
          gl_activeTexture 0;
          gl_bindTexture (videoTexture s);
          gl_uniform1i (u s n_uVideoTexture) 0;
          gl_bindBuffer (quadVAO s);
          gl_enableVertexAttribArray 0; gl_vertexAttribPointer 0 3 20 0;
          gl_enableVertexAttribArray 1; gl_vertexAttribPointer 1 2 20 12;
          gl_drawArrays 0 6 ]
  | _, _ => ret tt
  end.

(** [renderPreview(video)]. *)
Definition renderPreview (v : HTMLVideo) : M unit :=
  let* w := get in
  match gl (chroma w) with
  | None => ret tt
  | Some c =>
      let cs := canvas_state c (host w) in
      (if negb (width cs =? clientWidth cs)%Z || negb (height cs =? clientHeight cs)%Z
       then modify (with_host (with_canvas c (set_size (clientWidth cs) (clientHeight cs))))
       else ret tt) >>
      let* w1 := get in
      let cs1 := canvas_state c (host w1) in
      gl_calls (Some c)
        [ gl_viewport (mkViewport 0 0 (width cs1) (height cs1));
          gl_clearColor 0 0 0 0;
          gl_clear true false ] >>
      updateTexture v >>
      render IDENTITY IDENTITY IDENTITY None None
  end.

(** [setKeyColor(name)]: assigns when [KEY_COLORS[name]] is truthy, and
    every object is. *)
Definition setKeyColor (name : string) : M unit :=
  match KEY_COLORS_get name with
  | Some v => modify (with_chroma (set_currentKeyColor v))
  | None => ret tt
  end.

Definition setTolerance (val : JS.value) : M unit :=
  modify (with_chroma (set_currentTolerance (JS.parseFloat val))).

Definition setSmoothing (val : JS.value) : M unit :=
  modify (with_chroma (set_currentSmoothing (JS.parseFloat val))).

Definition getGL : M (option Canvas) :=
  let* w := get in ret (gl (chroma w)).

End ChromaKey.

(* ================================================================= *)
(** ** [video-player.js] (the accessors the renderer uses) *)

Module VideoPlayer.

Definition getVideo : M (option HTMLVideo) :=
  let* w := get in ret (video (player w)).

Definition getReady : M bool :=
  let* w := get in ret (isReady (player w)).

(** The element's [paused] attribute. *)
Definition set_paused (b : bool) (p : VideoPlayerState) : VideoPlayerState :=
  mkVideoPlayer
    (match video p with
     | Some v => Some (mkVideo b (videoWidth v) (videoHeight v) (currentFrame v)
                               (origin_clean v) (play_allowed v))
     | None => None
     end)
    (isReady p).

(** [play()]: [video.play()] clears [paused] at once when the element is
    allowed to play; otherwise it changes nothing and returns a rejected
    promise, which the [catch] swallows. *)
Definition play : M unit :=
  let* w := get in
  match video (player w) with
  | Some v =>
      modify (with_host (log_calls [video_play])) >>
      if play_allowed v then modify (with_player (set_paused false)) else ret tt
  | None => ret tt
  end.

End VideoPlayer.

(* ================================================================= *)
(** ** [ui-controller.js] *)

Declare Scope js_scope.
Delimit Scope js_scope with js.
Infix "+" := JS.add : js_scope.
Infix "-" := JS.sub : js_scope.
Infix "*" := JS.mul : js_scope.
Infix "/" := JS.div : js_scope.

(** Arithmetic on numbers as the engine does it: in binary64. *)
Declare Scope f64_scope.
Delimit Scope f64_scope with f64.
Infix "+" := (Float.add Float.binary64) : f64_scope.
Infix "-" := (Float.sub Float.binary64) : f64_scope.
Infix "*" := (Float.mul Float.binary64) : f64_scope.
Infix "/" := (Float.div Float.binary64) : f64_scope.

Module UIController.

Definition MOVE_STEP : JS.number := JS.Num 0.15.
Definition DEPTH_STEP : JS.number := JS.Num 0.3.
Definition SCALE_STEP : JS.number := JS.Num 0.15.

(** The module as loaded; the status bar starts out as the page has it,
    taken here to be empty. *)
Definition initial : UIState :=
  mkUI "green" (JS.Num 0.35) (JS.Num 0.10) (JS.Num 2.0) (JS.Num 1.0)
       (JS.Num 0) (JS.Num 1.5) "" "status-bar" false.

Definition set_currentColor (c : string) (s : UIState) : UIState :=
  mkUI c (tolerance s) (smoothing s) (screenDistance s) (screenScale s)
       (screenOffsetX s) (screenOffsetY s)
       (statusBar_textContent s) (statusBar_className s) (xrOverlay_visible s).
Definition set_tolerance (v : JS.number) (s : UIState) : UIState :=
  mkUI (currentColor s) v (smoothing s) (screenDistance s) (screenScale s)
       (screenOffsetX s) (screenOffsetY s)
       (statusBar_textContent s) (statusBar_className s) (xrOverlay_visible s).
Definition set_smoothing (v : JS.number) (s : UIState) : UIState :=
  mkUI (currentColor s) (tolerance s) v (screenDistance s) (screenScale s)
       (screenOffsetX s) (screenOffsetY s)
       (statusBar_textContent s) (statusBar_className s) (xrOverlay_visible s).
Definition set_screenDistance (v : JS.number) (s : UIState) : UIState :=
  mkUI (currentColor s) (tolerance s) (smoothing s) v (screenScale s)
       (screenOffsetX s) (screenOffsetY s)
       (statusBar_textContent s) (statusBar_className s) (xrOverlay_visible s).
Definition set_screenScale (v : JS.number) (s : UIState) : UIState :=
  mkUI (currentColor s) (tolerance s) (smoothing s) (screenDistance s) v
       (screenOffsetX s) (screenOffsetY s)
       (statusBar_textContent s) (statusBar_className s) (xrOverlay_visible s).
Definition set_screenOffsetX (v : JS.number) (s : UIState) : UIState :=
  mkUI (currentColor s) (tolerance s) (smoothing s) (screenDistance s) (screenScale s)
       v (screenOffsetY s)
       (statusBar_textContent s) (statusBar_className s) (xrOverlay_visible s).
Definition set_screenOffsetY (v : JS.number) (s : UIState) : UIState :=
  mkUI (currentColor s) (tolerance s) (smoothing s) (screenDistance s) (screenScale s)
       (screenOffsetX s) v
       (statusBar_textContent s) (statusBar_className s) (xrOverlay_visible s).
Definition set_statusBar (text cls : string) (s : UIState) : UIState :=
  mkUI (currentColor s) (tolerance s) (smoothing s) (screenDistance s) (screenScale s)
       (screenOffsetX s) (screenOffsetY s) text cls (xrOverlay_visible s).
Definition set_xrOverlay_visible (b : bool) (s : UIState) : UIState :=
  mkUI (currentColor s) (tolerance s) (smoothing s) (screenDistance s) (screenScale s)
       (screenOffsetX s) (screenOffsetY s)
       (statusBar_textContent s) (statusBar_className s) b.

(** [setStatus(msg, type)]; the empty string is falsy. *)
Definition setStatus (msg type : string) : M unit :=
  modify (with_ui (set_statusBar msg
    ("status-bar" ++ (if String.eqb type "" then "" else " " ++ type)))).

(** [showXROverlay(visible)]; the main UI is shown exactly when the
    overlay is not. *)
Definition showXROverlay (visible : bool) : M unit :=
  modify (with_ui (set_xrOverlay_visible visible)).

(** [setActiveColor(color)]. *)
Definition setActiveColor (color : string) : M unit :=
  modify (with_ui (set_currentColor color)) >>
  ChromaKey.setKeyColor color >>
  let* w := get in
  if String.eqb color "black" && JS.gt (tolerance (ui w)) (JS.Num 0.2) then
    modify (with_ui (set_tolerance (JS.Num 0.15))) >>
    ChromaKey.setTolerance (JS.VNum (JS.Num 0.15))
  else ret tt.

(** The [input] handler of the tolerance slider and of its overlay twin:
    [e.target.value] is the string [value]. *)
Definition toleranceSlider_input (value : string) : M unit :=
  modify (with_ui (set_tolerance (JS.parseFloat (JS.VStr value)))) >>
  let* w := get in
  ChromaKey.setTolerance (JS.VNum (tolerance (ui w))).

Definition xrToleranceSlider_input (value : string) : M unit :=
  toleranceSlider_input value.

Definition smoothingSlider_input (value : string) : M unit :=
  modify (with_ui (set_smoothing (JS.parseFloat (JS.VStr value)))) >>
  let* w := get in
  ChromaKey.setSmoothing (JS.VNum (smoothing (ui w))).

Definition distanceSlider_input (value : string) : M unit :=
  modify (with_ui (set_screenDistance (JS.parseFloat (JS.VStr value)))).

Definition scaleSlider_input (value : string) : M unit :=
  modify (with_ui (set_screenScale (JS.parseFloat (JS.VStr value)))).

(** The tap handler of a [data-move] button; [dir] is the attribute. *)
Definition move_tap (dir : string) : M unit :=
  modify (with_ui (fun s =>
    if String.eqb dir "left" then
      set_screenOffsetX (screenOffsetX s - MOVE_STEP)%js s
    else if String.eqb dir "right" then
      set_screenOffsetX (screenOffsetX s + MOVE_STEP)%js s
    else if String.eqb dir "up" then
      set_screenOffsetY (screenOffsetY s + MOVE_STEP)%js s
    else if String.eqb dir "down" then
      set_screenOffsetY (screenOffsetY s - MOVE_STEP)%js s
    else if String.eqb dir "closer" then
      set_screenDistance (JS.Math_max (JS.Num 0.3) (screenDistance s - DEPTH_STEP)%js) s
    else if String.eqb dir "farther" then
      set_screenDistance (JS.Math_min (JS.Num 10) (screenDistance s + DEPTH_STEP)%js) s
    else s)).

Definition xrSmaller_tap : M unit :=
  modify (with_ui (fun s =>
    set_screenScale (JS.Math_max (JS.Num 0.2) (screenScale s - SCALE_STEP)%js) s)).

Definition xrBigger_tap : M unit :=
  modify (with_ui (fun s =>
    set_screenScale (JS.Math_min (JS.Num 5) (screenScale s + SCALE_STEP)%js) s)).

(** [colors.indexOf(currentColor)], [-1] when absent. *)
Fixpoint indexOf (l : list string) (x : string) (i : Z) : Z :=
  match l with
  | [] => (-1)%Z
  | y :: r => if String.eqb y x then i else indexOf r x (i + 1)%Z
  end.

Definition xrColorToggle_tap : M unit :=
  let colors := ["green"; "blue"; "black"]%string in
  let* w := get in
  let idx := Z.rem (indexOf colors (currentColor (ui w)) 0 + 1) (Z.of_nat (length colors)) in
  match colors !! Z.to_nat idx with
  | Some c => setActiveColor c
  | None => ret tt
  end.

Definition getScreenDistance : M JS.number := let* w := get in ret (screenDistance (ui w)).
Definition getScreenScale : M JS.number := let* w := get in ret (screenScale (ui w)).
Definition getScreenOffsetX : M JS.number := let* w := get in ret (screenOffsetX (ui w)).
Definition getScreenOffsetY : M JS.number := let* w := get in ret (screenOffsetY (ui w)).

(** What the user can do to the controls. *)
Inductive Input : Type :=
| color_button (data_color : string)
| tolerance_slider (value : string)
| smoothing_slider (value : string)
| distance_slider (value : string)
| scale_slider (value : string)
| move_button (data_move : string)
| smaller_button
| bigger_button
| color_toggle
| xr_tolerance_slider (value : string).

Definition handle (i : Input) : M unit :=
  match i with
  | color_button c => setActiveColor c
  | tolerance_slider v => toleranceSlider_input v
  | smoothing_slider v => smoothingSlider_input v
  | distance_slider v => distanceSlider_input v
  | scale_slider v => scaleSlider_input v
  | move_button d => move_tap d
  | smaller_button => xrSmaller_tap
  | bigger_button => xrBigger_tap
  | color_toggle => xrColorToggle_tap
  | xr_tolerance_slider v => xrToleranceSlider_input v
  end.

End UIController.

(* ================================================================= *)
(** ** [app.js] *)

(** One eye of a viewer pose: its projection matrix, the matrix of the
    inverse of its transform, and the viewport the layer assigns to it. *)
Record XRView : Type := mkView {
  projectionMatrix : list JS.number;
  transform_inverse_matrix : list JS.number;
  layer_viewport : Viewport
}.

(** What [frame.getViewerPose(xrRefSpace)] does. *)
Inductive PoseAnswer : Type :=
| pose_throws (message : string)
| pose_null
| pose_views (views : list XRView).

(** How the browser answers the requests of one [startXR]. *)
Record XRAnswers : Type := mkAnswers {
  isSessionSupported : outcome bool;
  requestSession : outcome unit;
  xr_context : ChromaKey.ContextAnswer;
  new_XRWebGLLayer : outcome unit;
  requestReferenceSpace : outcome unit
}.

Module App.

Definition initial : AppState := mkApp None None None None false.

Definition set_xrSession (v : option nat) (s : AppState) : AppState :=
  mkApp v (xrRefSpace s) (xrGLLayer s) (previewAnimId s) (isXR s).
Definition set_xrRefSpace (v : option nat) (s : AppState) : AppState :=
  mkApp (xrSession s) v (xrGLLayer s) (previewAnimId s) (isXR s).
Definition set_xrGLLayer (v : option nat) (s : AppState) : AppState :=
  mkApp (xrSession s) (xrRefSpace s) v (previewAnimId s) (isXR s).
Definition set_previewAnimId (v : option nat) (s : AppState) : AppState :=
  mkApp (xrSession s) (xrRefSpace s) (xrGLLayer s) v (isXR s).
Definition set_isXR (v : bool) (s : AppState) : AppState :=
  mkApp (xrSession s) (xrRefSpace s) (xrGLLayer s) (previewAnimId s) v.

(** *** Matrix helpers: [Float32Array(16)], column-major *)

(** A number as the engine holds it: the binary64 nearest to it. *)
Definition double (a : JS.number) : JS.number := Float.rnd Float.binary64 a.

(** What a [Float32Array] holds once a number is stored in it: the
    binary32 nearest to it. *)
Definition fround (a : JS.number) : JS.number := Float.rnd Float.binary32 a.

(** [new Float32Array([...])]. *)
Definition Float32Array (l : list JS.number) : list JS.number := map fround l.

Definition mat4Translate (x y z : JS.number) : list JS.number :=
  Float32Array
    [ JS.Num 1; JS.Num 0; JS.Num 0; JS.Num 0;
      JS.Num 0; JS.Num 1; JS.Num 0; JS.Num 0;
      JS.Num 0; JS.Num 0; JS.Num 1; JS.Num 0;
      x; y; z; JS.Num 1 ].

Definition mat4Scale (sx sy sz : JS.number) : list JS.number :=
  Float32Array
    [ sx; JS.Num 0; JS.Num 0; JS.Num 0;
      JS.Num 0; sy; JS.Num 0; JS.Num 0;
      JS.Num 0; JS.Num 0; sz; JS.Num 0;
      JS.Num 0; JS.Num 0; JS.Num 0; JS.Num 1 ].

(** [a[i]]; an index outside the array reads [undefined], which is [NaN]
    in arithmetic. *)
Definition at_ (a : list JS.number) (i : nat) : JS.number :=
  default JS.NaN (a !! i).

(** The two [for] loops of [mat4Multiply], writing [out[j * 4 + i]]: the
    sum is formed in binary64, left to right, and stored as binary32. *)
Definition mat4Multiply (a b : list JS.number) : list JS.number :=
  let out := replicate 16 (JS.Num 0) in
  fold_left (fun out i =>
    fold_left (fun out j =>
      <[ (j * 4 + i)%nat :=
           fround (at_ a i * at_ b (j * 4)
                   + at_ a (4 + i) * at_ b (j * 4 + 1)
                   + at_ a (8 + i) * at_ b (j * 4 + 2)
                   + at_ a (12 + i) * at_ b (j * 4 + 3))%f64 ]> out)
      (seq 0 4) out)
    (seq 0 4) out.

(** *** The browser's side of the calls the driver makes *)

(** [window.requestAnimationFrame(loop)]. *)
Definition window_requestAnimationFrame : M nat :=
  let* w := get in
  let id := raf_next (host w) in
  modify (with_host (fun h =>
    log_calls [requestAnimationFrame id] (set_raf (raf_pending h ++ [id]) (S id) h))) >>
  ret id.

Definition window_cancelAnimationFrame (id : nat) : M unit :=
  modify (with_host (fun h =>
    log_calls [cancelAnimationFrame id]
      (set_raf (List.filter (fun i => negb (Nat.eqb i id)) (raf_pending h)) (raf_next h) h))).

(** [navigator.xr.isSessionSupported('immersive-ar')]. *)
Definition navigator_xr_isSessionSupported (answer : outcome bool) : M bool :=
  modify (with_host (log_calls [XR xr_isSessionSupported])) >>
  match answer with
  | Ok b => ret b
  | Throw e => throw e
  end.

(** [navigator.xr.requestSession('immersive-ar', ...)]: a device runs one
    immersive session at a time and rejects a request made during one. *)
Definition navigator_xr_requestSession (answer : outcome unit) : M nat :=
  modify (with_host (log_calls [XR xr_requestSession])) >>
  let* w := get in
  match xr_active (host w), answer with
  | Some _, _ => throw "InvalidStateError"
  | None, Throw e => throw e
  | None, Ok _ =>
      let s := xr_next_session (host w) in
      modify (with_host (set_xr (Some s) (S s) false 0)) >>
      ret s
  end.

(** [session.requestAnimationFrame(xrRenderLoop)]: queued while the
    session runs, ignored once it has ended. *)
Definition session_requestAnimationFrame (session : option nat) : M unit :=
  match session with
  | None => throw "TypeError: Cannot read properties of null"
  | Some s =>
      modify (with_host (fun h =>
        log_calls [XR xr_requestAnimationFrame]
          (match xr_active h with
           | Some s' =>
               if Nat.eqb s s' then
                 set_xr (xr_active h) (xr_next_session h) (xr_end_listener h)
                        (S (xr_frame_requests h)) h
               else h
           | None => h
           end)))
  end.

(** [session.addEventListener('end', onXREnd)]. *)
Definition session_addEventListener_end (session : option nat) : M unit :=
  match session with
  | None => throw "TypeError: Cannot read properties of null"
  | Some s =>
      modify (with_host (fun h =>
        log_calls [XR xr_addEventListener_end]
          (match xr_active h with
           | Some s' =>
               if Nat.eqb s s' then
                 set_xr (xr_active h) (xr_next_session h) true (xr_frame_requests h) h
               else h
           | None => h
           end)))
  end.

(** *** The 2D preview loop *)

(** The closure [loop] of [startPreviewLoop]. *)
Definition loop : M unit :=
  let* w := get in
  if isXR (app w) then ret tt
  else
    let* v := VideoPlayer.getVideo in
    let* ready := VideoPlayer.getReady in
    match v with
    | Some vid => if ready && negb (paused vid) then ChromaKey.renderPreview vid else ret tt
    | None => ret tt
    end >>
    let* id := window_requestAnimationFrame in
    modify (with_app (set_previewAnimId (Some id))).

Definition startPreviewLoop : M unit := loop.

(** *** WebXR *)

Fixpoint for_each {A} (l : list A) (body : A -> M unit) : M unit :=
  match l with
  | [] => ret tt
  | x :: r => body x >> for_each r body
  end.

Definition of_N (n : N) : JS.number := JS.Num (inject_Z (Z.of_N n)).

(** Lines 186 to 189: the aspect ratio of the video, 16:9 without one. *)
Definition aspect_of (v : option HTMLVideo) : JS.number :=
  match v with
  | Some vid =>
      if JS.truthy (of_N (videoWidth vid)) && JS.truthy (of_N (videoHeight vid))
      then (of_N (videoWidth vid) / of_N (videoHeight vid))%f64
      else (JS.Num 16 / JS.Num 9)%f64
  | None => (JS.Num 16 / JS.Num 9)%f64
  end.

(** Lines 191 and 192: half the width and half the height of the quad. *)
Definition halfWidth_of (scale : JS.number) (v : option HTMLVideo) : JS.number :=
  (double scale * aspect_of v * JS.Num 0.5)%f64.

Definition halfHeight_of (scale : JS.number) : JS.number :=
  (double scale * JS.Num 0.5)%f64.

(** Lines 191 to 196: the model matrix of one eye.  The controller hands
    over the decimal values of its controls; the numbers the driver
    computes with are the binary64 nearest to them. *)
Definition modelMatrix_of (dist scale offX offY : JS.number) (v : option HTMLVideo)
  : list JS.number :=
  let halfWidth := halfWidth_of scale v in
  let halfHeight := halfHeight_of scale in
  let translateMat := mat4Translate (double offX) (double offY) (JS.neg (double dist)) in
  let scaleMat := mat4Scale halfWidth halfHeight (JS.Num 1) in
  mat4Multiply translateMat scaleMat.

(** [xrRenderLoop(time, frame)]; [frame] is what the frame object answers
    to [getViewerPose]. *)
Definition xrRenderLoop (frame : option PoseAnswer) : M unit :=
  let* w := get in
  match xrSession (app w), frame with
  | Some _, Some answer =>
      session_requestAnimationFrame (xrSession (app w)) >>
      let* g := ChromaKey.getGL in
      modify (with_host (log_calls [XR xr_getViewerPose])) >>
      match answer with
      | pose_throws e => throw e
      | pose_null => ret tt
      | pose_views views =>
          let* w1 := get in
          match xrGLLayer (app w1) with
          | None => throw "TypeError: Cannot read properties of null"
          | Some layer =>
              gl_calls g [ gl_bindFramebuffer (Some layer);
                           gl_clearColor 0 0 0 0;
                           gl_clear true true ] >>
              let* v := VideoPlayer.getVideo in
              match v with
              | Some vid => if negb (paused vid) then ChromaKey.updateTexture vid else ret tt
              | None => ret tt
              end >>
              for_each views (fun view =>
                let vp := layer_viewport view in
                gl_calls g [ gl_viewport vp ] >>
                let* dist := UIController.getScreenDistance in
                let* scale := UIController.getScreenScale in
                let* offX := UIController.getScreenOffsetX in
                let* offY := UIController.getScreenOffsetY in
                ChromaKey.render (projectionMatrix view) (transform_inverse_matrix view)
                                 (modelMatrix_of dist scale offX offY v)
                                 (Some layer) (Some vp))
          end
      end
  | _, _ => ret tt
  end.

(** [startXR()]; each [await] is taken in one step with the host's answer. *)
Definition startXR (a : XRAnswers) : M unit :=
  let* w := get in
  if negb (navigator_xr (host w)) then
    UIController.setStatus "WebXR not available. Use Meta Quest Browser." "error"
  else
    try_catch
      (let* supported := navigator_xr_isSessionSupported (isSessionSupported a) in
       if negb supported then
         UIController.setStatus "Immersive AR not supported on this device." "error"
       else
         let* s := navigator_xr_requestSession (requestSession a) in
         modify (with_app (set_xrSession (Some s))) >>
         modify (with_app (set_isXR true)) >>
         let* w1 := get in
         match previewAnimId (app w1) with
         | Some id => if negb (Nat.eqb id 0) then window_cancelAnimationFrame id else ret tt
         | None => ret tt
         end >>
         let* g := ChromaKey.init xr_canvas (xr_context a) in
         match new_XRWebGLLayer a with
         | Ok _ => modify (with_app (set_xrGLLayer (Some s)))
         | Throw e => throw e
         end >>
         modify (with_host (log_calls [XR xr_updateRenderState])) >>
         modify (with_host (log_calls [XR xr_requestReferenceSpace])) >>
         match requestReferenceSpace a with
         | Ok _ => modify (with_app (set_xrRefSpace (Some s)))
         | Throw e => throw e
         end >>
         UIController.showXROverlay true >>
         session_requestAnimationFrame (Some s) >>
         session_addEventListener_end (Some s) >>
         VideoPlayer.play)
      (fun message =>
         UIController.setStatus ("Failed to start XR: " ++ message) "error" >>
         modify (with_app (set_isXR false))).

(** [onXREnd()]; [answer] is the browser's answer to the re-[init]. *)
Definition onXREnd (answer : ChromaKey.ContextAnswer) : M unit :=
  modify (with_app (set_isXR false)) >>
  modify (with_app (set_xrSession None)) >>
  UIController.showXROverlay false >>
  ChromaKey.init preview_canvas answer >>
  startPreviewLoop >>
  UIController.setStatus "Exited MR mode." "".

(** The browser shuts the running session down: pending frame callbacks
    are dropped and the [end] event is dispatched to its listeners; an
    exception in a listener is reported and goes no further. *)
Definition session_shutdown (answer : ChromaKey.ContextAnswer) : M unit :=
  let* w := get in
  let listening := xr_end_listener (host w) in
  modify (with_host (fun h => set_xr None (xr_next_session h) false 0 h)) >>
  if listening then try_catch (onXREnd answer) (fun _ => ret tt) else ret tt.

(** [endXR()]: [session.end()] shuts the session down if it still runs and
    rejects otherwise. *)
Definition endXR (answer : ChromaKey.ContextAnswer) : M unit :=
  let* w := get in
  match xrSession (app w) with
  | Some s =>
      modify (with_host (log_calls [XR xr_end])) >>
      match xr_active (host w) with
      | Some s' => if Nat.eqb s s' then session_shutdown answer
                   else throw "InvalidStateError"
      | None => throw "InvalidStateError"
      end
  | None => ret tt
  end.

(** [init()], on DOMContentLoaded; setting a button title is not kept. *)
Definition init (answer : ChromaKey.ContextAnswer) : M unit :=
  ChromaKey.init preview_canvas answer >>
  startPreviewLoop >>
  let* w := get in
  if navigator_xr (host w)
  then modify (with_host (log_calls [XR xr_isSessionSupported]))
  else ret tt.

End App.

(* ================================================================= *)
(** ** The page as a whole: what can happen, one event at a time *)

Inductive Event : Type :=
| ev_enter_mr (a : XRAnswers)
| ev_exit_mr (reinit : ChromaKey.ContextAnswer)
| ev_session_end (reinit : ChromaKey.ContextAnswer)
| ev_animation_frame (id : nat)
| ev_xr_frame (frame : option PoseAnswer)
| ev_input (i : UIController.Input)
| ev_video (v : option HTMLVideo) (ready : bool).

(** The browser runs a pending [requestAnimationFrame] callback. *)
Definition fire_animation_frame (id : nat) : M unit :=
  let* w := get in
  if existsb (Nat.eqb id) (raf_pending (host w)) then
    modify (with_host (fun h =>
      set_raf (List.filter (fun i => negb (Nat.eqb i id)) (raf_pending h)) (raf_next h) h)) >>
    App.loop
  else ret tt.

(** The device runs a pending frame callback of the running session. *)
Definition fire_xr_frame (frame : option PoseAnswer) : M unit :=
  let* w := get in
  match xr_active (host w), xr_frame_requests (host w) with
  | Some _, S n =>
      modify (with_host (fun h =>
        set_xr (xr_active h) (xr_next_session h) (xr_end_listener h) n h)) >>
      App.xrRenderLoop frame
  | _, _ => ret tt
  end.

(** The device ends the running session on its own. *)
Definition fire_session_end (reinit : ChromaKey.ContextAnswer) : M unit :=
  let* w := get in
  match xr_active (host w) with
  | Some _ => App.session_shutdown reinit
  | None => ret tt
  end.

Definition dispatch (e : Event) : M unit :=
  match e with
  | ev_enter_mr a => App.startXR a
  | ev_exit_mr reinit => App.endXR reinit
  | ev_session_end reinit => fire_session_end reinit
  | ev_animation_frame id => fire_animation_frame id
  | ev_xr_frame frame => fire_xr_frame frame
  | ev_input i => UIController.handle i
  | ev_video v ready => modify (with_player (fun _ => mkVideoPlayer v ready))
  end.

Definition step (e : Event) (w : World) : World := exec (dispatch e) w.

(** The page before DOMContentLoaded. *)
Definition boot (has_xr : bool) (preview_size xr_size : CanvasState) : World :=
  mkWorld (mkHost preview_size xr_size [] 0 [] 1 has_xr None 0 false 0)
          ChromaKey.initial (mkVideoPlayer None false) UIController.initial App.initial.

Inductive reachable : World -> Prop :=
| reachable_loaded : forall has_xr p x answer,
    reachable (exec (App.init answer) (boot has_xr p x))
| reachable_step : forall w e,
    reachable w -> reachable (step e w).

(** ** Vocabulary of the properties *)

(** A number of the format: [m * 2^e] with a significand of [prec] bits and
    an exponent in range, below the overflow threshold. *)
Definition representable (f : Float.format) (q : Q) : Prop :=
  exists m e : Z,
    q == inject_Z m * Float.pow2 e /\
    (Z.abs m < 2 ^ Float.prec f)%Z /\ (Float.emin f <= e)%Z /\
    Qabs q < Float.pow2 (Float.emax f).

(** A format that meets what GLSL ES asks of [mediump]. *)
Definition at_least_mediump (f : Float.format) : Prop :=
  (11 <= Float.prec f)%Z /\ (14 <= Float.emax f)%Z.

(** [q] is a number of the format [f]: rounding returns it as it is. *)
Definition is_float (f : Float.format) (q : Q) : Prop := Float.round f q = JS.Num q.

(** The position in the ramp at which [smoothstep] interpolates: its
    clamped ratio [t]. *)
Definition ramp_position (f : Float.format) (edge0 edge1 x : GLSL.float) : GLSL.float :=
  GLSL.clamp (Float.div f (Float.sub f x edge0) (Float.sub f edge1 edge0))
             (GLSL.lit f 0) (GLSL.lit f 1).

(** A point in homogeneous coordinates, and the map a column-major matrix
    of rationals denotes: row [i] of the image is [sum_k m[4k+i] * p[k]]. *)
Record point : Type := Point { px : Q; py : Q; pz : Q; pw : Q }.

Definition transform (m : list Q) (p : point) : point :=
  let row i :=
    nth i m 0 * px p + nth (4 + i) m 0 * py p
    + nth (8 + i) m 0 * pz p + nth (12 + i) m 0 * pw p in
  Point (row 0%nat) (row 1%nat) (row 2%nat) (row 3%nat).

Definition Scale (sx sy sz : Q) (p : point) : point :=
  Point (sx * px p) (sy * py p) (sz * pz p) (pw p).

Definition Translate (tx ty tz : Q) (p : point) : point :=
  Point (px p + tx * pw p) (py p + ty * pw p) (pz p + tz * pw p) (pw p).

Definition point_eq (p q : point) : Prop :=
  px p == px q /\ py p == py q /\ pz p == pz q /\ pw p == pw q.

(** The aspect ratio of the placement, as the specification words it: that
    of the video, and 16:9 while the video reports no dimensions. *)
Definition aspect_ratio (v : option HTMLVideo) : Q :=
  match v with
  | Some vid =>
      if (N.eqb (videoWidth vid) 0 || N.eqb (videoHeight vid) 0)%bool then 16 / 9
      else inject_Z (Z.of_N (videoWidth vid)) / inject_Z (Z.of_N (videoHeight vid))
  | None => 16 / 9
  end.

(** A page to evaluate the code on. *)
Definition sample_page : World :=
  boot true (mkCanvas 300 150 640 360) (mkCanvas 300 150 300 150).

(** The key parameters the compositor holds are non-negative numbers. *)
Definition key_params_ok (w : World) : Prop :=
  JS.le (JS.Num 0) (currentTolerance (chroma w)) = true /\
  JS.le (JS.Num 0) (currentSmoothing (chroma w)) = true.

(** The three presets of [KEY_COLORS]. *)
Definition presets : list jsobj :=
  [ Arr [JS.Num 0.0; JS.Num 1.0; JS.Num 0.0];
    Arr [JS.Num 0.0; JS.Num 0.0; JS.Num 1.0];
    Arr [JS.Num 0.0; JS.Num 0.0; JS.Num 0.0] ].

(** The placement parameters lie in their ranges, the lower bound on the
    distance included. *)
Definition placement_ok (s : UIState) : Prop :=
  JS.le (JS.Num 0.3) (screenDistance s) = true /\
  JS.le (screenDistance s) (JS.Num 10) = true /\
  JS.le (JS.Num 0.2) (screenScale s) = true /\
  JS.le (screenScale s) (JS.Num 5) = true.

(** The range as the specification words it, with the distance strictly
    above 0.3. *)
Definition placement_strict (s : UIState) : Prop :=
  JS.gt (screenDistance s) (JS.Num 0.3) = true /\
  JS.le (screenDistance s) (JS.Num 10) = true /\
  JS.le (JS.Num 0.2) (screenScale s) = true /\
  JS.le (screenScale s) (JS.Num 5) = true.

(** A slider input whose value parses into the range of its parameter;
    every other input qualifies. *)
Definition slider_in_range (i : UIController.Input) : Prop :=
  match i with
  | UIController.distance_slider v =>
      JS.le (JS.Num 0.3) (JS.parseFloat (JS.VStr v)) = true /\
      JS.le (JS.parseFloat (JS.VStr v)) (JS.Num 10) = true
  | UIController.scale_slider v =>
      JS.le (JS.Num 0.2) (JS.parseFloat (JS.VStr v)) = true /\
      JS.le (JS.parseFloat (JS.VStr v)) (JS.Num 5) = true
  | _ => True
  end.

(** A run of user inputs. *)
Definition run_inputs (inputs : list UIController.Input) (w : World) : World :=
  fold_left (fun w i => exec (UIController.handle i) w) inputs w.

(** The compositor has been initialised on a context: [gl], [program] and
    the uniform locations belong together. *)
Definition compositor_on (c : Canvas) (p : Handle) (w : World) : Prop :=
  gl (chroma w) = Some c /\ program (chroma w) = Some p /\
  uniformsOf (chroma w) = Some p /\ h_ctx p = c.


(** Calls of the parameter provider on the compositor. *)
Inductive SetterCall : Type :=
| call_setKeyColor (name : string)
| call_setTolerance (val : JS.value)
| call_setSmoothing (val : JS.value).

Definition call (s : SetterCall) : M unit :=
  match s with
  | call_setKeyColor name => ChromaKey.setKeyColor name
  | call_setTolerance val => ChromaKey.setTolerance val
  | call_setSmoothing val => ChromaKey.setSmoothing val
  end.

Definition run_calls (calls : list SetterCall) (w : World) : World :=
  fold_left (fun w s => exec (call s) w) calls w.

(** The values a run of setter calls asks for, read off the calls alone:
    the last one asked for, else the one in force before. *)
Fixpoint requested_keyColor (calls : list SetterCall) (current : jsobj) : jsobj :=
  match calls with
  | [] => current
  | call_setKeyColor name :: rest =>
      requested_keyColor rest
        (match ChromaKey.KEY_COLORS_get name with Some v => v | None => current end)
  | _ :: rest => requested_keyColor rest current
  end.

Fixpoint requested_tolerance (calls : list SetterCall) (current : JS.number) : JS.number :=
  match calls with
  | [] => current
  | call_setTolerance val :: rest => requested_tolerance rest (JS.parseFloat val)
  | _ :: rest => requested_tolerance rest current
  end.

Fixpoint requested_smoothing (calls : list SetterCall) (current : JS.number) : JS.number :=
  match calls with
  | [] => current
  | call_setSmoothing val :: rest => requested_smoothing rest (JS.parseFloat val)
  | _ :: rest => requested_smoothing rest current
  end.

(** The part of the world a draw does not touch. *)
Definition same_modules (w w' : World) : Prop :=
  chroma w' = chroma w /\ ui w' = ui w /\ app w' = app w /\ player w' = player w.

Definition same_schedulers (w w' : World) : Prop :=
  raf_pending (host w') = raf_pending (host w) /\
  raf_next (host w') = raf_next (host w) /\
  navigator_xr (host w') = navigator_xr (host w) /\
  xr_active (host w') = xr_active (host w) /\
  xr_next_session (host w') = xr_next_session (host w) /\
  xr_end_listener (host w') = xr_end_listener (host w) /\
  xr_frame_requests (host w') = xr_frame_requests (host w).

(** The sample page once loaded, with WebGL available. *)
Definition loaded_page : World := exec (App.init ChromaKey.ContextOk) sample_page.

(** A statement that only asks things of the browser: whatever its result,
    all it changes is the trace. *)
Definition logs_only {A} (c : M A) : Prop :=
  forall w, exists new, exec c w = with_host (log_calls new) w.

(** The driver is in an immersive session: the session it holds is the one
    the device runs. *)
Definition immersive (s : nat) (w : World) : Prop :=
  xrSession (app w) = Some s /\ xr_active (host w) = Some s.

(** The ways in which entering the immersive mode is refused, with the
    message each one puts on the status bar: no WebXR at all, the capability
    query answering no or failing, and the session request being rejected
    (by the device, or because a session is running already). *)
Definition entry_refused (a : XRAnswers) (w : World) : option string :=
  if negb (navigator_xr (host w)) then
    Some "WebXR not available. Use Meta Quest Browser."
  else
    match isSessionSupported a with
    | Throw e => Some ("Failed to start XR: " ++ e)%string
    | Ok false => Some "Immersive AR not supported on this device."
    | Ok true =>
        match xr_active (host w), requestSession a with
        | Some _, _ => Some "Failed to start XR: InvalidStateError"
        | None, Throw e => Some ("Failed to start XR: " ++ e)%string
        | None, Ok _ => None
        end
    end.

(** Answers of a device that supports and grants everything. *)
Definition granting : XRAnswers :=
  mkAnswers (Ok true) (Ok tt) ChromaKey.ContextOk (Ok tt) (Ok tt).

(** The sample page after a successful Enter MR. *)
Definition entered_page : World := step (ev_enter_mr granting) loaded_page.

(** What ties the two schedulers together.  At most one preview callback
    is pending, and it is the one [previewAnimId] names; animation-frame ids
    are positive; and while [onXREnd] listens on a running session no
    preview callback is pending at all. *)
Definition scheduler_inv (w : World) : Prop :=
  (raf_pending (host w) = [] \/
   exists id, raf_pending (host w) = [id] /\ previewAnimId (app w) = Some id /\ id <> 0%nat) /\
  (1 <= raf_next (host w))%nat /\
  (xr_end_listener (host w) = true ->
   xr_active (host w) <> None /\ raf_pending (host w) = []).

(** What a statement of the compositor or of the controller leaves alone:
    the driver's variables and both schedulers. *)
Definition sched_same (w w' : World) : Prop :=
  app w' = app w /\ same_schedulers w w'.

Definition keeps_sched {A} (c : M A) : Prop :=
  forall w, sched_same w (exec c w).

(** What the session side of the driver leaves alone: the preview
    scheduler, the variable naming its pending callback, and which session
    runs. *)
Definition preview_same (w w' : World) : Prop :=
  raf_pending (host w') = raf_pending (host w) /\
  raf_next (host w') = raf_next (host w) /\
  previewAnimId (app w') = previewAnimId (app w) /\
  xr_active (host w') = xr_active (host w).

Definition keeps_preview {A} (c : M A) : Prop :=
  forall w, preview_same w (exec c w).





(** The browser's part of ending a session: no session runs, its pending
    frame callbacks are dropped, its listeners are gone. *)
Definition session_stopped (w : World) : World :=
  with_host (fun h => set_xr None (xr_next_session h) false 0 h) w.

(** *** The vertex arrays of a context

    What [bindBuffer], [bufferData], [enableVertexAttribArray] and
    [vertexAttribPointer] leave for [drawArrays] to read.  The buffer data
    are floats; a pointer of type [FLOAT] records the buffer bound when it
    was set, with its size in components and its stride and offset in
    bytes.  A buffer of another context is an INVALID_OPERATION, as is a
    pointer with a non-zero offset while no buffer is bound. *)
Record VertexArrays : Type := mkVertexArrays {
  va_bound : option Handle;
  va_data : Handle -> option (list Q);
  va_enabled : nat -> bool;
  va_pointer : nat -> option (option Handle * (nat * nat * nat))
}.

Definition va_fresh : VertexArrays :=
  mkVertexArrays None (fun _ => None) (fun _ => false) (fun _ => None).

Definition va_exec (c : Canvas) (s : VertexArrays) (cmd : GLCmd) : VertexArrays :=
  match cmd with
  | gl_bindBuffer None =>
      mkVertexArrays None (va_data s) (va_enabled s) (va_pointer s)
  | gl_bindBuffer (Some b) =>
      if Canvas_eqb (h_ctx b) c
      then mkVertexArrays (Some b) (va_data s) (va_enabled s) (va_pointer s)
      else s
  | gl_bufferData d =>
      match va_bound s with
      | Some b =>
          mkVertexArrays (va_bound s)
                         (fun h => if Handle_eqb h b then Some d else va_data s h)
                         (va_enabled s) (va_pointer s)
      | None => s
      end
  | gl_enableVertexAttribArray i =>
      mkVertexArrays (va_bound s) (va_data s)
                     (fun j => if Nat.eqb j i then true else va_enabled s j)
                     (va_pointer s)
  | gl_vertexAttribPointer i size stride offset =>
      match va_bound s, offset with
      | None, S _ => s
      | b, _ =>
          mkVertexArrays (va_bound s) (va_data s) (va_enabled s)
                         (fun j => if Nat.eqb j i then Some (b, (size, stride, offset))
                                   else va_pointer s j)
      end
  | _ => s
  end.

(** The components attribute [index] has at vertex [vertex]: [size] floats
    starting [offset + vertex * stride] bytes into the buffer, four bytes
    to a float; nothing when the read leaves the buffer. *)
Definition va_fetch (s : VertexArrays) (index vertex : nat) : option (list Q) :=
  if va_enabled s index then
    match va_pointer s index with
    | Some (Some b, (size, stride, offset)) =>
        match va_data s b with
        | Some d =>
            let l := take size (drop ((offset + vertex * stride) / 4) d) in
            if Nat.eqb (length l) size then Some l else None
        | None => None
        end
    | _ => None
    end
  else None.

Definition vertex_arrays (c : Canvas) (w : World) : VertexArrays :=
  fold_left (va_exec c) (cmds_of c (trace (host w))) va_fresh.

(** The [k]-th component of an attribute value, zero if absent. *)
Definition component (v : option (list Q)) (k : nat) : Q :=
  match v with
  | Some l => nth k l 0
  | None => 0
  end.

(** The value of attribute [index] at the point of the triangle
    [first, first + 1, first + 2] with barycentric weights [a], [b], [c]. *)
Definition interpolate (s : VertexArrays) (index first : nat) (a b c : Q) (k : nat) : Q :=
  a * component (va_fetch s index first) k
  + b * component (va_fetch s index (first + 1)) k
  + c * component (va_fetch s index (first + 2)) k.

(** A statement keeps an invariant of the page. *)
Definition preserves (I : World -> Prop) {A} (c : M A) : Prop :=
  forall w, I w -> I (exec c w).

(** The controller's copies of the tolerance and the smoothing are the
    values the compositor holds. *)
Definition key_params_synced (w : World) : Prop :=
  tolerance (ui w) = currentTolerance (chroma w) /\
  smoothing (ui w) = currentSmoothing (chroma w).

(** The colour after [c] in the cycle of the overlay's colour button. *)
Definition next_color (c : string) : string :=
  if String.eqb c "green" then "blue"
  else if String.eqb c "blue" then "black"
  else "green".
(** *** The texture a draw samples

    The shader samples texture unit 0, the only unit the code activates.
    [texImage2D] stores a video frame in the texture bound there, and a
    draw samples the image of the texture bound at that moment, if it has
    one.  A texture of another context is an INVALID_OPERATION. *)
Record Textures : Type := mkTextures {
  tx_bound : option Handle;
  tx_image : Handle -> option nat;
  tx_sampled : list (option nat)
}.

Definition tx_fresh : Textures := mkTextures None (fun _ => None) [].

Definition tx_exec (c : Canvas) (s : Textures) (cmd : GLCmd) : Textures :=
  match cmd with
  | gl_bindTexture None => mkTextures None (tx_image s) (tx_sampled s)
  | gl_bindTexture (Some t) =>
      if Canvas_eqb (h_ctx t) c
      then mkTextures (Some t) (tx_image s) (tx_sampled s)
      else s
  | gl_texImage2D frame =>
      match tx_bound s with
      | Some t =>
          mkTextures (tx_bound s)
                     (fun h => if Handle_eqb h t then Some frame else tx_image s h)
                     (tx_sampled s)
      | None => s
      end
  | gl_drawArrays _ _ =>
      mkTextures (tx_bound s) (tx_image s)
                 (tx_sampled s ++ [match tx_bound s with
                                   | Some t => tx_image s t
                                   | None => None
                                   end])
  | _ => s
  end.

Definition textures (c : Canvas) (w : World) : Textures :=
  fold_left (tx_exec c) (cmds_of c (trace (host w))) tx_fresh.

(** The video frame each draw on canvas [c] sampled, in order; [None] for
    a draw that sampled a texture without an image. *)
Definition frames_drawn (c : Canvas) (w : World) : list (option nat) :=
  tx_sampled (textures c w).

(** The compositor's texture belongs to the context it draws on. *)
Definition texture_on (c : Canvas) (t : Handle) (w : World) : Prop :=
  videoTexture (chroma w) = Some t /\ h_ctx t = c.

(** The upload of an immersive frame is refused: a video is playing and it
    is not origin-clean. *)
Definition upload_refused (v : option HTMLVideo) : bool :=
  match v with
  | Some vid => negb (paused vid) && negb (origin_clean vid)
  | None => false
  end.
(** What the draw of one eye must look like: the layer's framebuffer and
    the eye's viewport, the eye's projection and view matrices, the model
    matrix of the placement [s] for the video [v], and the key parameters
    of the compositor state [k]. *)
Definition view_drawn (layer : nat) (p : Handle) (s : UIState) (v : option HTMLVideo)
           (k : ChromaKeyState) (view : XRView) (d : Draw) : Prop :=
  d_framebuffer d = Some layer /\
  d_viewport d = Some (layer_viewport view) /\
  d_program d = Some p /\
  d_uniform d n_uProjection = Some (UMat (projectionMatrix view)) /\
  d_uniform d n_uView = Some (UMat (transform_inverse_matrix view)) /\
  d_uniform d n_uModel
  = Some (UMat (App.modelMatrix_of (screenDistance s) (screenScale s)
                                   (screenOffsetX s) (screenOffsetY s) v)) /\
  d_uniform d n_uKeyColor = Some (UObj (currentKeyColor k)) /\
  d_uniform d n_uTolerance = Some (UFloat (currentTolerance k)) /\
  d_uniform d n_uSmoothing = Some (UFloat (currentSmoothing k)).
(** A video that plays, and the sample page in a session with it. *)
Definition sample_video : HTMLVideo := mkVideo false 1920 1080 7 true true.

Definition playing_session : World :=
  step (ev_video (Some sample_video) true) entered_page.

(** The same with a playing video that is not origin-clean. *)
Definition tainted_video : HTMLVideo := mkVideo false 1920 1080 7 false true.

Definition tainted_session : World :=
  step (ev_video (Some tainted_video) true) entered_page.

(** A paused video that the browser does not let play (autoplay blocked),
    and the loaded sample page with it. *)
Definition blocked_video : HTMLVideo := mkVideo true 1920 1080 7 true false.

Definition muted_session : World :=
  step (ev_video (Some blocked_video) true) loaded_page.



Definition left_eye : XRView :=
  mkView ChromaKey.IDENTITY ChromaKey.IDENTITY (mkViewport 0 0 960 1080).
Definition right_eye : XRView :=
  mkView ChromaKey.IDENTITY ChromaKey.IDENTITY (mkViewport 960 0 960 1080).

(** The message [init] throws with for each way the browser can refuse. *)
Definition init_error (answer : ChromaKey.ContextAnswer) : option string :=
  match answer with
  | ChromaKey.NoWebGL => Some "WebGL not supported"
  | ChromaKey.ShaderCompileError log => Some ("Shader compile error: " ++ log)
  | ChromaKey.ProgramLinkError log => Some ("Program link error: " ++ log)
  | ChromaKey.ContextOk => None
  end%string.
(** The ways in which entering can still fail once the session has been
    granted, with the message of the exception: [init] on the XR canvas,
    the construction of the layer, and the request for the reference
    space. *)
Definition late_failure (a : XRAnswers) : option string :=
  match init_error (xr_context a) with
  | Some message => Some message
  | None =>
      match new_XRWebGLLayer a with
      | Throw message => Some message
      | Ok _ =>
          match requestReferenceSpace a with
          | Throw message => Some message
          | Ok _ => None
          end
      end
  end.

(** How often a call of the immersive interface occurs in a trace. *)
#[global] Instance XRCall_eq_dec : EqDecision XRCall.
Proof. solve_decision. Defined.

Definition made (call : XRCall) (tr : list HostCall) : nat :=
  length (List.filter (fun h => match h with
                                | XR c => bool_decide (c = call)
                                | _ => false
                                end) tr).

(** The preview has something to draw: a video that is ready and not
    paused. *)
Definition playing (w : World) : bool :=
  match video (player w) with
  | Some vid => isReady (player w) && negb (paused vid)
  | None => false
  end.

(* ================================================================= *)
(** ** [ui-controller.js]: [onTap] *)

Module Tap.

(** The closure [onTap(el, handler)] creates: its [handled] flag, the
    [setTimeout] callbacks of it that are pending, and two counters kept
    for the properties: how often [handler] has run and how many timers
    have expired. *)
Record State : Type := mkState {
  handled : bool;
  timers : nat;
  calls : nat;
  expired : nat
}.

Definition initial : State := mkState false 0 0 0.

(** [pointerup], [touchend] and [click] all run the same [wrap]. *)
Inductive Kind : Type := pointerup | touchend | click.

(** What can happen to a target: one of its three events is dispatched,
    [handler_result] being what [handler(e)] does if [wrap] gets to call
    it, or one of the closure's timers expires after its 300 ms. *)
Inductive Event : Type :=
| dispatched (kind : Kind) (handler_result : outcome unit)
| timer_expires.

(** [wrap(e)].  An exception thrown by [handler] leaves [wrap] before
    [setTimeout] is reached. *)
Definition wrap (handler_result : outcome unit) (s : State) : State :=
  if handled s then s
  else
    let s1 := mkState true (timers s) (S (calls s)) (expired s) in
    match handler_result with
    | Ok _ => mkState (handled s1) (S (timers s1)) (calls s1) (expired s1)
    | Throw _ => s1
    end.

(** The callback [function() { handled = false; }]. *)
Definition timeout_callback (s : State) : State :=
  mkState false (timers s) (calls s) (expired s).

Definition step (s : State) (e : Event) : State :=
  match e with
  | dispatched _ r => wrap r s
  | timer_expires =>
      match timers s with
      | S n => timeout_callback (mkState (handled s) n (calls s) (S (expired s)))
      | O => s
      end
  end.

Definition run (events : list Event) (s : State) : State :=
  fold_left step events s.

(** Events of the DOM only, no timer among them. *)
Definition no_timer (e : Event) : bool :=
  match e with
  | dispatched _ _ => true
  | timer_expires => false
  end.

End Tap.

(* ================================================================= *)
(** ** [video-player.js]: the playback controls *)

Module Playback.

(** [pause()]: [video.pause()] sets [paused] at once. *)
Definition pause : M unit :=
  let* w := get in
  match video (player w) with
  | Some _ => modify (with_player (VideoPlayer.set_paused true))
  | None => ret tt
  end.

(** [togglePlayPause()]. *)
Definition togglePlayPause : M bool :=
  let* w := get in
  match video (player w) with
  | None => ret false
  | Some v =>
      if paused v then VideoPlayer.play >> ret true
      else pause >> ret false
  end.

(** [isPlaying()]: [video && !video.paused], so [null] without a video. *)
Definition isPlaying : M (option bool) :=
  let* w := get in
  match video (player w) with
  | None => ret None
  | Some v => ret (Some (negb (paused v)))
  end.

End Playback.

(* ================================================================= *)
(** ** [video-player.js]: loading a video *)

Module Loader.

(** What the element's [src] can be set to. *)
Inductive Src : Type :=
| Url (url : string)
| BlobUrl (id : nat).

(** The functions of one [loadDirect] call that are, or are asked to be,
    listeners of the element: its named closures [onCanPlay] and
    [onError], and the two anonymous functions that are registered.  The
    call is named by its number. *)
Inductive Fn : Type :=
| onCanPlay (call : nat)
| onError (call : nat)
| anonymous_canplay (call : nat)
| anonymous_error (call : nat).

Definition Fn_eqb (f g : Fn) : bool :=
  match f, g with
  | onCanPlay a, onCanPlay b | onError a, onError b
  | anonymous_canplay a, anonymous_canplay b
  | anonymous_error a, anonymous_error b => Nat.eqb a b
  | _, _ => false
  end.

(** The module's variables, the element, and the browser's side: the
    object URLs that exist, the requests fetched and the status messages
    handed to the caller's callback. *)
Record State : Type := mkState {
  video : bool;
  isReady : bool;
  currentBlobUrl : option nat;
  crossOrigin : option string;
  src : option Src;
  canplay_listeners : list Fn;
  error_listeners : list Fn;
  loadDirect_calls : nat;
  next_blob : nat;
  live_blobs : list nat;
  fetched : list string;
  statuses : list string
}.

Definition initial : State :=
  mkState false false None None None [] [] 0 0 [] [] [].

Definition CORS_PROXIES : list string :=
  [ "https://corsproxy.io/?url="; "https://api.allorigins.win/raw?url=" ]%string.

(** How a load of the element ends: [canplay], [error] with the code of
    [video.error] if there is one, or neither within ten seconds. *)
Inductive LoadEvent : Type :=
| canplay
| error (code : option nat)
| timeout.

(** How [fetch] ends: rejected, or a response with [ok], [status] and a
    body whose [blob()] rejects or has a size. *)
Inductive Body : Type :=
| blob_rejects (message : string)
| blob_of_size (size : nat).

Inductive FetchAnswer : Type :=
| fetch_rejects (message : string)
| response (ok : bool) (status : nat) (body : Body).

(** The answers to one [load]: the direct load with CORS, each proxy's
    fetch and load, and the last load without CORS. *)
Record LoadAnswers : Type := mkLoadAnswers {
  direct : LoadEvent;
  proxy : nat -> FetchAnswer * LoadEvent;
  without_cors : LoadEvent
}.

Definition set_isReady (b : bool) (s : State) : State :=
  mkState (video s) b (currentBlobUrl s) (crossOrigin s) (src s)
          (canplay_listeners s) (error_listeners s) (loadDirect_calls s)
          (next_blob s) (live_blobs s) (fetched s) (statuses s).

Definition set_listeners (cp er : list Fn) (s : State) : State :=
  mkState (video s) (isReady s) (currentBlobUrl s) (crossOrigin s) (src s)
          cp er (loadDirect_calls s)
          (next_blob s) (live_blobs s) (fetched s) (statuses s).

(** [create()]. *)
Definition create (s : State) : State :=
  if video s then s
  else mkState true (isReady s) (currentBlobUrl s) (crossOrigin s) (src s)
               (canplay_listeners s) (error_listeners s) (loadDirect_calls s)
               (next_blob s) (live_blobs s) (fetched s) (statuses s).

(** [cleanup()]. *)
Definition cleanup (s : State) : State :=
  match currentBlobUrl s with
  | Some id =>
      mkState (video s) (isReady s) None (crossOrigin s) (src s)
              (canplay_listeners s) (error_listeners s) (loadDirect_calls s)
              (next_blob s)
              (List.filter (fun i => negb (Nat.eqb i id)) (live_blobs s))
              (fetched s) (statuses s)
  | None => s
  end.

(** [if (onStatus) onStatus(msg)]. *)
Definition onStatus (given : bool) (msg : string) (s : State) : State :=
  if given then
    mkState (video s) (isReady s) (currentBlobUrl s) (crossOrigin s) (src s)
            (canplay_listeners s) (error_listeners s) (loadDirect_calls s)
            (next_blob s) (live_blobs s) (fetched s) (statuses s ++ [msg])
  else s.

(** [cleanup_listeners()] of call [k]: [removeEventListener] with the
    named closures. *)
Definition cleanup_listeners (k : nat) (s : State) : State :=
  set_listeners
    (List.filter (fun f => negb (Fn_eqb f (onCanPlay k))) (canplay_listeners s))
    (List.filter (fun f => negb (Fn_eqb f (onError k))) (error_listeners s))
    s.

(** A registered listener runs.  The anonymous functions clear their
    call's timer and run its [onCanPlay] or [onError]; settling a promise
    that is settled already does nothing. *)
Definition run_listener (s : State) (f : Fn) : State :=
  match f with
  | anonymous_canplay k | onCanPlay k => set_isReady true (cleanup_listeners k s)
  | anonymous_error k | onError k => set_isReady false (cleanup_listeners k s)
  end.

(** The message of [onError] for [video.error]. *)
Definition error_message (code : option nat) : string :=
  match code with
  | Some 1%nat => "Video load aborted."
  | Some 2%nat => "Network error."
  | Some 3%nat => "Format not supported."
  | Some 4%nat => "URL not supported or CORS blocked."
  | _ => "Failed to load video."
  end%string.

(** [loadDirect(url, withCors)] together with the event that settles its
    promise.  The event is dispatched to every listener registered on the
    element. *)
Definition loadDirect (url : Src) (withCors : bool) (ev : LoadEvent) (s : State)
  : outcome unit * State :=
  let k := loadDirect_calls s in
  let s1 :=
    mkState (video s) (isReady s) (currentBlobUrl s)
            (if withCors then Some "anonymous"%string else None)
            (Some url)
            (canplay_listeners s ++ [anonymous_canplay k])
            (error_listeners s ++ [anonymous_error k])
            (S k)
            (next_blob s) (live_blobs s) (fetched s) (statuses s) in
  match ev with
  | canplay => (Ok tt, fold_left run_listener (canplay_listeners s1) s1)
  | error code =>
      (Throw (error_message code), fold_left run_listener (error_listeners s1) s1)
  | timeout => (Throw "Video load timed out."%string, cleanup_listeners k s1)
  end.

(** [fetchAsBlob(url)] with the answer of the network. *)
Definition fetchAsBlob (url : string) (a : FetchAnswer) (s : State)
  : outcome nat * State :=
  let s1 :=
    mkState (video s) (isReady s) (currentBlobUrl s) (crossOrigin s) (src s)
            (canplay_listeners s) (error_listeners s) (loadDirect_calls s)
            (next_blob s) (live_blobs s) (fetched s ++ [url]) (statuses s) in
  match a with
  | fetch_rejects message => (Throw message, s1)
  | response ok status body =>
      if negb ok then (Throw ("Proxy returned " ++ pretty status)%string, s1)
      else
        match body with
        | blob_rejects message => (Throw message, s1)
        | blob_of_size size =>
            if (size <? 1000)%nat
            then (Throw "Response too small, likely an error page"%string, s1)
            else
              let id := next_blob s1 in
              (Ok id,
               mkState (video s1) (isReady s1) (Some id) (crossOrigin s1) (src s1)
                       (canplay_listeners s1) (error_listeners s1)
                       (loadDirect_calls s1)
                       (S id) (live_blobs s1 ++ [id]) (fetched s1) (statuses s1))
        end
  end.

Section Load.

(** The built-in [encodeURIComponent] is left abstract. *)
Variable encodeURIComponent : string -> string.

(** One iteration of the [for] loop of [load]; [true] when it returned
    the video. *)
Definition iteration (proxy : string) (i : nat) (url : string) (report : bool)
           (answer : FetchAnswer * LoadEvent) (s : State) : bool * State :=
  let s1 := onStatus report
              ("Bypassing CORS (proxy " ++ pretty (i + 1)%nat ++ ")...")%string s in
  match fetchAsBlob (proxy ++ encodeURIComponent url)%string (fst answer) s1 with
  | (Ok blobUrl, s2) =>
      match loadDirect (BlobUrl blobUrl) true (snd answer) s2 with
      | (Ok _, s3) => (true, s3)
      | (Throw _, s3) => (false, s3)
      end
  | (Throw _, s2) => (false, s2)
  end.

(** The [for] loop over the proxies from index [i] on. *)
Fixpoint try_proxies (proxies : list string) (i : nat) (url : string) (report : bool)
         (answers : nat -> FetchAnswer * LoadEvent) (s : State) : bool * State :=
  match proxies with
  | [] => (false, s)
  | proxy :: rest =>
      match iteration proxy i url report (answers i) s with
      | (true, s1) => (true, s1)
      | (false, s1) => try_proxies rest (S i) url report answers s1
      end
  end.

(** [load(url, onStatus)]; [report] says whether a callback was given. *)
Definition load (url : string) (report : bool) (a : LoadAnswers) (s : State)
  : outcome unit * State :=
  let s1 := set_isReady false (cleanup (if video s then s else create s)) in
  let s2 := onStatus report "Loading video..." s1 in
  match loadDirect (Url url) true (direct a) s2 with
  | (Ok _, s3) => (Ok tt, s3)
  | (Throw _, s3) =>
      match try_proxies CORS_PROXIES 0 url report (proxy a) s3 with
      | (true, s4) => (Ok tt, s4)
      | (false, s4) =>
          let s5 := onStatus report "Loading without CORS (preview only)..." s4 in
          match loadDirect (Url url) false (without_cors a) s5 with
          | (Ok _, s6) => (Ok tt, s6)
          | (Throw _, s6) =>
              (Throw "Could not load video. Check the URL and try a direct .mp4 link."%string,
               s6)
          end
      end
  end.

End Load.

End Loader.

(** The listeners registered on the element are anonymous functions of
    [loadDirect] calls. *)
Definition is_anonymous_canplay (f : Loader.Fn) : bool :=
  match f with Loader.anonymous_canplay _ => true | _ => false end.
Definition is_anonymous_error (f : Loader.Fn) : bool :=
  match f with Loader.anonymous_error _ => true | _ => false end.

Definition anonymous_only (s : Loader.State) : Prop :=
  forallb is_anonymous_canplay (Loader.canplay_listeners s) = true /\
  forallb is_anonymous_error (Loader.error_listeners s) = true.

(** A proxy attempt that succeeds: the fetch answers [ok] with a body of
    at least 1000 bytes, and the element can play the object URL. *)
Definition proxy_succeeds (a : Loader.FetchAnswer * Loader.LoadEvent) : bool :=
  match a with
  | (Loader.response true _ (Loader.blob_of_size size), Loader.canplay) =>
      negb (size <? 1000)%nat
  | _ => false
  end.

(** A fetch that yields an object URL. *)
Definition fetch_yields_blob (a : Loader.FetchAnswer) : bool :=
  match a with
  | Loader.response true _ (Loader.blob_of_size size) => negb (size <? 1000)%nat
  | _ => false
  end.

(** Successive loads, each with its URL, whether a status callback is
    given, and its answers. *)
Definition run_loads (enc : string -> string)
           (loads : list (string * bool * Loader.LoadAnswers)) (s : Loader.State)
  : Loader.State :=
  fold_left (fun s l => snd (Loader.load enc (fst (fst l)) (snd (fst l)) (snd l) s)) loads s.

Definition is_canplay (ev : Loader.LoadEvent) : bool :=
  match ev with Loader.canplay => true | _ => false end.

(** The requests [load] makes of the proxies for [url], in order. *)
Definition proxy_request (enc : string -> string) (url : string) (i : nat) : string :=
  (default "" (Loader.CORS_PROXIES !! i) ++ enc url)%string.

(** How many times a [load] with these answers calls [loadDirect]: once
    for the direct attempt, once for each proxy whose fetch yields an
    object URL, up to the first that loads, and once for the last
    resort. *)
Definition loadDirect_count (a : Loader.LoadAnswers) : nat :=
  let b0 := if fetch_yields_blob (fst (Loader.proxy a 0)) then 1%nat else 0%nat in
  let b1 := if fetch_yields_blob (fst (Loader.proxy a 1)) then 1%nat else 0%nat in
  if is_canplay (Loader.direct a) then 1%nat
  else if proxy_succeeds (Loader.proxy a 0) then 2%nat
  else if proxy_succeeds (Loader.proxy a 1) then (2 + b0)%nat
  else (2 + b0 + b1)%nat.

(* ================================================================= *)
(** ** [ui-controller.js]: the load form *)

Module LoadForm.

(** The elements [handleLoadVideo] reads and writes, beside the player's
    loading state and the controller's status bar. *)
Record State : Type := mkState {
  loader : Loader.State;
  ui : UIState;
  videoUrl_value : string;
  loadBtn_disabled : bool;
  enterMrBtn_disabled : bool;
  previewMsg_display : string;
  videoControls_display : string;
  playPauseBtn_textContent : string;
  video_play_calls : nat
}.




(** [setStatus(msg, type)] on the form's state. *)
Definition setStatus (msg type : string) (p : State) : State :=
  mkState (loader p)
          (UIController.set_statusBar msg
             ("status-bar" ++ (if String.eqb type "" then "" else " " ++ type))
             (ui p))
          (videoUrl_value p) (loadBtn_disabled p) (enterMrBtn_disabled p)
          (previewMsg_display p) (videoControls_display p)
          (playPauseBtn_textContent p) (video_play_calls p).



Section HandleLoadVideo.

(** [String.prototype.trim] and [encodeURIComponent] are left abstract. *)
Variable trim : string -> string.
Variable encodeURIComponent : string -> string.


End HandleLoadVideo.

End LoadForm.



(** The element gets a [canplay] or an [error] event outside any load:
    every listener on it runs. *)
Definition later_canplay (s : Loader.State) : Loader.State :=
  fold_left Loader.run_listener (Loader.canplay_listeners s) s.
Definition later_error (s : Loader.State) : Loader.State :=
  fold_left Loader.run_listener (Loader.error_listeners s) s.

(** An object URL that exists, is not the one tracked in
    [currentBlobUrl], and is older than every one to come. *)
Definition abandoned (id : nat) (s : Loader.State) : Prop :=
  In id (Loader.live_blobs s) /\ Loader.currentBlobUrl s <> Some id /\
  (id < Loader.next_blob s)%nat.

(** Answers under which the first proxy's object URL is made but does
    not load, and the second proxy's fetch makes another. *)
Definition first_blob_abandoned (a : Loader.LoadAnswers) : bool :=
  negb (is_canplay (Loader.direct a))
  && fetch_yields_blob (fst (Loader.proxy a 0))
  && negb (proxy_succeeds (Loader.proxy a 0))
  && fetch_yields_blob (fst (Loader.proxy a 1)).

Definition sample_answers : Loader.LoadAnswers :=
  Loader.mkLoadAnswers
    (Loader.error (Some 4%nat))
    (fun i => match i with
              | O => (Loader.response true 200 (Loader.blob_of_size 1500),
                      Loader.error (Some 3%nat))
              | _ => (Loader.response true 200 (Loader.blob_of_size 4096),
                      Loader.canplay)
              end)
    Loader.timeout.

(* ================================================================= *)
(** * Properties *)

(** ** Binary floating point: rounding *)

Section Rounding.

Import Float.

Lemma two_not_0 : ~ 2 == 0.
Proof. discriminate. Qed.

Lemma pow2_pos e : 0 < pow2 e.
Proof. apply Qpower_0_lt. reflexivity. Qed.

Lemma pow2_add a b : pow2 (a + b) == pow2 a * pow2 b.
Proof. apply Qpower_plus, two_not_0. Qed.

Lemma pow2_le a b : (a <= b)%Z -> pow2 a <= pow2 b.
Proof. intros H. apply Qpower_le_compat_l; [exact H|discriminate]. Qed.

Lemma pow2_lt a b : (a < b)%Z -> pow2 a < pow2 b.
Proof. intros H. apply Qpower_lt_compat_l; [exact H|reflexivity]. Qed.

Lemma pow2_lt_inv a b : pow2 a < pow2 b -> (a < b)%Z.
Proof. intros H. apply (Qpower_lt_compat_l_inv 2); [exact H|reflexivity]. Qed.

Lemma pow2_Z n : (0 <= n)%Z -> pow2 n == inject_Z (2 ^ n).
Proof. intros H. unfold pow2. rewrite (Zpower_Qpower 2 n H). reflexivity. Qed.

Lemma pow2_split a b : pow2 a == pow2 (a - b) * pow2 b.
Proof. rewrite <- pow2_add. replace (a - b + b)%Z with a by lia. reflexivity. Qed.

(** Division by a power of two is multiplication by the opposite power. *)
Lemma div_pow2 q e : q / pow2 e == q * pow2 (- e).
Proof.
  unfold Qdiv. apply Qmult_comp; [reflexivity|].
  unfold pow2. rewrite Qpower_opp. reflexivity.
Qed.

Lemma scale_le q1 q2 e : q1 <= q2 -> q1 / pow2 e <= q2 / pow2 e.
Proof.
  intros H. rewrite !div_pow2. apply Qmult_le_compat_r; [exact H|].
  apply Qlt_le_weak, pow2_pos.
Qed.

Lemma scale_grid n e j : (e <= j)%Z -> inject_Z n * pow2 j / pow2 e == inject_Z (n * 2 ^ (j - e)).
Proof.
  intros H. rewrite div_pow2, <- Qmult_assoc, <- pow2_add.
  replace (j + - e)%Z with (j - e)%Z by lia.
  rewrite pow2_Z by lia. rewrite inject_Z_mult. reflexivity.
Qed.

(** *** The logarithm *)

Lemma Qabs_frac q : Qabs q * inject_Z (Zpos (Qden q)) == inject_Z (Z.abs (Qnum q)).
Proof.
  destruct q as [n d]. unfold Qabs, Qeq, Qmult, inject_Z. simpl. lia.
Qed.

Lemma ilog2_spec q :
  ~ q == 0 -> pow2 (ilog2 q) <= Qabs q /\ Qabs q < pow2 (ilog2 q + 1).
Proof.
  intros Hq.
  set (n := Z.abs (Qnum q)). set (d := Zpos (Qden q)).
  assert (Hn : (0 < n)%Z).
  { subst n. destruct q as [[|p|p] dd]; simpl; try lia. exfalso. apply Hq. reflexivity. }
  assert (Hd : (0 < d)%Z) by (subst d; lia).
  destruct (Z.log2_spec n Hn) as [Hn1 Hn2]. destruct (Z.log2_spec d Hd) as [Hd1 Hd2].
  set (a := Z.log2 n) in *. set (b := Z.log2 d) in *.
  assert (Ha : (0 <= a)%Z) by apply Z.log2_nonneg.
  assert (Hb : (0 <= b)%Z) by apply Z.log2_nonneg.
  pose proof (Qabs_frac q) as E. fold n d in E.
  assert (Hpos : 0 < Qabs q).
  { destruct (Qlt_le_dec 0 (Qabs q)) as [H|H]; [exact H|].
    exfalso. assert (E0 : Qabs q == 0) by (pose proof (Qabs_nonneg q); lra).
    rewrite E0 in E. assert (inject_Z n == 0) by lra.
    unfold Qeq, inject_Z in H0. simpl in H0. lia. }
  assert (Un : inject_Z n < pow2 (a + 1)).
  { rewrite pow2_Z by lia. rewrite <- Zlt_Qlt. exact Hn2. }
  assert (Ln : pow2 a <= inject_Z n).
  { rewrite pow2_Z by lia. rewrite <- Zle_Qle. exact Hn1. }
  assert (Ud : inject_Z d < pow2 (b + 1)).
  { rewrite pow2_Z by lia. rewrite <- Zlt_Qlt. exact Hd2. }
  assert (Ld : pow2 b <= inject_Z d).
  { rewrite pow2_Z by lia. rewrite <- Zle_Qle. exact Hd1. }
  assert (Upper : Qabs q < pow2 (a - b + 1)).
  { apply (Qmult_lt_r _ _ (pow2 b)); [apply pow2_pos|].
    rewrite <- pow2_add. replace (a - b + 1 + b)%Z with (a + 1)%Z by lia.
    apply Qle_lt_trans with (Qabs q * inject_Z d); [|rewrite E; exact Un].
    apply Qmult_le_l; [exact Hpos | exact Ld]. }
  assert (Lower : pow2 (a - b - 1) < Qabs q).
  { apply (Qmult_lt_r _ _ (pow2 (b + 1))); [apply pow2_pos|].
    rewrite <- pow2_add. replace (a - b - 1 + (b + 1))%Z with a by lia.
    apply Qle_lt_trans with (inject_Z n); [exact Ln|].
    rewrite <- E. apply Qmult_lt_l; [exact Hpos | exact Ud]. }
  unfold ilog2. fold n d a b.
  destruct (Qle_bool (pow2 (a - b)) (Qabs q)) eqn:T.
  - apply Qle_bool_iff in T. split; [exact T | exact Upper].
  - assert (Hlt : Qabs q < pow2 (a - b)).
    { apply Qnot_le_lt. intros H. apply Qle_bool_iff in H. congruence. }
    split; [apply Qlt_le_weak; exact Lower|].
    replace (a - b - 1 + 1)%Z with (a - b)%Z by lia. exact Hlt.
Qed.

Lemma ilog2_unique q k : pow2 k <= Qabs q -> Qabs q < pow2 (k + 1) -> ilog2 q = k.
Proof.
  intros L U.
  assert (Hq : ~ q == 0).
  { intros E. rewrite E in L. pose proof (pow2_pos k). change (Qabs 0) with 0 in L. lra. }
  destruct (ilog2_spec q Hq) as [L' U'].
  assert (ilog2 q < k + 1)%Z by (apply pow2_lt_inv; lra).
  assert (k < ilog2 q + 1)%Z by (apply pow2_lt_inv; lra).
  lia.
Qed.

Lemma ilog2_comp q1 q2 : ~ q1 == 0 -> q1 == q2 -> ilog2 q1 = ilog2 q2.
Proof.
  intros Hq E. destruct (ilog2_spec q1 Hq) as [L U].
  symmetry. apply ilog2_unique; rewrite <- E; assumption.
Qed.

Lemma ilog2_mono q1 q2 : 0 < q1 -> q1 <= q2 -> (ilog2 q1 <= ilog2 q2)%Z.
Proof.
  intros H1 H12.
  destruct (ilog2_spec q1) as [L1 _]; [lra|].
  destruct (ilog2_spec q2) as [_ U2]; [lra|].
  rewrite Qabs_pos in L1 by lra. rewrite Qabs_pos in U2 by lra.
  assert (ilog2 q1 < ilog2 q2 + 1)%Z by (apply pow2_lt_inv; lra). lia.
Qed.

(** *** The nearest integer *)

Lemma rint_cases q : rint q = Qfloor q \/ rint q = (Qfloor q + 1)%Z.
Proof.
  unfold rint. destruct (_ ?= _); [destruct (Z.even _)|..]; auto.
Qed.

Lemma rint_Z n : rint (inject_Z n) = n.
Proof.
  unfold rint. rewrite Qfloor_Z.
  destruct (Qcompare_spec (inject_Z n - inject_Z n) (1 # 2)) as [H|H|H]; try lra.
  reflexivity.
Qed.

Lemma rint_mono q1 q2 : q1 <= q2 -> (rint q1 <= rint q2)%Z.
Proof.
  intros H. pose proof (Qfloor_resp_le q1 q2 H) as Hf.
  destruct (Z.eq_dec (Qfloor q1) (Qfloor q2)) as [E|N].
  - unfold rint. rewrite E.
    destruct (Qcompare_spec (q1 - inject_Z (Qfloor q2)) (1 # 2)) as [H1|H1|H1];
      destruct (Qcompare_spec (q2 - inject_Z (Qfloor q2)) (1 # 2)) as [H2|H2|H2];
      try lra; try destruct (Z.even _); lia.
  - destruct (rint_cases q1) as [-> | ->], (rint_cases q2) as [-> | ->]; lia.
Qed.

Lemma rint_comp q1 q2 : q1 == q2 -> rint q1 = rint q2.
Proof.
  intros E. apply Z.le_antisymm; apply rint_mono; rewrite E; apply Qle_refl.
Qed.

(** Rounding to the multiples of [2^e] keeps every such multiple on its
    side. *)
Lemma grid_le n e q :
  inject_Z n * pow2 e <= q -> inject_Z n * pow2 e <= inject_Z (rint (q / pow2 e)) * pow2 e.
Proof.
  intros H. apply Qmult_le_compat_r; [|apply Qlt_le_weak, pow2_pos].
  rewrite <- Zle_Qle. rewrite <- (rint_Z n) at 1. apply rint_mono.
  apply Qle_shift_div_l; [apply pow2_pos | exact H].
Qed.

Lemma grid_ge n e q :
  q <= inject_Z n * pow2 e -> inject_Z (rint (q / pow2 e)) * pow2 e <= inject_Z n * pow2 e.
Proof.
  intros H. apply Qmult_le_compat_r; [|apply Qlt_le_weak, pow2_pos].
  rewrite <- Zle_Qle. rewrite <- (rint_Z n) at 1. apply rint_mono.
  apply Qle_shift_div_r; [apply pow2_pos | exact H].
Qed.

Lemma pow2_on_grid j e : (e <= j)%Z -> pow2 j == inject_Z (2 ^ (j - e)) * pow2 e.
Proof. intros H. rewrite <- pow2_Z by lia. apply pow2_split. Qed.

End Rounding.

Section Nearest.

Import Float.

Variable f : format.
Hypothesis Hprec : (1 <= prec f)%Z.

Lemma Qabs_scale m e : Qabs (inject_Z m * pow2 e) == inject_Z (Z.abs m) * pow2 e.
Proof.
  rewrite Qabs_Qmult. rewrite (Qabs_pos (pow2 e)) by (apply Qlt_le_weak, pow2_pos).
  apply Qmult_comp; [|reflexivity].
  unfold Qabs, inject_Z. simpl. reflexivity.
Qed.

(** A number of the format has its last place at or above the one rounding
    chooses for it. *)
Lemma exponent_le m e q :
  ~ q == 0 -> q == inject_Z m * pow2 e -> (Z.abs m < 2 ^ prec f)%Z -> (emin f <= e)%Z ->
  (exponent f q <= e)%Z.
Proof.
  intros Hq E Hm He. unfold exponent.
  destruct (ilog2_spec q Hq) as [L _].
  assert (U : Qabs q < pow2 (prec f + e)).
  { rewrite E, Qabs_scale, pow2_add.
    apply Qmult_lt_r; [apply pow2_pos|].
    rewrite pow2_Z by lia. rewrite <- Zlt_Qlt. exact Hm. }
  assert (ilog2 q < prec f + e)%Z by (apply pow2_lt_inv; lra).
  lia.
Qed.

Lemma nearest_on_grid m e q :
  q == inject_Z m * pow2 e -> (exponent f q <= e)%Z -> nearest f q == q.
Proof.
  intros E He. unfold nearest. set (x := exponent f q) in *.
  assert (Eq : q / pow2 x == inject_Z (m * 2 ^ (e - x))).
  { rewrite E. apply scale_grid. exact He. }
  rewrite (rint_comp _ _ Eq), rint_Z, <- Eq.
  unfold Qdiv. rewrite <- Qmult_assoc, (Qmult_comm (/ _)), Qmult_inv_r, Qmult_1_r;
    [reflexivity|]. pose proof (pow2_pos x). lra.
Qed.

Lemma nearest_exact q : representable f q -> ~ q == 0 -> nearest f q == q.
Proof.
  intros (m & e & E & Hm & He & _) Hq.
  apply (nearest_on_grid m e q E). apply (exponent_le m e q Hq E Hm He).
Qed.

Lemma Qeq_bool_neq q : ~ q == 0 -> Qeq_bool q 0 = false.
Proof.
  intros H. destruct (Qeq_bool q 0) eqn:E; [|reflexivity].
  apply Qeq_bool_iff in E. contradiction.
Qed.

Lemma Qle_bool_lt x y : y < x -> Qle_bool x y = false.
Proof.
  intros H. destruct (Qle_bool x y) eqn:E; [|reflexivity].
  apply Qle_bool_iff in E. lra.
Qed.

Lemma Qle_bool_le x y : x <= y -> Qle_bool x y = true.
Proof. intros H. apply Qle_bool_iff. exact H. Qed.

Lemma round_zero q : q == 0 -> round f q = JS.Num 0.
Proof.
  intros E. unfold round.
  replace (Qeq_bool q 0) with true by (symmetry; apply Qeq_bool_iff; exact E).
  reflexivity.
Qed.

(** Rounding leaves the numbers of the format alone. *)
Lemma round_exact q : representable f q -> round f q = JS.Num (Qred q).
Proof.
  intros R. destruct (Qeq_dec q 0) as [E|N].
  - rewrite (round_zero q E). rewrite (Qred_complete q 0 E). reflexivity.
  - pose proof (nearest_exact q R N) as En.
    destruct R as (m & e & _ & _ & _ & Hmax).
    unfold round. rewrite (Qeq_bool_neq q N). cbv zeta.
    rewrite Qle_bool_lt by (rewrite En; exact Hmax).
    rewrite (Qred_complete _ _ En). reflexivity.
Qed.

(** Rounding sees the value, not the fraction that denotes it. *)
Lemma nearest_comp q1 q2 : ~ q1 == 0 -> q1 == q2 -> nearest f q1 == nearest f q2.
Proof.
  intros N E. unfold nearest, exponent. rewrite (ilog2_comp q1 q2 N E).
  set (x := Z.max _ _).
  assert (Ex : q1 / pow2 x == q2 / pow2 x) by (rewrite E; reflexivity).
  rewrite (rint_comp _ _ Ex). reflexivity.
Qed.

Lemma round_comp q1 q2 : q1 == q2 -> round f q1 = round f q2.
Proof.
  intros E. destruct (Qeq_dec q1 0) as [Hz|N].
  - rewrite (round_zero q1 Hz), (round_zero q2); [reflexivity|]. rewrite <- E. exact Hz.
  - assert (N2 : ~ q2 == 0) by (rewrite <- E; exact N).
    pose proof (nearest_comp q1 q2 N E) as En.
    unfold round. rewrite (Qeq_bool_neq q1 N), (Qeq_bool_neq q2 N2). cbv zeta.
    assert (E1 : Qle_bool (pow2 (emax f)) (Qabs (nearest f q1))
                 = Qle_bool (pow2 (emax f)) (Qabs (nearest f q2))).
    { destruct (Qle_bool _ (Qabs (nearest f q2))) eqn:T.
      - apply Qle_bool_iff. apply Qle_bool_iff in T. rewrite En. exact T.
      - apply Qle_bool_lt. rewrite En. apply Qnot_le_lt. intros H.
        apply Qle_bool_iff in H. congruence. }
    assert (E2 : Qle_bool 0 q1 = Qle_bool 0 q2).
    { destruct (Qle_bool 0 q2) eqn:T.
      - apply Qle_bool_iff. apply Qle_bool_iff in T. rewrite E. exact T.
      - apply Qle_bool_lt. rewrite E. apply Qnot_le_lt. intros H.
        apply Qle_bool_iff in H. congruence. }
    rewrite E1, E2, (Qred_complete _ _ En). reflexivity.
Qed.

(** The significand rounding produces has at most [prec] bits, or is the
    power of two just above. *)
Lemma significand_bound q :
  ~ q == 0 -> (Z.abs (rint (q / pow2 (exponent f q))) <= 2 ^ prec f)%Z.
Proof.
  intros N. set (x := exponent f q).
  destruct (ilog2_spec q N) as [_ U].
  assert (Hx : (ilog2 q + 1 <= prec f + x)%Z) by (unfold x, exponent; lia).
  assert (U' : Qabs q <= pow2 (prec f + x)).
  { apply Qlt_le_weak. apply Qlt_le_trans with (1 := U). apply pow2_le. exact Hx. }
  apply Qabs_Qle_condition in U'. destruct U' as [U1 U2].
  assert (G : pow2 (prec f + x) == inject_Z (2 ^ prec f) * pow2 x).
  { rewrite pow2_add, pow2_Z by lia. reflexivity. }
  assert (H1 : (rint (q / pow2 x) <= 2 ^ prec f)%Z).
  { rewrite <- (rint_Z (2 ^ prec f)). apply rint_mono.
    apply Qle_shift_div_r; [apply pow2_pos|]. rewrite <- G. exact U2. }
  assert (H2 : (- 2 ^ prec f <= rint (q / pow2 x))%Z).
  { rewrite <- (rint_Z (- 2 ^ prec f)). apply rint_mono.
    apply Qle_shift_div_l; [apply pow2_pos|].
    rewrite inject_Z_opp.
    assert (G' : - inject_Z (2 ^ prec f) * pow2 x == - pow2 (prec f + x))
      by (rewrite G; ring).
    rewrite G'. exact U1. }
  lia.
Qed.

(** What rounding returns is a number of the format, in lowest terms. *)
Lemma round_representable q r :
  round f q = JS.Num r -> representable f r /\ Qred r = r.
Proof.
  unfold round. destruct (Qeq_bool q 0) eqn:Hz.
  - intros H. inversion H; subst r. split; [|reflexivity].
    exists 0%Z, (emin f). split; [ring|]. split; [|split; [lia|]].
    + simpl. apply Z.pow_pos_nonneg; lia.
    + apply pow2_pos.
  - cbv zeta. destruct (Qle_bool _ _) eqn:T; [discriminate|].
    intros H. inversion H; subst r. clear H.
    split; [|apply Qred_complete, Qred_correct].
    assert (N : ~ q == 0).
    { intros E. apply Qeq_bool_iff in E. congruence. }
    assert (Hmax : Qabs (nearest f q) < pow2 (emax f)).
    { apply Qnot_le_lt. intros H. apply Qle_bool_iff in H. congruence. }
    pose proof (significand_bound q N) as B.
    set (x := exponent f q) in *. set (n := rint (q / pow2 x)) in *.
    assert (En : nearest f q == inject_Z n * pow2 x) by reflexivity.
    assert (x_ge : (emin f <= x)%Z) by (unfold x, exponent; lia).
    destruct (Z.eq_dec (Z.abs n) (2 ^ prec f)%Z) as [Top|Below].
    + exists (Z.sgn n * 2 ^ (prec f - 1))%Z, (x + 1)%Z.
      split; [|split; [|split]].
      * rewrite Qred_correct, En, pow2_add.
        assert (E2 : n = (Z.sgn n * 2 ^ (prec f - 1) * 2)%Z).
        { rewrite <- Z.mul_assoc.
          replace (2 ^ (prec f - 1) * 2)%Z with (2 ^ prec f)%Z.
          - rewrite <- Top. lia.
          - replace (prec f) with (prec f - 1 + 1)%Z at 1 by lia.
            rewrite Z.pow_add_r by lia. reflexivity. }
        rewrite E2 at 1. rewrite inject_Z_mult.
        change (pow2 1) with 2. change (inject_Z 2) with 2. ring.
      * rewrite Z.abs_mul.
        assert (P : (0 < 2 ^ (prec f - 1))%Z) by (apply Z.pow_pos_nonneg; lia).
        assert (S1 : (Z.abs (Z.sgn n) <= 1)%Z) by lia.
        rewrite (Z.abs_eq (2 ^ (prec f - 1))) by lia.
        assert (2 ^ (prec f - 1) < 2 ^ prec f)%Z by (apply Z.pow_lt_mono_r; lia).
        nia.
      * lia.
      * rewrite Qred_correct. exact Hmax.
    + exists n, x. split; [|split; [|split]].
      * rewrite Qred_correct. exact En.
      * lia.
      * exact x_ge.
      * rewrite Qred_correct. exact Hmax.
Qed.

Lemma round_fix q r : round f q = JS.Num r -> round f r = JS.Num r.
Proof.
  intros H. destruct (round_representable q r H) as [R C].
  rewrite (round_exact r R), C. reflexivity.
Qed.

(** *** Order *)

Lemma nearest_ge_pow2 q j :
  (exponent f q <= j)%Z -> pow2 j <= q -> pow2 j <= nearest f q.
Proof.
  intros He H. unfold nearest. set (x := exponent f q) in *.
  rewrite (pow2_on_grid j x He) in *. apply grid_le. exact H.
Qed.

Lemma nearest_le_pow2 q j :
  (exponent f q <= j)%Z -> q <= pow2 j -> nearest f q <= pow2 j.
Proof.
  intros He H. unfold nearest. set (x := exponent f q) in *.
  rewrite (pow2_on_grid j x He) in *. apply grid_ge. exact H.
Qed.

Lemma nearest_nonneg q : 0 <= q -> 0 <= nearest f q.
Proof.
  intros H. unfold nearest. set (x := exponent f q).
  assert (Z0 : inject_Z 0 * pow2 x == 0) by ring.
  pose proof (grid_le 0 x q) as G. rewrite Z0 in G. apply G. exact H.
Qed.

Lemma nearest_nonpos q : q <= 0 -> nearest f q <= 0.
Proof.
  intros H. unfold nearest. set (x := exponent f q).
  assert (Z0 : inject_Z 0 * pow2 x == 0) by ring.
  pose proof (grid_ge 0 x q) as G. rewrite Z0 in G. apply G. exact H.
Qed.

Lemma nearest_mono q1 q2 : 0 < q1 -> q1 <= q2 -> nearest f q1 <= nearest f q2.
Proof.
  intros H1 H12.
  pose proof (ilog2_mono q1 q2 H1 H12) as Hk.
  destruct (ilog2_spec q1) as [L1 U1]; [lra|].
  destruct (ilog2_spec q2) as [L2 U2]; [lra|].
  rewrite Qabs_pos in L1, U1 by lra. rewrite Qabs_pos in L2, U2 by lra.
  destruct (Z.eq_dec (exponent f q1) (exponent f q2)) as [E|N].
  - unfold nearest. rewrite E. set (x := exponent f q2).
    apply Qmult_le_compat_r; [|apply Qlt_le_weak, pow2_pos].
    rewrite <- Zle_Qle. apply rint_mono. apply scale_le. exact H12.
  - assert (Hlt : (ilog2 q1 < ilog2 q2)%Z /\ exponent f q2 = (ilog2 q2 - (prec f - 1))%Z
                  /\ (exponent f q1 <= ilog2 q2)%Z).
    { unfold exponent in *. lia. }
    destruct Hlt as (Hlt & E2 & E1).
    apply Qle_trans with (pow2 (ilog2 q2)).
    + apply nearest_le_pow2; [exact E1|].
      apply Qlt_le_weak. apply Qlt_le_trans with (1 := U1). apply pow2_le. lia.
    + apply nearest_ge_pow2; [lia | exact L2].
Qed.

(** A positive number at least as large as the smallest one of the format
    does not round to zero. *)
Lemma nearest_pos q : pow2 (emin f) <= q -> pow2 (emin f) <= nearest f q.
Proof.
  intros H. pose proof (pow2_pos (emin f)) as P.
  destruct (ilog2_spec q) as [L U]; [lra|].
  rewrite Qabs_pos in L, U by lra.
  assert (Hk : (emin f <= ilog2 q)%Z).
  { assert (emin f < ilog2 q + 1)%Z by (apply pow2_lt_inv; lra). lia. }
  apply Qle_trans with (pow2 (ilog2 q)); [apply pow2_le; exact Hk|].
  apply nearest_ge_pow2; [unfold exponent; lia | exact L].
Qed.

End Nearest.

(** ** The alpha ramp *)

Lemma mediump_prec f : at_least_mediump f -> (1 <= Float.prec f)%Z.
Proof. intros [H _]. lia. Qed.

(** *** Order and error of rounding *)

Section Order.

Import Float.

Variable f : format.
Hypothesis Hprec : (1 <= prec f)%Z.

(** Rounding moves a number by at most half a unit of its last place. *)
Lemma rint_le_half x : inject_Z (rint x) <= x + (1 # 2).
Proof.
  unfold rint. pose proof (Qfloor_le x) as L.
  destruct (Qcompare_spec (x - inject_Z (Qfloor x)) (1 # 2)) as [H|H|H].
  - destruct (Z.even _); [lra|].
    rewrite inject_Z_plus. change (inject_Z 1) with 1. lra.
  - lra.
  - rewrite inject_Z_plus. change (inject_Z 1) with 1. lra.
Qed.

Lemma pow2_half e : pow2 e == 2 * pow2 (e - 1).
Proof.
  replace e with (1 + (e - 1))%Z at 1 by lia. rewrite pow2_add. reflexivity.
Qed.

Lemma nearest_le_half q : nearest f q <= q + pow2 (exponent f q - 1).
Proof.
  unfold nearest. set (e := exponent f q).
  pose proof (rint_le_half (q / pow2 e)) as H.
  pose proof (pow2_pos e) as Hp. pose proof (pow2_half e) as E.
  set (P := pow2 e) in *. set (P1 := pow2 (e - 1)) in *. clearbody P P1.
  apply Qle_trans with ((q / P + (1 # 2)) * P).
  - apply Qmult_le_compat_r; lra.
  - assert (E2 : (q / P + (1 # 2)) * P == q + P * (1 # 2)) by (field; lra).
    rewrite E2. lra.
Qed.

Lemma rint_ge_half x : x - (1 # 2) <= inject_Z (rint x).
Proof.
  unfold rint. pose proof (Qlt_floor x) as U.
  rewrite inject_Z_plus in U. change (inject_Z 1) with 1 in U.
  destruct (Qcompare_spec (x - inject_Z (Qfloor x)) (1 # 2)) as [H|H|H].
  - destruct (Z.even _); [lra|].
    rewrite inject_Z_plus. change (inject_Z 1) with 1. lra.
  - lra.
  - rewrite inject_Z_plus. change (inject_Z 1) with 1. lra.
Qed.

Lemma nearest_ge_half q : q - pow2 (exponent f q - 1) <= nearest f q.
Proof.
  unfold nearest. set (e := exponent f q).
  pose proof (rint_ge_half (q / pow2 e)) as H.
  pose proof (pow2_pos e) as Hp. pose proof (pow2_half e) as E.
  set (P := pow2 e) in *. set (P1 := pow2 (e - 1)) in *. clearbody P P1.
  apply Qle_trans with ((q / P - (1 # 2)) * P).
  - assert (E2 : (q / P - (1 # 2)) * P == q - P * (1 # 2)) by (field; lra).
    rewrite E2. lra.
  - apply Qmult_le_compat_r; lra.
Qed.

(** Away from the subnormal range the error of rounding is at most
    [2^-prec] of the number rounded. *)
Lemma nearest_relative_error q :
  pow2 (emin f + prec f - 1) <= Qabs q ->
  Qabs (nearest f q - q) <= Qabs q * pow2 (- prec f).
Proof.
  intros H.
  assert (N : ~ q == 0).
  { intros E. rewrite E in H. change (Qabs 0) with 0 in H.
    pose proof (pow2_pos (emin f + prec f - 1)). lra. }
  destruct (ilog2_spec q N) as [L U].
  assert (Hk : (emin f + prec f - 1 <= ilog2 q)%Z).
  { assert (emin f + prec f - 1 < ilog2 q + 1)%Z by (apply pow2_lt_inv; lra). lia. }
  assert (He : exponent f q = (ilog2 q - (prec f - 1))%Z) by (unfold exponent; lia).
  pose proof (nearest_le_half q) as H1. pose proof (nearest_ge_half q) as H2.
  rewrite He in H1, H2.
  replace (ilog2 q - (prec f - 1) - 1)%Z with (ilog2 q + - prec f)%Z in H1, H2 by lia.
  rewrite pow2_add in H1, H2.
  pose proof (pow2_pos (- prec f)) as P.
  assert (B : pow2 (ilog2 q) * pow2 (- prec f) <= Qabs q * pow2 (- prec f))
    by (apply Qmult_le_compat_r; lra).
  apply Qabs_Qle_condition. split; lra.
Qed.

Lemma round_relative_error q r :
  round f q = JS.Num r ->
  pow2 (emin f + prec f - 1) <= Qabs q ->
  Qabs (r - q) <= Qabs q * pow2 (- prec f).
Proof.
  intros E H.
  assert (N : ~ q == 0).
  { intros E0. rewrite E0 in H. change (Qabs 0) with 0 in H.
    pose proof (pow2_pos (emin f + prec f - 1)). lra. }
  unfold round in E. rewrite (Qeq_bool_neq q N) in E. cbv zeta in E.
  destruct (Qle_bool _ _); [discriminate|]. inversion E; subst r.
  rewrite Qred_correct. apply nearest_relative_error. exact H.
Qed.

Lemma round_pos_dichotomy q :
  0 < q ->
  (round f q = JS.Num (Qred (nearest f q)) /\ nearest f q < pow2 (emax f)) \/
  (round f q = JS.Infinity false /\ pow2 (emax f) <= nearest f q).
Proof.
  intros H. unfold round. rewrite Qeq_bool_neq by lra. cbv zeta.
  rewrite (Qle_bool_le 0 q) by lra.
  pose proof (nearest_nonneg f q (Qlt_le_weak _ _ H)) as N.
  destruct (Qle_bool _ _) eqn:T.
  - right. split; [reflexivity|]. apply Qle_bool_iff in T.
    rewrite Qabs_pos in T by exact N. exact T.
  - left. split; [reflexivity|].
    apply Qnot_le_lt. intros C. rewrite <- (Qabs_pos _ N) in C.
    apply Qle_bool_iff in C. congruence.
Qed.

(** Rounding keeps the order of non-negative numbers. *)
Lemma round_mono_nonneg q1 q2 :
  0 <= q1 -> q1 <= q2 -> JS.le (round f q1) (round f q2) = true.
Proof.
  intros H1 H12.
  destruct (Qeq_dec q2 0) as [E2|N2].
  { rewrite (round_zero f q2 E2), (round_zero f q1) by lra. reflexivity. }
  assert (P2 : 0 < q2) by lra.
  destruct (Qeq_dec q1 0) as [E1|N1].
  { rewrite (round_zero f q1 E1).
    destruct (round_pos_dichotomy q2 P2) as [[-> _]|[-> _]]; [|reflexivity].
    simpl. apply Qle_bool_iff. rewrite Qred_correct. apply nearest_nonneg. lra. }
  assert (P1 : 0 < q1) by lra.
  pose proof (nearest_mono f Hprec q1 q2 P1 H12) as M.
  destruct (round_pos_dichotomy q1 P1) as [[-> B1]|[-> B1]],
           (round_pos_dichotomy q2 P2) as [[-> B2]|[-> B2]]; simpl; try reflexivity.
  - apply Qle_bool_iff. rewrite !Qred_correct. exact M.
  - exfalso. lra.
Qed.

(** A non-negative number below a number of the format rounds to a number
    of the format in between. *)
Lemma round_between q b :
  0 <= q -> q <= b -> is_float f b ->
  exists r, round f q = JS.Num r /\ 0 <= r /\ r <= b /\ is_float f r /\ r == nearest f q.
Proof.
  intros H0 Hb Fb.
  pose proof (round_mono_nonneg q b H0 Hb) as M. rewrite Fb in M.
  destruct (Qeq_dec q 0) as [E|N].
  { exists 0. rewrite (round_zero f q E). split; [reflexivity|].
    split; [lra|]. split; [lra|]. split; [reflexivity|].
    unfold nearest. set (e := exponent f q).
    assert (E0 : q / pow2 e == inject_Z 0).
    { rewrite E. unfold Qdiv. ring. }
    rewrite (rint_comp _ _ E0), rint_Z. ring. }
  destruct (round_pos_dichotomy q) as [[E B]|[E _]]; [lra| |].
  - rewrite E in M. simpl in M. apply Qle_bool_iff in M.
    eexists. split; [exact E|].
    split; [rewrite Qred_correct; apply nearest_nonneg; exact H0|].
    split; [exact M|]. split; [|apply Qred_correct].
    apply (round_fix f Hprec q). exact E.
  - rewrite E in M. discriminate.
Qed.

End Order.

Section Ramp.

Import Float.

Variable f : format.
Hypothesis Hf : at_least_mediump f.


Lemma small_integer n :
  (Z.abs n <= 3)%Z -> round f (inject_Z n) = JS.Num (inject_Z n).
Proof.
  intros Hn. destruct Hf as [Hp He].
  assert (R : representable f (inject_Z n)).
  { exists n, 0%Z. split; [change (pow2 0) with 1; ring|].
    split; [|split].
    - apply Z.le_lt_trans with (1 := Hn).
      apply Z.lt_le_trans with (2 ^ 2)%Z; [reflexivity|]. apply Z.pow_le_mono_r; lia.
    - unfold emin. lia.
    - apply Qle_lt_trans with (pow2 2).
      + change (pow2 2) with (inject_Z 4). apply Qabs_Qle_condition.
        rewrite <- inject_Z_opp, <- !Zle_Qle. lia.
      + apply pow2_lt. lia. }
  rewrite (round_exact f (mediump_prec f Hf) (inject_Z n) R).
  assert (C : n = (-3)%Z \/ n = (-2)%Z \/ n = (-1)%Z \/ n = 0%Z \/ n = 1%Z \/ n = 2%Z
              \/ n = 3%Z) by lia.
  destruct C as [->|[->|[->|[->|[->|[->| ->]]]]]]; reflexivity.
Qed.

Lemma round_1 : round f 1 = JS.Num 1.
Proof. apply (small_integer 1). simpl. lia. Qed.

Lemma round_2 : round f 2 = JS.Num 2.
Proof. apply (small_integer 2). simpl. lia. Qed.

Lemma round_3 : round f 3 = JS.Num 3.
Proof. apply (small_integer 3). simpl. lia. Qed.

(** The literal [0.01] is a number between 0 and 1 in every such format. *)
Lemma lit_epsilon : exists r, GLSL.lit f 0.01 = JS.Num r /\ 0 < r < 1.
Proof.
  destruct Hf as [Hp He].
  assert (K : ilog2 0.01 = (-7)%Z) by reflexivity.
  assert (X : (exponent f 0.01 <= -7)%Z) by (unfold exponent, emin; rewrite K; lia).
  assert (L : pow2 (-7) <= nearest f 0.01).
  { apply (nearest_ge_pow2 f); [exact X|]. unfold Qle. simpl. lia. }
  assert (U : nearest f 0.01 <= pow2 (-6)).
  { apply (nearest_le_pow2 f); [lia|]. unfold Qle. simpl. lia. }
  unfold GLSL.lit, round. change (Qeq_bool 0.01 0) with false. cbv zeta.
  pose proof (pow2_pos (-7)) as P.
  assert (P6 : pow2 (-6) < 1) by reflexivity.
  rewrite Qle_bool_lt.
  - eexists. split; [reflexivity|]. rewrite Qred_correct. lra.
  - rewrite Qabs_pos by lra. apply Qle_lt_trans with (1 := U). apply pow2_lt. lia.
Qed.

Lemma mul_num a b : mul f (JS.Num a) (JS.Num b) = round f (a * b).
Proof. reflexivity. Qed.

Lemma sub_num a b : sub f (JS.Num a) (JS.Num b) = round f (a - b).
Proof. reflexivity. Qed.

Lemma add_num a b : add f (JS.Num a) (JS.Num b) = round f (a + b).
Proof. reflexivity. Qed.

Lemma div_num a b : ~ b == 0 -> div f (JS.Num a) (JS.Num b) = round f (a / b).
Proof.
  intros H. unfold div, JS.div.
  destruct (Qcompare_spec b 0) as [E|_|_]; [contradiction|reflexivity|reflexivity].
Qed.

(** The Hermite polynomial at the two ends of the clamp. *)
Lemma hermite_0 :
  mul f (mul f (JS.Num 0) (JS.Num 0)) (sub f (GLSL.lit f 3) (mul f (GLSL.lit f 2) (JS.Num 0)))
  = JS.Num 0.
Proof.
  unfold GLSL.lit. rewrite round_2, round_3, !mul_num.
  rewrite (round_zero f (0 * 0)), (round_zero f (2 * 0)) by reflexivity.
  rewrite sub_num, (round_comp f (3 - 0) 3) by reflexivity.
  rewrite round_3, mul_num. apply round_zero. reflexivity.
Qed.

Lemma hermite_1 :
  mul f (mul f (JS.Num 1) (JS.Num 1)) (sub f (GLSL.lit f 3) (mul f (GLSL.lit f 2) (JS.Num 1)))
  = JS.Num 1.
Proof.
  unfold GLSL.lit. rewrite round_2, round_3, !mul_num.
  rewrite (round_comp f (1 * 1) 1), (round_comp f (2 * 1) 2) by reflexivity.
  rewrite round_1, round_2.
  rewrite sub_num, (round_comp f (3 - 2) 1) by reflexivity.
  rewrite round_1, mul_num, (round_comp f (1 * 1) 1) by reflexivity.
  apply round_1.
Qed.

(** *** The range of the Hermite polynomial *)

Lemma float_quarter : is_float f (1 # 4).
Proof.
  destruct Hf as [Hp He]. unfold is_float.
  rewrite (round_exact f (mediump_prec f Hf) (1 # 4)); [reflexivity|].
  exists 1%Z, (-2)%Z. split; [reflexivity|]. split; [|split].
  - apply Z.lt_le_trans with (2 ^ 1)%Z; [reflexivity|]. apply Z.pow_le_mono_r; lia.
  - unfold emin. lia.
  - change (Qabs (1 # 4)) with (pow2 (-2)). apply pow2_lt. lia.
Qed.

(** A number of the format above one half is a multiple of [2^-prec]. *)
Lemma upper_half_grid u :
  is_float f u -> 1 # 2 < u -> u <= 1 ->
  exists U : Z,
    u == inject_Z U * pow2 (- prec f) /\ (2 ^ prec f < 2 * U)%Z /\ (U <= 2 ^ prec f)%Z.
Proof.
  intros Fu Hlo Hhi. pose proof (mediump_prec f Hf) as Hprec.
  destruct (round_representable f Hprec u u Fu) as [(m & e & E & Hm & He & _) _].
  pose proof (pow2_pos e) as Pe. pose proof (pow2_pos (- prec f)) as Pp.
  assert (Hmpos : (0 < m)%Z).
  { destruct (Z_lt_le_dec 0 m) as [H|H]; [exact H|exfalso].
    assert (inject_Z m <= 0) by (change 0 with (inject_Z 0); rewrite <- Zle_Qle; exact H).
    assert (inject_Z m * pow2 e <= 0) by nra. lra. }
  assert (Hexp : (- prec f <= e)%Z).
  { assert (U1 : u < pow2 (prec f + e)).
    { rewrite E, pow2_add. apply Qmult_lt_r; [exact Pe|].
      rewrite pow2_Z by lia. rewrite <- Zlt_Qlt. lia. }
    assert (pow2 (-1) < pow2 (prec f + e)).
    { change (pow2 (-1)) with (1 # 2). lra. }
    apply pow2_lt_inv in H. lia. }
  exists (m * 2 ^ (e - - prec f))%Z.
  assert (Eu : u == inject_Z (m * 2 ^ (e - - prec f)) * pow2 (- prec f)).
  { rewrite E, inject_Z_mult, <- Qmult_assoc, <- pow2_on_grid by exact Hexp. reflexivity. }
  split; [exact Eu|].
  set (U := (m * 2 ^ (e - - prec f))%Z) in *.
  assert (One : inject_Z (2 ^ prec f) * pow2 (- prec f) == 1).
  { rewrite <- pow2_Z by lia. rewrite <- pow2_add.
    replace (prec f + - prec f)%Z with 0%Z by lia. reflexivity. }
  split.
  - assert (H : inject_Z (2 ^ prec f) < inject_Z (2 * U)).
    { apply (Qmult_lt_r _ _ (pow2 (- prec f)) Pp).
      rewrite One, inject_Z_mult. change (inject_Z 2) with 2.
      rewrite <- Qmult_assoc, <- Eu. lra. }
    rewrite <- Zlt_Qlt in H. exact H.
  - assert (H : inject_Z U <= inject_Z (2 ^ prec f)).
    { apply (Qmult_le_r _ _ (pow2 (- prec f)) Pp). rewrite One, <- Eu. exact Hhi. }
    rewrite <- Zle_Qle in H. exact H.
Qed.

(** The square of a number of the format above one half, rounded, stays
    below [2 u^2 - 2 u + 1]. *)
Lemma square_bound u :
  is_float f u -> 1 # 2 < u -> u < 1 -> nearest f (u * u) <= 2 * (u * u) - 2 * u + 1.
Proof.
  intros Fu Hlo Hhi. pose proof (mediump_prec f Hf) as Hprec.
  destruct (upper_half_grid u Fu Hlo (Qlt_le_weak _ _ Hhi)) as (U & Eu & HU1 & HU2).
  set (q := u * u).
  assert (Hq0 : 0 < q) by (unfold q; nra).
  assert (Hq1 : q < 1) by (unfold q; nra).
  set (e := exponent f q).
  assert (He : (e <= - prec f)%Z).
  { destruct (ilog2_spec q) as [L _]; [lra|].
    rewrite Qabs_pos in L by lra.
    assert (pow2 (ilog2 q) < pow2 0) by (change (pow2 0) with 1; lra).
    apply pow2_lt_inv in H.
    destruct Hf as [Hp Hx]. unfold e, exponent, emin. lia. }
  pose proof (nearest_le_half f q) as Herr. fold e in Herr.
  pose proof (pow2_pos e) as Pe. pose proof (pow2_half e) as Eh.
  set (G := 2 * u - 1).
  set (d := 1 - u).
  assert (Eq : q == G + d * d) by (unfold q, G, d; ring).
  (* [G] is on the grid of [q] *)
  assert (EG : exists M : Z, G == inject_Z M * pow2 e).
  { exists ((2 * U - 2 ^ prec f) * 2 ^ (- prec f - e))%Z.
    rewrite inject_Z_mult, <- Qmult_assoc, <- pow2_on_grid by exact He.
    unfold G. rewrite Eu.
    assert (One : inject_Z (2 ^ prec f) * pow2 (- prec f) == 1).
    { rewrite <- pow2_Z by lia. rewrite <- pow2_add.
      replace (prec f + - prec f)%Z with 0%Z by lia. reflexivity. }
    unfold Zminus. rewrite inject_Z_plus, inject_Z_opp, inject_Z_mult.
    change (inject_Z 2) with 2.
    set (P := pow2 (- prec f)) in *. set (IP := inject_Z (2 ^ prec f)) in *.
    clearbody P IP.
    assert (X : (2 * inject_Z U + - IP) * P == 2 * (inject_Z U * P) - IP * P) by ring.
    rewrite X, One. reflexivity. }
  destruct EG as (M & EG).
  assert (Goal1 : nearest f q <= G + 2 * (d * d)).
  { destruct (Qlt_le_dec (d * d) (pow2 (e - 1))) as [Hsmall|Hbig].
    - assert (Hlt : nearest f q < inject_Z (M + 1) * pow2 e).
      { rewrite inject_Z_plus. change (inject_Z 1) with 1.
        rewrite Qmult_plus_distr_l, <- EG. lra. }
      unfold nearest in Hlt. fold e in Hlt.
      apply Qmult_lt_r in Hlt; [|exact Pe].
      rewrite <- Zlt_Qlt in Hlt.
      assert (Hle : inject_Z (rint (q / pow2 e)) <= inject_Z M)
        by (rewrite <- Zle_Qle; lia).
      unfold nearest. fold e.
      apply Qle_trans with (inject_Z M * pow2 e).
      + apply Qmult_le_compat_r; lra.
      + rewrite <- EG. assert (0 <= d * d) by nra. lra.
    - lra. }
  apply Qle_trans with (1 := Goal1).
  unfold G, d, q. apply Qle_lteq. right. ring.
Qed.

Lemma scale_by_two u : representable f u -> Qabs u <= 1 -> representable f (2 * u).
Proof.
  intros (m & e & E & Hm & He & _) Hu. destruct Hf as [Hp Hx].
  exists m, (e + 1)%Z. split; [|split; [|split]].
  - rewrite E, pow2_add. change (pow2 1) with 2. ring.
  - exact Hm.
  - lia.
  - rewrite Qabs_Qmult. change (Qabs 2) with 2.
    apply Qle_lt_trans with (pow2 1); [change (pow2 1) with 2; lra|].
    apply pow2_lt. lia.
Qed.

(** For [u] above one half, [3 - 2 u] is a number of the format. *)
Lemma three_minus_twice u :
  is_float f u -> 1 # 2 < u -> u <= 1 -> representable f (3 - 2 * u).
Proof.
  intros Fu Hlo Hhi. destruct Hf as [Hp Hx].
  destruct (upper_half_grid u Fu Hlo Hhi) as (U & Eu & HU1 & HU2).
  assert (Two : (2 ^ prec f = 2 * 2 ^ (prec f - 1))%Z).
  { replace (prec f) with (1 + (prec f - 1))%Z at 1 by lia.
    rewrite Z.pow_add_r by lia. reflexivity. }
  assert (One : inject_Z (2 ^ prec f) * pow2 (- prec f) == 1).
  { rewrite <- pow2_Z by lia. rewrite <- pow2_add.
    replace (prec f + - prec f)%Z with 0%Z by lia. reflexivity. }
  exists (3 * 2 ^ (prec f - 1) - U)%Z, (1 - prec f)%Z.
  split; [|split; [|split]].
  - replace (1 - prec f)%Z with (1 + - prec f)%Z by lia.
    rewrite pow2_add. change (pow2 1) with 2.
    rewrite Two, inject_Z_mult in One. change (inject_Z 2) with 2 in One.
    rewrite <- (Z.add_opp_r (3 * 2 ^ (prec f - 1)) U).
    rewrite inject_Z_plus, inject_Z_opp, inject_Z_mult.
    change (inject_Z 3) with 3. rewrite Eu.
    set (h := inject_Z (2 ^ (prec f - 1))) in *. set (P := pow2 (- prec f)) in *.
    clearbody h P.
    assert (X : (3 * h + - inject_Z U) * (2 * P)
                == 3 * (2 * h * P) - 2 * (inject_Z U * P)) by ring.
    rewrite X, One. reflexivity.
  - lia.
  - unfold emin. lia.
  - apply Qle_lt_trans with (pow2 1).
    + change (pow2 1) with 2. apply Qabs_Qle_condition. lra.
    + apply pow2_lt. lia.
Qed.

Lemma hermite_low u :
  is_float f u -> 0 <= u -> u <= 1 # 2 ->
  exists a,
    mul f (mul f (JS.Num u) (JS.Num u))
          (sub f (GLSL.lit f 3) (mul f (GLSL.lit f 2) (JS.Num u))) = JS.Num a /\
    0 <= a /\ a <= 1.
Proof.
  intros Fu H0 H1. pose proof (mediump_prec f Hf) as Hprec.
  unfold GLSL.lit. rewrite round_2, round_3, !mul_num.
  destruct (round_between f Hprec (u * u) (1 # 4)) as (a & -> & Ha0 & Ha1 & _);
    [nra|nra|exact float_quarter|].
  destruct (round_between f Hprec (2 * u) 2) as (b & -> & Hb0 & Hb2 & _);
    [lra|lra|exact round_2|].
  rewrite sub_num.
  destruct (round_between f Hprec (3 - b) 3) as (c & -> & Hc0 & Hc3 & _);
    [lra|lra|exact round_3|].
  rewrite mul_num.
  destruct (round_between f Hprec (a * c) 1) as (h & -> & Hh0 & Hh1 & _);
    [nra|nra|exact round_1|].
  exists h. repeat split; assumption.
Qed.

Lemma hermite_high u :
  is_float f u -> 1 # 2 < u -> u <= 1 ->
  exists a,
    mul f (mul f (JS.Num u) (JS.Num u))
          (sub f (GLSL.lit f 3) (mul f (GLSL.lit f 2) (JS.Num u))) = JS.Num a /\
    0 <= a /\ a <= 1.
Proof.
  intros Fu H0 H1. pose proof (mediump_prec f Hf) as Hprec.
  assert (Ru : representable f u) by apply (round_representable f Hprec u u Fu).
  unfold GLSL.lit. rewrite round_2, round_3, !mul_num.
  destruct (round_between f Hprec (u * u) 1) as (a & -> & Ha0 & Ha1 & _ & Ea);
    [nra|nra|exact round_1|].
  destruct (round_between f Hprec (2 * u) 2) as (b & -> & Hb0 & Hb2 & _ & Eb);
    [lra|lra|exact round_2|].
  assert (Eb' : b == 2 * u).
  { rewrite Eb. apply (nearest_exact f Hprec); [|lra].
    apply scale_by_two; [exact Ru|]. rewrite Qabs_pos by lra. exact H1. }
  rewrite sub_num.
  destruct (round_between f Hprec (3 - b) 3) as (c & -> & Hc0 & Hc3 & _ & Ec);
    [lra|lra|exact round_3|].
  assert (Ec' : c == 3 - 2 * u).
  { rewrite Ec. rewrite (nearest_comp f (3 - b) (3 - 2 * u)) by lra.
    apply (nearest_exact f Hprec); [|lra].
    apply three_minus_twice; assumption. }
  assert (Ha : a <= 2 * (u * u) - 2 * u + 1).
  { destruct (Qlt_le_dec u 1) as [Hlt|Hge].
    - rewrite Ea. apply square_bound; assumption.
    - assert (u == 1) by lra. nra. }
  rewrite mul_num.
  assert (Hac : a * c <= 1).
  { assert (S1 : a * c <= (2 * (u * u) - 2 * u + 1) * c)
      by (apply Qmult_le_compat_r; [exact Ha | exact Hc0]).
    assert (S2 : (2 * (u * u) - 2 * u + 1) * c
                 == 1 - 2 * ((1 - u) * (1 - u) * (2 * u - 1)))
      by (rewrite Ec'; ring).
    assert (S3 : 0 <= (1 - u) * (1 - u) * (2 * u - 1)).
    { apply Qmult_le_0_compat; [|lra]. nra. }
    lra. }
  destruct (round_between f Hprec (a * c) 1) as (h & -> & Hh0 & Hh1 & _);
    [nra|exact Hac|exact round_1|].
  exists h. repeat split; assumption.
Qed.

(** The polynomial maps the unit interval of the format into itself. *)
Lemma hermite_unit u :
  is_float f u -> 0 <= u -> u <= 1 ->
  exists a,
    mul f (mul f (JS.Num u) (JS.Num u))
          (sub f (GLSL.lit f 3) (mul f (GLSL.lit f 2) (JS.Num u))) = JS.Num a /\
    0 <= a /\ a <= 1.
Proof.
  intros Fu H0 H1.
  destruct (Qlt_le_dec (1 # 2) u) as [Hhi|Hlo].
  - apply hermite_high; assumption.
  - apply hermite_low; assumption.
Qed.

(** *** Signs and order of rounded results *)

Lemma round_pos_cases q :
  0 < q ->
  (round f q = JS.Num (Qred (nearest f q)) /\ nearest f q < pow2 (emax f)) \/
  round f q = JS.Infinity false.
Proof.
  intros H. unfold round. rewrite Qeq_bool_neq by lra. cbv zeta.
  rewrite (Qle_bool_le 0 q) by lra.
  pose proof (nearest_nonneg f q (Qlt_le_weak _ _ H)) as N.
  destruct (Qle_bool _ _) eqn:T; [right; reflexivity|left].
  split; [reflexivity|].
  apply Qnot_le_lt. intros C. rewrite <- (Qabs_pos _ N) in C.
  apply Qle_bool_iff in C. congruence.
Qed.

Lemma round_nonpos_cases q :
  q <= 0 ->
  (exists r, round f q = JS.Num r /\ r <= 0 /\ Qred r = r) \/
  round f q = JS.Infinity true.
Proof.
  intros H. destruct (Qeq_dec q 0) as [E|N].
  - left. exists 0. rewrite (round_zero f q E). repeat split. lra.
  - unfold round. rewrite Qeq_bool_neq by exact N. cbv zeta.
    rewrite (Qle_bool_lt 0 q) by lra.
    destruct (Qle_bool _ _); [right; reflexivity|left].
    eexists. split; [reflexivity|]. split.
    + rewrite Qred_correct. apply nearest_nonpos. exact H.
    + apply Qred_complete, Qred_correct.
Qed.

Lemma clamp_low x :
  (exists r, x = JS.Num r /\ r <= 0 /\ Qred r = r) \/ x = JS.Infinity true ->
  GLSL.clamp x (GLSL.lit f 0) (GLSL.lit f 1) = JS.Num 0.
Proof.
  unfold GLSL.lit. rewrite round_1. change (round f 0) with (JS.Num 0).
  intros [(r & -> & Hr & C)| ->]; [|reflexivity].
  unfold GLSL.clamp, JS.lt.
  destruct (Qle_bool 0 r) eqn:T; simpl; [|reflexivity].
  apply Qle_bool_iff in T.
  assert (E : r == 0) by lra.
  rewrite <- C, (Qred_complete r 0 E). reflexivity.
Qed.

Lemma clamp_high x :
  (exists r, x = JS.Num r /\ 1 <= r /\ Qred r = r) \/ x = JS.Infinity false ->
  GLSL.clamp x (GLSL.lit f 0) (GLSL.lit f 1) = JS.Num 1.
Proof.
  unfold GLSL.lit. rewrite round_1. change (round f 0) with (JS.Num 0).
  intros [(r & -> & Hr & C)| ->]; [|reflexivity].
  unfold GLSL.clamp, JS.lt.
  rewrite (Qle_bool_le 0 r) by lra. simpl.
  destruct (Qle_bool r 1) eqn:T; simpl; [|reflexivity].
  apply Qle_bool_iff in T.
  assert (E : r == 1) by lra.
  rewrite <- C, (Qred_complete r 1 E). reflexivity.
Qed.

Lemma one_representable : representable f 1.
Proof.
  destruct Hf as [Hp He].
  exists 1%Z, 0%Z. split; [reflexivity|]. split; [|split].
  - apply Z.lt_le_trans with (2 ^ 1)%Z; [reflexivity|]. apply Z.pow_le_mono_r; lia.
  - unfold emin. lia.
  - change (Qabs 1) with (pow2 0). apply pow2_lt. lia.
Qed.

Lemma round_ge_1 q :
  1 <= q ->
  (exists r, round f q = JS.Num r /\ 1 <= r /\ Qred r = r) \/ round f q = JS.Infinity false.
Proof.
  intros H. destruct (round_pos_cases q) as [[E _]|E]; [lra| |right; exact E].
  left. eexists. split; [exact E|]. split; [|apply Qred_complete, Qred_correct].
  rewrite Qred_correct.
  rewrite <- (nearest_exact f (mediump_prec f Hf) 1 one_representable) by discriminate.
  apply (nearest_mono f (mediump_prec f Hf)); [reflexivity | exact H].
Qed.

(** *** The two flat parts of the ramp *)

Variables t s e1 : Q.
Hypothesis Ht : is_float f t.
Hypothesis Ht0 : 0 <= t.
Hypothesis He1 : add f (JS.Num t) (JS.Num s) = JS.Num e1.
Hypothesis Hband : t < e1.

(** Numbers of the format are multiples of its smallest positive one. *)
Lemma representable_multiple q :
  representable f q -> exists n, q == inject_Z n * pow2 (emin f).
Proof.
  intros (m & e & E & _ & He & _).
  exists (m * 2 ^ (e - emin f))%Z.
  rewrite E, inject_Z_mult, <- Qmult_assoc, <- pow2_on_grid by exact He. reflexivity.
Qed.

Lemma e1_representable : representable f e1.
Proof. apply (round_representable f (mediump_prec f Hf) (t + s) e1). exact He1. Qed.

Lemma t_representable : representable f t.
Proof. apply (round_representable f (mediump_prec f Hf) t t). exact Ht. Qed.

(** The width of the band as the stage computes it: a positive number. *)
Lemma band_width :
  sub f (JS.Num e1) (JS.Num t) = JS.Num (Qred (nearest f (e1 - t))) /\
  0 < nearest f (e1 - t).
Proof.
  destruct (representable_multiple e1 e1_representable) as (n1 & E1).
  destruct (representable_multiple t t_representable) as (n2 & E2).
  pose proof (pow2_pos (emin f)) as P.
  assert (Hn : (n2 + 1 <= n1)%Z).
  { assert (inject_Z n2 < inject_Z n1).
    { apply (Qmult_lt_r _ _ (pow2 (emin f)) P). rewrite <- E1, <- E2. exact Hband. }
    rewrite <- Zlt_Qlt in H. lia. }
  assert (L : pow2 (emin f) <= e1 - t).
  { assert (H1 : inject_Z (n2 + 1) <= inject_Z n1) by (rewrite <- Zle_Qle; exact Hn).
    rewrite inject_Z_plus in H1. change (inject_Z 1) with 1 in H1.
    rewrite E1, E2. nra. }
  pose proof (nearest_pos f (mediump_prec f Hf) (e1 - t) L) as Lp.
  split; [|lra].
  rewrite sub_num.
  destruct (round_pos_cases (e1 - t)) as [[E _]|E]; [lra|exact E|].
  exfalso.
  assert (U : nearest f (e1 - t) <= e1).
  { rewrite <- (nearest_exact f (mediump_prec f Hf) e1 e1_representable) at 2 by lra.
    apply (nearest_mono f (mediump_prec f Hf)); lra. }
  destruct e1_representable as (_ & _ & _ & _ & _ & Hmax).
  rewrite Qabs_pos in Hmax by lra.
  unfold round in E. rewrite Qeq_bool_neq in E by lra. cbv zeta in E.
  rewrite Qle_bool_lt in E; [discriminate|].
  rewrite Qabs_pos by lra. lra.
Qed.

Lemma alpha_below d :
  d <= t -> GLSL.alpha f (JS.Num t) (JS.Num s) (JS.Num d) = JS.Num 0.
Proof.
  intros Hd. unfold GLSL.alpha, GLSL.smoothstep. cbv zeta.
  rewrite He1. destruct band_width as [-> Hw].
  set (den := Qred (nearest f (e1 - t))).
  assert (Hden : 0 < den) by (unfold den; rewrite Qred_correct; exact Hw).
  rewrite clamp_low; [apply hermite_0|].
  rewrite sub_num.
  destruct (round_nonpos_cases (d - t)) as [(r & -> & Hr & _)| ->]; [lra| |].
  - rewrite div_num by lra. apply round_nonpos_cases.
    unfold Qdiv. rewrite <- (Qmult_0_l (/ den)).
    apply Qmult_le_compat_r; [exact Hr|]. apply Qlt_le_weak, Qinv_lt_0_compat, Hden.
  - right. unfold div, JS.div, rnd. rewrite (Qle_bool_le 0 den) by lra. reflexivity.
Qed.

Lemma alpha_above d :
  e1 <= d -> GLSL.alpha f (JS.Num t) (JS.Num s) (JS.Num d) = JS.Num 1.
Proof.
  intros Hd. unfold GLSL.alpha, GLSL.smoothstep. cbv zeta.
  rewrite He1. destruct band_width as [-> Hw].
  set (den := Qred (nearest f (e1 - t))).
  assert (Eden : den == nearest f (e1 - t)) by apply Qred_correct.
  assert (Hden : 0 < den) by (rewrite Eden; exact Hw).
  rewrite clamp_high; [apply hermite_1|].
  rewrite sub_num.
  assert (Hpos : 0 < e1 - t) by lra.
  destruct (round_pos_cases (d - t)) as [[-> _]| ->]; [lra| |].
  - rewrite div_num by lra. apply round_ge_1.
    apply Qle_shift_div_l; [exact Hden|]. rewrite Qmult_1_l, Qred_correct, Eden.
    apply (nearest_mono f (mediump_prec f Hf)); lra.
  - right. unfold div, JS.div, rnd. rewrite (Qle_bool_le 0 den) by lra. reflexivity.
Qed.

(** *** Inside the band *)

Lemma clamp_num r :
  0 <= r ->
  GLSL.clamp (JS.Num r) (GLSL.lit f 0) (GLSL.lit f 1)
  = JS.Num (if Qle_bool r 1 then r else 1).
Proof.
  intros H. unfold GLSL.lit. rewrite round_1. change (round f 0) with (JS.Num 0).
  unfold GLSL.clamp, JS.lt. rewrite (Qle_bool_le 0 r) by exact H. simpl.
  destruct (Qle_bool r 1); reflexivity.
Qed.

Lemma clamp_infinity :
  GLSL.clamp (JS.Infinity false) (GLSL.lit f 0) (GLSL.lit f 1) = JS.Num 1.
Proof.
  unfold GLSL.lit. rewrite round_1. reflexivity.
Qed.

(** The ratio of a distance above the tolerance: a non-negative number of
    the format, or an infinity. *)
Lemma ratio_cases d :
  t < d ->
  let x := div f (sub f (JS.Num d) (JS.Num t)) (sub f (JS.Num e1) (JS.Num t)) in
  (exists r, x = JS.Num r /\ 0 <= r /\ is_float f r) \/ x = JS.Infinity false.
Proof.
  intros Hd. cbv zeta. destruct band_width as [-> Hw].
  set (den := Qred (nearest f (e1 - t))).
  assert (Hden : 0 < den) by (unfold den; rewrite Qred_correct; exact Hw).
  pose proof (mediump_prec f Hf) as Hprec.
  rewrite sub_num.
  destruct (round_pos_dichotomy f (d - t)) as [[-> _]|[-> _]]; [lra| |].
  - set (n := Qred (nearest f (d - t))).
    assert (Hn : 0 <= n).
    { unfold n. rewrite Qred_correct. apply nearest_nonneg. lra. }
    rewrite div_num by lra.
    assert (Hq : 0 <= n / den).
    { unfold Qdiv. apply Qmult_le_0_compat; [exact Hn|].
      apply Qlt_le_weak, Qinv_lt_0_compat, Hden. }
    destruct (Qeq_dec (n / den) 0) as [E|N].
    + left. exists 0. rewrite (round_zero f _ E). repeat split. lra.
    + destruct (round_pos_dichotomy f (n / den)) as [[E _]|[E _]]; [lra| |].
      * left. eexists. split; [exact E|]. split.
        -- rewrite Qred_correct. apply nearest_nonneg. exact Hq.
        -- apply (round_fix f Hprec (n / den)). exact E.
      * right. exact E.
  - right. unfold div, JS.div, rnd. rewrite (Qle_bool_le 0 den) by lra. reflexivity.
Qed.

(** The position in the ramp is a number of the format between 0 and 1. *)
Lemma position_unit d :
  exists u,
    ramp_position f (JS.Num t) (JS.Num e1) (JS.Num d) = JS.Num u /\
    0 <= u /\ u <= 1 /\ is_float f u.
Proof.
  unfold ramp_position.
  destruct (Qlt_le_dec t d) as [Hd|Hd].
  - destruct (ratio_cases d Hd) as [(r & -> & Hr & Fr)| ->].
    + rewrite (clamp_num r Hr).
      destruct (Qle_bool r 1) eqn:T.
      * apply Qle_bool_iff in T. exists r. repeat split; assumption.
      * exists 1. split; [reflexivity|]. split; [lra|]. split; [lra|]. exact round_1.
    + rewrite clamp_infinity. exists 1.
      split; [reflexivity|]. split; [lra|]. split; [lra|]. exact round_1.
  - exists 0. split; [|split; [lra|split; [lra|reflexivity]]].
    destruct band_width as [-> Hw].
    set (den := Qred (nearest f (e1 - t))).
    assert (Hden : 0 < den) by (unfold den; rewrite Qred_correct; exact Hw).
    apply clamp_low. rewrite sub_num.
    destruct (round_nonpos_cases (d - t)) as [(r & -> & Hr & _)| ->]; [lra| |].
    + rewrite div_num by lra. apply round_nonpos_cases.
      unfold Qdiv. rewrite <- (Qmult_0_l (/ den)).
      apply Qmult_le_compat_r; [exact Hr|]. apply Qlt_le_weak, Qinv_lt_0_compat, Hden.
    + right. unfold div, JS.div, rnd. rewrite (Qle_bool_le 0 den) by lra. reflexivity.
Qed.

(** Alpha is the polynomial at that position, and lies between 0 and 1. *)
Lemma alpha_unit d :
  exists a, GLSL.alpha f (JS.Num t) (JS.Num s) (JS.Num d) = JS.Num a /\ 0 <= a /\ a <= 1.
Proof.
  destruct (position_unit d) as (u & Eu & Hu0 & Hu1 & Fu).
  unfold GLSL.alpha, GLSL.smoothstep. cbv zeta. rewrite He1.
  unfold ramp_position in Eu. rewrite Eu.
  apply hermite_unit; assumption.
Qed.

(** The position does not decrease when the distance grows. *)
Lemma position_mono d1 d2 u1 u2 :
  d1 <= d2 ->
  ramp_position f (JS.Num t) (JS.Num e1) (JS.Num d1) = JS.Num u1 ->
  ramp_position f (JS.Num t) (JS.Num e1) (JS.Num d2) = JS.Num u2 ->
  u1 <= u2.
Proof.
  intros Hd E1 E2. pose proof (mediump_prec f Hf) as Hprec.
  destruct (Qlt_le_dec t d1) as [H1|H1].
  - (* both above the tolerance *)
    assert (H2 : t < d2) by lra.
    unfold ramp_position in E1, E2.
    destruct band_width as [Eb Hw]. rewrite Eb in E1, E2.
    set (den := Qred (nearest f (e1 - t))) in *.
    assert (Hden : 0 < den) by (unfold den; rewrite Qred_correct; exact Hw).
    rewrite sub_num in E1, E2.
    assert (Hn : nearest f (d1 - t) <= nearest f (d2 - t))
      by (apply (nearest_mono f Hprec); lra).
    destruct (round_pos_dichotomy f (d1 - t)) as [[R1 B1]|[R1 B1]]; [lra| |];
      destruct (round_pos_dichotomy f (d2 - t)) as [[R2 B2]|[R2 B2]]; try lra;
      rewrite R1 in E1; rewrite R2 in E2.
    + set (n1 := Qred (nearest f (d1 - t))) in *.
      set (n2 := Qred (nearest f (d2 - t))) in *.
      assert (Hn1 : 0 <= n1)
        by (unfold n1; rewrite Qred_correct; apply nearest_nonneg; lra).
      assert (Hn12 : n1 <= n2) by (unfold n1, n2; rewrite !Qred_correct; exact Hn).
      rewrite div_num in E1, E2 by lra.
      assert (Hq1 : 0 <= n1 / den).
      { unfold Qdiv. apply Qmult_le_0_compat; [exact Hn1|].
        apply Qlt_le_weak, Qinv_lt_0_compat, Hden. }
      assert (Hq12 : n1 / den <= n2 / den).
      { unfold Qdiv. apply Qmult_le_compat_r; [exact Hn12|].
        apply Qlt_le_weak, Qinv_lt_0_compat, Hden. }
      pose proof (round_mono_nonneg f Hprec _ _ Hq1 Hq12) as M.
      assert (C1 : (exists r, round f (n1 / den) = JS.Num r /\ 0 <= r)
                   \/ round f (n1 / den) = JS.Infinity false).
      { destruct (Qeq_dec (n1 / den) 0) as [E|N].
        - left. exists 0. rewrite (round_zero f _ E). split; [reflexivity|lra].
        - destruct (round_pos_dichotomy f (n1 / den)) as [[E _]|[E _]]; [lra| |].
          + left. eexists. split; [exact E|].
            rewrite Qred_correct. apply nearest_nonneg. exact Hq1.
          + right. exact E. }
      assert (C2 : (exists r, round f (n2 / den) = JS.Num r /\ 0 <= r)
                   \/ round f (n2 / den) = JS.Infinity false).
      { destruct (Qeq_dec (n2 / den) 0) as [E|N].
        - left. exists 0. rewrite (round_zero f _ E). split; [reflexivity|lra].
        - destruct (round_pos_dichotomy f (n2 / den)) as [[E _]|[E _]]; [lra| |].
          + left. eexists. split; [exact E|].
            rewrite Qred_correct. apply nearest_nonneg. lra.
          + right. exact E. }
      destruct C1 as [(r1 & Er1 & Hr1)|Er1], C2 as [(r2 & Er2 & Hr2)|Er2];
        rewrite Er1, Er2 in M; rewrite Er1 in E1; rewrite Er2 in E2;
        rewrite ?clamp_num in E1 by assumption; rewrite ?clamp_num in E2 by assumption;
        rewrite ?clamp_infinity in E1; rewrite ?clamp_infinity in E2;
        inversion E1; inversion E2; subst u1 u2; clear E1 E2.
      * simpl in M. apply Qle_bool_iff in M.
        destruct (Qlt_le_dec 1 r1) as [G1|L1], (Qlt_le_dec 1 r2) as [G2|L2];
          rewrite ?(Qle_bool_lt r1 1), ?(Qle_bool_le r1 1),
                  ?(Qle_bool_lt r2 1), ?(Qle_bool_le r2 1) by assumption;
          lra.
      * destruct (Qlt_le_dec 1 r1) as [G1|L1];
          rewrite ?(Qle_bool_lt r1 1), ?(Qle_bool_le r1 1) by assumption; lra.
      * discriminate M.
      * lra.
    + set (n1 := Qred (nearest f (d1 - t))) in *.
      assert (Hn1 : 0 <= n1)
        by (unfold n1; rewrite Qred_correct; apply nearest_nonneg; lra).
      assert (X2 : div f (JS.Infinity false) (JS.Num den) = JS.Infinity false).
      { unfold div, JS.div, rnd. rewrite (Qle_bool_le 0 den) by lra. reflexivity. }
      rewrite X2, clamp_infinity in E2. inversion E2; subst u2.
      destruct (position_unit d1) as (u & Eu & _ & Hu1 & _).
      unfold ramp_position in Eu. rewrite Eb, sub_num, R1 in Eu.
      fold n1 in Eu. rewrite E1 in Eu. inversion Eu; subst u. exact Hu1.
    + assert (X : div f (JS.Infinity false) (JS.Num den) = JS.Infinity false).
      { unfold div, JS.div, rnd. rewrite (Qle_bool_le 0 den) by lra. reflexivity. }
      rewrite X, clamp_infinity in E1, E2. inversion E1; inversion E2; subst. lra.
  - (* the smaller distance is not above the tolerance *)
    destruct (position_unit d2) as (u & Eu & Hu0 & _). rewrite E2 in Eu.
    inversion Eu; subst u.
    assert (E0 : ramp_position f (JS.Num t) (JS.Num e1) (JS.Num d1) = JS.Num 0).
    { unfold ramp_position.
      destruct band_width as [-> Hw].
      set (den := Qred (nearest f (e1 - t))).
      assert (Hden : 0 < den) by (unfold den; rewrite Qred_correct; exact Hw).
      apply clamp_low. rewrite sub_num.
      destruct (round_nonpos_cases (d1 - t)) as [(r & -> & Hr & _)| ->]; [lra| |].
      + rewrite div_num by lra. apply round_nonpos_cases.
        unfold Qdiv. rewrite <- (Qmult_0_l (/ den)).
        apply Qmult_le_compat_r; [exact Hr|]. apply Qlt_le_weak, Qinv_lt_0_compat, Hden.
      + right. unfold div, JS.div, rnd. rewrite (Qle_bool_le 0 den) by lra. reflexivity. }
    rewrite E0 in E1. inversion E1; subst u1. exact Hu0.
Qed.

(** What the stage writes on the two flat parts. *)
Lemma FRAG_main_flat distance key tex q :
  distance (GLSL.Vec3 (GLSL.v4x tex) (GLSL.v4y tex) (GLSL.v4z tex)) key = JS.Num q ->
  (q <= t -> GLSL.FRAG_main f distance key (JS.Num t) (JS.Num s) tex = None) /\
  (e1 <= q ->
   GLSL.FRAG_main f distance key (JS.Num t) (JS.Num s) tex
   = Some (GLSL.Vec4 (GLSL.v4x tex) (GLSL.v4y tex) (GLSL.v4z tex) (JS.Num 1))).
Proof.
  intros Hd. destruct lit_epsilon as (r & Er & Hr0 & Hr1).
  unfold GLSL.FRAG_main. cbv zeta. cbn [GLSL.v3x GLSL.v3y GLSL.v3z]. rewrite Hd, Er.
  split; intros H.
  - rewrite (alpha_below q H). unfold JS.lt. rewrite Qle_bool_lt by lra. reflexivity.
  - rewrite (alpha_above q H). unfold JS.lt. rewrite Qle_bool_le by lra. reflexivity.
Qed.

End Ramp.

(** C1, as amended.  The alpha of the fragment stage, computed as the
    stage computes it: in the floating-point format of [precision mediump
    float], every operation rounded to nearest.  For every format that
    meets what GLSL ES asks of [mediump], every tolerance [t >= 0] of the
    format and every smoothing whose upper edge [e1 = t + s], as computed,
    lies above [t]: alpha is exactly 0 for every distance [d <= t] and
    exactly 1 for every [d >= e1], and for every distance it is a number
    between 0 and 1.  It is the polynomial [u * u * (3 - 2 * u)], evaluated
    in the format, at a position [u] between 0 and 1 that does not
    decrease when the distance grows.  The pixel is discarded exactly when
    alpha is below the literal [0.01] of the format, so it is discarded for
    [d <= t] and written with its own colour and alpha 1 for [d >= e1].
    At the numbers nearest to 0.35, 0.10 and 0.40 alpha is 2097153/4194304
    in binary32 and 127/256 in binary16. *)
Theorem C1_alpha_ramp :
  forall (f : Float.format) (distance : GLSL.vec3 -> GLSL.vec3 -> GLSL.float) (t s e1 : Q),
    at_least_mediump f ->
    is_float f t -> 0 <= t ->
    Float.add f (JS.Num t) (JS.Num s) = JS.Num e1 -> t < e1 ->
    (forall d, d <= t -> GLSL.alpha f (JS.Num t) (JS.Num s) (JS.Num d) = JS.Num 0) /\
    (forall d, e1 <= d -> GLSL.alpha f (JS.Num t) (JS.Num s) (JS.Num d) = JS.Num 1) /\
    (forall d, exists a,
       GLSL.alpha f (JS.Num t) (JS.Num s) (JS.Num d) = JS.Num a /\ 0 <= a /\ a <= 1) /\
    (forall x,
       GLSL.alpha f (JS.Num t) (JS.Num s) x
       = let u := ramp_position f (JS.Num t) (JS.Num e1) x in
         Float.mul f (Float.mul f u u)
                   (Float.sub f (GLSL.lit f 3) (Float.mul f (GLSL.lit f 2) u))) /\
    (forall d, exists u,
       ramp_position f (JS.Num t) (JS.Num e1) (JS.Num d) = JS.Num u /\
       0 <= u /\ u <= 1 /\ is_float f u) /\
    (forall d1 d2 u1 u2,
       d1 <= d2 ->
       ramp_position f (JS.Num t) (JS.Num e1) (JS.Num d1) = JS.Num u1 ->
       ramp_position f (JS.Num t) (JS.Num e1) (JS.Num d2) = JS.Num u2 ->
       u1 <= u2) /\
    (forall key tex,
       let rgb := GLSL.Vec3 (GLSL.v4x tex) (GLSL.v4y tex) (GLSL.v4z tex) in
       let a := GLSL.alpha f (JS.Num t) (JS.Num s) (distance rgb key) in
       GLSL.FRAG_main f distance key (JS.Num t) (JS.Num s) tex
       = if JS.lt a (GLSL.lit f 0.01) then None
         else Some (GLSL.Vec4 (GLSL.v4x tex) (GLSL.v4y tex) (GLSL.v4z tex) a)) /\
    (forall key tex d,
       distance (GLSL.Vec3 (GLSL.v4x tex) (GLSL.v4y tex) (GLSL.v4z tex)) key = JS.Num d ->
       (d <= t -> GLSL.FRAG_main f distance key (JS.Num t) (JS.Num s) tex = None) /\
       (e1 <= d ->
        GLSL.FRAG_main f distance key (JS.Num t) (JS.Num s) tex
        = Some (GLSL.Vec4 (GLSL.v4x tex) (GLSL.v4y tex) (GLSL.v4z tex) (JS.Num 1)))) /\
    GLSL.alpha Float.binary32 (GLSL.lit Float.binary32 0.35) (GLSL.lit Float.binary32 0.10)
               (GLSL.lit Float.binary32 0.40)
    = JS.Num (2097153 # 4194304) /\
    GLSL.alpha Float.binary16 (GLSL.lit Float.binary16 0.35) (GLSL.lit Float.binary16 0.10)
               (GLSL.lit Float.binary16 0.40)
    = JS.Num (127 # 256).
Proof.
  intros f distance t s e1 Hf Ht Ht0 He1 Hband.
  split; [intros d; apply (alpha_below f Hf t s e1 Ht Ht0 He1 Hband)|].
  split; [intros d; apply (alpha_above f Hf t s e1 Ht Ht0 He1 Hband)|].
  split; [intros d; apply (alpha_unit f Hf t s e1 Ht Ht0 He1 Hband)|].
  split.
  { intros x. unfold GLSL.alpha, GLSL.smoothstep, ramp_position. cbv zeta.
    rewrite He1. reflexivity. }
  split; [intros d; apply (position_unit f Hf t s e1 Ht Ht0 He1 Hband)|].
  split; [intros d1 d2 u1 u2; apply (position_mono f Hf t s e1 Ht Ht0 He1 Hband)|].
  split; [reflexivity|].
  split; [intros key tex d; apply (FRAG_main_flat f Hf t s e1 Ht Ht0 He1 Hband)|].
  split; vm_compute; reflexivity.
Qed.

Lemma C1_alpha_ramp_witness :
  at_least_mediump Float.binary32 /\
  is_float Float.binary32 (11744051 # 33554432) /\
  0 <= 11744051 # 33554432 /\
  Float.add Float.binary32 (JS.Num (11744051 # 33554432)) (JS.Num (13421773 # 134217728))
  = JS.Num (7549747 # 16777216) /\
  11744051 # 33554432 < 7549747 # 16777216 /\
  GLSL.alpha Float.binary32 (JS.Num (11744051 # 33554432)) (JS.Num (13421773 # 134217728))
             (JS.Num 0.30) = JS.Num 0 /\
  GLSL.alpha Float.binary32 (JS.Num (11744051 # 33554432)) (JS.Num (13421773 # 134217728))
             (JS.Num 0.50) = JS.Num 1.
Proof.
  assert (Hf : at_least_mediump Float.binary32) by (split; simpl; lia).
  assert (Ht : is_float Float.binary32 (11744051 # 33554432)) by (vm_compute; reflexivity).
  assert (Ht0 : 0 <= 11744051 # 33554432) by (unfold Qle; simpl; lia).
  assert (He : Float.add Float.binary32 (JS.Num (11744051 # 33554432))
                 (JS.Num (13421773 # 134217728)) = JS.Num (7549747 # 16777216))
    by (vm_compute; reflexivity).
  assert (Hb : 11744051 # 33554432 < 7549747 # 16777216) by (unfold Qlt; simpl; lia).
  split; [exact Hf|]. split; [exact Ht|]. split; [exact Ht0|]. split; [exact He|].
  split; [exact Hb|].
  destruct (C1_alpha_ramp Float.binary32 (fun _ _ => JS.Num 0) _ _ _ Hf Ht Ht0 He Hb)
    as (Hlow & Hhigh & _).
  split; [apply Hlow | apply Hhigh]; unfold Qle; simpl; lia.
Defined.

(** Where the claim fails.  With zero smoothing, and with a positive
    smoothing too small to move the upper edge in the format, the two
    edges coincide and alpha at [d = t] is [NaN], neither 0 nor 1, and the
    pixel is not discarded.  At the numbers nearest to 0.35, 0.10 and 0.40
    alpha is not one half, in binary32 or in binary16.  And alpha is not
    monotone: in binary32 and in binary16 there are two distances in the
    ramp of tolerance 0.35 and smoothing 0.10, the larger with the smaller
    alpha. *)
Lemma C1_alpha_ramp_counterexample :
  GLSL.alpha Float.binary32 (GLSL.lit Float.binary32 0.35) (JS.Num 0)
             (GLSL.lit Float.binary32 0.35) = JS.NaN /\
  Float.add Float.binary32 (GLSL.lit Float.binary32 0.35) (JS.Num (1 # 1000000000))
  = GLSL.lit Float.binary32 0.35 /\
  GLSL.alpha Float.binary32 (GLSL.lit Float.binary32 0.35) (JS.Num (1 # 1000000000))
             (GLSL.lit Float.binary32 0.35) = JS.NaN /\
  GLSL.FRAG_main Float.binary32 (fun _ _ => GLSL.lit Float.binary32 0.35)
                 (GLSL.Vec3 (JS.Num 0) (JS.Num 1) (JS.Num 0))
                 (GLSL.lit Float.binary32 0.35) (JS.Num 0)
                 (GLSL.Vec4 (JS.Num 0) (JS.Num 1) (JS.Num 0) (JS.Num 1))
  = Some (GLSL.Vec4 (JS.Num 0) (JS.Num 1) (JS.Num 0) JS.NaN) /\
  GLSL.alpha Float.binary32 (GLSL.lit Float.binary32 0.35) (GLSL.lit Float.binary32 0.10)
             (GLSL.lit Float.binary32 0.40)
  = JS.Num (2097153 # 4194304) /\
  ~ 2097153 # 4194304 == 1 # 2 /\
  GLSL.alpha Float.binary16 (GLSL.lit Float.binary16 0.35) (GLSL.lit Float.binary16 0.10)
             (GLSL.lit Float.binary16 0.40)
  = JS.Num (127 # 256) /\
  ~ 127 # 256 == 1 # 2 /\
  (is_float Float.binary32 (15079503 # 33554432) /\
   is_float Float.binary32 (942469 # 2097152) /\
   15079503 # 33554432 < 942469 # 2097152 /\
   GLSL.alpha Float.binary32 (GLSL.lit Float.binary32 0.35) (GLSL.lit Float.binary32 0.10)
              (JS.Num (15079503 # 33554432)) = JS.Num (16775437 # 16777216) /\
   GLSL.alpha Float.binary32 (GLSL.lit Float.binary32 0.35) (GLSL.lit Float.binary32 0.10)
              (JS.Num (942469 # 2097152)) = JS.Num (4193859 # 4194304) /\
   4193859 # 4194304 < 16775437 # 16777216) /\
  (is_float Float.binary16 (1837 # 4096) /\
   is_float Float.binary16 (919 # 2048) /\
   1837 # 4096 < 919 # 2048 /\
   GLSL.alpha Float.binary16 (GLSL.lit Float.binary16 0.35) (GLSL.lit Float.binary16 0.10)
              (JS.Num (1837 # 4096)) = JS.Num (2047 # 2048) /\
   GLSL.alpha Float.binary16 (GLSL.lit Float.binary16 0.35) (GLSL.lit Float.binary16 0.10)
              (JS.Num (919 # 2048)) = JS.Num (1023 # 1024) /\
   1023 # 1024 < 2047 # 2048).
Proof.
  repeat match goal with |- _ /\ _ => split end;
    try (vm_compute; reflexivity); try (intros H; vm_compute in H; discriminate).
Qed.

(** ** The model matrix *)

Section Float32.

Import Float.

Lemma prec32 : (1 <= prec binary32)%Z.
Proof. simpl. lia. Qed.

Lemma prec64 : (1 <= prec binary64)%Z.
Proof. simpl. lia. Qed.

(** Every binary32 number is a binary64 number. *)
Lemma float32_float64 x : is_float binary32 x -> is_float binary64 x.
Proof.
  intros H.
  destruct (round_representable binary32 prec32 x x H) as [(m & e & E & Hm & He & Hmax) C].
  unfold is_float. rewrite (round_exact binary64 prec64 x), C; [reflexivity|].
  exists m, e. split; [exact E|]. split; [|split].
  - apply Z.lt_le_trans with (1 := Hm). apply Z.pow_le_mono_r; simpl; lia.
  - change (emin binary32) with (-149)%Z in He. change (emin binary64) with (-1074)%Z. lia.
  - apply Qlt_trans with (1 := Hmax). apply pow2_lt. simpl. lia.
Qed.

Lemma fround_float x r : App.fround x = JS.Num r -> is_float binary32 r.
Proof.
  destruct x as [q| |sg]; try discriminate. simpl.
  apply (round_fix binary32 prec32).
Qed.

Lemma fround_fix x : is_float binary32 x -> App.fround (JS.Num x) = JS.Num x.
Proof. intros H. exact H. Qed.

Lemma mul64_0_r x : (JS.Num x * JS.Num 0)%f64 = JS.Num 0.
Proof. apply (round_zero binary64). ring. Qed.

Lemma mul64_0_l x : (JS.Num 0 * JS.Num x)%f64 = JS.Num 0.
Proof. apply (round_zero binary64). ring. Qed.

Lemma mul64_1_l x : is_float binary64 x -> (JS.Num 1 * JS.Num x)%f64 = JS.Num x.
Proof.
  intros H. unfold mul, JS.mul, rnd.
  rewrite (round_comp binary64 (1 * x) x) by ring. exact H.
Qed.

Lemma mul64_1_r x : is_float binary64 x -> (JS.Num x * JS.Num 1)%f64 = JS.Num x.
Proof.
  intros H. unfold mul, JS.mul, rnd.
  rewrite (round_comp binary64 (x * 1) x) by ring. exact H.
Qed.

Lemma add64_0_l x : is_float binary64 x -> (JS.Num 0 + JS.Num x)%f64 = JS.Num x.
Proof.
  intros H. unfold add, JS.add, rnd.
  rewrite (round_comp binary64 (0 + x) x) by ring. exact H.
Qed.

Lemma add64_0_r x : is_float binary64 x -> (JS.Num x + JS.Num 0)%f64 = JS.Num x.
Proof.
  intros H. unfold add, JS.add, rnd.
  rewrite (round_comp binary64 (x + 0) x) by ring. exact H.
Qed.

(** Storing a number outside the subnormal range in a [Float32Array]
    changes it by at most [2^-24] of itself. *)
Lemma fround_error x r :
  App.fround (JS.Num x) = JS.Num r -> pow2 (-126) <= Qabs x ->
  Qabs (r - x) <= Qabs x * pow2 (-24).
Proof.
  intros E H. exact (round_relative_error binary32 x r E H).
Qed.

Lemma float32_0 : is_float binary32 0.
Proof. reflexivity. Qed.

Lemma float32_1 : is_float binary32 1.
Proof. vm_compute. reflexivity. Qed.

End Float32.

(** The two loops of [mat4Multiply] written out: entry [4 j + i] of the
    result is row [i] of [a] against column [j] of [b]. *)
Lemma mat4Multiply_entries a b :
  App.mat4Multiply a b =
  map (fun k =>
         let i := (k mod 4)%nat in
         let j := (k / 4)%nat in
         App.fround
           (App.at_ a i * App.at_ b (j * 4)
            + App.at_ a (4 + i) * App.at_ b (j * 4 + 1)
            + App.at_ a (8 + i) * App.at_ b (j * 4 + 2)
            + App.at_ a (12 + i) * App.at_ b (j * 4 + 3))%f64)
      (seq 0 16).
Proof. reflexivity. Qed.

Ltac exact_entries :=
  repeat first
    [ rewrite mul64_0_r | rewrite mul64_0_l
    | rewrite mul64_1_l by (auto using float32_float64, float32_0, float32_1)
    | rewrite mul64_1_r by (auto using float32_float64, float32_0, float32_1)
    | rewrite add64_0_l by (auto using float32_float64, float32_0, float32_1)
    | rewrite add64_0_r by (auto using float32_float64, float32_0, float32_1)
    | rewrite fround_fix by (auto using float32_0, float32_1) ].

(** The product of a translation and a scaling that hold binary32 numbers
    is formed without any rounding. *)
Lemma translate_scale_exact hw hh tx ty tz :
  is_float Float.binary32 hw -> is_float Float.binary32 hh ->
  is_float Float.binary32 tx -> is_float Float.binary32 ty -> is_float Float.binary32 tz ->
  App.mat4Multiply
    (map JS.Num [1; 0; 0; 0;  0; 1; 0; 0;  0; 0; 1; 0;  tx; ty; tz; 1])
    (map JS.Num [hw; 0; 0; 0;  0; hh; 0; 0;  0; 0; 1; 0;  0; 0; 0; 1])
  = map JS.Num [hw; 0; 0; 0;  0; hh; 0; 0;  0; 0; 1; 0;  tx; ty; tz; 1].
Proof.
  intros Hhw Hhh Htx Hty Htz.
  rewrite mat4Multiply_entries.
  cbn [map seq Nat.modulo Nat.div Nat.divmod fst snd Nat.add Nat.mul Nat.sub
       App.at_ lookup list_lookup default from_option id].
  exact_entries. reflexivity.
Qed.

Lemma aspect_of_rounds v : App.aspect_of v = Float.round Float.binary64 (aspect_ratio v).
Proof.
  unfold App.aspect_of, aspect_ratio.
  destruct v as [vid|]; [|reflexivity].
  destruct (videoWidth vid) as [|w]; [reflexivity|].
  destruct (videoHeight vid) as [|h]; reflexivity.
Qed.

(** C2, as amended.  The model matrix as the driver computes it: the
    parameters are binary64 numbers,
    [halfWidth = scale * aspect * 0.5] and
    [halfHeight = scale * 0.5] are formed in binary64 with [aspect] the
    binary64 nearest to the ratio of the video (to 16:9 while it reports
    no dimensions), and the five coefficients are stored as binary32.
    Whenever the five stored coefficients [hw], [hh], [tx], [ty], [tz] are
    finite, the product formed by [mat4Multiply] holds exactly them, with
    no further rounding: it is the matrix of [Translate(tx, ty, tz)] after
    [Scale(hw, hh, 1)], scale first.  A local point (x, y, z) goes to
    (hw x + tx, hh y + ty, z + tz), so the quad over [-1, 1] x [-1, 1]
    becomes [2 hw] wide and [2 hh] tall around the centre (tx, ty, tz), and
    the video enters the half-width only.  Each stored coefficient differs
    from the binary64 number it stores by at most [2^-24] of that number,
    when that number is not below [2^-126] in magnitude. *)
Theorem C2_model_matrix :
  forall (dist scale offX offY : JS.number) (v : option HTMLVideo) (hw hh tx ty tz : Q),
    App.fround (App.halfWidth_of scale v) = JS.Num hw ->
    App.fround (App.halfHeight_of scale) = JS.Num hh ->
    App.fround (App.double offX) = JS.Num tx ->
    App.fround (App.double offY) = JS.Num ty ->
    App.fround (JS.neg (App.double dist)) = JS.Num tz ->
    let m := [hw; 0; 0; 0;  0; hh; 0; 0;  0; 0; 1; 0;  tx; ty; tz; 1] in
    App.aspect_of v = Float.round Float.binary64 (aspect_ratio v) /\
    App.halfWidth_of scale v
    = (App.double scale * Float.round Float.binary64 (aspect_ratio v) * JS.Num 0.5)%f64 /\
    App.modelMatrix_of dist scale offX offY v = map JS.Num m /\
    (forall p, point_eq (transform m p) (Translate tx ty tz (Scale hw hh 1 p))) /\
    (forall x y z,
       point_eq (transform m (Point x y z 1))
                (Point (hw * x + tx) (hh * y + ty) (z + tz) 1)) /\
    (forall y z,
       px (transform m (Point 1 y z 1)) - px (transform m (Point (-1) y z 1)) == 2 * hw) /\
    (forall x z,
       py (transform m (Point x 1 z 1)) - py (transform m (Point x (-1) z 1)) == 2 * hh) /\
    point_eq (transform m (Point 0 0 0 1)) (Point tx ty tz 1) /\
    (forall c x r,
       In (c, r) [ (App.halfWidth_of scale v, hw); (App.halfHeight_of scale, hh);
                   (App.double offX, tx); (App.double offY, ty);
                   (JS.neg (App.double dist), tz) ] ->
       c = JS.Num x -> Float.pow2 (-126) <= Qabs x ->
       Qabs (r - x) <= Qabs x * Float.pow2 (-24)).
Proof.
  intros dist scale offX offY v hw hh tx ty tz Hhw Hhh Htx Hty Htz m.
  split; [apply aspect_of_rounds|].
  split; [unfold App.halfWidth_of; rewrite aspect_of_rounds; reflexivity|].
  split.
  { unfold App.modelMatrix_of, App.mat4Translate, App.mat4Scale, App.Float32Array.
    cbv zeta. cbn [map]. rewrite Hhw, Hhh, Htx, Hty, Htz.
    change (App.fround (JS.Num 0)) with (JS.Num 0).
    change (App.fround (JS.Num 1)) with (JS.Num 1).
    apply translate_scale_exact; eapply fround_float; eassumption. }
  split; [|split; [|split; [|split; [|split]]]].
  - intros p. unfold point_eq, transform, Translate, Scale, m; simpl. repeat split; ring.
  - intros x y z. unfold point_eq, transform, m; simpl. repeat split; ring.
  - intros y z. unfold transform, m; simpl. ring.
  - intros x z. unfold transform, m; simpl. ring.
  - unfold point_eq, transform, m; simpl. repeat split; ring.
  - intros c x r Hin Hc Hx.
    assert (E : App.fround c = JS.Num r).
    { simpl in Hin.
      destruct Hin as [H|[H|[H|[H|[H|[]]]]]]; inversion H; subst c r; assumption. }
    rewrite Hc in E. apply fround_error; assumption.
Qed.

Lemma C2_model_matrix_witness :
  App.fround (App.halfWidth_of (JS.Num 1.5) (Some (mkVideo false 1920 1080 7 true true)))
  = JS.Num (11184811 # 8388608) /\
  App.fround (App.halfHeight_of (JS.Num 1.5)) = JS.Num (3 # 4) /\
  App.fround (App.double (JS.Num 0.25)) = JS.Num (1 # 4) /\
  App.fround (App.double (JS.Num (-0.5))) = JS.Num (-1 # 2) /\
  App.fround (JS.neg (App.double (JS.Num 2))) = JS.Num (-2) /\
  App.modelMatrix_of (JS.Num 2) (JS.Num 1.5) (JS.Num 0.25) (JS.Num (-0.5))
                     (Some (mkVideo false 1920 1080 7 true true))
  = map JS.Num [11184811 # 8388608; 0; 0; 0;  0; 3 # 4; 0; 0;  0; 0; 1; 0;
                1 # 4; -1 # 2; -2; 1].
Proof.
  assert (H1 : App.fround (App.halfWidth_of (JS.Num 1.5)
                             (Some (mkVideo false 1920 1080 7 true true)))
               = JS.Num (11184811 # 8388608)) by (vm_compute; reflexivity).
  assert (H2 : App.fround (App.halfHeight_of (JS.Num 1.5)) = JS.Num (3 # 4))
    by (vm_compute; reflexivity).
  assert (H3 : App.fround (App.double (JS.Num 0.25)) = JS.Num (1 # 4))
    by (vm_compute; reflexivity).
  assert (H4 : App.fround (App.double (JS.Num (-0.5))) = JS.Num (-1 # 2))
    by (vm_compute; reflexivity).
  assert (H5 : App.fround (JS.neg (App.double (JS.Num 2))) = JS.Num (-2))
    by (vm_compute; reflexivity).
  split; [exact H1|]. split; [exact H2|]. split; [exact H3|]. split; [exact H4|].
  split; [exact H5|].
  destruct (C2_model_matrix (JS.Num 2) (JS.Num 1.5) (JS.Num 0.25) (JS.Num (-0.5))
              (Some (mkVideo false 1920 1080 7 true true)) _ _ _ _ _ H1 H2 H3 H4 H5)
    as (_ & _ & Hm & _).
  exact Hm.
Defined.

(** Where the claim fails.  At distance 1.7, scale 1 and no offset, without
    a video, the matrix the driver uploads does not place the centre of the
    quad at depth [-1.7] nor give it the half-width [1 * (16/9) * 0.5]: the
    stored coefficients are the binary32 numbers [-7130317/4194304] and
    [14913081/16777216].  And for a distance beyond the binary32 range the
    stored depth is an infinity and the product has [NaN] entries, so the
    matrix is that of no translation and scaling at all. *)
Lemma C2_model_matrix_counterexample :
  App.modelMatrix_of (JS.Num 1.7) (JS.Num 1) (JS.Num 0) (JS.Num 0) None
  = map JS.Num [14913081 # 16777216; 0; 0; 0;  0; 1 # 2; 0; 0;  0; 0; 1; 0;
                0; 0; -7130317 # 4194304; 1] /\
  ~ -7130317 # 4194304 == - 1.7 /\
  ~ 14913081 # 16777216 == 1 * (16 / 9) * 0.5 /\
  ~ point_eq (transform [14913081 # 16777216; 0; 0; 0;  0; 1 # 2; 0; 0;  0; 0; 1; 0;
                         0; 0; -7130317 # 4194304; 1] (Point 0 0 0 1))
             (Point 0 0 (- 1.7) 1) /\
  App.modelMatrix_of (JS.Num (2 ^ 200)) (JS.Num 1) (JS.Num 0) (JS.Num 0) None
  = [JS.Num (14913081 # 16777216); JS.Num 0; JS.NaN; JS.Num 0;
     JS.Num 0; JS.Num (1 # 2); JS.NaN; JS.Num 0;
     JS.Num 0; JS.Num 0; JS.NaN; JS.Num 0;
     JS.Num 0; JS.Num 0; JS.Infinity true; JS.Num 1].
Proof.
  split; [vm_compute; reflexivity|].
  split; [intros H; vm_compute in H; discriminate|].
  split; [intros H; vm_compute in H; discriminate|].
  split; [intros (_ & _ & H & _); vm_compute in H; discriminate|].
  vm_compute. reflexivity.
Qed.

(** ** Comparisons of JavaScript numbers *)

Lemma Qle_bool_false a b : Qle_bool a b = false -> b < a.
Proof.
  intros H. apply Qnot_le_lt. intros Hle.
  apply Qle_bool_iff in Hle. congruence.
Qed.

Lemma le_between a b d :
  JS.le (JS.Num a) d = true -> JS.le d (JS.Num b) = true ->
  exists q, d = JS.Num q /\ a <= q <= b.
Proof.
  destruct d as [q| |[|]]; simpl; try discriminate.
  intros H1 H2. exists q. split; [reflexivity|].
  split; apply Qle_bool_iff; assumption.
Qed.

Lemma le_Num a b : JS.le (JS.Num a) (JS.Num b) = true <-> a <= b.
Proof. apply Qle_bool_iff. Qed.

Lemma gt_Num a b : JS.gt (JS.Num a) (JS.Num b) = true <-> b < a.
Proof.
  unfold JS.gt, JS.lt. destruct (Qle_bool a b) eqn:E; simpl.
  - apply Qle_bool_iff in E. split; [discriminate | lra].
  - apply Qle_bool_false in E. split; auto.
Qed.

Lemma le_gt_false a b : JS.le a b = true -> JS.gt a b = false.
Proof.
  destruct a as [p| |[|]], b as [q| |[|]]; simpl; try discriminate; try reflexivity.
  intros H. unfold JS.gt, JS.lt. rewrite H. reflexivity.
Qed.

(** [Math.max(lo, x - step)] and [Math.min(hi, x + step)] on finite values. *)
Lemma Math_max_sub lo x step :
  exists q, JS.Math_max (JS.Num lo) (JS.Num x - JS.Num step)%js = JS.Num q /\
            (x - step <= lo -> q = lo) /\ (lo < x - step -> q = x + - step) /\
            lo <= q /\ x - step <= q /\ (q == lo \/ q == x - step).
Proof.
  unfold JS.sub, JS.neg, JS.add, JS.Math_max, JS.lt.
  destruct (Qle_bool (x + - step) lo) eqn:E; simpl.
  - apply Qle_bool_iff in E. exists lo.
    repeat split; try reflexivity; try lra.
  - apply Qle_bool_false in E. exists (x + - step).
    repeat split; try reflexivity; try lra.
Qed.

Lemma Math_min_add hi x step :
  exists q, JS.Math_min (JS.Num hi) (JS.Num x + JS.Num step)%js = JS.Num q /\
            (hi <= x + step -> q = hi) /\ (x + step < hi -> q = x + step) /\
            q <= hi /\ q <= x + step /\ (q == hi \/ q == x + step).
Proof.
  unfold JS.add, JS.Math_min, JS.lt.
  destruct (Qle_bool hi (x + step)) eqn:E; simpl.
  - apply Qle_bool_iff in E. exists hi.
    repeat split; try reflexivity; try lra.
  - apply Qle_bool_false in E. exists (x + step).
    repeat split; try reflexivity; try lra.
Qed.

(** ** Placement parameters under user input *)

Arguments JS.Math_max : simpl never.
Arguments JS.Math_min : simpl never.
Arguments JS.add : simpl never.
Arguments JS.sub : simpl never.
Arguments JS.gt : simpl never.
Arguments JS.le : simpl never.
Arguments JS.parseFloat : simpl never.

Lemma parseFloat_VNum n : JS.parseFloat (JS.VNum n) = n.
Proof. reflexivity. Qed.

Lemma KEY_COLORS_get_green :
  ChromaKey.KEY_COLORS_get "green" = Some (Arr [JS.Num 0.0; JS.Num 1.0; JS.Num 0.0]).
Proof. reflexivity. Qed.

Lemma KEY_COLORS_get_blue :
  ChromaKey.KEY_COLORS_get "blue" = Some (Arr [JS.Num 0.0; JS.Num 0.0; JS.Num 1.0]).
Proof. reflexivity. Qed.

Lemma KEY_COLORS_get_black :
  ChromaKey.KEY_COLORS_get "black" = Some (Arr [JS.Num 0.0; JS.Num 0.0; JS.Num 0.0]).
Proof. reflexivity. Qed.

Ltac case_if :=
  repeat match goal with
         | |- context [if ?b then _ else _] => destruct b eqn:?; simpl
         end.

Ltac run_ui :=
  unfold exec, UIController.handle, UIController.setActiveColor,
    UIController.toleranceSlider_input, UIController.xrToleranceSlider_input,
    UIController.smoothingSlider_input, UIController.distanceSlider_input,
    UIController.scaleSlider_input, UIController.move_tap,
    UIController.xrSmaller_tap, UIController.xrBigger_tap,
    ChromaKey.setKeyColor, ChromaKey.setTolerance, ChromaKey.setSmoothing,
    bind, modify, get, ret;
  rewrite ?KEY_COLORS_get_green, ?KEY_COLORS_get_blue, ?KEY_COLORS_get_black;
  simpl; rewrite ?parseFloat_VNum.

Lemma setActiveColor_placement c w :
  screenDistance (ui (exec (UIController.setActiveColor c) w)) = screenDistance (ui w) /\
  screenScale (ui (exec (UIController.setActiveColor c) w)) = screenScale (ui w).
Proof.
  run_ui. destruct (ChromaKey.KEY_COLORS_get c); simpl; case_if; split; reflexivity.
Qed.

Lemma closer_tap_clamps w d :
  screenDistance (ui w) = JS.Num d ->
  exists q, screenDistance (ui (exec (UIController.move_tap "closer") w)) = JS.Num q /\
            (d - 0.3 <= 0.3 -> q = 0.3) /\ 0.3 <= q /\ d - 0.3 <= q /\
            (q == 0.3 \/ q == d - 0.3) /\
            screenScale (ui (exec (UIController.move_tap "closer") w)) = screenScale (ui w).
Proof.
  intros E. run_ui. rewrite E. unfold UIController.DEPTH_STEP.
  destruct (Math_max_sub 0.3 d 0.3) as (q & -> & H1 & _ & H2 & H3 & H4).
  exists q. repeat split; assumption.
Qed.

Lemma farther_tap_clamps w d :
  screenDistance (ui w) = JS.Num d ->
  exists q, screenDistance (ui (exec (UIController.move_tap "farther") w)) = JS.Num q /\
            (10 <= d + 0.3 -> q = 10) /\ q <= 10 /\ q <= d + 0.3 /\
            (q == 10 \/ q == d + 0.3) /\
            screenScale (ui (exec (UIController.move_tap "farther") w)) = screenScale (ui w).
Proof.
  intros E. run_ui. rewrite E. unfold UIController.DEPTH_STEP.
  destruct (Math_min_add 10 d 0.3) as (q & -> & H1 & _ & H2 & H3 & H4).
  exists q. repeat split; assumption.
Qed.

Lemma smaller_tap_clamps w x :
  screenScale (ui w) = JS.Num x ->
  exists q, screenScale (ui (exec UIController.xrSmaller_tap w)) = JS.Num q /\
            (x - 0.15 <= 0.2 -> q = 0.2) /\ 0.2 <= q /\ x - 0.15 <= q /\
            (q == 0.2 \/ q == x - 0.15) /\
            screenDistance (ui (exec UIController.xrSmaller_tap w)) = screenDistance (ui w).
Proof.
  intros E. run_ui. rewrite E. unfold UIController.SCALE_STEP.
  destruct (Math_max_sub 0.2 x 0.15) as (q & -> & H1 & _ & H2 & H3 & H4).
  exists q. repeat split; assumption.
Qed.

Lemma bigger_tap_clamps w x :
  screenScale (ui w) = JS.Num x ->
  exists q, screenScale (ui (exec UIController.xrBigger_tap w)) = JS.Num q /\
            (5 <= x + 0.15 -> q = 5) /\ q <= 5 /\ q <= x + 0.15 /\
            (q == 5 \/ q == x + 0.15) /\
            screenDistance (ui (exec UIController.xrBigger_tap w)) = screenDistance (ui w).
Proof.
  intros E. run_ui. rewrite E. unfold UIController.SCALE_STEP.
  destruct (Math_min_add 5 x 0.15) as (q & -> & H1 & _ & H2 & H3 & H4).
  exists q. repeat split; assumption.
Qed.

Lemma other_move_tap_placement d w :
  d <> "closer"%string -> d <> "farther"%string ->
  screenDistance (ui (exec (UIController.move_tap d) w)) = screenDistance (ui w) /\
  screenScale (ui (exec (UIController.move_tap d) w)) = screenScale (ui w).
Proof.
  intros Hc Hf. run_ui.
  repeat match goal with
         | |- context [String.eqb d ?s] =>
             destruct (String.eqb_spec d s); [try contradiction | ]; simpl
         end; split; reflexivity.
Qed.

Lemma xrColorToggle_placement w :
  screenDistance (ui (exec UIController.xrColorToggle_tap w)) = screenDistance (ui w) /\
  screenScale (ui (exec UIController.xrColorToggle_tap w)) = screenScale (ui w).
Proof.
  unfold UIController.xrColorToggle_tap, exec, bind, get. simpl.
  match goal with |- context [match ?l with Some _ => _ | None => _ end] => destruct l end.
  - apply setActiveColor_placement.
  - split; reflexivity.
Qed.

Lemma handle_placement i w :
  placement_ok (ui w) -> slider_in_range i ->
  placement_ok (ui (exec (UIController.handle i) w)).
Proof.
  intros (H1 & H2 & H3 & H4) Hi.
  destruct (le_between _ _ _ H1 H2) as (d & Ed & Hd).
  destruct (le_between _ _ _ H3 H4) as (x & Ex & Hx).
  unfold placement_ok.
  destruct i as [c|v|v|v|v|dir| | | |v]; simpl UIController.handle.
  - destruct (setActiveColor_placement c w) as [-> ->]. auto.
  - run_ui. auto.
  - run_ui. auto.
  - run_ui. destruct Hi. auto.
  - run_ui. destruct Hi. auto.
  - destruct (string_dec dir "closer") as [->|Hc].
    + destruct (closer_tap_clamps w d Ed) as (q & -> & _ & Hlo & _ & Hor & ->).
      rewrite Ex. rewrite !le_Num. repeat split; try tauto; try lra.
    + destruct (string_dec dir "farther") as [->|Hf].
      * destruct (farther_tap_clamps w d Ed) as (q & -> & _ & Hhi & _ & Hor & ->).
        rewrite Ex. rewrite !le_Num. repeat split; try tauto; try lra.
      * destruct (other_move_tap_placement dir w Hc Hf) as [-> ->]. auto.
  - destruct (smaller_tap_clamps w x Ex) as (q & -> & _ & Hlo & _ & Hor & ->).
    rewrite Ed. rewrite !le_Num. repeat split; try tauto; try lra.
  - destruct (bigger_tap_clamps w x Ex) as (q & -> & _ & Hhi & _ & Hor & ->).
    rewrite Ed. rewrite !le_Num. repeat split; try tauto; try lra.
  - destruct (xrColorToggle_placement w) as [-> ->]. auto.
  - run_ui. auto.
Qed.

Lemma run_inputs_placement inputs :
  forall w, placement_ok (ui w) -> Forall slider_in_range inputs ->
            placement_ok (ui (run_inputs inputs w)).
Proof.
  induction inputs as [|i rest IH]; intros w Hw Hall; simpl.
  - exact Hw.
  - inversion Hall as [|? ? Hi Hrest]; subst.
    apply IH; [apply handle_placement; assumption | exact Hrest].
Qed.

(** C4, as amended.  Starting from distance 2.0 and scale 1.0, after every
    run of user inputs in which the two placement sliders deliver values
    inside their ranges, the distance lies in [0.3, 10] (0.3 included) and
    the scale in [0.2, 5].  A tap that would leave the range is clamped to
    the bound, not rejected; the slider handlers store the value they are
    handed as it is. *)
Theorem C4_placement_range :
  screenDistance UIController.initial = JS.Num 2.0 /\
  screenScale UIController.initial = JS.Num 1.0 /\
  (forall inputs w,
     ui w = UIController.initial -> Forall slider_in_range inputs ->
     placement_ok (ui (run_inputs inputs w))) /\
  (forall i w,
     placement_ok (ui w) -> slider_in_range i ->
     placement_ok (ui (exec (UIController.handle i) w))) /\
  (forall w d,
     screenDistance (ui w) = JS.Num d -> 10 <= d + 0.3 ->
     screenDistance (ui (exec (UIController.handle (UIController.move_button "farther")) w))
     = JS.Num 10) /\
  (forall w d,
     screenDistance (ui w) = JS.Num d -> d - 0.3 <= 0.3 ->
     screenDistance (ui (exec (UIController.handle (UIController.move_button "closer")) w))
     = JS.Num 0.3) /\
  (forall w x,
     screenScale (ui w) = JS.Num x -> 5 <= x + 0.15 ->
     screenScale (ui (exec (UIController.handle UIController.bigger_button) w)) = JS.Num 5) /\
  (forall w x,
     screenScale (ui w) = JS.Num x -> x - 0.15 <= 0.2 ->
     screenScale (ui (exec (UIController.handle UIController.smaller_button) w)) = JS.Num 0.2) /\
  (forall w v,
     screenDistance (ui (exec (UIController.handle (UIController.distance_slider v)) w))
     = JS.parseFloat (JS.VStr v)) /\
  (forall w v,
     screenScale (ui (exec (UIController.handle (UIController.scale_slider v)) w))
     = JS.parseFloat (JS.VStr v)).
Proof.
  split; [reflexivity|]. split; [reflexivity|].
  split.
  { intros inputs w E Hall. apply run_inputs_placement; [|exact Hall].
    rewrite E. repeat split. }
  split; [intros; apply handle_placement; assumption|].
  split.
  { intros w d E H. destruct (farther_tap_clamps w d E) as (q & Eq & Hq & _).
    simpl UIController.handle. rewrite Eq, (Hq H). reflexivity. }
  split.
  { intros w d E H. destruct (closer_tap_clamps w d E) as (q & Eq & Hq & _).
    simpl UIController.handle. rewrite Eq, (Hq H). reflexivity. }
  split.
  { intros w x E H. destruct (bigger_tap_clamps w x E) as (q & Eq & Hq & _).
    simpl UIController.handle. rewrite Eq, (Hq H). reflexivity. }
  split.
  { intros w x E H. destruct (smaller_tap_clamps w x E) as (q & Eq & Hq & _).
    simpl UIController.handle. rewrite Eq, (Hq H). reflexivity. }
  split; intros; reflexivity.
Qed.

(** C4 as written asks for a distance strictly above 0.3.  Six taps on
    "closer" from the initial 2.0 store exactly 0.3. *)
Lemma C4_closer_counterexample :
  ui sample_page = UIController.initial /\
  screenDistance
    (ui (run_inputs (repeat (UIController.move_button "closer") 6) sample_page))
  = JS.Num 0.3 /\
  ~ placement_strict
      (ui (run_inputs (repeat (UIController.move_button "closer") 6) sample_page)).
Proof.
  split; [reflexivity|]. split; [reflexivity|].
  intros (H & _). vm_compute in H. discriminate H.
Qed.

(** The distance slider handed "12.0" stores 12: the handler does not
    clamp. *)
Example distance_slider_stores_unclamped :
  screenDistance
    (ui (exec (UIController.handle (UIController.distance_slider "12.0")) sample_page))
  = JS.Num 12.
Proof. reflexivity. Qed.

(** Farther from 9.9 stores 10. *)
Example farther_tap_from_9_9 :
  screenDistance
    (ui (run_inputs [UIController.distance_slider "9.9"; UIController.move_button "farther"]
                    sample_page))
  = JS.Num 10.
Proof. reflexivity. Qed.

(** ** Key parameters *)

(** C5, as amended.  [setTolerance] and [setSmoothing] store
    [parseFloat(val)] as it is and touch nothing else of the key
    parameters; so, from non-negative key parameters, the stored ones are
    non-negative after the call exactly when the parsed argument is.  The
    parameters the module starts with, 0.35 and 0.10, are non-negative. *)
Theorem C5_setters_store_parsed :
  forall (w : World) (val : JS.value),
    key_params_ok w ->
    currentTolerance (chroma (exec (ChromaKey.setTolerance val) w)) = JS.parseFloat val /\
    currentSmoothing (chroma (exec (ChromaKey.setTolerance val) w))
    = currentSmoothing (chroma w) /\
    currentSmoothing (chroma (exec (ChromaKey.setSmoothing val) w)) = JS.parseFloat val /\
    currentTolerance (chroma (exec (ChromaKey.setSmoothing val) w))
    = currentTolerance (chroma w) /\
    (key_params_ok (exec (ChromaKey.setTolerance val) w)
     <-> JS.le (JS.Num 0) (JS.parseFloat val) = true) /\
    (key_params_ok (exec (ChromaKey.setSmoothing val) w)
     <-> JS.le (JS.Num 0) (JS.parseFloat val) = true) /\
    JS.le (JS.Num 0) (currentTolerance ChromaKey.initial) = true /\
    JS.le (JS.Num 0) (currentSmoothing ChromaKey.initial) = true.
Proof.
  intros w val [Ht Hs].
  repeat split; try reflexivity; unfold key_params_ok; run_ui; tauto.
Qed.

Lemma C5_setters_store_parsed_witness :
  key_params_ok sample_page /\
  key_params_ok (exec (ChromaKey.setTolerance (JS.VStr "0.2")) sample_page).
Proof.
  assert (H : key_params_ok sample_page) by (split; reflexivity).
  split; [exact H|].
  destruct (C5_setters_store_parsed sample_page (JS.VStr "0.2") H)
    as (_ & _ & _ & _ & Hiff & _).
  apply Hiff. reflexivity.
Defined.

(** C5 as written: a negative argument is stored as it is. *)
Lemma C5_negative_counterexample :
  key_params_ok sample_page /\
  currentTolerance
    (chroma (exec (ChromaKey.setTolerance (JS.VNum (JS.Num (-0.5)))) sample_page))
  = JS.Num (-0.5) /\
  ~ key_params_ok (exec (ChromaKey.setTolerance (JS.VNum (JS.Num (-0.5)))) sample_page).
Proof.
  split; [split; reflexivity|]. split; [reflexivity|].
  intros [H _]. vm_compute in H. discriminate H.
Qed.

(** ** Key colour *)

Lemma KEY_COLORS_get_cases name :
  (name = "green"%string /\ ChromaKey.KEY_COLORS_get name = nth_error presets 0) \/
  (name = "blue"%string /\ ChromaKey.KEY_COLORS_get name = nth_error presets 1) \/
  (name = "black"%string /\ ChromaKey.KEY_COLORS_get name = nth_error presets 2) \/
  (In name ChromaKey.Object_prototype /\
   ChromaKey.KEY_COLORS_get name = Some (Inherited name)) \/
  (name <> "green"%string /\ name <> "blue"%string /\ name <> "black"%string /\
   ~ In name ChromaKey.Object_prototype /\ ChromaKey.KEY_COLORS_get name = None).
Proof.
  unfold ChromaKey.KEY_COLORS_get, ChromaKey.KEY_COLORS.
  destruct (decide (name = "green"%string)) as [->|Hg]; [left; split; reflexivity|].
  destruct (decide (name = "blue"%string)) as [->|Hb];
    [right; left; split; reflexivity|].
  destruct (decide (name = "black"%string)) as [->|Hk];
    [right; right; left; split; reflexivity|].
  right; right; right.
  rewrite !lookup_insert_ne by congruence. rewrite lookup_empty.
  destruct (existsb (String.eqb name) ChromaKey.Object_prototype) eqn:E.
  - left. split; [|reflexivity].
    apply existsb_exists in E. destruct E as (x & Hin & Hx).
    apply String.eqb_eq in Hx. subst. exact Hin.
  - right. repeat split; try assumption.
    intros Hin. assert (existsb (String.eqb name) ChromaKey.Object_prototype = true).
    { apply existsb_exists. exists name. split; [exact Hin | apply String.eqb_refl]. }
    congruence.
Qed.

(** What holds of [setKeyColor]: a name that is neither a preset nor a
    member of [Object.prototype] changes nothing, a preset name selects its
    triple, and so names outside [Object.prototype] keep the key colour
    among the presets. *)
Lemma setKeyColor_outside_prototype name w :
  ~ In name ChromaKey.Object_prototype ->
  (name <> "green"%string -> name <> "blue"%string -> name <> "black"%string ->
   exec (ChromaKey.setKeyColor name) w = w) /\
  (In (currentKeyColor (chroma w)) presets ->
   In (currentKeyColor (chroma (exec (ChromaKey.setKeyColor name) w))) presets).
Proof.
  intros Hout. unfold ChromaKey.setKeyColor, exec.
  destruct (KEY_COLORS_get_cases name)
    as [[-> ->]|[[-> ->]|[[-> ->]|[[Hin _]|(Hg & Hb & Hk & _ & ->)]]]];
    try contradiction; simpl; unfold presets; split; intros; try congruence; simpl; auto.
Qed.

(** C9 at the failing input: [KEY_COLORS["constructor"]] is the inherited
    [Object] function, which is truthy, so [setKeyColor] stores it; the key
    colour is then none of the three presets. *)
Theorem C9_setKeyColor_inherited_member :
  In (currentKeyColor (chroma sample_page)) presets /\
  currentKeyColor (chroma (exec (ChromaKey.setKeyColor "constructor") sample_page))
  = Inherited "constructor" /\
  ~ In (currentKeyColor (chroma (exec (ChromaKey.setKeyColor "constructor") sample_page)))
       presets.
Proof.
  split; [left; reflexivity|]. split; [reflexivity|].
  vm_compute. intros [H|[H|[H|[]]]]; discriminate H.
Qed.

(** ** Tolerance reset on black *)

(** C10.  Selecting black while the tolerance is above 0.2 sets the
    tolerance to 0.15, in the controller and in the compositor; selecting
    green or blue, or black while the tolerance is at most 0.2, leaves both
    as they were. *)
Theorem C10_black_resets_tolerance :
  forall (w : World) (color : string),
    let w' := exec (UIController.setActiveColor color) w in
    (color = "black"%string -> JS.gt (tolerance (ui w)) (JS.Num 0.2) = true ->
     tolerance (ui w') = JS.Num 0.15 /\ currentTolerance (chroma w') = JS.Num 0.15) /\
    (color = "green"%string \/ color = "blue"%string \/
     (color = "black"%string /\ JS.le (tolerance (ui w)) (JS.Num 0.2) = true) ->
     tolerance (ui w') = tolerance (ui w) /\
     currentTolerance (chroma w') = currentTolerance (chroma w)).
Proof.
  intros w color w'. subst w'. split.
  - intros -> Hgt. run_ui. rewrite Hgt. simpl. split; reflexivity.
  - intros [->|[->|[-> Hle]]]; run_ui; try (split; reflexivity).
    rewrite (le_gt_false _ _ Hle). simpl. split; reflexivity.
Qed.

Lemma C10_black_resets_tolerance_witness :
  JS.gt (tolerance (ui sample_page)) (JS.Num 0.2) = true /\
  tolerance (ui (exec (UIController.setActiveColor "black") sample_page)) = JS.Num 0.15 /\
  currentTolerance (chroma (exec (UIController.setActiveColor "black") sample_page))
  = JS.Num 0.15.
Proof.
  assert (H : JS.gt (tolerance (ui sample_page)) (JS.Num 0.2) = true) by reflexivity.
  split; [exact H|].
  apply (proj1 (C10_black_resets_tolerance sample_page "black") eq_refl H).
Defined.


(** ** The calls a context receives *)

Lemma Canvas_eqb_refl c : Canvas_eqb c c = true.
Proof. destruct c; reflexivity. Qed.

Lemma Canvas_eqb_eq a b : Canvas_eqb a b = true <-> a = b.
Proof. destruct a, b; simpl; split; congruence. Qed.

Lemma Handle_eqb_refl p : Handle_eqb p p = true.
Proof. unfold Handle_eqb. rewrite Canvas_eqb_refl, Nat.eqb_refl. reflexivity. Qed.

Lemma cmds_of_app c t1 t2 : cmds_of c (t1 ++ t2) = cmds_of c t1 ++ cmds_of c t2.
Proof.
  induction t1 as [|h t1 IH]; simpl; [reflexivity|].
  destruct h as [c' cmd| | | |]; try exact IH.
  destruct (Canvas_eqb c' c); simpl; rewrite IH; reflexivity.
Qed.

Lemma cmds_of_GL c c' l :
  cmds_of c (map (GL c') l) = if Canvas_eqb c' c then l else [].
Proof.
  induction l as [|x l IH]; simpl.
  - destruct (Canvas_eqb c' c); reflexivity.
  - destruct (Canvas_eqb c' c); rewrite IH; reflexivity.
Qed.

Lemma gl_run_app c l1 l2 :
  gl_run c (l1 ++ l2) = fold_left (gl_exec c) l2 (gl_run c l1).
Proof. unfold gl_run. apply fold_left_app. Qed.

Lemma machine_after_calls c c' new w :
  machine c (with_host (log_calls (map (GL c') new)) w) =
  if Canvas_eqb c' c then fold_left (gl_exec c) new (machine c w) else machine c w.
Proof.
  unfold machine. simpl.
  rewrite cmds_of_app, cmds_of_GL.
  destruct (Canvas_eqb c' c).
  - apply gl_run_app.
  - rewrite app_nil_r. reflexivity.
Qed.

(** Calls that are not [drawArrays] add no draw. *)
Lemma gl_exec_no_draw c m cmd :
  is_draw cmd = false -> m_draws (gl_exec c m cmd) = m_draws m.
Proof.
  destruct cmd; simpl; try discriminate; intros _; try reflexivity;
    unfold set_uniform;
    repeat match goal with
           | |- context [match ?x with _ => _ end] => destruct x; simpl
           end; reflexivity.
Qed.

Lemma fold_gl_exec_no_draw c l :
  forallb (fun cmd => negb (is_draw cmd)) l = true ->
  forall m, m_draws (fold_left (gl_exec c) l m) = m_draws m.
Proof.
  induction l as [|cmd l IH]; intros H m; simpl in *; [reflexivity|].
  apply andb_true_iff in H. destruct H as [H1 H2].
  rewrite IH by exact H2. apply gl_exec_no_draw.
  destruct (is_draw cmd); [discriminate | reflexivity].
Qed.

(** *** The machine, one field at a time *)

Lemma set_uniform_fields loc v m :
  m_program (set_uniform loc v m) = m_program m /\
  m_framebuffer (set_uniform loc v m) = m_framebuffer m /\
  m_viewport (set_uniform loc v m) = m_viewport m /\
  m_draws (set_uniform loc v m) = m_draws m.
Proof.
  unfold set_uniform.
  destruct loc as [l|]; [|repeat split; reflexivity].
  destruct (m_program m) as [p|] eqn:E; [|repeat split; auto].
  destruct (Handle_eqb (loc_program l) p); simpl; repeat split; auto.
Qed.

Lemma program_after c m cmd :
  m_program (gl_exec c m cmd) =
  match cmd with
  | gl_useProgram p => if Canvas_eqb (h_ctx p) c then Some p else m_program m
  | _ => m_program m
  end.
Proof.
  destruct cmd; simpl; try reflexivity; try apply set_uniform_fields.
  destruct (Canvas_eqb (h_ctx p) c); reflexivity.
Qed.

Lemma framebuffer_after c m cmd :
  m_framebuffer (gl_exec c m cmd) =
  match cmd with
  | gl_bindFramebuffer fb => fb
  | _ => m_framebuffer m
  end.
Proof.
  destruct cmd; simpl; try reflexivity; try apply set_uniform_fields.
  destruct (Canvas_eqb (h_ctx p) c); reflexivity.
Qed.

Lemma viewport_after c m cmd :
  m_viewport (gl_exec c m cmd) =
  match cmd with
  | gl_viewport v => Some v
  | _ => m_viewport m
  end.
Proof.
  destruct cmd; simpl; try reflexivity; try apply set_uniform_fields.
  destruct (Canvas_eqb (h_ctx p) c); reflexivity.
Qed.

Lemma draws_after c m cmd :
  m_draws (gl_exec c m cmd) =
  if is_draw cmd then m_draws m ++ [snapshot m] else m_draws m.
Proof.
  destruct cmd; simpl; try reflexivity; try apply set_uniform_fields.
  destruct (Canvas_eqb (h_ctx p) c); reflexivity.
Qed.

Lemma uniforms_after c m cmd l :
  m_uniforms (gl_exec c m cmd) l =
  match uniform_write cmd with
  | Some (Some l', v) =>
      if match m_program m with
         | Some p => Handle_eqb (loc_program l') p
         | None => false
         end && Location_eqb l l'
      then Some v else m_uniforms m l
  | _ => m_uniforms m l
  end.
Proof.
  destruct cmd; simpl; try reflexivity;
    try (destruct (Canvas_eqb (h_ctx p) c); reflexivity);
    unfold set_uniform;
    (destruct loc as [l'|]; [|reflexivity]);
    (destruct (m_program m) as [p|]; [|reflexivity]);
    (destruct (Handle_eqb (loc_program l') p); reflexivity).
Qed.

Lemma Location_eqb_same p n n' :
  Location_eqb (mkLocation p n) (mkLocation p n') = UniformName_eqb n n'.
Proof. unfold Location_eqb. simpl. rewrite Handle_eqb_refl. reflexivity. Qed.

Arguments Handle_eqb : simpl never.
Arguments Canvas_eqb : simpl never.
Arguments gl_exec : simpl never.

(** Evaluates one field of a machine that ran an explicit list of calls of a
    program [p] on its own context. *)
Ltac gl_eval :=
  repeat (first [ rewrite program_after | rewrite framebuffer_after
                | rewrite viewport_after | rewrite uniforms_after
                | rewrite draws_after
                | rewrite Canvas_eqb_refl | rewrite Handle_eqb_refl
                | rewrite Location_eqb_same
                | match goal with
                  | H : h_ctx ?p = _ |- context [h_ctx ?p] => rewrite H
                  end ];
          cbn [uniform_write is_draw loc_program loc_name UniformName_eqb andb]).

(** ** Draws *)

Ltac run_m :=
  unfold exec, completes, bind, get, gl_calls, modify, ret, throw;
  lazy beta iota zeta delta [fst snd].

(** A [render] on an initialised compositor whose key colour is an array
    completes with one draw, and that draw sees the arguments of the call
    and the current key parameters. *)
Lemma render_draws P V Mo fb vp c p k w :
  compositor_on c p w -> currentKeyColor (chroma w) = Arr k ->
  let w' := exec (ChromaKey.render P V Mo fb vp) w in
  completes (ChromaKey.render P V Mo fb vp) w = true /\
  same_modules w w' /\ same_schedulers w w' /\
  (forall c', c' <> c -> machine c' w' = machine c' w) /\
  exists d,
    draws c w' = draws c w ++ [d] /\
    d_framebuffer d = fb /\
    (forall v, vp = Some v -> d_viewport d = Some v) /\
    d_program d = Some p /\
    d_uniform d n_uProjection = Some (UMat P) /\
    d_uniform d n_uView = Some (UMat V) /\
    d_uniform d n_uModel = Some (UMat Mo) /\
    d_uniform d n_uKeyColor = Some (UObj (Arr k)) /\
    d_uniform d n_uTolerance = Some (UFloat (currentTolerance (chroma w))) /\
    d_uniform d n_uSmoothing = Some (UFloat (currentSmoothing (chroma w))).
Proof.
  intros (Hgl & Hprog & Hloc & Hctx) Hkey w'. subst w'.
  unfold ChromaKey.render, ChromaKey.u. run_m.
  rewrite Hgl, Hprog, Hloc, Hkey. run_m.
  split; [reflexivity|].
  split; [repeat split|].
  split; [repeat split|].
  split.
  { intros c' Hne. rewrite !machine_after_calls.
    destruct (Canvas_eqb c c') eqn:E; [apply Canvas_eqb_eq in E; congruence | reflexivity]. }
  unfold draws. rewrite !machine_after_calls, Canvas_eqb_refl.
  set (m0 := machine c w).
  rewrite fold_left_app. cbn [fold_left].
  rewrite draws_after. cbn [is_draw].
  eexists. split.
  { f_equal. destruct vp; simpl; gl_eval; reflexivity. }
  unfold snapshot. cbn [d_framebuffer d_viewport d_program d_uniform].
  destruct vp as [v|]; simpl; gl_eval;
    repeat split; try reflexivity; try congruence.
Qed.

(** With an inherited member for a key colour, [uniform3fv] throws and
    [render] stops short of its draw. *)
Lemma render_throws P V Mo fb vp c p name w :
  compositor_on c p w -> currentKeyColor (chroma w) = Inherited name ->
  let w' := exec (ChromaKey.render P V Mo fb vp) w in
  completes (ChromaKey.render P V Mo fb vp) w = false /\
  same_modules w w' /\ same_schedulers w w' /\
  forall c', draws c' w' = draws c' w.
Proof.
  intros (Hgl & Hprog & Hloc & Hctx) Hkey w'. subst w'.
  unfold ChromaKey.render, ChromaKey.u. run_m.
  rewrite Hgl, Hprog, Hloc, Hkey. run_m.
  split; [reflexivity|].
  split; [repeat split|].
  split; [repeat split|].
  intros c'. unfold draws. rewrite machine_after_calls.
  destruct (Canvas_eqb c c'); [|reflexivity].
  destruct vp; simpl; gl_eval; reflexivity.
Qed.

(** ** Setting key parameters, then drawing *)

Lemma run_calls_effect calls :
  forall w,
    host (run_calls calls w) = host w /\
    gl (chroma (run_calls calls w)) = gl (chroma w) /\
    program (chroma (run_calls calls w)) = program (chroma w) /\
    uniformsOf (chroma (run_calls calls w)) = uniformsOf (chroma w) /\
    currentKeyColor (chroma (run_calls calls w))
    = requested_keyColor calls (currentKeyColor (chroma w)) /\
    currentTolerance (chroma (run_calls calls w))
    = requested_tolerance calls (currentTolerance (chroma w)) /\
    currentSmoothing (chroma (run_calls calls w))
    = requested_smoothing calls (currentSmoothing (chroma w)).
Proof.
  induction calls as [|s rest IH]; intros w; [repeat split|].
  simpl run_calls.
  destruct (IH (exec (call s) w)) as (Hh & Hg & Hp & Hu & Hk & Ht & Hs).
  unfold run_calls in *. rewrite Hh, Hg, Hp, Hu, Hk, Ht, Hs. clear.
  destruct s as [name|val|val]; simpl.
  - unfold ChromaKey.setKeyColor, exec.
    destruct (ChromaKey.KEY_COLORS_get name); repeat split.
  - repeat split.
  - repeat split.
Qed.

(** C3.  On an initialised compositor, after any run of calls to
    [setKeyColor], [setTolerance] and [setSmoothing], the draw that follows
    sees exactly the values those calls asked for (for each parameter the
    last one set, else the one in force before): the uniforms of that draw
    are the requested key colour, tolerance and smoothing.  The draw is
    issued whenever the key colour held is a colour triple; with an
    inherited member for a key colour (see C9) the draw call throws before
    it draws anything. *)
Theorem C3_draw_sees_current_parameters :
  forall (calls : list SetterCall) (w : World) (P V Mo : list JS.number)
         (fb : option nat) (vp : option Viewport) (c : Canvas) (p : Handle),
    compositor_on c p w ->
    let w1 := run_calls calls w in
    let w2 := exec (ChromaKey.render P V Mo fb vp) w1 in
    (forall k,
       requested_keyColor calls (currentKeyColor (chroma w)) = Arr k ->
       exists d,
         draws c w2 = draws c w ++ [d] /\
         d_uniform d n_uKeyColor = Some (UObj (Arr k)) /\
         d_uniform d n_uTolerance
         = Some (UFloat (requested_tolerance calls (currentTolerance (chroma w)))) /\
         d_uniform d n_uSmoothing
         = Some (UFloat (requested_smoothing calls (currentSmoothing (chroma w))))) /\
    (forall name,
       requested_keyColor calls (currentKeyColor (chroma w)) = Inherited name ->
       draws c w2 = draws c w).
Proof.
  intros calls w P V Mo fb vp c p (Hgl & Hprog & Hloc & Hctx) w1 w2.
  destruct (run_calls_effect calls w) as (Hh & Hg & Hp & Hu & Hk & Ht & Hs).
  fold w1 in Hh, Hg, Hp, Hu, Hk, Ht, Hs.
  assert (Hon : compositor_on c p w1).
  { unfold compositor_on. rewrite Hg, Hp, Hu. auto. }
  assert (Hd : draws c w1 = draws c w).
  { unfold draws, machine. rewrite Hh. reflexivity. }
  split.
  - intros k Hreq. rewrite <- Hk in Hreq.
    destruct (render_draws P V Mo fb vp c p k w1 Hon Hreq)
      as (_ & _ & _ & _ & d & Hdraw & _ & _ & _ & _ & _ & _ & Hkey & Htol & Hsm).
    exists d. fold w2 in Hdraw. rewrite Hdraw, Hd, Hkey, Htol, Hsm, Ht, Hs.
    repeat split.
  - intros name Hreq. rewrite <- Hk in Hreq.
    destruct (render_throws P V Mo fb vp c p name w1 Hon Hreq) as (_ & _ & _ & Hdraw).
    fold w2 in Hdraw. rewrite Hdraw. exact Hd.
Qed.

Lemma C3_draw_sees_current_parameters_witness :
  compositor_on preview_canvas (mkHandle preview_canvas 0) loaded_page /\
  exists d,
    draws preview_canvas
          (exec (ChromaKey.render ChromaKey.IDENTITY ChromaKey.IDENTITY ChromaKey.IDENTITY
                                  None None)
                (run_calls [call_setKeyColor "blue"; call_setTolerance (JS.VStr "0.2")]
                           loaded_page))
    = draws preview_canvas loaded_page ++ [d] /\
    d_uniform d n_uKeyColor = Some (UObj (Arr [JS.Num 0.0; JS.Num 0.0; JS.Num 1.0])) /\
    d_uniform d n_uTolerance = Some (UFloat (JS.Num (1 # 5))).
Proof.
  assert (H : compositor_on preview_canvas (mkHandle preview_canvas 0) loaded_page)
    by (repeat split; reflexivity).
  split; [exact H|].
  destruct (C3_draw_sees_current_parameters
              [call_setKeyColor "blue"; call_setTolerance (JS.VStr "0.2")]
              loaded_page ChromaKey.IDENTITY ChromaKey.IDENTITY ChromaKey.IDENTITY
              None None preview_canvas (mkHandle preview_canvas 0) H) as [Hdraw _].
  destruct (Hdraw [JS.Num 0.0; JS.Num 0.0; JS.Num 1.0] eq_refl) as (d & Hd & Hk & Ht & _).
  exists d. split; [exact Hd|]. split; [exact Hk | exact Ht].
Defined.

(** ** Statements that only log *)

Lemma log_nothing w : with_host (log_calls []) w = w.
Proof.
  destruct w as [h ck pl u a]. destruct h. unfold with_host, log_calls. simpl.
  rewrite app_nil_r. reflexivity.
Qed.

Lemma log_twice l1 l2 w :
  with_host (log_calls l2) (with_host (log_calls l1) w) = with_host (log_calls (l1 ++ l2)) w.
Proof.
  unfold with_host, log_calls. simpl. rewrite app_assoc. reflexivity.
Qed.

Lemma exec_bind {A B} (c : M A) (k : A -> M B) w :
  exec (bind c k) w =
  match fst (c w) with
  | Ok a => exec (k a) (exec c w)
  | Throw _ => exec c w
  end.
Proof. unfold exec, bind. destruct (c w) as [[a|e] w']; reflexivity. Qed.

Lemma logs_only_ret {A} (a : A) : logs_only (ret a).
Proof. intros w. exists []. symmetry. apply log_nothing. Qed.

Lemma logs_only_throw {A} e : logs_only (@throw A e).
Proof. intros w. exists []. symmetry. apply log_nothing. Qed.

Lemma logs_only_get : logs_only get.
Proof. intros w. exists []. symmetry. apply log_nothing. Qed.

Lemma logs_only_log l : logs_only (modify (with_host (log_calls l))).
Proof. intros w. exists l. reflexivity. Qed.

Lemma logs_only_bind {A B} (c : M A) (k : A -> M B) :
  logs_only c -> (forall a, logs_only (k a)) -> logs_only (bind c k).
Proof.
  intros Hc Hk w. rewrite exec_bind.
  destruct (Hc w) as (l1 & E1).
  destruct (fst (c w)) as [a|e].
  - destruct (Hk a (exec c w)) as (l2 & E2).
    exists (l1 ++ l2). rewrite E2, E1. apply log_twice.
  - exists l1. exact E1.
Qed.

Lemma logs_only_gl_calls g new : logs_only (gl_calls g new).
Proof.
  destruct g as [c|]; simpl; [apply logs_only_log | apply logs_only_throw].
Qed.

Ltac logs :=
  repeat first
    [ apply logs_only_ret | apply logs_only_throw | apply logs_only_get
    | apply logs_only_log | apply logs_only_gl_calls
    | apply logs_only_bind; [|intros]
    | match goal with
      | |- logs_only (match ?x with _ => _ end) => destruct x
      end ].

Lemma logs_only_updateTexture v : logs_only (ChromaKey.updateTexture v).
Proof. unfold ChromaKey.updateTexture. logs. Qed.

Lemma logs_only_render P V Mo fb vp : logs_only (ChromaKey.render P V Mo fb vp).
Proof. unfold ChromaKey.render. logs. Qed.

Lemma logs_only_for_each {A} (l : list A) (body : A -> M unit) :
  (forall x, logs_only (body x)) -> logs_only (App.for_each l body).
Proof.
  intros H. induction l as [|x l IH]; simpl.
  - apply logs_only_ret.
  - apply logs_only_bind; [apply H | intros; exact IH].
Qed.

(** Logging leaves the schedulers and the modules alone. *)
Lemma logged_same new w :
  same_modules w (with_host (log_calls new) w) /\
  same_schedulers w (with_host (log_calls new) w) /\
  trace (host (with_host (log_calls new) w)) = trace (host w) ++ new.
Proof. repeat split. Qed.

(** ** The immersive frame callback *)

Ltac logs_driver :=
  unfold ChromaKey.getGL, VideoPlayer.getVideo, VideoPlayer.getReady,
    UIController.getScreenDistance, UIController.getScreenScale,
    UIController.getScreenOffsetX, UIController.getScreenOffsetY;
  repeat first
    [ apply logs_only_ret | apply logs_only_throw | apply logs_only_get
    | apply logs_only_log | apply logs_only_gl_calls
    | apply logs_only_render | apply logs_only_updateTexture
    | apply logs_only_for_each; intros
    | apply logs_only_bind; [|intros]
    | match goal with
      | |- logs_only (match ?x with _ => _ end) => destruct x
      end ].

Lemma session_requestAnimationFrame_running s w :
  xr_active (host w) = Some s ->
  App.session_requestAnimationFrame (Some s) w =
  (Ok tt,
   with_host (fun h =>
     log_calls [XR xr_requestAnimationFrame]
       (set_xr (Some s) (xr_next_session h) (xr_end_listener h)
               (S (xr_frame_requests h)) h)) w).
Proof.
  intros Ha. unfold App.session_requestAnimationFrame, modify, with_host.
  rewrite Ha, Nat.eqb_refl. reflexivity.
Qed.

(** In an immersive session, a frame callback first re-registers itself and
    then only talks to the browser. *)
Lemma xrRenderLoop_reregisters s answer w :
  immersive s w ->
  exists rest,
    exec (App.xrRenderLoop (Some answer)) w =
    with_host (log_calls rest)
      (with_host (fun h =>
         log_calls [XR xr_requestAnimationFrame]
           (set_xr (Some s) (xr_next_session h) (xr_end_listener h)
                   (S (xr_frame_requests h)) h)) w) /\
    (answer = pose_null -> rest = [XR xr_getViewerPose]).
Proof.
  intros [Hs Ha].
  unfold App.xrRenderLoop.
  rewrite exec_bind. simpl fst. cbv beta iota. unfold exec at 2. simpl snd.
  rewrite Hs.
  rewrite exec_bind.
  unfold exec at 2. rewrite (session_requestAnimationFrame_running s w Ha).
  simpl fst. simpl snd. cbv beta iota.
  destruct answer as [e| |views].
  - match goal with
    | |- exists rest, exec ?c ?w1 = _ /\ _ =>
        assert (L : logs_only c) by logs_driver; destruct (L w1) as (rest & E)
    end.
    exists rest. split; [exact E | discriminate].
  - exists [XR xr_getViewerPose]. split; [reflexivity | reflexivity].
  - match goal with
    | |- exists rest, exec ?c ?w1 = _ /\ _ =>
        assert (L : logs_only c) by logs_driver; destruct (L w1) as (rest & E)
    end.
    exists rest. split; [exact E | discriminate].
Qed.

(** C6.  On every frame tick of an immersive session the callback first
    re-registers itself with the session and only then does the rest of its
    work, all of which is requests to the browser: the first request it
    makes is [requestAnimationFrame], and one more callback is pending
    afterwards whatever the rest of the frame does, so also when
    [getViewerPose] throws or a draw fails.  On a tick whose pose is null
    the only other request is [getViewerPose]: no WebGL call is issued, in
    particular no draw, and the callback is registered again all the same.
    The browser having taken one pending callback to run the tick, as many
    are pending after the tick as before. *)
Theorem C6_frame_callback_reregisters :
  forall (s : nat) (answer : PoseAnswer) (w : World),
    immersive s w ->
    let w' := exec (App.xrRenderLoop (Some answer)) w in
    (exists rest,
       trace (host w') = trace (host w) ++ XR xr_requestAnimationFrame :: rest) /\
    xr_frame_requests (host w') = S (xr_frame_requests (host w)) /\
    xr_active (host w') = Some s /\
    (answer = pose_null ->
     trace (host w') = trace (host w) ++ [XR xr_requestAnimationFrame; XR xr_getViewerPose] /\
     (forall c, draws c w' = draws c w) /\
     completes (App.xrRenderLoop (Some answer)) w = true) /\
    (forall n, xr_frame_requests (host w) = S n ->
               xr_frame_requests (host (step (ev_xr_frame (Some answer)) w)) = S n).
Proof.
  intros s answer w Him w'.
  destruct (xrRenderLoop_reregisters s answer w Him) as (rest & E & Hnull).
  fold w' in E.
  split; [exists rest; rewrite E; simpl; rewrite <- app_assoc; reflexivity|].
  split; [rewrite E; reflexivity|].
  split; [rewrite E; reflexivity|].
  split.
  - intros ->. specialize (Hnull eq_refl). subst rest.
    split; [rewrite E; simpl; rewrite <- app_assoc; reflexivity|].
    split.
    + intros c. unfold draws, machine. rewrite E. simpl.
      rewrite <- app_assoc, cmds_of_app. simpl. rewrite app_nil_r. reflexivity.
    + destruct Him as [Hs Ha].
      unfold completes, App.xrRenderLoop, bind, get. simpl. rewrite Hs.
      rewrite (session_requestAnimationFrame_running s w Ha). reflexivity.
  - intros n Hn. destruct Him as [Hs Ha].
    unfold step, dispatch, fire_xr_frame.
    rewrite exec_bind. simpl fst. cbv beta iota. unfold exec at 2. simpl snd.
    rewrite Ha, Hn. rewrite exec_bind. simpl fst. cbv beta iota.
    match goal with
    | |- xr_frame_requests (host (exec _ ?w1)) = _ =>
        destruct (xrRenderLoop_reregisters s answer w1) as (rest' & E' & _);
          [split; [exact Hs | exact Ha] | rewrite E'; reflexivity]
    end.
Qed.

Lemma C6_frame_callback_reregisters_witness :
  immersive 0 entered_page /\
  xr_frame_requests (host entered_page) = 1%nat /\
  xr_frame_requests (host (exec (App.xrRenderLoop (Some pose_null)) entered_page))
  = 2%nat /\
  draws xr_canvas (exec (App.xrRenderLoop (Some pose_null)) entered_page)
  = draws xr_canvas entered_page.
Proof.
  assert (H : immersive 0 entered_page) by (split; reflexivity).
  split; [exact H|]. split; [reflexivity|].
  destruct (C6_frame_callback_reregisters 0 pose_null _ H) as (_ & Hreq & _ & Hnull & _).
  split; [exact Hreq|].
  destruct (Hnull eq_refl) as (_ & Hd & _). apply Hd.
Defined.

(** ** Entering the immersive mode *)


(** ** What the compositor and the controller leave alone *)

Lemma sched_same_refl w : sched_same w w.
Proof. repeat split. Qed.

Lemma sched_same_trans w1 w2 w3 :
  sched_same w1 w2 -> sched_same w2 w3 -> sched_same w1 w3.
Proof.
  intros (Ha & H1 & H2 & H3 & H4 & H5 & H6 & H7) (Ha' & H1' & H2' & H3' & H4' & H5' & H6' & H7').
  repeat split; congruence.
Qed.

Lemma sched_same_inv w w' : sched_same w w' -> scheduler_inv w -> scheduler_inv w'.
Proof.
  intros (Ha & H1 & H2 & H3 & H4 & H5 & H6 & H7) (I1 & I2 & I3).
  unfold scheduler_inv. rewrite Ha, H1, H2, H4, H6. auto.
Qed.

Lemma keeps_ret {A} (a : A) : keeps_sched (ret a).
Proof. intros w. apply sched_same_refl. Qed.

Lemma keeps_throw {A} e : keeps_sched (@throw A e).
Proof. intros w. apply sched_same_refl. Qed.

Lemma keeps_get : keeps_sched get.
Proof. intros w. apply sched_same_refl. Qed.

Lemma keeps_bind {A B} (c : M A) (k : A -> M B) :
  keeps_sched c -> (forall a, keeps_sched (k a)) -> keeps_sched (bind c k).
Proof.
  intros Hc Hk w. rewrite exec_bind.
  destruct (fst (c w)) as [a|e]; [|apply Hc].
  eapply sched_same_trans; [apply Hc | apply Hk].
Qed.

Lemma keeps_chroma f : keeps_sched (modify (with_chroma f)).
Proof. intros w. repeat split. Qed.

Lemma keeps_ui f : keeps_sched (modify (with_ui f)).
Proof. intros w. repeat split. Qed.

Lemma keeps_log l : keeps_sched (modify (with_host (log_calls l))).
Proof. intros w. repeat split. Qed.

Lemma keeps_canvas c f : keeps_sched (modify (with_host (with_canvas c f))).
Proof. intros w. destruct c; repeat split. Qed.

Lemma keeps_next_handle n : keeps_sched (modify (with_host (set_next_handle n))).
Proof. intros w. repeat split. Qed.

Lemma keeps_gl_calls g new : keeps_sched (gl_calls g new).
Proof. destruct g; simpl; [apply keeps_log | apply keeps_throw]. Qed.

Ltac keeps :=
  repeat first
    [ apply keeps_ret | apply keeps_throw | apply keeps_get
    | apply keeps_chroma | apply keeps_ui | apply keeps_log | apply keeps_canvas
    | apply keeps_next_handle | apply keeps_gl_calls
    | apply keeps_bind; [|intros]
    | match goal with
      | |- keeps_sched (match ?x with _ => _ end) => destruct x
      | |- keeps_sched (let '(_, _) := ?x in _) => destruct x
      end ].

Lemma keeps_new_handle c : keeps_sched (new_handle c).
Proof. unfold new_handle. keeps. Qed.

Lemma keeps_init c answer : keeps_sched (ChromaKey.init c answer).
Proof.
  unfold ChromaKey.init, ChromaKey.createProgram, ChromaKey.createQuad.
  destruct answer; keeps; apply keeps_new_handle.
Qed.

Lemma keeps_updateTexture v : keeps_sched (ChromaKey.updateTexture v).
Proof. unfold ChromaKey.updateTexture. keeps. Qed.

Lemma keeps_render P V Mo fb vp : keeps_sched (ChromaKey.render P V Mo fb vp).
Proof. unfold ChromaKey.render. keeps. Qed.

Lemma keeps_renderPreview v : keeps_sched (ChromaKey.renderPreview v).
Proof.
  unfold ChromaKey.renderPreview.
  repeat first
    [ apply keeps_updateTexture | apply keeps_render | apply keeps_ret
    | apply keeps_get | apply keeps_canvas | apply keeps_gl_calls
    | apply keeps_bind; [|intros]
    | match goal with
      | |- keeps_sched (match ?x with _ => _ end) => destruct x
      end ].
Qed.

Lemma keeps_setStatus msg type : keeps_sched (UIController.setStatus msg type).
Proof. unfold UIController.setStatus. keeps. Qed.

Lemma keeps_showXROverlay b : keeps_sched (UIController.showXROverlay b).
Proof. unfold UIController.showXROverlay. keeps. Qed.

Lemma keeps_handle i : keeps_sched (UIController.handle i).
Proof.
  destruct i; simpl;
    unfold UIController.setActiveColor, UIController.toleranceSlider_input,
      UIController.xrToleranceSlider_input, UIController.toleranceSlider_input,
      UIController.smoothingSlider_input, UIController.distanceSlider_input,
      UIController.scaleSlider_input, UIController.move_tap,
      UIController.xrSmaller_tap, UIController.xrBigger_tap,
      UIController.xrColorToggle_tap, UIController.setActiveColor,
      ChromaKey.setKeyColor, ChromaKey.setTolerance, ChromaKey.setSmoothing;
    keeps.
Qed.

Lemma keeps_play : keeps_sched VideoPlayer.play.
Proof. unfold VideoPlayer.play. keeps. Qed.

(** ** The preview loop *)

Lemma exec_get_bind {B} (k : World -> M B) w : exec (bind get k) w = exec (k w) w.
Proof. reflexivity. Qed.

Lemma completes_bind {A B} (c : M A) (k : A -> M B) w :
  completes (bind c k) w =
  match fst (c w) with
  | Ok a => completes (k a) (exec c w)
  | Throw _ => false
  end.
Proof. unfold completes, exec, bind. destruct (c w) as [[a|e] w']; reflexivity. Qed.

(** The part of [loop] before the re-registration: the preview draw, if the
    video plays. *)
Lemma keeps_preview_draw (v : option HTMLVideo) (ready : bool) :
  keeps_sched (match v with
               | Some vid => if ready && negb (paused vid)
                             then ChromaKey.renderPreview vid else ret tt
               | None => ret tt
               end).
Proof.
  destruct v as [vid|]; [|apply keeps_ret].
  destruct (ready && negb (paused vid)); [apply keeps_renderPreview | apply keeps_ret].
Qed.

(** The upload of a frame changes no variable of the compositor; it
    completes for an origin-clean video, and throws for any other once the
    compositor has a texture. *)
Lemma updateTexture_chroma v w :
  chroma (exec (ChromaKey.updateTexture v) w) = chroma w.
Proof.
  unfold ChromaKey.updateTexture, exec, bind, get. simpl.
  destruct (gl (chroma w)); [|reflexivity].
  destruct (videoTexture (chroma w)); [|reflexivity].
  destruct (origin_clean v); reflexivity.
Qed.

Lemma updateTexture_completes v w :
  origin_clean v = true ->
  completes (ChromaKey.updateTexture v) w = true /\
  chroma (exec (ChromaKey.updateTexture v) w) = chroma w.
Proof.
  intros Hclean. split; [|apply updateTexture_chroma].
  unfold ChromaKey.updateTexture, completes, exec, bind, get. simpl.
  destruct (gl (chroma w)); [|reflexivity].
  destruct (videoTexture (chroma w)); [|reflexivity].
  rewrite Hclean. reflexivity.
Qed.

Lemma updateTexture_refused v c t w :
  origin_clean v = false ->
  gl (chroma w) = Some c -> videoTexture (chroma w) = Some t ->
  ChromaKey.updateTexture v w =
  (Throw "SecurityError: Failed to execute 'texImage2D'"%string,
   with_host (log_calls [GL c (gl_bindTexture (Some t))]) w).
Proof.
  intros Hclean Hgl Htex.
  unfold ChromaKey.updateTexture, bind, get. rewrite Hgl, Htex. simpl.
  rewrite Hclean. reflexivity.
Qed.

(** A [renderPreview] of an origin-clean video on an initialised
    compositor with a colour triple for a key colour completes. *)
Lemma renderPreview_completes v c p k w :
  origin_clean v = true ->
  compositor_on c p w -> currentKeyColor (chroma w) = Arr k ->
  completes (ChromaKey.renderPreview v) w = true.
Proof.
  intros Hclean Hon Hkey. pose proof Hon as (Hgl & _).
  unfold ChromaKey.renderPreview.
  rewrite completes_bind. simpl fst. cbv beta iota.
  change (exec get w) with w. rewrite Hgl.
  rewrite completes_bind.
  match goal with
  | |- context [fst (?resize w)] =>
      assert (Hr : fst (resize w) = Ok tt /\ chroma (exec resize w) = chroma w)
  end.
  { case_if; split; reflexivity. }
  destruct Hr as [-> Hr].
  match goal with
  | |- completes _ ?w1 = _ => set (wa := w1) in *
  end.
  rewrite completes_bind. simpl fst. cbv beta iota. change (exec get wa) with wa.
  rewrite completes_bind. simpl fst. cbv beta iota.
  match goal with
  | |- completes _ ?w1 = _ =>
      assert (Hb : chroma w1 = chroma w) by (rewrite <- Hr; reflexivity);
        set (wb := w1) in *
  end.
  rewrite completes_bind.
  destruct (updateTexture_completes v wb Hclean) as [Hu Hc].
  unfold completes in Hu. destruct (fst (ChromaKey.updateTexture v wb)); [|discriminate].
  assert (Hon' : compositor_on c p (exec (ChromaKey.updateTexture v) wb)).
  { unfold compositor_on in *. rewrite Hc, Hb. exact Hon. }
  assert (Hkey' : currentKeyColor (chroma (exec (ChromaKey.updateTexture v) wb)) = Arr k).
  { rewrite Hc, Hb. exact Hkey. }
  apply (render_draws _ _ _ None None c p k _ Hon' Hkey').
Qed.

(** Registering the next round after a statement that leaves the
    schedulers alone. *)
Lemma register_after (draw : M unit) w :
  keeps_sched draw ->
  let c := draw >>
           let* id := App.window_requestAnimationFrame in
           modify (with_app (App.set_previewAnimId (Some id))) in
  let w' := exec c w in
  isXR (app w') = isXR (app w) /\ xrSession (app w') = xrSession (app w) /\
  xr_active (host w') = xr_active (host w) /\
  xr_end_listener (host w') = xr_end_listener (host w) /\
  xr_frame_requests (host w') = xr_frame_requests (host w) /\
  xr_next_session (host w') = xr_next_session (host w) /\
  completes c w = completes draw w /\
  ((completes c w = false /\
    raf_pending (host w') = raf_pending (host w) /\
    raf_next (host w') = raf_next (host w) /\
    previewAnimId (app w') = previewAnimId (app w)) \/
   (completes c w = true /\
    raf_pending (host w') = raf_pending (host w) ++ [raf_next (host w)] /\
    raf_next (host w') = S (raf_next (host w)) /\
    previewAnimId (app w') = Some (raf_next (host w)))).
Proof.
  intros Hk. specialize (Hk w). destruct Hk as (Ha & H1 & H2 & H3 & H4 & H5 & H6 & H7).
  cbv zeta.
  unfold App.window_requestAnimationFrame, completes, exec, bind, get, modify, ret in *.
  destruct (draw w) as [[[]|e] w1]; simpl in *;
    rewrite ?Ha, ?H1, ?H2, ?H4, ?H5, ?H6, ?H7; repeat split; auto.
Qed.

Lemma loop_unfold w :
  isXR (app w) = false ->
  App.loop w =
  (match video (player w) with
   | Some vid => if isReady (player w) && negb (paused vid)
                 then ChromaKey.renderPreview vid else ret tt
   | None => ret tt
   end >>
   let* id := App.window_requestAnimationFrame in
   modify (with_app (App.set_previewAnimId (Some id)))) w.
Proof.
  intros H. unfold App.loop, VideoPlayer.getVideo, VideoPlayer.getReady.
  unfold bind at 1. unfold get at 1. cbv beta iota. rewrite H. reflexivity.
Qed.

(** One round of [loop] either leaves the preview scheduler as it is (in
    the immersive mode, or when the draw throws) or, completing, registers
    exactly one callback, the one [previewAnimId] then names.  It never
    touches the session. *)
Lemma loop_effect w :
  let w' := exec App.loop w in
  isXR (app w') = isXR (app w) /\ xrSession (app w') = xrSession (app w) /\
  xr_active (host w') = xr_active (host w) /\
  xr_end_listener (host w') = xr_end_listener (host w) /\
  xr_frame_requests (host w') = xr_frame_requests (host w) /\
  xr_next_session (host w') = xr_next_session (host w) /\
  ((raf_pending (host w') = raf_pending (host w) /\
    raf_next (host w') = raf_next (host w) /\
    previewAnimId (app w') = previewAnimId (app w) /\
    (isXR (app w) = true \/ completes App.loop w = false)) \/
   (isXR (app w) = false /\ completes App.loop w = true /\
    raf_pending (host w') = raf_pending (host w) ++ [raf_next (host w)] /\
    raf_next (host w') = S (raf_next (host w)) /\
    previewAnimId (app w') = Some (raf_next (host w)))).
Proof.
  cbv zeta. destruct (isXR (app w)) eqn:HXR.
  { assert (E : App.loop w = (Ok tt, w)).
    { unfold App.loop, bind, get. rewrite HXR. reflexivity. }
    unfold exec, completes. rewrite E. simpl.
    repeat split; auto. left. repeat split; auto. }
  unfold exec, completes. rewrite (loop_unfold w HXR).
  match goal with
  | |- context [(?d >> ?k) w] =>
      pose proof (register_after d w (keeps_preview_draw _ _)) as R
  end.
  cbv zeta in R. unfold exec, completes in R.
  destruct R as (R1 & R2 & R3 & R4 & R5 & R6 & _ & R7).
  rewrite HXR in R1. repeat split; auto.
  destruct R7 as [(C & P1 & P2 & P3)|(C & P1 & P2 & P3)]; [left|right]; repeat split; auto.
Qed.

Lemma loop_completes w :
  isXR (app w) = false ->
  (forall vid, video (player w) = Some vid -> isReady (player w) && negb (paused vid) = true ->
               origin_clean vid = true /\
               exists c p k, compositor_on c p w /\ currentKeyColor (chroma w) = Arr k) ->
  completes App.loop w = true.
Proof.
  intros HXR Hdraw.
  assert (Hc : completes (match video (player w) with
                          | Some vid => if isReady (player w) && negb (paused vid)
                                        then ChromaKey.renderPreview vid else ret tt
                          | None => ret tt
                          end) w = true).
  { destruct (video (player w)) as [vid|]; [|reflexivity].
    destruct (isReady (player w) && negb (paused vid)) eqn:E; [|reflexivity].
    destruct (Hdraw vid eq_refl E) as (Hclean & c & p & k & Hon & Hkey).
    apply (renderPreview_completes vid c p k w Hclean Hon Hkey). }
  unfold completes. rewrite (loop_unfold w HXR).
  match goal with
  | |- context [(?d >> ?k) w] =>
      pose proof (register_after d w (keeps_preview_draw _ _)) as R
  end.
  cbv zeta in R. destruct R as (_ & _ & _ & _ & _ & _ & R & _).
  unfold completes in R, Hc. rewrite R. exact Hc.
Qed.

(** ** Initialising the compositor *)


(** ** Leaving the immersive mode *)

(** [onXREnd] when no preview callback is pending: the mode is Preview
    again, the session variable is cleared, and either the teardown stops
    short with nothing registered, or exactly one preview callback is
    registered, the one [previewAnimId] names. *)
Lemma onXREnd_effect reinit w :
  raf_pending (host w) = [] ->
  let w' := exec (App.onXREnd reinit) w in
  isXR (app w') = false /\ xrSession (app w') = None /\
  xr_active (host w') = xr_active (host w) /\
  xr_end_listener (host w') = xr_end_listener (host w) /\
  xr_frame_requests (host w') = xr_frame_requests (host w) /\
  xr_next_session (host w') = xr_next_session (host w) /\
  ((raf_pending (host w') = [] /\ raf_next (host w') = raf_next (host w) /\
    previewAnimId (app w') = previewAnimId (app w) /\
    completes (App.onXREnd reinit) w = false) \/
   (raf_pending (host w') = [raf_next (host w)] /\
    raf_next (host w') = S (raf_next (host w)) /\
    previewAnimId (app w') = Some (raf_next (host w)) /\
    completes (App.onXREnd reinit) w = true)).
Proof.
  intros Hp. unfold App.onXREnd, App.startPreviewLoop.
  rewrite !exec_bind, !completes_bind. simpl fst. cbv beta iota.
  set (wa := exec (UIController.showXROverlay false) _) in *.
  assert (Hwa : isXR (app wa) = false /\ xrSession (app wa) = None /\
                previewAnimId (app wa) = previewAnimId (app w) /\
                raf_pending (host wa) = [] /\ raf_next (host wa) = raf_next (host w) /\
                xr_active (host wa) = xr_active (host w) /\
                xr_end_listener (host wa) = xr_end_listener (host w) /\
                xr_frame_requests (host wa) = xr_frame_requests (host w) /\
                xr_next_session (host wa) = xr_next_session (host w)).
  { subst wa. repeat split; auto. }
  destruct Hwa as (Wx & Ws & Wp & Wr & Wn & Wa & Wl & Wf & Wt).
  pose proof (keeps_init preview_canvas reinit wa) as (Ha & H1 & H2 & H3 & H4 & H5 & H6 & H7).
  set (wb := exec (ChromaKey.init preview_canvas reinit) wa) in *.
  destruct (fst (ChromaKey.init preview_canvas reinit wa)).
  - pose proof (loop_effect wb) as (L1 & L2 & L3 & L4 & L5 & L6 & L7).
    cbv zeta in L1, L2, L3, L4, L5, L6, L7.
    assert (Hlc : completes App.loop wb = match fst (App.loop wb) with
                                          | Ok _ => true | Throw _ => false end)
      by reflexivity.
    set (wc := exec App.loop wb) in *.
    assert (Hst : forall wx, exec (UIController.setStatus "Exited MR mode." "") wx
                             = with_ui (UIController.set_statusBar "Exited MR mode." "status-bar") wx)
      by reflexivity.
    assert (Hsc : forall wx, completes (UIController.setStatus "Exited MR mode." "") wx = true)
      by reflexivity.
    rewrite Ha, Wx in L1. rewrite Ha, Ws in L2. rewrite H4, Wa in L3.
    rewrite H6, Wl in L4. rewrite H7, Wf in L5. rewrite H5, Wt in L6.
    rewrite ?Ha, ?H1, ?H2, ?Wx, ?Wp, ?Wr, ?Wn in L7.
    destruct (fst (App.loop wb)); rewrite ?Hst, ?Hsc; simpl app; simpl host;
      (repeat split; auto);
      destruct L7 as [(P1 & P2 & P3 & P4)|(_ & P4 & P1 & P2 & P3)];
      rewrite ?Hlc in P4; simpl in P1;
      first [ discriminate P4
            | destruct P4; discriminate
            | left; repeat split; auto; fail
            | right; repeat split; auto; fail
            | auto ].
  - rewrite Ha, H1, H2, H4, H5, H6, H7. rewrite Wx, Ws, Wp, Wr, Wn, Wa, Wl, Wf, Wt.
    repeat split; auto.
Qed.

(** ** What entering leaves alone *)

Lemma preview_same_refl w : preview_same w w.
Proof. repeat split. Qed.

Lemma preview_same_trans w1 w2 w3 :
  preview_same w1 w2 -> preview_same w2 w3 -> preview_same w1 w3.
Proof.
  intros (H1 & H2 & H3 & H4) (H1' & H2' & H3' & H4'). repeat split; congruence.
Qed.

Lemma sched_same_preview w w' : sched_same w w' -> preview_same w w'.
Proof.
  intros (Ha & H1 & H2 & H3 & H4 & H5 & H6 & H7). repeat split; congruence.
Qed.

Lemma keeps_preview_sched {A} (c : M A) : keeps_sched c -> keeps_preview c.
Proof. intros H w. apply sched_same_preview, H. Qed.

Lemma keeps_preview_bind {A B} (c : M A) (k : A -> M B) :
  keeps_preview c -> (forall a, keeps_preview (k a)) -> keeps_preview (bind c k).
Proof.
  intros Hc Hk w. rewrite exec_bind.
  destruct (fst (c w)) as [a|e]; [|apply Hc].
  eapply preview_same_trans; [apply Hc | apply Hk].
Qed.

Lemma exec_try_catch {A} (c : M A) (h : string -> M A) w :
  exec (try_catch c h) w =
  match fst (c w) with
  | Ok _ => exec c w
  | Throw e => exec (h e) (exec c w)
  end.
Proof. unfold exec, try_catch. destruct (c w) as [[a|e] w']; reflexivity. Qed.

Lemma keeps_preview_try_catch {A} (c : M A) (h : string -> M A) :
  keeps_preview c -> (forall e, keeps_preview (h e)) -> keeps_preview (try_catch c h).
Proof.
  intros Hc Hh w. rewrite exec_try_catch.
  destruct (fst (c w)) as [a|e]; [apply Hc|].
  eapply preview_same_trans; [apply Hc | apply Hh].
Qed.

Lemma keeps_preview_set_isXR b : keeps_preview (modify (with_app (App.set_isXR b))).
Proof. intros w. repeat split. Qed.

Lemma keeps_preview_set_xrSession v : keeps_preview (modify (with_app (App.set_xrSession v))).
Proof. intros w. repeat split. Qed.

Lemma keeps_preview_set_xrGLLayer v : keeps_preview (modify (with_app (App.set_xrGLLayer v))).
Proof. intros w. repeat split. Qed.

Lemma keeps_preview_set_xrRefSpace v : keeps_preview (modify (with_app (App.set_xrRefSpace v))).
Proof. intros w. repeat split. Qed.

Lemma keeps_preview_session_raf s : keeps_preview (App.session_requestAnimationFrame s).
Proof.
  destruct s as [s|]; [|apply keeps_preview_sched, keeps_throw].
  intros w. unfold App.session_requestAnimationFrame, exec, modify, with_host. simpl.
  destruct (xr_active (host w)) as [s'|] eqn:E; [|repeat split; auto].
  destruct (Nat.eqb s s'); repeat split; auto.
Qed.

Lemma keeps_preview_session_listen s : keeps_preview (App.session_addEventListener_end s).
Proof.
  destruct s as [s|]; [|apply keeps_preview_sched, keeps_throw].
  intros w. unfold App.session_addEventListener_end, exec, modify, with_host. simpl.
  destruct (xr_active (host w)) as [s'|] eqn:E; [|repeat split; auto].
  destruct (Nat.eqb s s'); repeat split; auto.
Qed.

Ltac keeps_pv :=
  repeat first
    [ apply keeps_preview_set_isXR | apply keeps_preview_set_xrSession
    | apply keeps_preview_set_xrGLLayer | apply keeps_preview_set_xrRefSpace
    | apply keeps_preview_session_raf | apply keeps_preview_session_listen
    | apply keeps_preview_sched;
      first [ apply keeps_init | apply keeps_setStatus | apply keeps_showXROverlay
            | apply keeps_play | apply keeps_log | apply keeps_ret | apply keeps_throw
            | apply keeps_get ]
    | apply keeps_preview_try_catch; [|intros]
    | apply keeps_preview_bind; [|intros]
    | match goal with
      | |- keeps_preview (match ?x with _ => _ end) => destruct x
      end ].

Lemma isSessionSupported_spec answer w :
  App.navigator_xr_isSessionSupported answer w =
  (match answer with Ok b => Ok b | Throw e => Throw e end,
   with_host (log_calls [XR xr_isSessionSupported]) w).
Proof. destruct answer; reflexivity. Qed.

Lemma requestSession_spec answer w :
  App.navigator_xr_requestSession answer w =
  let wl := with_host (log_calls [XR xr_requestSession]) w in
  match xr_active (host w), answer with
  | Some _, _ => (Throw "InvalidStateError", wl)
  | None, Throw e => (Throw e, wl)
  | None, Ok _ =>
      (Ok (xr_next_session (host w)),
       with_host (set_xr (Some (xr_next_session (host w)))
                         (S (xr_next_session (host w))) false 0) wl)
  end.
Proof.
  unfold App.navigator_xr_requestSession, bind, get, modify, throw, ret. simpl.
  destruct (xr_active (host w)); [reflexivity|].
  destruct answer; reflexivity.
Qed.

Lemma startXR_sched a w :
  scheduler_inv w ->
  let w' := exec (App.startXR a) w in
  (preview_same w w' /\ xr_end_listener (host w') = xr_end_listener (host w)) \/
  (raf_pending (host w') = [] /\ raf_next (host w') = raf_next (host w) /\
   xr_active (host w') <> None).
Proof.
  intros (I1 & I2 & I3). cbv zeta.
  unfold App.startXR. rewrite exec_get_bind.
  destruct (navigator_xr (host w)); simpl negb; cbv iota.
  2:{ left. split; [apply sched_same_preview, keeps_setStatus | reflexivity]. }
  rewrite exec_try_catch.
  match goal with
  | |- context [fst (?b w)] => set (body := b)
  end.
  assert (Hh : forall e w1,
             preview_same w1
               (exec (UIController.setStatus ("Failed to start XR: " ++ e) "error" >>
                      modify (with_app (App.set_isXR false))) w1) /\
             xr_end_listener
               (host (exec (UIController.setStatus ("Failed to start XR: " ++ e) "error" >>
                            modify (with_app (App.set_isXR false))) w1))
             = xr_end_listener (host w1)).
  { intros e w1. split; [|reflexivity]. revert w1.
    change (keeps_preview
      (UIController.setStatus ("Failed to start XR: " ++ e) "error" >>
       modify (with_app (App.set_isXR false)))). keeps_pv. }
  assert (Hb : (preview_same w (exec body w) /\
                xr_end_listener (host (exec body w)) = xr_end_listener (host w)) \/
               (raf_pending (host (exec body w)) = [] /\
                raf_next (host (exec body w)) = raf_next (host w) /\
                xr_active (host (exec body w)) <> None)).
  { subst body. clear Hh.
    match goal with
    | |- ?G => 
      match G with
      | context C [exec ?b w] => 
          let Q := fresh "Q" in
          set (Q := fun wb : World =>
             (preview_same w wb /\ xr_end_listener (host wb) = xr_end_listener (host w)) \/
             (raf_pending (host wb) = [] /\ raf_next (host wb) = raf_next (host w) /\
              xr_active (host wb) <> None));
          change (Q (exec b w))
      end
    end.
    assert (QA : forall w1, sched_same w w1 -> Q w1).
    { intros w1 H. left. split; [apply sched_same_preview, H | apply H]. }
    rewrite exec_bind. unfold exec at 2. rewrite isSessionSupported_spec. simpl fst. simpl snd.
    destruct (isSessionSupported a) as [[|]|e]; simpl negb; cbv iota.
    - rewrite exec_bind. unfold exec at 2. rewrite requestSession_spec. cbv zeta.
      simpl (xr_active _).
      destruct (xr_active (host w)) eqn:Eact.
      { simpl fst. cbv iota. unfold exec. rewrite requestSession_spec. simpl.
        rewrite Eact. apply QA. repeat split; auto. }
      destruct (requestSession a) as [[]|e].
      2:{ simpl fst. cbv iota. unfold exec. rewrite requestSession_spec. simpl.
          rewrite Eact. apply QA. repeat split; auto. }
      simpl fst. simpl snd. cbv iota.
      rewrite exec_bind. simpl fst. cbv iota.
      rewrite exec_bind. simpl fst. cbv iota.
      rewrite exec_get_bind.
      rewrite exec_bind.
      match goal with
      | |- Q (match fst (?c ?w3) with Ok _ => exec ?t _ | Throw _ => _ end) =>
          set (tail := t); set (wc := w3) in *
      end.
      assert (Hwc : raf_pending (host wc) = raf_pending (host w) /\
                    raf_next (host wc) = raf_next (host w) /\
                    previewAnimId (app wc) = previewAnimId (app w) /\
                    xr_active (host wc) = Some (xr_next_session (host w)))
        by (repeat split).
      destruct Hwc as (C1 & C2 & C3 & C4).
      match goal with
      | |- Q (match fst (?c wc) with _ => _ end) => set (cancel := c) in *
      end.
      assert (Hc : fst (cancel wc) = Ok tt /\
                   raf_pending (host (exec cancel wc)) = [] /\
                   raf_next (host (exec cancel wc)) = raf_next (host w) /\
                   xr_active (host (exec cancel wc)) = Some (xr_next_session (host w))).
      { subst cancel. rewrite C3.
        unfold App.window_cancelAnimationFrame, exec, modify, ret.
        destruct I1 as [E|(id & E & Ep & Hid)].
        - destruct (previewAnimId (app w)) as [id|]; [destruct (negb (id =? 0))|];
            simpl; rewrite ?C1, ?C2, ?C4, ?E; repeat split; auto.
        - rewrite Ep. apply Nat.eqb_neq in Hid. rewrite Hid. simpl.
          rewrite ?C1, ?C2, ?C4, ?E. simpl. rewrite ?Nat.eqb_refl. repeat split; auto. }
      destruct Hc as (-> & D1 & D2 & D3).
      assert (Ht : keeps_preview tail) by (subst tail; keeps_pv).
      destruct (Ht (exec cancel wc)) as (T1 & T2 & T3 & T4).
      right. rewrite T1, T2, T4, D1, D2, D3. repeat split; auto.
    - apply QA. repeat split; auto.
    - apply QA. repeat split; auto. }
  destruct (fst (body w)) as [x|e]; [exact Hb|].
  destruct (Hh e (exec body w)) as ((P1 & P2 & P3 & P4) & P5).
  destruct Hb as [((B1 & B2 & B3 & B4) & B5)|(B1 & B2 & B3)]; [left|right].
  - repeat split; congruence.
  - rewrite P1, P2, P4. repeat split; auto.
Qed.

(** ** The schedulers, event by event *)

Lemma exec_try_swallow (c : M unit) w :
  exec (try_catch c (fun _ => ret tt)) w = exec c w.
Proof. unfold exec, try_catch, ret. destruct (c w) as [[[]|e] w']; reflexivity. Qed.

Lemma preview_same_inv w w' :
  preview_same w w' -> xr_end_listener (host w') = xr_end_listener (host w) ->
  scheduler_inv w -> scheduler_inv w'.
Proof.
  intros (H1 & H2 & H3 & H4) H5 (I1 & I2 & I3).
  unfold scheduler_inv. rewrite H1, H2, H3, H4, H5. auto.
Qed.

Lemma loop_inv w :
  raf_pending (host w) = [] -> (1 <= raf_next (host w))%nat ->
  xr_end_listener (host w) = false ->
  scheduler_inv (exec App.loop w).
Proof.
  intros Hp Hn Hl.
  destruct (loop_effect w) as (_ & _ & _ & L4 & _ & _ & L7). cbv zeta in L4, L7.
  unfold scheduler_inv. rewrite L4, Hl.
  destruct L7 as [(P1 & P2 & P3 & _)|(_ & _ & P1 & P2 & P3)]; rewrite P1, P2, P3, Hp.
  - repeat split; auto; discriminate.
  - simpl. repeat split; try lia; try discriminate.
    right. exists (raf_next (host w)). repeat split; auto. lia.
Qed.

Lemma startXR_inv a w : scheduler_inv w -> scheduler_inv (exec (App.startXR a) w).
Proof.
  intros Hi. pose proof Hi as (I1 & I2 & I3).
  destruct (startXR_sched a w Hi) as [(Hp & Hl)|(P1 & P2 & P3)].
  - exact (preview_same_inv _ _ Hp Hl Hi).
  - unfold scheduler_inv. rewrite P1, P2. auto.
Qed.

Lemma session_shutdown_inv reinit w :
  scheduler_inv w -> scheduler_inv (exec (App.session_shutdown reinit) w).
Proof.
  intros (I1 & I2 & I3).
  unfold App.session_shutdown. rewrite exec_get_bind, exec_bind. simpl fst. cbv iota.
  set (wm := exec (modify (with_host (fun h => set_xr None (xr_next_session h) false 0 h))) w).
  assert (Hm : raf_pending (host wm) = raf_pending (host w) /\
               raf_next (host wm) = raf_next (host w) /\
               previewAnimId (app wm) = previewAnimId (app w) /\
               xr_end_listener (host wm) = false) by (repeat split).
  destruct Hm as (M1 & M2 & M3 & M4).
  destruct (xr_end_listener (host w)) eqn:El.
  - destruct (I3 eq_refl) as (_ & Hp).
    rewrite exec_try_swallow.
    assert (Hpm : raf_pending (host wm) = []) by (rewrite M1; exact Hp).
    destruct (onXREnd_effect reinit wm Hpm) as (_ & _ & _ & E4 & _ & _ & E7).
    cbv zeta in E4, E7. unfold scheduler_inv. rewrite E4, M4.
    destruct E7 as [(P1 & P2 & P3 & _)|(P1 & P2 & P3 & _)]; rewrite P1, P2, ?P3, M2.
    + repeat split; auto; discriminate.
    + repeat split; try lia; try discriminate.
      right. exists (raf_next (host w)). repeat split; auto. lia.
  - unfold scheduler_inv. change (exec (ret tt) wm) with wm.
    rewrite M1, M2, M3, M4. repeat split; auto; discriminate.
Qed.

Lemma endXR_inv reinit w : scheduler_inv w -> scheduler_inv (exec (App.endXR reinit) w).
Proof.
  intros Hi. unfold App.endXR. rewrite exec_get_bind.
  destruct (xrSession (app w)) as [s|]; [|exact Hi].
  rewrite exec_bind. simpl fst. cbv iota.
  set (wl := exec (modify (with_host (log_calls [XR xr_end]))) w).
  assert (Hl : scheduler_inv wl).
  { apply (sched_same_inv w); [|exact Hi]. apply keeps_log. }
  destruct (xr_active (host w)) as [s'|]; [|exact Hl].
  destruct (Nat.eqb s s'); [|exact Hl].
  apply session_shutdown_inv, Hl.
Qed.

Lemma fire_session_end_inv reinit w :
  scheduler_inv w -> scheduler_inv (exec (fire_session_end reinit) w).
Proof.
  intros Hi. unfold fire_session_end. rewrite exec_get_bind.
  destruct (xr_active (host w)); [|exact Hi].
  apply session_shutdown_inv, Hi.
Qed.

Lemma fire_animation_frame_inv id w :
  scheduler_inv w -> scheduler_inv (exec (fire_animation_frame id) w).
Proof.
  intros Hi. pose proof Hi as (I1 & I2 & I3).
  unfold fire_animation_frame. rewrite exec_get_bind.
  destruct (existsb (Nat.eqb id) (raf_pending (host w))) eqn:Ex; [|exact Hi].
  destruct I1 as [E|(id' & E & Ep & Hid)]; [rewrite E in Ex; discriminate|].
  rewrite E in Ex. simpl in Ex. rewrite orb_false_r in Ex. apply Nat.eqb_eq in Ex. subst id'.
  assert (Hl : xr_end_listener (host w) = false).
  { destruct (xr_end_listener (host w)); [|reflexivity].
    destruct (I3 eq_refl) as (_ & Hp). rewrite E in Hp. discriminate. }
  rewrite exec_bind. simpl fst. cbv iota.
  apply loop_inv.
  - unfold exec, modify. simpl. rewrite E. simpl. rewrite Nat.eqb_refl. reflexivity.
  - exact I2.
  - exact Hl.
Qed.

Lemma session_raf_listener s w :
  xr_end_listener (host (exec (App.session_requestAnimationFrame s) w))
  = xr_end_listener (host w).
Proof.
  destruct s as [s|]; [|reflexivity].
  unfold App.session_requestAnimationFrame, exec, modify, with_host. simpl.
  destruct (xr_active (host w)) as [s'|]; [|reflexivity].
  destruct (Nat.eqb s s'); reflexivity.
Qed.

Lemma xrRenderLoop_inv frame w :
  scheduler_inv w -> scheduler_inv (exec (App.xrRenderLoop frame) w).
Proof.
  intros Hi. unfold App.xrRenderLoop. rewrite exec_get_bind.
  destruct (xrSession (app w)) as [s|] eqn:Es; [|exact Hi].
  destruct frame as [answer|]; [|exact Hi].
  rewrite exec_bind.
  assert (H1 : scheduler_inv (exec (App.session_requestAnimationFrame (Some s)) w)).
  { apply (preview_same_inv w); [apply keeps_preview_session_raf
                                | apply session_raf_listener | exact Hi]. }
  destruct (fst (App.session_requestAnimationFrame (Some s) w)); [|exact H1].
  match goal with
  | |- scheduler_inv (exec ?c ?w1) =>
      assert (L : logs_only c) by logs_driver; destruct (L w1) as (rest & E)
  end.
  rewrite E. apply (sched_same_inv _ _ (keeps_log rest _) H1).
Qed.

Lemma fire_xr_frame_inv frame w :
  scheduler_inv w -> scheduler_inv (exec (fire_xr_frame frame) w).
Proof.
  intros Hi. unfold fire_xr_frame. rewrite exec_get_bind.
  destruct (xr_active (host w)) as [s|] eqn:Ea; [|exact Hi].
  destruct (xr_frame_requests (host w)) as [|n]; [exact Hi|].
  rewrite exec_bind. simpl fst. cbv iota.
  apply xrRenderLoop_inv.
  destruct Hi as (I1 & I2 & I3). unfold scheduler_inv, exec, modify. simpl.
  rewrite Ea in *. auto.
Qed.

Lemma step_inv e w : scheduler_inv w -> scheduler_inv (step e w).
Proof.
  intros Hi. destruct e as [a|reinit|reinit|id|frame|i|v ready]; unfold step, dispatch.
  - apply startXR_inv, Hi.
  - apply endXR_inv, Hi.
  - apply fire_session_end_inv, Hi.
  - apply fire_animation_frame_inv, Hi.
  - apply fire_xr_frame_inv, Hi.
  - apply (sched_same_inv w); [apply keeps_handle | exact Hi].
  - apply (sched_same_inv w); [repeat split | exact Hi].
Qed.

Lemma init_inv has_xr p x answer :
  scheduler_inv (exec (App.init answer) (boot has_xr p x)).
Proof.
  unfold App.init, App.startPreviewLoop.
  rewrite exec_bind.
  set (w0 := boot has_xr p x).
  pose proof (keeps_init preview_canvas answer w0) as (Ha & H1 & H2 & H3 & H4 & H5 & H6 & H7).
  set (w1 := exec (ChromaKey.init preview_canvas answer) w0) in *.
  assert (Hi1 : scheduler_inv w1).
  { unfold scheduler_inv. rewrite H1, H2, H6. simpl. repeat split; auto; discriminate. }
  destruct (fst (ChromaKey.init preview_canvas answer w0)); [|exact Hi1].
  rewrite exec_bind.
  assert (Hi2 : scheduler_inv (exec App.loop w1)).
  { apply loop_inv; [rewrite H1 | rewrite H2 | rewrite H6]; simpl; auto. }
  destruct (fst (App.loop w1)); [|exact Hi2].
  rewrite exec_get_bind.
  destruct (navigator_xr (host (exec App.loop w1))); [|exact Hi2].
  apply (sched_same_inv _ _ (keeps_log _ _) Hi2).
Qed.

Lemma reachable_inv w : reachable w -> scheduler_inv w.
Proof.
  induction 1 as [has_xr p x answer | w e Hr IH].
  - apply init_inv.
  - apply step_inv, IH.
Qed.

(** ** Statements that only act on the browser *)









(** ** The teardown *)


(** A [renderPreview] of a video that is not origin-clean, on a compositor
    that holds a texture, throws at the upload. *)
Lemma renderPreview_refused v c t w :
  origin_clean v = false ->
  gl (chroma w) = Some c -> videoTexture (chroma w) = Some t ->
  completes (ChromaKey.renderPreview v) w = false.
Proof.
  intros Hclean Hgl Htex.
  unfold ChromaKey.renderPreview.
  rewrite completes_bind. simpl fst. cbv beta iota.
  change (exec get w) with w. rewrite Hgl.
  rewrite completes_bind.
  match goal with
  | |- context [fst (?resize w)] =>
      assert (Hr : fst (resize w) = Ok tt /\ chroma (exec resize w) = chroma w)
  end.
  { case_if; split; reflexivity. }
  destruct Hr as [-> Hr].
  match goal with
  | |- completes _ ?w1 = _ => set (wa := w1) in *
  end.
  rewrite completes_bind. simpl fst. cbv beta iota. change (exec get wa) with wa.
  rewrite completes_bind. simpl fst. cbv beta iota.
  match goal with
  | |- completes _ ?w1 = _ =>
      assert (Hb : chroma w1 = chroma w) by (rewrite <- Hr; reflexivity);
        set (wb := w1) in *
  end.
  rewrite completes_bind.
  rewrite (updateTexture_refused v c t wb Hclean) by (rewrite Hb; assumption).
  reflexivity.
Qed.

(** With an inherited member for a key colour it throws at [uniform3fv]. *)
Lemma renderPreview_inherited v c p name w :
  origin_clean v = true ->
  compositor_on c p w -> currentKeyColor (chroma w) = Inherited name ->
  completes (ChromaKey.renderPreview v) w = false.
Proof.
  intros Hclean Hon Hkey. pose proof Hon as (Hgl & _).
  unfold ChromaKey.renderPreview.
  rewrite completes_bind. simpl fst. cbv beta iota.
  change (exec get w) with w. rewrite Hgl.
  rewrite completes_bind.
  match goal with
  | |- context [fst (?resize w)] =>
      assert (Hr : fst (resize w) = Ok tt /\ chroma (exec resize w) = chroma w)
  end.
  { case_if; split; reflexivity. }
  destruct Hr as [-> Hr].
  match goal with
  | |- completes _ ?w1 = _ => set (wa := w1) in *
  end.
  rewrite completes_bind. simpl fst. cbv beta iota. change (exec get wa) with wa.
  rewrite completes_bind. simpl fst. cbv beta iota.
  match goal with
  | |- completes _ ?w1 = _ =>
      assert (Hb : chroma w1 = chroma w) by (rewrite <- Hr; reflexivity);
        set (wb := w1) in *
  end.
  rewrite completes_bind.
  destruct (updateTexture_completes v wb Hclean) as [Hu Hc].
  unfold completes in Hu. destruct (fst (ChromaKey.updateTexture v wb)); [|discriminate].
  assert (Hon' : compositor_on c p (exec (ChromaKey.updateTexture v) wb)).
  { unfold compositor_on in *. rewrite Hc, Hb. exact Hon. }
  assert (Hkey' : currentKeyColor (chroma (exec (ChromaKey.updateTexture v) wb))
                  = Inherited name).
  { rewrite Hc, Hb. exact Hkey. }
  apply (render_throws _ _ _ None None c p name _ Hon' Hkey').
Qed.





Lemma session_shutdown_unheard reinit w :
  xr_end_listener (host w) = false ->
  exec (App.session_shutdown reinit) w = session_stopped w.
Proof.
  intros Hl. unfold App.session_shutdown.
  rewrite exec_get_bind, exec_bind. simpl fst. cbv iota.
  rewrite Hl. reflexivity.
Qed.






(* ================================================================= *)
(** * Further properties of the code *)

(** ** [mat4Multiply] *)

Lemma at_short a i : (length a <= i)%nat -> App.at_ a i = JS.NaN.
Proof.
  intros H. unfold App.at_. rewrite (lookup_ge_None_2 a i H). reflexivity.
Qed.

Lemma add64_NaN_r x : (x + JS.NaN)%f64 = JS.NaN.
Proof. destruct x; reflexivity. Qed.

Lemma mul64_NaN_l x : (JS.NaN * x)%f64 = JS.NaN.
Proof. reflexivity. Qed.

Lemma mul64_NaN_r x : (x * JS.NaN)%f64 = JS.NaN.
Proof. destruct x; reflexivity. Qed.

(** Storing twice is storing once. *)
Lemma fround_idempotent x : App.fround (App.fround x) = App.fround x.
Proof.
  destruct x as [q| |sg]; try reflexivity. simpl.
  destruct (Float.round Float.binary32 q) as [r| |sg] eqn:E; try reflexivity.
  simpl. apply (round_fix Float.binary32 prec32 q r E).
Qed.

Lemma multiply_identity_r (a : list Q) :
  length a = 16%nat -> Forall (is_float Float.binary32) a ->
  App.mat4Multiply (map JS.Num a) ChromaKey.IDENTITY = map JS.Num a.
Proof.
  intros Ha Hf.
  do 17 (destruct a as [|? a]; try discriminate Ha).
  repeat match goal with
         | H : Forall _ (_ :: _) |- _ => apply Forall_cons in H; destruct H as [? H]
         end.
  rewrite mat4Multiply_entries.
  cbn [map seq Nat.modulo Nat.div Nat.divmod fst snd Nat.add Nat.mul Nat.sub
       App.at_ lookup list_lookup default from_option id ChromaKey.IDENTITY].
  exact_entries. reflexivity.
Qed.

Lemma multiply_identity_l (a : list Q) :
  length a = 16%nat -> Forall (is_float Float.binary32) a ->
  App.mat4Multiply ChromaKey.IDENTITY (map JS.Num a) = map JS.Num a.
Proof.
  intros Ha Hf.
  do 17 (destruct a as [|? a]; try discriminate Ha).
  repeat match goal with
         | H : Forall _ (_ :: _) |- _ => apply Forall_cons in H; destruct H as [? H]
         end.
  rewrite mat4Multiply_entries.
  cbn [map seq Nat.modulo Nat.div Nat.divmod fst snd Nat.add Nat.mul Nat.sub
       App.at_ lookup list_lookup default from_option id ChromaKey.IDENTITY].
  exact_entries. reflexivity.
Qed.

(** X2.  [mat4Multiply(a, b)] always returns sixteen entries, each of them
    a binary32 number, an infinity or [NaN]: storing an entry again leaves
    it as it is.  The identity matrix is neutral on both sides for every
    array of sixteen binary32 numbers, with no rounding at all.  An
    argument with fewer than sixteen entries reads [undefined] and leaves
    a [NaN] in the result. *)
Theorem X2_mat4Multiply_shape :
  (forall a b, length (App.mat4Multiply a b) = 16%nat) /\
  (forall a b, Forall (fun x => App.fround x = x) (App.mat4Multiply a b)) /\
  (forall a : list Q,
     length a = 16%nat -> Forall (is_float Float.binary32) a ->
     App.mat4Multiply (map JS.Num a) ChromaKey.IDENTITY = map JS.Num a /\
     App.mat4Multiply ChromaKey.IDENTITY (map JS.Num a) = map JS.Num a) /\
  (forall a b,
     (length a < 16)%nat \/ (length b < 16)%nat -> In JS.NaN (App.mat4Multiply a b)).
Proof.
  split; [intros a b; rewrite mat4Multiply_entries; reflexivity|].
  split.
  { intros a b. rewrite mat4Multiply_entries. apply Forall_map, Forall_forall.
    intros k _. apply fround_idempotent. }
  split; [intros a Ha Hf; split;
          [apply multiply_identity_r | apply multiply_identity_l]; assumption|].
  intros a b H.
  assert (Hn : exists i, App.mat4Multiply a b !! i = Some JS.NaN).
  { rewrite mat4Multiply_entries. destruct H as [H|H].
    - exists 3%nat. cbn. rewrite (at_short a 15) by lia.
      rewrite mul64_NaN_l, add64_NaN_r. reflexivity.
    - exists 15%nat. cbn. rewrite (at_short b 15) by lia.
      rewrite mul64_NaN_r, add64_NaN_r. reflexivity. }
  destruct Hn as (i & Hi).
  apply (list_elem_of_In (App.mat4Multiply a b) JS.NaN).
  apply (list_elem_of_lookup_2 _ i). exact Hi.
Qed.

(** ** The quad and its texture coordinates *)

Lemma init_trace c w :
  trace (host (exec (ChromaKey.init c ChromaKey.ContextOk) w)) =
  trace (host w) ++
  map (GL c)
    ([ gl_useProgram (mkHandle c (next_handle (host w)));
       gl_bindBuffer (Some (mkHandle c (S (next_handle (host w)))));
       gl_bufferData ChromaKey.quad_verts;
       gl_enableVertexAttribArray 0; gl_vertexAttribPointer 0 3 20 0;
       gl_enableVertexAttribArray 1; gl_vertexAttribPointer 1 2 20 12;
       gl_bindTexture (Some (mkHandle c (S (S (next_handle (host w))))));
       gl_texParameteri "TEXTURE_WRAP_S" "CLAMP_TO_EDGE";
       gl_texParameteri "TEXTURE_WRAP_T" "CLAMP_TO_EDGE";
       gl_texParameteri "TEXTURE_MIN_FILTER" "LINEAR";
       gl_texParameteri "TEXTURE_MAG_FILTER" "LINEAR";
       gl_enable "BLEND";
       gl_blendFunc "SRC_ALPHA" "ONE_MINUS_SRC_ALPHA" ]).
Proof.
  unfold ChromaKey.init, ChromaKey.createProgram, ChromaKey.createQuad, new_handle.
  run_m. simpl. rewrite <- !app_assoc. reflexivity.
Qed.

Lemma vertex_arrays_init c w :
  let s := vertex_arrays c (exec (ChromaKey.init c ChromaKey.ContextOk) w) in
  forall v,
    va_fetch s 0 v =
      (let l := take 3 (drop ((0 + v * 20) / 4) ChromaKey.quad_verts) in
       if Nat.eqb (length l) 3 then Some l else None) /\
    va_fetch s 1 v =
      (let l := take 2 (drop ((12 + v * 20) / 4) ChromaKey.quad_verts) in
       if Nat.eqb (length l) 2 then Some l else None).
Proof.
  intros s v. subst s. unfold vertex_arrays.
  rewrite init_trace, cmds_of_app, cmds_of_GL, Canvas_eqb_refl, fold_left_app.
  set (s0 := fold_left (va_exec c) (cmds_of c (trace (host w))) va_fresh).
  unfold va_fetch. simpl.
  rewrite !Canvas_eqb_refl. simpl. rewrite !Handle_eqb_refl. split; reflexivity.
Qed.

Lemma quad_fetch_cases cv w :
  let s := vertex_arrays cv (exec (ChromaKey.init cv ChromaKey.ContextOk) w) in
  va_fetch s 0 0 = Some [-1; -1; 0] /\ va_fetch s 1 0 = Some [0; 1] /\
  va_fetch s 0 1 = Some [1; -1; 0] /\ va_fetch s 1 1 = Some [1; 1] /\
  va_fetch s 0 2 = Some [1; 1; 0] /\ va_fetch s 1 2 = Some [1; 0] /\
  va_fetch s 0 3 = Some [-1; -1; 0] /\ va_fetch s 1 3 = Some [0; 1] /\
  va_fetch s 0 4 = Some [1; 1; 0] /\ va_fetch s 1 4 = Some [1; 0] /\
  va_fetch s 0 5 = Some [-1; 1; 0] /\ va_fetch s 1 5 = Some [0; 0].
Proof.
  intros s. subst s.
  repeat split;
    first [ rewrite (proj1 (vertex_arrays_init cv w _))
          | rewrite (proj2 (vertex_arrays_init cv w _)) ]; reflexivity.
Qed.

(** X3.  After [init] the vertex arrays of the context hold the quad of
    [createQuad] under the layout [createQuad] declares (stride 20 bytes,
    position at offset 0, texture coordinate at offset 12): exactly six
    vertices can be read, each a corner of the square [-1, 1] x [-1, 1] at
    z = 0 with texture coordinate ((x + 1) / 2, (1 - y) / 2).  So at every
    point of either triangle the interpolated texture coordinate is that
    function of the interpolated position (the frame is mapped upright,
    its top-left texel at the top-left corner), and the two triangles
    together cover the whole square. *)
Theorem X3_quad_covers_square_upright :
  forall (cv : Canvas) (w : World),
    let s := vertex_arrays cv (exec (ChromaKey.init cv ChromaKey.ContextOk) w) in
    (forall v, (v < 6)%nat ->
       exists x y u t,
         va_fetch s 0 v = Some [x; y; 0] /\ va_fetch s 1 v = Some [u; t] /\
         (x == 1 \/ x == -1) /\ (y == 1 \/ y == -1) /\
         u == (x + 1) / 2 /\ t == (1 - y) / 2) /\
    (forall v, (6 <= v)%nat -> va_fetch s 0 v = None /\ va_fetch s 1 v = None) /\
    (forall first a b c,
       first = 0%nat \/ first = 3%nat -> a + b + c == 1 ->
       interpolate s 0 first a b c 2 == 0 /\
       interpolate s 1 first a b c 0 == (interpolate s 0 first a b c 0 + 1) / 2 /\
       interpolate s 1 first a b c 1 == (1 - interpolate s 0 first a b c 1) / 2) /\
    (forall x y,
       -1 <= x <= 1 -> -1 <= y <= 1 ->
       exists first a b c,
         (first = 0%nat \/ first = 3%nat) /\
         0 <= a /\ 0 <= b /\ 0 <= c /\ a + b + c == 1 /\
         interpolate s 0 first a b c 0 == x /\
         interpolate s 0 first a b c 1 == y).
Proof.
  intros cv w s.
  destruct (quad_fetch_cases cv w)
    as (P0 & T0 & P1 & T1 & P2 & T2 & P3 & T3 & P4 & T4 & P5 & T5).
  fold s in P0, T0, P1, T1, P2, T2, P3, T3, P4, T4, P5, T5.
  split; [|split; [|split]].
  - intros v Hv.
    do 6 (destruct v as [|v]; [do 4 eexists;
      split; [eassumption|]; split; [eassumption|];
      split; [first [left; reflexivity | right; reflexivity]|];
      split; [first [left; reflexivity | right; reflexivity]|];
      split; reflexivity|]).
    lia.
  - intros v Hv. subst s.
    destruct (vertex_arrays_init cv w v) as [E0 E1]. rewrite E0, E1.
    cbv zeta.
    rewrite !drop_ge; [split; reflexivity| |].
    + change (length ChromaKey.quad_verts) with 30%nat.
      assert ((12 + v * 20) / 4 = 3 + 5 * v)%nat.
      { replace (12 + v * 20)%nat with ((3 + 5 * v) * 4)%nat by lia.
        apply Nat.div_mul. lia. }
      lia.
    + change (length ChromaKey.quad_verts) with 30%nat.
      assert ((0 + v * 20) / 4 = 5 * v)%nat.
      { replace (0 + v * 20)%nat with ((5 * v) * 4)%nat by lia.
        apply Nat.div_mul. lia. }
      lia.
  - intros first a b c [-> | ->] Hsum; unfold interpolate; simpl Nat.add;
      rewrite ?P0, ?T0, ?P1, ?T1, ?P2, ?T2, ?P3, ?T3, ?P4, ?T4, ?P5, ?T5;
      simpl component; (split; [|split]); first [lra | field_simplify_eq; lra].
  - intros x y Hx Hy.
    destruct (Qlt_le_dec x y) as [Hlt|Hle].
    + exists 3%nat, ((1 # 2) * (1 - y)), ((1 # 2) * (1 + x)), ((1 # 2) * (y - x)).
      split; [right; reflexivity|].
      unfold interpolate; simpl Nat.add. rewrite P3, P4, P5. simpl component.
      (split; [|split; [|split; [|split; [|split]]]]);
        first [lra | field_simplify_eq; lra].
    + exists 0%nat, ((1 # 2) * (1 - x)), ((1 # 2) * (x - y)), ((1 # 2) * (1 + y)).
      split; [left; reflexivity|].
      unfold interpolate; simpl Nat.add. rewrite P0, P1, P2. simpl component.
      (split; [|split; [|split; [|split; [|split]]]]);
        first [lra | field_simplify_eq; lra].
Qed.

(** ** Invariants, statement by statement *)

Section Preserves.

Variable I : World -> Prop.

Lemma preserves_ret {A} (a : A) : preserves I (ret a).
Proof. intros w H. exact H. Qed.

Lemma preserves_throw {A} e : preserves I (@throw A e).
Proof. intros w H. exact H. Qed.

Lemma preserves_get : preserves I get.
Proof. intros w H. exact H. Qed.

Lemma preserves_bind {A B} (c : M A) (k : A -> M B) :
  preserves I c -> (forall a, preserves I (k a)) -> preserves I (bind c k).
Proof.
  intros Hc Hk w H. rewrite exec_bind.
  destruct (fst (c w)) as [a|e]; [apply Hk|]; apply Hc, H.
Qed.

Lemma preserves_try_catch {A} (c : M A) (h : string -> M A) :
  preserves I c -> (forall e, preserves I (h e)) -> preserves I (try_catch c h).
Proof.
  intros Hc Hh w H. rewrite exec_try_catch.
  destruct (fst (c w)) as [a|e]; [|apply Hh]; apply Hc, H.
Qed.

Lemma preserves_for_each {A} (l : list A) (body : A -> M unit) :
  (forall x, preserves I (body x)) -> preserves I (App.for_each l body).
Proof.
  intros Hb. induction l as [|x l IH]; simpl.
  - apply preserves_ret.
  - apply preserves_bind; [apply Hb | intros _; exact IH].
Qed.

End Preserves.

(** Breaks a statement into its assignments; an assignment that leaves the
    invariant's fields alone is closed by conversion. *)
Ltac pres :=
  repeat first
    [ apply preserves_ret | apply preserves_throw | apply preserves_get
    | apply preserves_bind; [|intros]
    | apply preserves_try_catch; [|intros]
    | apply preserves_for_each; intros
    | progress cbv beta iota zeta
    | match goal with
      | |- preserves _ (match ?x with _ => _ end) => destruct x
      | |- preserves _ (modify _) =>
          let w := fresh "w" in let H := fresh "H" in
          intros w H; exact H
      end ].

Ltac unfold_code :=
  unfold App.startXR, App.endXR, App.session_shutdown, App.onXREnd,
    App.xrRenderLoop, App.startPreviewLoop, App.loop, App.init,
    App.navigator_xr_isSessionSupported, App.navigator_xr_requestSession,
    App.session_requestAnimationFrame, App.session_addEventListener_end,
    App.window_requestAnimationFrame, App.window_cancelAnimationFrame,
    ChromaKey.init, ChromaKey.createProgram, ChromaKey.createQuad,
    ChromaKey.renderPreview, ChromaKey.render, ChromaKey.updateTexture,
    ChromaKey.getGL, new_handle, gl_calls,
    VideoPlayer.play, VideoPlayer.getVideo, VideoPlayer.getReady,
    UIController.setStatus, UIController.showXROverlay,
    UIController.getScreenDistance, UIController.getScreenScale,
    UIController.getScreenOffsetX, UIController.getScreenOffsetY.

(** ** The controller's and the compositor's key parameters *)

Lemma synced_setActiveColor c : preserves key_params_synced (UIController.setActiveColor c).
Proof.
  intros w [Ht Hs].
  unfold key_params_synced, UIController.setActiveColor, ChromaKey.setKeyColor,
    ChromaKey.setTolerance.
  run_m. destruct (ChromaKey.KEY_COLORS_get c); run_m; simpl;
    destruct (_ && _); simpl; auto.
Qed.

Lemma synced_handle i : preserves key_params_synced (UIController.handle i).
Proof.
  destruct i as [c|v|v|v|v|dir| | | |v]; simpl UIController.handle;
    try apply synced_setActiveColor.
  - intros w [Ht Hs]. unfold key_params_synced. run_ui. auto.
  - intros w [Ht Hs]. unfold key_params_synced. run_ui. auto.
  - intros w [Ht Hs]. unfold key_params_synced. run_ui. auto.
  - intros w [Ht Hs]. unfold key_params_synced. run_ui. auto.
  - intros w [Ht Hs]. unfold key_params_synced. run_ui.
    repeat (destruct (String.eqb dir _); [simpl; auto|]). auto.
  - intros w [Ht Hs]. unfold key_params_synced. run_ui. auto.
  - intros w [Ht Hs]. unfold key_params_synced. run_ui. auto.
  - unfold UIController.xrColorToggle_tap.
    apply preserves_bind; [apply preserves_get|]. intros w0. cbv zeta.
    destruct (_ !! _) as [c|]; [apply synced_setActiveColor | apply preserves_ret].
  - intros w [Ht Hs]. unfold key_params_synced. run_ui. auto.
Qed.

Lemma synced_step e : preserves key_params_synced (dispatch e).
Proof.
  destruct e as [a|reinit|reinit|id|frame|i|v ready]; unfold dispatch.
  - unfold_code. pres.
  - unfold_code. pres.
  - unfold fire_session_end. unfold_code. pres.
  - unfold fire_animation_frame. unfold_code. pres.
  - unfold fire_xr_frame. unfold_code. pres.
  - apply synced_handle.
  - pres.
Qed.

Lemma synced_init answer : preserves key_params_synced (App.init answer).
Proof. unfold_code. pres. Qed.

Lemma synced_reachable w : reachable w -> key_params_synced w.
Proof.
  induction 1 as [has_xr p x answer|w e _ IH].
  - apply synced_init. split; reflexivity.
  - apply synced_step, IH.
Qed.

(** X4.  In every state the page can reach, the tolerance and the
    smoothing the controller shows are the ones the compositor holds (and
    so, by C3, the ones the next draw uses): each handler that assigns one
    assigns the other, and nothing else in the page writes either. *)
Theorem X4_controller_and_compositor_agree :
  forall w, reachable w ->
    tolerance (ui w) = currentTolerance (chroma w) /\
    smoothing (ui w) = currentSmoothing (chroma w).
Proof. exact synced_reachable. Qed.

Lemma X4_controller_and_compositor_agree_witness :
  reachable (step (ev_input (UIController.tolerance_slider "0.5")) entered_page) /\
  tolerance (ui (step (ev_input (UIController.tolerance_slider "0.5")) entered_page))
  = currentTolerance
      (chroma (step (ev_input (UIController.tolerance_slider "0.5")) entered_page)).
Proof.
  assert (Hr : reachable (step (ev_input (UIController.tolerance_slider "0.5")) entered_page)).
  { apply reachable_step. apply reachable_step.
    exact (reachable_loaded true (mkCanvas 300 150 640 360) (mkCanvas 300 150 300 150)
                            ChromaKey.ContextOk). }
  split; [exact Hr|].
  apply (X4_controller_and_compositor_agree _ Hr).
Defined.

(** ** The colour button of the overlay *)

Lemma setActiveColor_preset c k w :
  ChromaKey.KEY_COLORS_get c = Some k ->
  let w' := exec (UIController.setActiveColor c) w in
  currentColor (ui w') = c /\ currentKeyColor (chroma w') = k /\
  (tolerance (ui w') = tolerance (ui w) \/
   (c = "black"%string /\ JS.gt (tolerance (ui w)) (JS.Num 0.2) = true /\
    tolerance (ui w') = JS.Num 0.15)) /\
  (c = "black"%string -> JS.gt (tolerance (ui w')) (JS.Num 0.2) = false).
Proof.
  intros Hk w'. subst w'.
  unfold UIController.setActiveColor, ChromaKey.setKeyColor, ChromaKey.setTolerance.
  rewrite Hk. run_m. simpl.
  destruct (String.eqb c "black") eqn:Ec; simpl.
  - apply String.eqb_eq in Ec.
    destruct (JS.gt (tolerance (ui w)) (JS.Num 0.2)) eqn:Eg; simpl.
    + repeat split; auto.
    + repeat split; auto.
  - repeat split; auto. intros ->. discriminate Ec.
Qed.

Lemma xrColorToggle_next w :
  exec UIController.xrColorToggle_tap w =
  exec (UIController.setActiveColor (next_color (currentColor (ui w)))) w.
Proof.
  unfold UIController.xrColorToggle_tap, next_color.
  rewrite exec_get_bind. cbv zeta.
  destruct (String.eqb_spec (currentColor (ui w)) "green") as [E|N1];
    [rewrite E; reflexivity|].
  destruct (String.eqb_spec (currentColor (ui w)) "blue") as [E|N2];
    [rewrite E; reflexivity|].
  destruct (String.eqb_spec (currentColor (ui w)) "black") as [E|N3];
    [rewrite E; reflexivity|].
  cbn [UIController.indexOf].
  rewrite (proj2 (String.eqb_neq "green" _)) by congruence.
  rewrite (proj2 (String.eqb_neq "blue" _)) by congruence.
  rewrite (proj2 (String.eqb_neq "black" _)) by congruence.
  reflexivity.
Qed.

Lemma next_color_preset c :
  exists k, ChromaKey.KEY_COLORS_get (next_color c) = Some (Arr k) /\ In (Arr k) presets.
Proof.
  unfold next_color.
  destruct (String.eqb c "green"); [|destruct (String.eqb c "blue")];
    eexists; (split; [reflexivity|]); simpl; auto.
Qed.

(** X5.  A tap on the overlay's colour button selects the colour after
    the current one in green, blue, black, green, ...; any other current
    colour (one set through a colour button of an unknown name) is followed
    by green.  The compositor's key colour becomes that preset's triple.
    Three taps starting from a preset colour come back to it, and since
    the cycle passes through black, the tolerance is then not above 0.2. *)
Theorem X5_colour_button_cycles :
  forall w,
    let tap := exec UIController.xrColorToggle_tap in
    (currentColor (ui (tap w)) = next_color (currentColor (ui w)) /\
     ChromaKey.KEY_COLORS_get (currentColor (ui (tap w)))
     = Some (currentKeyColor (chroma (tap w))) /\
     In (currentKeyColor (chroma (tap w))) presets) /\
    (In (currentColor (ui w)) ["green"; "blue"; "black"]%string ->
     currentColor (ui (tap (tap (tap w)))) = currentColor (ui w) /\
     JS.gt (tolerance (ui (tap (tap (tap w))))) (JS.Num 0.2) = false).
Proof.
  intros w tap.
  assert (Hone : forall w0,
            currentColor (ui (tap w0)) = next_color (currentColor (ui w0)) /\
            ChromaKey.KEY_COLORS_get (currentColor (ui (tap w0)))
            = Some (currentKeyColor (chroma (tap w0))) /\
            In (currentKeyColor (chroma (tap w0))) presets /\
            (tolerance (ui (tap w0)) = tolerance (ui w0) \/
             tolerance (ui (tap w0)) = JS.Num 0.15) /\
            (next_color (currentColor (ui w0)) = "black"%string ->
             JS.gt (tolerance (ui (tap w0))) (JS.Num 0.2) = false)).
  { intros w0. subst tap. cbv beta. rewrite xrColorToggle_next.
    destruct (next_color_preset (currentColor (ui w0))) as (k & Hk & Hin).
    destruct (setActiveColor_preset _ _ w0 Hk) as (E1 & E2 & E3 & E4).
    cbv zeta in E1, E2, E3, E4. rewrite E1, E2.
    split; [reflexivity|]. split; [exact Hk|]. split; [exact Hin|].
    split; [|exact E4].
    destruct E3 as [E3|(_ & _ & E3)]; auto. }
  split.
  - destruct (Hone w) as (H1 & H2 & H3 & _). auto.
  - intros Hin.
    destruct (Hone w) as (A1 & _ & _ & A4 & A5).
    destruct (Hone (tap w)) as (B1 & _ & _ & B4 & B5).
    destruct (Hone (tap (tap w))) as (C1 & _ & _ & C4 & C5).
    rewrite A1 in B1, B5. rewrite B1 in C1, C5.
    assert (Hlow : forall x y, JS.gt x (JS.Num 0.2) = false ->
                     y = x \/ y = JS.Num 0.15 -> JS.gt y (JS.Num 0.2) = false).
    { intros x y Hx [-> | ->]; [exact Hx | reflexivity]. }
    simpl in Hin. destruct Hin as [E|[E|[E|[]]]]; rewrite <- E in *.
    + split; [exact C1|].
      apply (Hlow (tolerance (ui (tap (tap w))))); [|exact C4].
      apply B5. reflexivity.
    + split; [exact C1|].
      apply (Hlow (tolerance (ui (tap (tap w))))); [|exact C4].
      apply (Hlow (tolerance (ui (tap w)))); [|exact B4].
      apply A5. reflexivity.
    + split; [exact C1|]. apply C5. reflexivity.
Qed.

(** ** The preview draw *)

Lemma textures_after_calls c c' new w :
  textures c (with_host (log_calls (map (GL c') new)) w) =
  if Canvas_eqb c' c then fold_left (tx_exec c) new (textures c w) else textures c w.
Proof.
  unfold textures. simpl.
  rewrite cmds_of_app, cmds_of_GL.
  destruct (Canvas_eqb c' c).
  - apply fold_left_app.
  - rewrite app_nil_r. reflexivity.
Qed.

Lemma machine_with_canvas c c' f w :
  machine c (with_host (with_canvas c' f) w) = machine c w.
Proof. destruct c'; reflexivity. Qed.

Lemma textures_with_canvas c c' f w :
  textures c (with_host (with_canvas c' f) w) = textures c w.
Proof. destruct c'; reflexivity. Qed.

Lemma canvas_state_set c f h :
  canvas_state c (with_canvas c f h) = f (canvas_state c h).
Proof. destruct c; reflexivity. Qed.

Lemma canvas_state_other c c' f h :
  c' <> c -> canvas_state c' (with_canvas c f h) = canvas_state c' h.
Proof. destruct c, c'; intros H; try reflexivity; congruence. Qed.


(** What a [render] draws with: the frame held by the compositor's
    texture, under the viewport passed, or the context's current one when
    none is passed. *)
Lemma render_samples P V Mo fb vp c p k t w :
  compositor_on c p w -> texture_on c t w -> currentKeyColor (chroma w) = Arr k ->
  let w' := exec (ChromaKey.render P V Mo fb vp) w in
  frames_drawn c w' = frames_drawn c w ++ [tx_image (textures c w) t] /\
  tx_image (textures c w') = tx_image (textures c w) /\
  exists d,
    draws c w' = draws c w ++ [d] /\
    d_viewport d = match vp with
                   | Some v => Some v
                   | None => m_viewport (machine c w)
                   end.
Proof.
  intros (Hgl & Hprog & Hloc & Hctx) (Htex & Htc) Hkey w'. subst w'.
  unfold ChromaKey.render, ChromaKey.u. run_m.
  rewrite Hgl, Hprog, Hloc, Hkey. run_m.
  unfold frames_drawn, draws.
  rewrite !textures_after_calls, !machine_after_calls, Canvas_eqb_refl, Htex.
  split; [|split].
  - rewrite fold_left_app.
    destruct vp; cbn [fold_left tx_exec app]; rewrite Htc, Canvas_eqb_refl; reflexivity.
  - rewrite fold_left_app.
    destruct vp; cbn [fold_left tx_exec app]; rewrite Htc, Canvas_eqb_refl; reflexivity.
  - set (m0 := machine c w).
    rewrite fold_left_app. cbn [fold_left].
    rewrite draws_after. cbn [is_draw].
    eexists. split.
    { f_equal. destruct vp; simpl; gl_eval; reflexivity. }
    unfold snapshot. cbn [d_viewport].
    destruct vp as [v|]; simpl; gl_eval; reflexivity.
Qed.


(** [renderPreview] up to its [render]: the canvas takes its displayed
    size, the viewport covers it, the canvas is cleared and the frame of an
    origin-clean video is uploaded. *)
Lemma renderPreview_steps v c t w :
  origin_clean v = true ->
  gl (chroma w) = Some c -> texture_on c t w ->
  exists w1,
    ChromaKey.renderPreview v w
    = ChromaKey.render ChromaKey.IDENTITY ChromaKey.IDENTITY ChromaKey.IDENTITY None None w1 /\
    chroma w1 = chroma w /\ player w1 = player w /\ ui w1 = ui w /\ app w1 = app w /\
    same_schedulers w w1 /\
    (forall c', c' <> c -> canvas_state c' (host w1) = canvas_state c' (host w)) /\
    (forall c', c' <> c -> machine c' w1 = machine c' w) /\
    width (canvas_state c (host w1)) = clientWidth (canvas_state c (host w)) /\
    height (canvas_state c (host w1)) = clientHeight (canvas_state c (host w)) /\
    clientWidth (canvas_state c (host w1)) = clientWidth (canvas_state c (host w)) /\
    clientHeight (canvas_state c (host w1)) = clientHeight (canvas_state c (host w)) /\
    draws c w1 = draws c w /\
    m_viewport (machine c w1)
    = Some (mkViewport 0 0 (clientWidth (canvas_state c (host w)))
                       (clientHeight (canvas_state c (host w)))) /\
    frames_drawn c w1 = frames_drawn c w /\
    tx_image (textures c w1) t = Some (currentFrame v).
Proof.
  intros Hclean Hgl (Htex & Htc).
  unfold ChromaKey.renderPreview, ChromaKey.updateTexture. run_m. rewrite Hgl.
  set (cs := canvas_state c (host w)).
  destruct (negb (width cs =? clientWidth cs)%Z || negb (height cs =? clientHeight cs)%Z)
    eqn:Hsz; run_m; cbn [chroma with_host]; rewrite Hgl, Htex; run_m; rewrite Hclean; run_m.
  - eexists. split; [reflexivity|].
    split; [reflexivity|]. split; [reflexivity|]. split; [reflexivity|].
    split; [reflexivity|].
    split; [destruct c; repeat split|].
    split; [intros c' Hne; cbn [host with_host]; destruct c, c'; try congruence; reflexivity|].
    split.
    { intros c' Hne. rewrite !machine_after_calls, machine_with_canvas.
      destruct (Canvas_eqb c c') eqn:E; [apply Canvas_eqb_eq in E; congruence|reflexivity]. }
    cbn [host with_host]. 
    replace (canvas_state c (log_calls _ (log_calls _ (log_calls _ (with_canvas c _ (host w))))))
      with (set_size (clientWidth cs) (clientHeight cs) cs)
      by (destruct c; reflexivity).
    split; [reflexivity|]. split; [reflexivity|]. split; [reflexivity|]. split; [reflexivity|].
    unfold draws, frames_drawn.
    rewrite !machine_after_calls, !textures_after_calls, Canvas_eqb_refl,
      machine_with_canvas, textures_with_canvas.
    split; [reflexivity|].
    split; [destruct c; reflexivity|].
    split; [cbn [fold_left tx_exec]; rewrite Htc, Canvas_eqb_refl; reflexivity|].
    cbn [fold_left tx_exec]. rewrite Htc, Canvas_eqb_refl. cbn [tx_bound tx_image].
    rewrite Handle_eqb_refl. reflexivity.
  - apply orb_false_iff in Hsz. destruct Hsz as [Hw Hh].
    apply negb_false_iff, Z.eqb_eq in Hw. apply negb_false_iff, Z.eqb_eq in Hh.
    eexists. split; [reflexivity|].
    split; [reflexivity|]. split; [reflexivity|]. split; [reflexivity|].
    split; [reflexivity|].
    split; [repeat split|].
    split; [intros c' Hne; reflexivity|].
    split.
    { intros c' Hne. rewrite !machine_after_calls.
      destruct (Canvas_eqb c c') eqn:E; [apply Canvas_eqb_eq in E; congruence|reflexivity]. }
    cbn [host with_host].
    replace (canvas_state c (log_calls _ (log_calls _ (log_calls _ (host w))))) with cs
      by (destruct c; reflexivity).
    split; [exact Hw|]. split; [exact Hh|]. split; [reflexivity|]. split; [reflexivity|].
    unfold draws, frames_drawn.
    rewrite !machine_after_calls, !textures_after_calls, Canvas_eqb_refl.
    split; [reflexivity|].
    split; [simpl; fold cs; rewrite Hw, Hh; reflexivity|].
    split; [cbn [fold_left tx_exec]; rewrite Htc, Canvas_eqb_refl; reflexivity|].
    cbn [fold_left tx_exec]. rewrite Htc, Canvas_eqb_refl. cbn [tx_bound tx_image].
    rewrite Handle_eqb_refl. reflexivity.
Qed.

(** [renderPreview] of a video that is not origin-clean: the canvas takes
    its displayed size and is cleared, then the upload is refused. *)
Lemma renderPreview_refused_steps v c t w :
  origin_clean v = false ->
  gl (chroma w) = Some c -> texture_on c t w ->
  let w' := exec (ChromaKey.renderPreview v) w in
  fst (ChromaKey.renderPreview v w)
  = Throw "SecurityError: Failed to execute 'texImage2D'"%string /\
  same_modules w w' /\ same_schedulers w w' /\
  (forall c', c' <> c -> canvas_state c' (host w') = canvas_state c' (host w)) /\
  canvas_state c (host w')
  = mkCanvas (clientWidth (canvas_state c (host w))) (clientHeight (canvas_state c (host w)))
             (clientWidth (canvas_state c (host w))) (clientHeight (canvas_state c (host w))) /\
  (forall c', draws c' w' = draws c' w) /\
  frames_drawn c w' = frames_drawn c w.
Proof.
  intros Hclean Hgl (Htex & Htc). cbv zeta.
  unfold ChromaKey.renderPreview, ChromaKey.updateTexture. run_m. rewrite Hgl.
  set (cs := canvas_state c (host w)).
  destruct (negb (width cs =? clientWidth cs)%Z || negb (height cs =? clientHeight cs)%Z)
    eqn:Hsz; run_m; cbn [chroma with_host]; rewrite Hgl, Htex; run_m; rewrite Hclean; run_m.
  - split; [reflexivity|].
    split; [repeat split|].
    split; [destruct c; repeat split|].
    split; [intros c' Hne; cbn [host with_host]; destruct c, c'; try congruence; reflexivity|].
    cbn [host with_host].
    replace (canvas_state c (log_calls _ (log_calls _ (with_canvas c _ (host w)))))
      with (set_size (clientWidth cs) (clientHeight cs) cs)
      by (destruct c; reflexivity).
    split; [reflexivity|].
    unfold draws, frames_drawn.
    split.
    { intros c'. rewrite !machine_after_calls, machine_with_canvas.
      destruct (Canvas_eqb c c'); reflexivity. }
    rewrite !textures_after_calls, Canvas_eqb_refl, textures_with_canvas.
    cbn [fold_left tx_exec]; rewrite Htc, Canvas_eqb_refl; reflexivity.
  - apply orb_false_iff in Hsz. destruct Hsz as [Hw Hh].
    apply negb_false_iff, Z.eqb_eq in Hw. apply negb_false_iff, Z.eqb_eq in Hh.
    split; [reflexivity|].
    split; [repeat split|].
    split; [repeat split|].
    split; [intros c' Hne; reflexivity|].
    cbn [host with_host].
    replace (canvas_state c (log_calls _ (log_calls _ (host w)))) with cs
      by (destruct c; reflexivity).
    split; [destruct cs; simpl in *; congruence|].
    unfold draws, frames_drawn.
    split.
    { intros c'. rewrite !machine_after_calls.
      destruct (Canvas_eqb c c'); reflexivity. }
    rewrite !textures_after_calls, Canvas_eqb_refl.
    cbn [fold_left tx_exec]; rewrite Htc, Canvas_eqb_refl; reflexivity.
Qed.





(** ** An immersive frame with a pose *)

Lemma eye_draw layer v view c p t k w :
  compositor_on c p w -> texture_on c t w -> currentKeyColor (chroma w) = Arr k ->
  let body :=
    gl_calls (Some c) [ gl_viewport (layer_viewport view) ] >>
    let* dist := UIController.getScreenDistance in
    let* scale := UIController.getScreenScale in
    let* offX := UIController.getScreenOffsetX in
    let* offY := UIController.getScreenOffsetY in
    ChromaKey.render (projectionMatrix view) (transform_inverse_matrix view)
                     (App.modelMatrix_of dist scale offX offY v)
                     (Some layer) (Some (layer_viewport view)) in
  let w' := exec body w in
  completes body w = true /\
  same_modules w w' /\ same_schedulers w w' /\
  (forall c', c' <> c -> machine c' w' = machine c' w) /\
  (exists d, draws c w' = draws c w ++ [d] /\
             view_drawn layer p (ui w) v (chroma w) view d) /\
  frames_drawn c w' = frames_drawn c w ++ [tx_image (textures c w) t] /\
  tx_image (textures c w') = tx_image (textures c w).
Proof.
  intros Hon Htex Hkey body w'.
  set (w1 := with_host (log_calls (map (GL c) [gl_viewport (layer_viewport view)])) w).
  set (r := ChromaKey.render (projectionMatrix view) (transform_inverse_matrix view)
              (App.modelMatrix_of (screenDistance (ui w)) (screenScale (ui w))
                                  (screenOffsetX (ui w)) (screenOffsetY (ui w)) v)
              (Some layer) (Some (layer_viewport view))).
  assert (E : body w = r w1) by reflexivity.
  assert (Hon1 : compositor_on c p w1) by exact Hon.
  assert (Htex1 : texture_on c t w1) by exact Htex.
  assert (Hkey1 : currentKeyColor (chroma w1) = Arr k) by exact Hkey.
  destruct (render_draws (projectionMatrix view) (transform_inverse_matrix view)
              (App.modelMatrix_of (screenDistance (ui w)) (screenScale (ui w))
                                  (screenOffsetX (ui w)) (screenOffsetY (ui w)) v)
              (Some layer) (Some (layer_viewport view)) c p k w1 Hon1 Hkey1)
    as (Hc & Hmod & Hsame & Hother & d & Hdraw & Hfb & Hvp & Hp & HP & HV & HM & HK & HT & HS).
  destruct (render_samples (projectionMatrix view) (transform_inverse_matrix view)
              (App.modelMatrix_of (screenDistance (ui w)) (screenScale (ui w))
                                  (screenOffsetX (ui w)) (screenOffsetY (ui w)) v)
              (Some layer) (Some (layer_viewport view)) c p k t w1 Hon1 Htex1 Hkey1)
    as (Hsam & Himg & _).
  fold r in Hc, Hmod, Hsame, Hother, Hdraw, Hsam, Himg.
  assert (Ew : w' = exec r w1) by (subst w'; unfold exec; rewrite E; reflexivity).
  cbv zeta in Hmod, Hsame, Hother, Hdraw, Hsam, Himg.
  rewrite <- Ew in Hmod, Hsame, Hother, Hdraw, Hsam, Himg.
  assert (Hd1 : draws c w1 = draws c w).
  { unfold draws, w1. rewrite machine_after_calls, Canvas_eqb_refl. reflexivity. }
  assert (Ht1 : textures c w1 = textures c w).
  { unfold w1. rewrite textures_after_calls, Canvas_eqb_refl. reflexivity. }
  split; [unfold completes; rewrite E; exact Hc|].
  split; [exact Hmod|]. split; [exact Hsame|].
  split.
  { intros c' Hne. rewrite (Hother c' Hne). unfold w1. rewrite machine_after_calls.
    destruct (Canvas_eqb c c') eqn:Ec; [apply Canvas_eqb_eq in Ec; congruence|reflexivity]. }
  split.
  { exists d. split; [rewrite Hdraw, Hd1; reflexivity|].
    unfold view_drawn. rewrite Hkey.
    repeat split; try assumption. apply Hvp. reflexivity. }
  unfold frames_drawn in *. rewrite Hsam, Himg, Ht1. split; reflexivity.
Qed.


Lemma same_modules_trans w1 w2 w3 :
  same_modules w1 w2 -> same_modules w2 w3 -> same_modules w1 w3.
Proof. intros (A & B & C & D) (A' & B' & C' & D'). repeat split; congruence. Qed.

Lemma same_schedulers_trans w1 w2 w3 :
  same_schedulers w1 w2 -> same_schedulers w2 w3 -> same_schedulers w1 w3.
Proof.
  intros (A & B & C & D & E & F & G) (A' & B' & C' & D' & E' & F' & G').
  repeat split; congruence.
Qed.

Lemma eyes_draw layer v c p t k views :
  forall w,
    compositor_on c p w -> texture_on c t w -> currentKeyColor (chroma w) = Arr k ->
    let body := fun view =>
      gl_calls (Some c) [ gl_viewport (layer_viewport view) ] >>
      let* dist := UIController.getScreenDistance in
      let* scale := UIController.getScreenScale in
      let* offX := UIController.getScreenOffsetX in
      let* offY := UIController.getScreenOffsetY in
      ChromaKey.render (projectionMatrix view) (transform_inverse_matrix view)
                       (App.modelMatrix_of dist scale offX offY v)
                       (Some layer) (Some (layer_viewport view)) in
    let w' := exec (App.for_each views body) w in
    completes (App.for_each views body) w = true /\
    same_modules w w' /\ same_schedulers w w' /\
    (forall c', c' <> c -> machine c' w' = machine c' w) /\
    (exists ds, draws c w' = draws c w ++ ds /\
                Forall2 (view_drawn layer p (ui w) v (chroma w)) views ds) /\
    frames_drawn c w' = frames_drawn c w ++ replicate (length views) (tx_image (textures c w) t) /\
    tx_image (textures c w') = tx_image (textures c w).
Proof.
  induction views as [|view rest IH]; intros w Hon Htex Hkey body w'.
  - subst w'. simpl.
    split; [reflexivity|]. split; [repeat split|]. split; [repeat split|].
    split; [reflexivity|].
    split; [exists []; split; [rewrite app_nil_r; reflexivity | constructor]|].
    split; [rewrite app_nil_r; reflexivity | reflexivity].
  - destruct (eye_draw layer v view c p t k w Hon Htex Hkey)
      as (Hc & Hmod & Hsch & Hoth & (d & Hd & Hview) & Hfr & Himg).
    fold (body view) in Hc, Hmod, Hsch, Hoth, Hd, Hfr, Himg.
    cbv zeta in Hmod, Hsch, Hoth, Hd, Hfr, Himg.
    set (w1 := exec (body view) w) in *.
    pose proof Hmod as (Hch & Hui & Happ & Hpl).
    assert (Hon1 : compositor_on c p w1) by (unfold compositor_on; rewrite Hch; exact Hon).
    assert (Htex1 : texture_on c t w1) by (unfold texture_on; rewrite Hch; exact Htex).
    assert (Hkey1 : currentKeyColor (chroma w1) = Arr k) by (rewrite Hch; exact Hkey).
    destruct (IH w1 Hon1 Htex1 Hkey1)
      as (Hc' & Hmod' & Hsch' & Hoth' & (ds & Hds & Hviews) & Hfr' & Himg').
    fold body in Hc', Hmod', Hsch', Hoth', Hds, Hfr', Himg'.
    cbv zeta in Hmod', Hsch', Hoth', Hds, Hfr', Himg'.
    assert (Ew : w' = exec (App.for_each rest body) w1).
    { subst w'. simpl App.for_each. rewrite exec_bind.
      unfold completes in Hc. destruct (fst (body view w)); [reflexivity|discriminate]. }
    rewrite <- Ew in Hmod', Hsch', Hoth', Hds, Hfr', Himg'.
    split.
    { simpl App.for_each. rewrite completes_bind.
      unfold completes in Hc. destruct (fst (body view w)); [exact Hc'|discriminate]. }
    split; [exact (same_modules_trans _ _ _ Hmod Hmod')|].
    split; [exact (same_schedulers_trans _ _ _ Hsch Hsch')|].
    split; [intros c' Hne; rewrite (Hoth' c' Hne); apply Hoth, Hne|].
    split.
    { exists (d :: ds). split.
      - rewrite Hds, Hd, <- app_assoc. reflexivity.
      - constructor; [exact Hview|]. rewrite Hui, Hch in Hviews. exact Hviews. }
    split.
    + rewrite Hfr', Hfr, Himg, <- app_assoc. reflexivity.
    + rewrite Himg', Himg. reflexivity.
Qed.


Lemma machine_of_trace c w w' l :
  trace (host w') = trace (host w) ++ l ->
  machine c w' = fold_left (gl_exec c) (cmds_of c l) (machine c w).
Proof.
  intros E. unfold machine, gl_run. rewrite E, cmds_of_app. apply fold_left_app.
Qed.

Lemma textures_of_trace c w w' l :
  trace (host w') = trace (host w) ++ l ->
  textures c w' = fold_left (tx_exec c) (cmds_of c l) (textures c w).
Proof.
  intros E. unfold textures. rewrite E, cmds_of_app. apply fold_left_app.
Qed.

(** An immersive frame up to its loop over the eyes. *)
Lemma xr_frame_steps s layer c p t views w :
  immersive s w -> xrGLLayer (app w) = Some layer ->
  compositor_on c p w -> texture_on c t w ->
  upload_refused (video (player w)) = false ->
  exists w1,
    App.xrRenderLoop (Some (pose_views views)) w
    = App.for_each views (fun view =>
        gl_calls (Some c) [ gl_viewport (layer_viewport view) ] >>
        let* dist := UIController.getScreenDistance in
        let* scale := UIController.getScreenScale in
        let* offX := UIController.getScreenOffsetX in
        let* offY := UIController.getScreenOffsetY in
        ChromaKey.render (projectionMatrix view) (transform_inverse_matrix view)
                         (App.modelMatrix_of dist scale offX offY (video (player w)))
                         (Some layer) (Some (layer_viewport view))) w1 /\
    same_modules w w1 /\
    xr_frame_requests (host w1) = S (xr_frame_requests (host w)) /\
    xr_active (host w1) = xr_active (host w) /\
    raf_pending (host w1) = raf_pending (host w) /\
    (forall c', c' <> c -> machine c' w1 = machine c' w) /\
    draws c w1 = draws c w /\
    frames_drawn c w1 = frames_drawn c w /\
    tx_image (textures c w1) t
    = match video (player w) with
      | Some vid => if paused vid then tx_image (textures c w) t
                    else Some (currentFrame vid)
      | None => tx_image (textures c w) t
      end.
Proof.
  intros (Hs & Ha) Hlayer (Hgl & Hprog & Hloc & Hctx) (Htex & Htc) Hup.
  unfold App.xrRenderLoop, ChromaKey.getGL, VideoPlayer.getVideo, ChromaKey.updateTexture.
  run_m. rewrite Hs, (session_requestAnimationFrame_running s w Ha).
  run_m. cbn [chroma app player with_host]. rewrite Hgl, Hlayer.
  run_m. cbn [chroma app player with_host].
  set (pre := [XR xr_requestAnimationFrame; XR xr_getViewerPose]
              ++ map (GL c) [gl_bindFramebuffer (Some layer); gl_clearColor 0 0 0 0;
                             gl_clear true true]).
  destruct (video (player w)) as [vid|] eqn:Hv;
    [destruct (paused vid) eqn:Hp; cbn [negb]; cbn [chroma with_host];
       rewrite ?Hgl, ?Htex|].
  2:{ assert (Hclean : origin_clean vid = true).
      { unfold upload_refused in Hup. rewrite Hp in Hup.
        destruct (origin_clean vid); [reflexivity | discriminate]. }
      run_m. rewrite Hclean. run_m.
      eexists. split; [reflexivity|]. split; [repeat split|].
      split; [reflexivity|]. split; [simpl; congruence|]. split; [reflexivity|].
      set (up := map (GL c) [gl_bindTexture (Some t); gl_texImage2D (currentFrame vid)]).
      match goal with
      | |- context [machine _ ?w1] =>
          assert (Et : trace (host w1) = trace (host w) ++ (pre ++ up))
            by (simpl; rewrite <- !app_assoc; reflexivity);
            set (wd := w1) in *
      end.
      unfold draws, frames_drawn.
      split.
      { intros c' Hne. rewrite (machine_of_trace c' w wd _ Et).
        unfold pre, up. rewrite !cmds_of_app, !cmds_of_GL.
        destruct (Canvas_eqb c c') eqn:Ec; [apply Canvas_eqb_eq in Ec; congruence|reflexivity]. }
      rewrite (machine_of_trace c w wd _ Et), (textures_of_trace c w wd _ Et).
      unfold pre, up. rewrite !cmds_of_app, !cmds_of_GL, Canvas_eqb_refl.
      split; [reflexivity|].
      simpl. rewrite Htc, Canvas_eqb_refl.
      simpl. rewrite Handle_eqb_refl.
      split; reflexivity. }
  - eexists. split; [reflexivity|]. split; [repeat split|].
    split; [reflexivity|]. split; [simpl; congruence|]. split; [reflexivity|].
    match goal with
    | |- context [machine _ ?w1] =>
        assert (Et : trace (host w1) = trace (host w) ++ pre)
          by (simpl; rewrite <- !app_assoc; reflexivity);
          set (wd := w1) in *
    end.
    unfold draws, frames_drawn.
    split.
    { intros c' Hne. rewrite (machine_of_trace c' w wd pre Et).
      unfold pre. rewrite cmds_of_app, cmds_of_GL.
      destruct (Canvas_eqb c c') eqn:Ec; [apply Canvas_eqb_eq in Ec; congruence|reflexivity]. }
    rewrite (machine_of_trace c w wd pre Et), (textures_of_trace c w wd pre Et).
    unfold pre. rewrite cmds_of_app, cmds_of_GL, Canvas_eqb_refl.
    repeat split; reflexivity.
  - eexists. split; [reflexivity|]. split; [repeat split|].
    split; [reflexivity|]. split; [simpl; congruence|]. split; [reflexivity|].
    match goal with
    | |- context [machine _ ?w1] =>
        assert (Et : trace (host w1) = trace (host w) ++ pre)
          by (simpl; rewrite <- !app_assoc; reflexivity);
          set (wd := w1) in *
    end.
    unfold draws, frames_drawn.
    split.
    { intros c' Hne. rewrite (machine_of_trace c' w wd pre Et).
      unfold pre. rewrite cmds_of_app, cmds_of_GL.
      destruct (Canvas_eqb c c') eqn:Ec; [apply Canvas_eqb_eq in Ec; congruence|reflexivity]. }
    rewrite (machine_of_trace c w wd pre Et), (textures_of_trace c w wd pre Et).
    unfold pre. rewrite cmds_of_app, cmds_of_GL, Canvas_eqb_refl.
    repeat split; reflexivity.
Qed.


(** An immersive frame whose upload is refused: it has re-registered,
    asked for the pose, cleared the layer and bound the texture; then
    [texImage2D] throws and no view is drawn. *)
Lemma xr_frame_refused s layer c p t views w :
  immersive s w -> xrGLLayer (app w) = Some layer ->
  compositor_on c p w -> texture_on c t w ->
  upload_refused (video (player w)) = true ->
  let w' := exec (App.xrRenderLoop (Some (pose_views views))) w in
  fst (App.xrRenderLoop (Some (pose_views views)) w)
  = Throw "SecurityError: Failed to execute 'texImage2D'"%string /\
  same_modules w w' /\
  xr_frame_requests (host w') = S (xr_frame_requests (host w)) /\
  raf_pending (host w') = raf_pending (host w) /\
  (forall c', draws c' w' = draws c' w) /\
  frames_drawn c w' = frames_drawn c w.
Proof.
  intros (Hs & Ha) Hlayer (Hgl & Hprog & Hloc & Hctx) (Htex & Htc) Hup. cbv zeta.
  unfold upload_refused in Hup.
  destruct (video (player w)) as [vid|] eqn:Hv; [|discriminate].
  apply andb_true_iff in Hup. destruct Hup as [Hp Hclean].
  apply negb_true_iff in Hp, Hclean.
  unfold App.xrRenderLoop, ChromaKey.getGL, VideoPlayer.getVideo, ChromaKey.updateTexture.
  run_m. rewrite Hs, (session_requestAnimationFrame_running s w Ha).
  run_m. cbn [chroma app player with_host]. rewrite Hgl, Hlayer.
  run_m. cbn [chroma app player with_host]. rewrite Hv, Hp. cbn [negb].
  cbn [chroma with_host]. rewrite Hgl, Htex. run_m. rewrite Hclean. run_m.
  set (pre := [XR xr_requestAnimationFrame; XR xr_getViewerPose]
              ++ map (GL c) [gl_bindFramebuffer (Some layer); gl_clearColor 0 0 0 0;
                             gl_clear true true]
              ++ map (GL c) [gl_bindTexture (Some t)]).
  split; [reflexivity|]. split; [repeat split; assumption|].
  split; [reflexivity|]. split; [reflexivity|].
  match goal with
  | |- context [draws _ ?w1] =>
      assert (Et : trace (host w1) = trace (host w) ++ pre)
        by (simpl; rewrite <- !app_assoc; reflexivity);
        set (wd := w1) in *
  end.
  unfold draws, frames_drawn.
  split.
  - intros c'. rewrite (machine_of_trace c' w wd pre Et).
    unfold pre. rewrite !cmds_of_app, !cmds_of_GL.
    destruct (Canvas_eqb c c'); reflexivity.
  - rewrite (textures_of_trace c w wd pre Et).
    unfold pre. rewrite !cmds_of_app, !cmds_of_GL, Canvas_eqb_refl.
    simpl. rewrite Htc, Canvas_eqb_refl. reflexivity.
Qed.


(** X7.  An immersive frame whose pose has views, on a compositor set up
    for the session.  Unless a video is playing that is not origin-clean,
    [xrRenderLoop], after re-registering, completes with exactly one draw
    per view, in the order of the views, each into the layer's framebuffer
    under that view's viewport, with that view's projection and view
    matrices, the model matrix of the placement the controller holds and
    the key parameters in force.  Every one of these draws samples the same
    frame: the one the video shows at the tick if it is playing, and
    otherwise whatever the texture held before (no upload is made for a
    paused or missing video).  With a playing video that is not
    origin-clean the upload throws a SecurityError before any view is
    drawn: the frame draws nothing, on every such tick.  Either way the
    frame callback has been registered again, and the modules' variables
    and the preview scheduler are left as they were. *)
Theorem X7_immersive_frame_draws_each_view :
  forall (s layer : nat) (c : Canvas) (p t : Handle) (k : list JS.number)
         (views : list XRView) (w : World),
    immersive s w -> xrGLLayer (app w) = Some layer ->
    compositor_on c p w -> texture_on c t w -> currentKeyColor (chroma w) = Arr k ->
    let w' := exec (App.xrRenderLoop (Some (pose_views views))) w in
    let shown := match video (player w) with
                 | Some vid => if paused vid then tx_image (textures c w) t
                               else Some (currentFrame vid)
                 | None => tx_image (textures c w) t
                 end in
    xr_frame_requests (host w') = S (xr_frame_requests (host w)) /\
    raf_pending (host w') = raf_pending (host w) /\
    same_modules w w' /\
    (forall c', c' <> c -> draws c' w' = draws c' w) /\
    if upload_refused (video (player w))
    then fst (App.xrRenderLoop (Some (pose_views views)) w)
         = Throw "SecurityError: Failed to execute 'texImage2D'"%string /\
         draws c w' = draws c w /\ frames_drawn c w' = frames_drawn c w
    else completes (App.xrRenderLoop (Some (pose_views views))) w = true /\
         (exists ds,
            draws c w' = draws c w ++ ds /\
            Forall2 (view_drawn layer p (ui w) (video (player w)) (chroma w)) views ds) /\
         frames_drawn c w' = frames_drawn c w ++ replicate (length views) shown.
Proof.
  intros s layer c p t k views w Him Hlayer Hon Htex Hkey w' shown.
  destruct (upload_refused (video (player w))) eqn:Hup.
  { destruct (xr_frame_refused s layer c p t views w Him Hlayer Hon Htex Hup)
      as (R1 & R2 & R3 & R4 & R5 & R6).
    cbv zeta in R2, R3, R4, R5, R6. fold w' in R2, R3, R4, R5, R6.
    split; [exact R3|]. split; [exact R4|]. split; [exact R2|].
    split; [intros c' _; apply R5|].
    split; [exact R1|]. split; [apply R5 | exact R6]. }
  destruct (xr_frame_steps s layer c p t views w Him Hlayer Hon Htex Hup)
    as (w1 & Erun & Hmod & Hreq & Hact & Hraf & Hoth & Hd & Hfr & Himg).
  pose proof Hmod as (Hch & Hui & Happ & Hpl).
  assert (Hon1 : compositor_on c p w1) by (unfold compositor_on; rewrite Hch; exact Hon).
  assert (Htex1 : texture_on c t w1) by (unfold texture_on; rewrite Hch; exact Htex).
  assert (Hkey1 : currentKeyColor (chroma w1) = Arr k) by (rewrite Hch; exact Hkey).
  destruct (eyes_draw layer (video (player w)) c p t k views w1 Hon1 Htex1 Hkey1)
    as (Hc & Hmod' & Hsch' & Hoth' & (ds & Hds & Hviews) & Hfr' & _).
  cbv zeta in Hmod', Hsch', Hoth', Hds, Hfr'.
  assert (Ew : w' = exec (App.for_each views (fun view =>
        gl_calls (Some c) [ gl_viewport (layer_viewport view) ] >>
        let* dist := UIController.getScreenDistance in
        let* scale := UIController.getScreenScale in
        let* offX := UIController.getScreenOffsetX in
        let* offY := UIController.getScreenOffsetY in
        ChromaKey.render (projectionMatrix view) (transform_inverse_matrix view)
                         (App.modelMatrix_of dist scale offX offY (video (player w)))
                         (Some layer) (Some (layer_viewport view)))) w1).
  { subst w'. unfold exec. rewrite Erun. reflexivity. }
  rewrite <- Ew in Hmod', Hsch', Hoth', Hds, Hfr'.
  destruct Hsch' as (S1 & _ & _ & _ & _ & _ & S7).
  split; [rewrite S7; exact Hreq|].
  split; [rewrite S1; exact Hraf|].
  split; [exact (same_modules_trans _ _ _ Hmod Hmod')|].
  split.
  { intros c' Hne. unfold draws. rewrite (Hoth' c' Hne), (Hoth c' Hne). reflexivity. }
  split; [unfold completes; rewrite Erun; exact Hc|].
  split.
  { exists ds. split; [rewrite Hds, Hd; reflexivity|].
    rewrite Hui, Hch in Hviews. exact Hviews. }
  rewrite Hfr', Hfr, Himg. reflexivity.
Qed.


Lemma X7_immersive_frame_draws_each_view_witness :
  immersive 0 playing_session /\ xrGLLayer (app playing_session) = Some 0%nat /\
  compositor_on xr_canvas (mkHandle xr_canvas 3) playing_session /\
  texture_on xr_canvas (mkHandle xr_canvas 5) playing_session /\
  currentKeyColor (chroma playing_session) = Arr [JS.Num 0.0; JS.Num 1.0; JS.Num 0.0] /\
  frames_drawn xr_canvas
    (exec (App.xrRenderLoop (Some (pose_views [left_eye; right_eye]))) playing_session)
  = frames_drawn xr_canvas playing_session ++ [Some 7%nat; Some 7%nat] /\
  draws xr_canvas
    (exec (App.xrRenderLoop (Some (pose_views [left_eye; right_eye]))) tainted_session)
  = draws xr_canvas tainted_session.
Proof.
  assert (Him : immersive 0 playing_session) by (split; reflexivity).
  assert (Hl : xrGLLayer (app playing_session) = Some 0%nat) by reflexivity.
  assert (Hon : compositor_on xr_canvas (mkHandle xr_canvas 3) playing_session)
    by (repeat split).
  assert (Htex : texture_on xr_canvas (mkHandle xr_canvas 5) playing_session)
    by (split; reflexivity).
  assert (Hkey : currentKeyColor (chroma playing_session)
                 = Arr [JS.Num 0.0; JS.Num 1.0; JS.Num 0.0]) by reflexivity.
  split; [exact Him|]. split; [exact Hl|]. split; [exact Hon|]. split; [exact Htex|].
  split; [exact Hkey|].
  destruct (X7_immersive_frame_draws_each_view 0 0 xr_canvas (mkHandle xr_canvas 3)
              (mkHandle xr_canvas 5) _ [left_eye; right_eye] playing_session
              Him Hl Hon Htex Hkey)
    as (_ & _ & _ & _ & _ & _ & Hfr).
  split; [exact Hfr|].
  destruct (X7_immersive_frame_draws_each_view 0 0 xr_canvas (mkHandle xr_canvas 3)
              (mkHandle xr_canvas 5) _ [left_eye; right_eye] tainted_session
              (conj eq_refl eq_refl) eq_refl
              (conj eq_refl (conj eq_refl (conj eq_refl eq_refl)))
              (conj eq_refl eq_refl) eq_refl)
    as (_ & _ & _ & _ & _ & Hd & _).
  exact Hd.
Defined.

(** ** A compositor that is not initialised *)

Lemma uninitialised_is_silent w :
  gl (chroma w) = None ->
  (forall P V Mo fb vp, ChromaKey.render P V Mo fb vp w = (Ok tt, w)) /\
  (forall v, ChromaKey.updateTexture v w = (Ok tt, w)) /\
  (forall v, ChromaKey.renderPreview v w = (Ok tt, w)).
Proof.
  intros Hgl. repeat split; intros;
    unfold ChromaKey.render, ChromaKey.updateTexture, ChromaKey.renderPreview;
    run_m; rewrite Hgl; reflexivity.
Qed.

(** X8.  When the browser refuses, [init] throws its message and keeps
    nothing new: the program, the uniform locations, the buffer, the
    texture and the key parameters stay as they were, and nothing is
    drawn.  But [gl] has already been assigned.  Without WebGL it is
    [null], and from then on [render], [updateTexture] and [renderPreview]
    return at their guard without a call or an exception, even if the
    compositor had been initialised before.  After a shader or link error
    it is the new context, while [program] still is what it was. *)
Theorem X8_failed_init_leaves_gl_assigned :
  forall (c : Canvas) (answer : ChromaKey.ContextAnswer) (message : string) (w : World),
    init_error answer = Some message ->
    let w' := exec (ChromaKey.init c answer) w in
    fst (ChromaKey.init c answer w) = Throw message /\
    (forall c', draws c' w' = draws c' w) /\
    ui w' = ui w /\ app w' = app w /\ player w' = player w /\
    chroma w' = ChromaKey.set_gl (gl (chroma w')) (chroma w) /\
    (answer = ChromaKey.NoWebGL ->
     gl (chroma w') = None /\
     (forall P V Mo fb vp, ChromaKey.render P V Mo fb vp w' = (Ok tt, w')) /\
     (forall v, ChromaKey.updateTexture v w' = (Ok tt, w')) /\
     (forall v, ChromaKey.renderPreview v w' = (Ok tt, w'))) /\
    (answer <> ChromaKey.NoWebGL -> gl (chroma w') = Some c).
Proof.
  intros c answer message w Herr w'. subst w'.
  destruct answer as [|log|log|]; simpl in Herr; inversion Herr; subst message;
    (split; [reflexivity|]); (split; [reflexivity|]); (split; [reflexivity|]);
    (split; [reflexivity|]); (split; [reflexivity|]); (split; [reflexivity|]).
  - split; [|intros H; congruence].
    intros _. split; [reflexivity|]. apply uninitialised_is_silent. reflexivity.
  - split; [discriminate | reflexivity].
  - split; [discriminate | reflexivity].
Qed.

Lemma X8_failed_init_leaves_gl_assigned_witness :
  init_error ChromaKey.NoWebGL = Some "WebGL not supported"%string /\
  gl (chroma loaded_page) = Some preview_canvas /\
  gl (chroma (exec (ChromaKey.init preview_canvas ChromaKey.NoWebGL) loaded_page)) = None /\
  program (chroma (exec (ChromaKey.init preview_canvas ChromaKey.NoWebGL) loaded_page))
  = program (chroma loaded_page).
Proof.
  split; [reflexivity|]. split; [reflexivity|].
  destruct (X8_failed_init_leaves_gl_assigned preview_canvas ChromaKey.NoWebGL _ loaded_page
              eq_refl) as (_ & _ & _ & _ & _ & Hch & Hno & _).
  split; [apply Hno; reflexivity|].
  rewrite Hch. reflexivity.
Defined.

(** ** Entering the immersive mode draws nothing *)

Lemma draws_of_trace c w w' l :
  trace (host w') = trace (host w) ++ l ->
  forallb (fun cmd => negb (is_draw cmd)) (cmds_of c l) = true ->
  draws c w' = draws c w.
Proof.
  intros E H. unfold draws. rewrite (machine_of_trace c w w' l E).
  apply fold_gl_exec_no_draw, H.
Qed.

Section NoDraw.

Variable c : Canvas.
Variable D : list Draw.

Let I (w : World) : Prop := draws c w = D.

Lemma no_draw_log l :
  forallb (fun cmd => negb (is_draw cmd)) (cmds_of c l) = true ->
  preserves I (modify (with_host (log_calls l))).
Proof.
  intros Hl w H. unfold I in *. rewrite <- H.
  apply (draws_of_trace c w _ l); [reflexivity | exact Hl].
Qed.

Lemma no_draw_gl_calls g l :
  forallb (fun cmd => negb (is_draw cmd)) l = true ->
  preserves I (gl_calls g l).
Proof.
  intros Hl. destruct g as [c'|]; simpl; [|apply preserves_throw].
  apply no_draw_log. rewrite cmds_of_GL. destruct (Canvas_eqb c' c); [exact Hl|reflexivity].
Qed.

Lemma no_draw_session_raf s : preserves I (App.session_requestAnimationFrame s).
Proof.
  destruct s as [s|]; [|apply preserves_throw].
  intros w H. unfold I in *. rewrite <- H.
  apply (draws_of_trace c w _ [XR xr_requestAnimationFrame]); [|reflexivity].
  unfold App.session_requestAnimationFrame, exec, modify. simpl.
  destruct (xr_active (host w)) as [s'|]; [destruct (Nat.eqb s s')|]; reflexivity.
Qed.

Lemma no_draw_session_listener s : preserves I (App.session_addEventListener_end s).
Proof.
  destruct s as [s|]; [|apply preserves_throw].
  intros w H. unfold I in *. rewrite <- H.
  apply (draws_of_trace c w _ [XR xr_addEventListener_end]); [|reflexivity].
  unfold App.session_addEventListener_end, exec, modify. simpl.
  destruct (xr_active (host w)) as [s'|]; [destruct (Nat.eqb s s')|]; reflexivity.
Qed.

Lemma no_draw_cancel id : preserves I (App.window_cancelAnimationFrame id).
Proof.
  intros w H. unfold I in *. rewrite <- H.
  apply (draws_of_trace c w _ [cancelAnimationFrame id]); reflexivity.
Qed.

Lemma no_draw_init cv answer : preserves I (ChromaKey.init cv answer).
Proof.
  unfold ChromaKey.init, ChromaKey.createProgram, ChromaKey.createQuad, new_handle.
  destruct answer;
    repeat first
      [ apply preserves_ret | apply preserves_throw | apply preserves_get
      | apply preserves_bind; [|intros]
      | apply no_draw_gl_calls; reflexivity
      | progress cbv beta iota zeta
      | match goal with
        | |- preserves _ (modify _) =>
            let w := fresh "w" in let H := fresh "H" in intros w H; exact H
        end ].
Qed.

Lemma no_draw_startXR a : preserves I (App.startXR a).
Proof.
  unfold App.startXR, App.navigator_xr_isSessionSupported, App.navigator_xr_requestSession,
    UIController.showXROverlay, UIController.setStatus, VideoPlayer.play.
  repeat first
    [ apply preserves_ret | apply preserves_throw | apply preserves_get
    | apply no_draw_init | apply no_draw_cancel
    | apply no_draw_session_raf | apply no_draw_session_listener
    | apply no_draw_log; reflexivity
    | apply preserves_bind; [|intros]
    | apply preserves_try_catch; [|intros]
    | progress cbv beta iota zeta
    | match goal with
      | |- preserves _ (match ?x with _ => _ end) => destruct x
      | |- preserves _ (modify _) =>
          let w := fresh "w" in let H := fresh "H" in intros w H; exact H
      end ].
Qed.

End NoDraw.

Lemma startXR_never_draws a c w : draws c (exec (App.startXR a) w) = draws c w.
Proof. apply (no_draw_startXR c (draws c w) a w). reflexivity. Qed.

(** ** Entering the immersive mode, when it is granted *)


Lemma startXR_granted w :
  navigator_xr (host w) = true -> xr_active (host w) = None ->
  let s := xr_next_session (host w) in
  let p := mkHandle xr_canvas (next_handle (host w)) in
  let t := mkHandle xr_canvas (S (S (next_handle (host w)))) in
  let w' := exec (App.startXR granting) w in
  completes (App.startXR granting) w = true /\
  xrSession (app w') = Some s /\ xrRefSpace (app w') = Some s /\
  xrGLLayer (app w') = Some s /\ isXR (app w') = true /\
  previewAnimId (app w') = previewAnimId (app w) /\
  xr_active (host w') = Some s /\ xr_end_listener (host w') = true /\
  xr_frame_requests (host w') = 1%nat /\
  raf_next (host w') = raf_next (host w) /\
  raf_pending (host w')
  = match previewAnimId (app w) with
    | Some id => if negb (Nat.eqb id 0)
                 then List.filter (fun i => negb (Nat.eqb i id)) (raf_pending (host w))
                 else raf_pending (host w)
    | None => raf_pending (host w)
    end /\
  compositor_on xr_canvas p w' /\ texture_on xr_canvas t w' /\
  currentKeyColor (chroma w') = currentKeyColor (chroma w) /\
  currentTolerance (chroma w') = currentTolerance (chroma w) /\
  currentSmoothing (chroma w') = currentSmoothing (chroma w) /\
  ui w' = UIController.set_xrOverlay_visible true (ui w) /\
  player w' = player (exec VideoPlayer.play w).
Proof.
  intros Hnav Hact.
  destruct w as [h ch pl u a].
  destruct h as [pv xc tr nh rp rn nx xa xn xe xq]. destruct a as [xs xr xl pa ix].
  destruct pl as [v rd].
  simpl in Hnav, Hact. subst.
  cbv zeta. unfold exec, completes, compositor_on, texture_on.
  pose proof (Nat.eqb_refl xn) as Hs. vm_compute in Hs.
  destruct pa as [[|id]|]; destruct v as [[pz vw vh cf oc [|]]|];
    match goal with
    | |- context [App.startXR granting ?w0] =>
        let W := fresh "W" in
        evar (W : World);
        assert (E : App.startXR granting w0 = (Ok tt, W))
          by (subst W; vm_compute; rewrite ?Hs; vm_compute; reflexivity);
        rewrite E; subst W
    end;
    repeat match goal with |- _ /\ _ => split end;
    reflexivity.
Qed.

(** X9.  When the device grants everything, [startXR] takes the page
    from Preview into the session: [isXR] is set, the session, the layer
    and the reference space are stored, the compositor is initialised on
    the XR canvas, the overlay is shown, [onXREnd] listens for the end of
    the session and exactly one frame callback is pending with it.  The
    pending preview callback has been cancelled, so no preview callback is
    pending.  Nothing is drawn by entering, and the key parameters are
    kept. *)
Theorem X9_granted_entry_sets_up_session :
  forall w,
    scheduler_inv w -> navigator_xr (host w) = true -> xr_active (host w) = None ->
    let s := xr_next_session (host w) in
    let w' := exec (App.startXR granting) w in
    completes (App.startXR granting) w = true /\
    isXR (app w') = true /\ immersive s w' /\
    xrGLLayer (app w') = Some s /\ xrRefSpace (app w') = Some s /\
    xr_end_listener (host w') = true /\ xr_frame_requests (host w') = 1%nat /\
    raf_pending (host w') = [] /\
    compositor_on xr_canvas (mkHandle xr_canvas (next_handle (host w))) w' /\
    texture_on xr_canvas (mkHandle xr_canvas (S (S (next_handle (host w))))) w' /\
    xrOverlay_visible (ui w') = true /\
    currentKeyColor (chroma w') = currentKeyColor (chroma w) /\
    currentTolerance (chroma w') = currentTolerance (chroma w) /\
    currentSmoothing (chroma w') = currentSmoothing (chroma w) /\
    (forall c, draws c w' = draws c w).
Proof.
  intros w (I1 & I2 & I3) Hnav Hact s w'.
  destruct (startXR_granted w Hnav Hact)
    as (Hc & Hs & Hr & Hl & Hx & Hp & Ha & Hli & Hfr & Hnext & Hpend & Hon & Htex
        & Hk & Ht & Hsm & Hui & Hpl).
  fold s w' in Hs, Hr, Hl, Hx, Hp, Ha, Hli, Hfr, Hnext, Hpend, Hon, Htex, Hk, Ht, Hsm, Hui, Hpl.
  split; [exact Hc|]. split; [exact Hx|]. split; [split; assumption|].
  split; [exact Hl|]. split; [exact Hr|]. split; [exact Hli|]. split; [exact Hfr|].
  split.
  { rewrite Hpend.
    destruct I1 as [E|(id & E & Eid & Hid)].
    - rewrite E. destruct (previewAnimId (app w)) as [id|]; [destruct (negb _)|]; reflexivity.
    - rewrite E, Eid. apply Nat.eqb_neq in Hid. rewrite Hid. simpl.
      rewrite Nat.eqb_refl. reflexivity. }
  split; [exact Hon|]. split; [exact Htex|].
  split; [rewrite Hui; reflexivity|].
  split; [exact Hk|]. split; [exact Ht|]. split; [exact Hsm|].
  intros c. apply startXR_never_draws.
Qed.

Lemma X9_granted_entry_sets_up_session_witness :
  scheduler_inv loaded_page /\ navigator_xr (host loaded_page) = true /\
  xr_active (host loaded_page) = None /\
  raf_pending (host loaded_page) = [1%nat] /\
  raf_pending (host (exec (App.startXR granting) loaded_page)) = [] /\
  xr_frame_requests (host (exec (App.startXR granting) loaded_page)) = 1%nat.
Proof.
  assert (Hi : scheduler_inv loaded_page).
  { apply reachable_inv.
    exact (reachable_loaded true (mkCanvas 300 150 640 360) (mkCanvas 300 150 300 150)
                            ChromaKey.ContextOk). }
  split; [exact Hi|]. split; [reflexivity|]. split; [reflexivity|]. split; [reflexivity|].
  destruct (X9_granted_entry_sets_up_session loaded_page Hi eq_refl eq_refl)
    as (_ & _ & _ & _ & _ & _ & Hfr & Hp & _).
  split; [exact Hp | exact Hfr].
Defined.

(** ** Entering the immersive mode, when it fails after the grant *)

Lemma startXR_late_failure a message w :
  navigator_xr (host w) = true -> xr_active (host w) = None ->
  isSessionSupported a = Ok true -> requestSession a = Ok tt ->
  late_failure a = Some message ->
  let s := xr_next_session (host w) in
  let w' := exec (App.startXR a) w in
  completes (App.startXR a) w = true /\
  isXR (app w') = false /\ xrSession (app w') = Some s /\
  xr_active (host w') = Some s /\ xr_end_listener (host w') = false /\
  xr_frame_requests (host w') = 0%nat /\
  xr_next_session (host w') = S s /\
  navigator_xr (host w') = true /\
  raf_next (host w') = raf_next (host w) /\
  raf_pending (host w')
  = match previewAnimId (app w) with
    | Some id => if negb (Nat.eqb id 0)
                 then List.filter (fun i => negb (Nat.eqb i id)) (raf_pending (host w))
                 else raf_pending (host w)
    | None => raf_pending (host w)
    end /\
  previewAnimId (app w') = previewAnimId (app w) /\
  statusBar_textContent (ui w') = ("Failed to start XR: " ++ message)%string /\
  statusBar_className (ui w') = "status-bar error"%string /\
  xrOverlay_visible (ui w') = xrOverlay_visible (ui w) /\
  player w' = player w.
Proof.
  intros Hnav Hact Hsup Hreq Hlate.
  destruct a as [iss rs ctx lay ref]. simpl in Hsup, Hreq. subst iss rs.
  destruct w as [h ch pl u ap].
  destruct h as [pv xc tr nh rp rn nx xa xn xe xq]. destruct ap as [xs xr xl pa ix].
  simpl in Hnav, Hact. subst.
  cbv zeta. unfold exec, completes.
  unfold late_failure in Hlate. simpl in Hlate.
  assert (Hcases :
    (exists e, init_error ctx = Some e /\ message = e) \/
    (ctx = ChromaKey.ContextOk /\ lay = Throw message) \/
    (ctx = ChromaKey.ContextOk /\ lay = Ok tt /\ ref = Throw message)).
  { destruct ctx; simpl in Hlate; try (left; eexists; split; [reflexivity|congruence]).
    destruct lay as [[]|e]; [|right; left; split; congruence].
    destruct ref as [[]|e]; [discriminate|]. right; right. repeat split; congruence. }
  clear Hlate.
  destruct Hcases as [(e & He & ->)|[(-> & ->)|(-> & -> & ->)]];
    [destruct ctx; simpl in He; inversion He; subst e; clear He|..];
    (destruct pa as [[|id]|];
     repeat match goal with |- _ /\ _ => split end;
     vm_compute; reflexivity).
Qed.


(** X10.  When entering fails after the session has been granted ([init]
    on the XR canvas throws, the layer cannot be built, or the reference
    space is refused), the [catch] reports the error and resets [isXR],
    and that is all it undoes: the granted session keeps running without
    a frame callback and without [onXREnd] listening, [xrSession] still
    names it, and the preview callback cancelled on the way stays
    cancelled, so no preview callback is pending.  While that session runs
    another Enter MR is refused with InvalidStateError.  When it ends, by
    Quit or by the device, nobody is listening: no teardown runs and still
    no preview callback is pending. *)
Theorem X10_late_entry_failure_strands_session :
  forall (a : XRAnswers) (message : string) (w : World),
    scheduler_inv w -> navigator_xr (host w) = true -> xr_active (host w) = None ->
    isSessionSupported a = Ok true -> requestSession a = Ok tt ->
    late_failure a = Some message ->
    let s := xr_next_session (host w) in
    let w' := exec (App.startXR a) w in
    isXR (app w') = false /\
    statusBar_textContent (ui w') = ("Failed to start XR: " ++ message)%string /\
    statusBar_className (ui w') = "status-bar error"%string /\
    xrSession (app w') = Some s /\ xr_active (host w') = Some s /\
    xr_end_listener (host w') = false /\ xr_frame_requests (host w') = 0%nat /\
    raf_pending (host w') = [] /\
    (forall a', isSessionSupported a' = Ok true ->
       entry_refused a' w' = Some "Failed to start XR: InvalidStateError"%string) /\
    (forall reinit w'',
       w'' = step (ev_exit_mr reinit) w' \/ w'' = step (ev_session_end reinit) w' ->
       xr_active (host w'') = None /\ raf_pending (host w'') = [] /\
       isXR (app w'') = false /\ xrSession (app w'') = Some s /\
       chroma w'' = chroma w').
Proof.
  intros a message w (I1 & I2 & I3) Hnav Hact Hsup Hreq Hlate s w'.
  destruct (startXR_late_failure a message w Hnav Hact Hsup Hreq Hlate)
    as (_ & Hx & Hs & Ha & Hl & Hf & _ & Hn & _ & Hp & _ & Hst & Hcl & _ & _).
  fold s w' in Hx, Hs, Ha, Hl, Hf, Hn, Hp, Hst, Hcl.
  assert (Hpend : raf_pending (host w') = []).
  { rewrite Hp. destruct I1 as [E|(id & E & Eid & Hid)].
    - rewrite E. destruct (previewAnimId (app w)) as [id|]; [destruct (negb _)|]; reflexivity.
    - rewrite E, Eid. apply Nat.eqb_neq in Hid. rewrite Hid. simpl.
      rewrite Nat.eqb_refl. reflexivity. }
  split; [exact Hx|]. split; [exact Hst|]. split; [exact Hcl|].
  split; [exact Hs|]. split; [exact Ha|]. split; [exact Hl|]. split; [exact Hf|].
  split; [exact Hpend|].
  split.
  { intros a' Hsup'. unfold entry_refused. rewrite Hn, Hsup', Ha. reflexivity. }
  intros reinit w'' [-> | ->].
  - unfold step, dispatch, App.endXR. rewrite exec_get_bind, Hs.
    rewrite exec_bind. simpl fst. cbv iota. rewrite Ha, Nat.eqb_refl.
    rewrite session_shutdown_unheard by exact Hl.
    repeat split; simpl; assumption.
  - unfold step, dispatch, fire_session_end. rewrite exec_get_bind, Ha.
    rewrite session_shutdown_unheard by exact Hl.
    repeat split; simpl; assumption.
Qed.

Lemma X10_late_entry_failure_strands_session_witness :
  scheduler_inv loaded_page /\ navigator_xr (host loaded_page) = true /\
  xr_active (host loaded_page) = None /\
  late_failure (mkAnswers (Ok true) (Ok tt) ChromaKey.ContextOk (Ok tt)
                          (Throw "NotSupportedError"))
  = Some "NotSupportedError"%string /\
  raf_pending (host loaded_page) = [1%nat] /\
  raf_pending
    (host (exec (App.startXR (mkAnswers (Ok true) (Ok tt) ChromaKey.ContextOk (Ok tt)
                                        (Throw "NotSupportedError")))
                loaded_page)) = [] /\
  xr_active
    (host (exec (App.startXR (mkAnswers (Ok true) (Ok tt) ChromaKey.ContextOk (Ok tt)
                                        (Throw "NotSupportedError")))
                loaded_page)) = Some 0%nat.
Proof.
  assert (Hi : scheduler_inv loaded_page).
  { apply reachable_inv.
    exact (reachable_loaded true (mkCanvas 300 150 640 360) (mkCanvas 300 150 300 150)
                            ChromaKey.ContextOk). }
  split; [exact Hi|]. split; [reflexivity|]. split; [reflexivity|].
  split; [reflexivity|]. split; [reflexivity|].
  destruct (X10_late_entry_failure_strands_session
              (mkAnswers (Ok true) (Ok tt) ChromaKey.ContextOk (Ok tt)
                         (Throw "NotSupportedError"))
              "NotSupportedError" loaded_page Hi eq_refl eq_refl eq_refl eq_refl eq_refl)
    as (_ & _ & _ & _ & Ha & _ & _ & Hp & _).
  split; [exact Hp | exact Ha].
Defined.

(** ** Every failed entry *)








(** ** A tick of the preview loop *)

Lemma renderPreview_frames v c p t k w :
  origin_clean v = true ->
  compositor_on c p w -> texture_on c t w -> currentKeyColor (chroma w) = Arr k ->
  let w' := exec (ChromaKey.renderPreview v) w in
  completes (ChromaKey.renderPreview v) w = true /\
  frames_drawn c w' = frames_drawn c w ++ [Some (currentFrame v)] /\
  length (draws c w') = S (length (draws c w)).
Proof.
  intros Hclean Hon Htex Hkey w'.
  pose proof Hon as (Hgl & _).
  destruct (renderPreview_steps v c t w Hclean Hgl Htex)
    as (w1 & Erun & Hch & _ & _ & _ & _ & _ & _ & _ & _ & _ & _ & Hd & _ & Hfr & Himg).
  assert (Hon1 : compositor_on c p w1) by (unfold compositor_on; rewrite Hch; exact Hon).
  assert (Htex1 : texture_on c t w1) by (unfold texture_on; rewrite Hch; exact Htex).
  assert (Hkey1 : currentKeyColor (chroma w1) = Arr k) by (rewrite Hch; exact Hkey).
  destruct (render_draws ChromaKey.IDENTITY ChromaKey.IDENTITY ChromaKey.IDENTITY
              None None c p k w1 Hon1 Hkey1) as (Hc & _ & _ & _ & d & Hdraw & _).
  destruct (render_samples ChromaKey.IDENTITY ChromaKey.IDENTITY ChromaKey.IDENTITY
              None None c p k t w1 Hon1 Htex1 Hkey1) as (Hsam & _).
  assert (Ew : w' = exec (ChromaKey.render ChromaKey.IDENTITY ChromaKey.IDENTITY
                            ChromaKey.IDENTITY None None) w1).
  { subst w'. unfold exec. rewrite Erun. reflexivity. }
  cbv zeta in Hdraw, Hsam. rewrite <- Ew in Hdraw, Hsam.
  split; [unfold completes; rewrite Erun; exact Hc|].
  split; [rewrite Hsam, Hfr, Himg; reflexivity|].
  rewrite Hdraw, Hd, length_app. simpl. lia.
Qed.

Lemma renderPreview_throws v c p t name w :
  compositor_on c p w -> texture_on c t w -> currentKeyColor (chroma w) = Inherited name ->
  completes (ChromaKey.renderPreview v) w = false.
Proof.
  intros Hon Htex Hkey.
  pose proof Hon as (Hgl & _).
  destruct (origin_clean v) eqn:Hclean.
  - apply (renderPreview_inherited v c p name w Hclean Hon Hkey).
  - apply (renderPreview_refused v c t w Hclean Hgl (proj1 Htex)).
Qed.

(** After the draw of a tick: the registration logs one call that is no
    WebGL call. *)
Lemma registration_keeps_gl w :
  let reg := (let* id := App.window_requestAnimationFrame in
              modify (with_app (App.set_previewAnimId (Some id)))) in
  (forall c, machine c (exec reg w) = machine c w) /\
  (forall c, textures c (exec reg w) = textures c w).
Proof.
  split; intros c.
  - rewrite (machine_of_trace c w _ [requestAnimationFrame (raf_next (host w))]);
      reflexivity.
  - rewrite (textures_of_trace c w _ [requestAnimationFrame (raf_next (host w))]);
      reflexivity.
Qed.


(** X11.  A tick of the preview loop.  In the immersive mode it does
    nothing and does not register again.  In Preview it draws when a video
    is ready and not paused, and only then registers the next tick: a
    tick that completes leaves exactly one more callback pending, the one
    [previewAnimId] names, and a tick whose draw throws registers nothing,
    so the loop ends there.  Without a playing video nothing is drawn; with
    one whose frames are origin-clean, an initialised compositor draws the
    frame the video shows; with one whose frames are not, the upload
    throws SecurityError before anything is drawn; and with an inherited
    member for a key colour (C9) the draw throws. *)
Theorem X11_preview_tick_registers_after_drawing :
  forall w,
    (isXR (app w) = true -> App.loop w = (Ok tt, w)) /\
    (isXR (app w) = false ->
     let w' := exec App.loop w in
     (completes App.loop w = true ->
      raf_pending (host w') = raf_pending (host w) ++ [raf_next (host w)] /\
      previewAnimId (app w') = Some (raf_next (host w))) /\
     (completes App.loop w = false ->
      playing w = true /\ raf_pending (host w') = raf_pending (host w)) /\
     (playing w = false ->
      completes App.loop w = true /\ forall c, draws c w' = draws c w) /\
     (forall c p t k vid,
        playing w = true -> video (player w) = Some vid -> origin_clean vid = true ->
        compositor_on c p w -> texture_on c t w -> currentKeyColor (chroma w) = Arr k ->
        completes App.loop w = true /\
        frames_drawn c w' = frames_drawn c w ++ [Some (currentFrame vid)]) /\
     (forall c p t vid,
        playing w = true -> video (player w) = Some vid -> origin_clean vid = false ->
        compositor_on c p w -> texture_on c t w ->
        fst (App.loop w) = Throw "SecurityError: Failed to execute 'texImage2D'"%string /\
        (forall c', draws c' w' = draws c' w) /\
        frames_drawn c w' = frames_drawn c w) /\
     (forall c p t name,
        playing w = true ->
        compositor_on c p w -> texture_on c t w ->
        currentKeyColor (chroma w) = Inherited name ->
        completes App.loop w = false)).
Proof.
  intros w. split.
  { intros HXR. unfold App.loop, bind, get. rewrite HXR. reflexivity. }
  intros HXR w'.
  destruct (loop_effect w) as (_ & _ & _ & _ & _ & _ & L). fold w' in L.
  set (draw := match video (player w) with
               | Some vid => if isReady (player w) && negb (paused vid)
                             then ChromaKey.renderPreview vid else ret tt
               | None => ret tt
               end).
  set (reg := let* id := App.window_requestAnimationFrame in
              modify (with_app (App.set_previewAnimId (Some id)))).
  assert (Eloop : App.loop w = (draw >> reg) w) by (apply loop_unfold, HXR).
  assert (Ec : completes App.loop w = completes draw w).
  { unfold completes at 1. rewrite Eloop.
    change (completes (draw >> reg) w = completes draw w).
    rewrite completes_bind. unfold completes.
    destruct (fst (draw w)); reflexivity. }
  assert (Ew : w' = match fst (draw w) with
                    | Ok _ => exec reg (exec draw w)
                    | Throw _ => exec draw w
                    end).
  { subst w'. unfold exec at 1. rewrite Eloop.
    change (exec (draw >> reg) w = match fst (draw w) with
                                   | Ok _ => exec reg (exec draw w)
                                   | Throw _ => exec draw w
                                   end).
    apply exec_bind. }
  assert (Hidle : playing w = false -> draw w = (Ok tt, w)).
  { unfold playing, draw. destruct (video (player w)) as [vid|]; [|reflexivity].
    intros ->. reflexivity. }
  split; [|split; [|split; [|split; [|split]]]].
  - intros Hc. destruct L as [(_ & _ & _ & [H|H])|(_ & _ & L1 & _ & L2)];
      [congruence | congruence | split; assumption].
  - intros Hc. split.
    + destruct (playing w) eqn:Hp; [reflexivity|].
      rewrite Ec in Hc. unfold completes in Hc. rewrite (Hidle eq_refl) in Hc. discriminate.
    + destruct L as [(L1 & _)|(_ & L1 & _)]; [exact L1 | congruence].
  - intros Hp. pose proof (Hidle Hp) as Ed. split.
    + rewrite Ec. unfold completes. rewrite Ed. reflexivity.
    + intros c.
      assert (Ex : exec draw w = w) by (unfold exec; rewrite Ed; reflexivity).
      rewrite Ew, Ed, Ex. cbn [fst]. unfold draws, reg.
      rewrite (proj1 (registration_keeps_gl w) c). reflexivity.
  - intros c p t k vid Hp Hv Hclean Hon Htex Hkey.
    assert (Ed : draw = ChromaKey.renderPreview vid).
    { unfold draw. unfold playing in Hp. rewrite Hv in *. rewrite Hp. reflexivity. }
    destruct (renderPreview_frames vid c p t k w Hclean Hon Htex Hkey) as (Hc & Hfr & _).
    rewrite <- Ed in Hc, Hfr. cbv zeta in Hfr.
    split; [rewrite Ec; exact Hc|].
    rewrite Ew. unfold completes in Hc. destruct (fst (draw w)); [|discriminate].
    unfold frames_drawn in *. unfold reg.
    rewrite (proj2 (registration_keeps_gl (exec draw w)) c). exact Hfr.
  - intros c p t vid Hp Hv Hclean Hon Htex.
    assert (Ed : draw = ChromaKey.renderPreview vid).
    { unfold draw. unfold playing in Hp. rewrite Hv in *. rewrite Hp. reflexivity. }
    pose proof Hon as (Hgl & _).
    destruct (renderPreview_refused_steps vid c t w Hclean Hgl Htex)
      as (Hthrow & _ & _ & _ & _ & Hd & Hfr).
    rewrite <- Ed in Hthrow, Hd, Hfr. cbv zeta in Hd, Hfr.
    assert (Et : fst (App.loop w) = fst (draw w)).
    { rewrite Eloop. unfold bind. destruct (draw w) as [[x|e] w1]; [discriminate|reflexivity]. }
    split; [rewrite Et; exact Hthrow|].
    rewrite Ew, Hthrow. split; assumption.
  - intros c p t name Hp Hon Htex Hkey.
    unfold playing in Hp. destruct (video (player w)) as [vid|] eqn:Hv; [|discriminate].
    rewrite Ec. unfold draw. rewrite Hp.
    apply (renderPreview_throws vid c p t name w Hon Htex Hkey).
Qed.

Lemma X11_preview_tick_registers_after_drawing_witness :
  isXR (app loaded_page) = false /\ playing loaded_page = false /\
  raf_pending (host (exec App.loop loaded_page)) = [1%nat; 2%nat].
Proof.
  split; [reflexivity|]. split; [reflexivity|].
  destruct (X11_preview_tick_registers_after_drawing loaded_page) as (_ & H).
  destruct (H eq_refl) as (Hreg & _ & Hidle & _).
  destruct (Hidle eq_refl) as (Hc & _).
  destruct (Hreg Hc) as (Hp & _). exact Hp.
Defined.

(** ** Loading the page *)

(** X12.  What [init] leaves on DOMContentLoaded.  With WebGL, the
    compositor is initialised on the preview canvas, the first tick of the
    preview loop has run without drawing (no video yet) and has registered
    the one pending callback, and the immersive capability is queried
    exactly when [navigator.xr] exists.  When [ChromaKey.init] throws,
    [init] stops there with that exception: the preview loop is never
    started, so no callback is pending, and the capability is not queried.
    Either way the page is in Preview and nothing has been drawn. *)
Theorem X12_page_load :
  forall (has_xr : bool) (p x : CanvasState) (answer : ChromaKey.ContextAnswer),
    let w := exec (App.init answer) (boot has_xr p x) in
    isXR (app w) = false /\ xr_active (host w) = None /\
    (forall c, draws c w = []) /\
    match init_error answer with
    | None =>
        completes (App.init answer) (boot has_xr p x) = true /\
        raf_pending (host w) = [1%nat] /\ previewAnimId (app w) = Some 1%nat /\
        compositor_on preview_canvas (mkHandle preview_canvas 0) w /\
        texture_on preview_canvas (mkHandle preview_canvas 2) w /\
        (In (XR xr_isSessionSupported) (trace (host w)) <-> has_xr = true)
    | Some message =>
        fst (App.init answer (boot has_xr p x)) = Throw message /\
        raf_pending (host w) = [] /\ previewAnimId (app w) = None /\
        program (chroma w) = None /\
        ~ In (XR xr_isSessionSupported) (trace (host w))
    end.
Proof.
  intros has_xr p x answer w. subst w.
  split; [destruct has_xr, answer; reflexivity|].
  split; [destruct has_xr, answer; reflexivity|].
  split; [intros c; destruct has_xr, answer, c; reflexivity|].
  destruct answer as [|log|log|]; simpl init_error; cbv iota.
  1-3: split; [destruct has_xr; reflexivity|];
       split; [destruct has_xr; reflexivity|];
       split; [destruct has_xr; reflexivity|];
       split; [destruct has_xr; reflexivity|];
       destruct has_xr; vm_compute; tauto.
  split; [destruct has_xr; reflexivity|].
  split; [destruct has_xr; reflexivity|].
  split; [destruct has_xr; reflexivity|].
  split; [destruct has_xr; repeat split|].
  split; [destruct has_xr; split; reflexivity|].
  destruct has_xr; vm_compute; split; intros H; try reflexivity; try discriminate.
  - repeat (first [left; reflexivity | right]).
  - repeat (destruct H as [H|H]; [discriminate H|]). destruct H.
Qed.

(** ** [onTap]: one tap, one call *)

Lemma tap_invariant events :
  let s := Tap.run events Tap.initial in
  (Tap.timers s <= 1)%nat /\
  (Tap.handled s = false -> Tap.timers s = 0%nat) /\
  (Tap.calls s <= S (Tap.expired s))%nat /\
  (Tap.handled s = true -> (1 <= Tap.calls s)%nat) /\
  (Tap.timers s = 1%nat -> Tap.handled s = true) /\
  (Tap.handled s = false -> Tap.calls s <= Tap.expired s)%nat.
Proof.
  induction events as [|e events IH] using rev_ind.
  - simpl. repeat split; intros; try lia; try discriminate.
  - unfold Tap.run in *. rewrite fold_left_app. simpl fold_left.
    set (s := fold_left Tap.step events Tap.initial) in *.
    cbv zeta in IH. destruct IH as (I1 & I2 & I3 & I4 & I5 & I6).
    destruct s as [h t c x]. simpl in *.
    destruct e as [k [[]|m]|]; unfold Tap.step, Tap.wrap; simpl.
    + destruct h; simpl.
      * repeat split; auto.
      * specialize (I2 eq_refl). specialize (I6 eq_refl). subst t.
        repeat split; intros; try lia; try discriminate; auto.
    + destruct h; simpl.
      * repeat split; auto.
      * specialize (I2 eq_refl). specialize (I6 eq_refl). subst t.
        repeat split; intros; try lia; try discriminate; auto.
    + destruct t as [|t]; simpl.
      * repeat split; auto.
      * assert (t = 0%nat) by lia. subst t. specialize (I5 eq_refl). subst h.
        repeat split; intros; try lia; try discriminate.
Qed.

Lemma tap_burst events s :
  forallb Tap.no_timer events = true ->
  let s' := Tap.run events s in
  Tap.expired s' = Tap.expired s /\
  (Tap.handled s = true -> s' = s) /\
  (Tap.handled s = false -> events <> [] ->
   Tap.calls s' = S (Tap.calls s) /\ Tap.handled s' = true).
Proof.
  revert s. induction events as [|e events IH]; intros s Hall s'.
  - subst s'. simpl. split; [reflexivity|]. split; [reflexivity|]. intros _ Hne. congruence.
  - simpl in Hall. apply andb_true_iff in Hall. destruct Hall as [He Hall].
    destruct e as [k r|]; [|discriminate].
    subst s'. unfold Tap.run. simpl fold_left.
    destruct (IH (Tap.wrap r s) Hall) as (E1 & E2 & E3). cbv zeta in E1, E2, E3.
    unfold Tap.run in *.
    destruct (Tap.handled s) eqn:Hh.
    + assert (Ew : Tap.wrap r s = s) by (unfold Tap.wrap; rewrite Hh; reflexivity).
      rewrite Ew in *. repeat split; auto; congruence.
    + assert (Hw : Tap.handled (Tap.wrap r s) = true /\
                   Tap.calls (Tap.wrap r s) = S (Tap.calls s) /\
                   Tap.expired (Tap.wrap r s) = Tap.expired s).
      { unfold Tap.wrap. rewrite Hh. destruct r; repeat split. }
      destruct Hw as (W1 & W2 & W3).
      rewrite (E2 W1). repeat split; auto; congruence.
Qed.

Lemma tap_dead events s :
  Tap.handled s = true -> Tap.timers s = 0%nat ->
  Tap.run events s = s.
Proof.
  intros Hh Ht. induction events as [|e events IH]; [reflexivity|].
  unfold Tap.run in *. simpl fold_left.
  assert (E : Tap.step s e = s).
  { destruct e as [k r|]; unfold Tap.step, Tap.wrap.
    - rewrite Hh. reflexivity.
    - rewrite Ht. reflexivity. }
  rewrite E. exact IH.
Qed.

(** X13.  [onTap] runs its handler at most once per 300 ms timer: after
    any sequence of events on a target, the handler has run at most once
    more often than timers have expired, and at most one timer is pending.
    In particular a tap that arrives as several events in a row
    (pointerup, touchend, click) on an idle target runs the handler
    exactly once.  The timer is set only after the handler returns: if the
    handler throws, [handled] stays set with no timer pending, and the
    target never runs its handler again. *)
Theorem X13_tap_runs_handler_once :
  (forall events,
     let s := Tap.run events Tap.initial in
     (Tap.calls s <= S (Tap.expired s))%nat /\ (Tap.timers s <= 1)%nat) /\
  (forall before burst,
     let s := Tap.run before Tap.initial in
     forallb Tap.no_timer burst = true -> burst <> [] ->
     Tap.handled s = false ->
     Tap.calls (Tap.run burst s) = S (Tap.calls s)) /\
  (forall before kind message after,
     let s := Tap.run before Tap.initial in
     Tap.handled s = false ->
     Tap.run after (Tap.step s (Tap.dispatched kind (Throw message)))
     = Tap.step s (Tap.dispatched kind (Throw message)) /\
     Tap.calls (Tap.step s (Tap.dispatched kind (Throw message))) = S (Tap.calls s)).
Proof.
  split; [|split].
  - intros events s. destruct (tap_invariant events) as (I1 & _ & I3 & _). auto.
  - intros before burst s Hb Hne Hh.
    destruct (tap_burst burst s Hb) as (_ & _ & H). apply H; assumption.
  - intros before kind message after s Hh.
    destruct (tap_invariant before) as (_ & I2 & _). fold s in I2.
    specialize (I2 Hh).
    assert (Hs : Tap.step s (Tap.dispatched kind (Throw message))
                 = Tap.mkState true (Tap.timers s) (S (Tap.calls s)) (Tap.expired s)).
    { unfold Tap.step, Tap.wrap. rewrite Hh. reflexivity. }
    rewrite Hs. split; [|reflexivity].
    apply tap_dead; [reflexivity | exact I2].
Qed.

Lemma X13_tap_runs_handler_once_witness :
  Tap.calls
    (Tap.run [Tap.dispatched Tap.pointerup (Ok tt); Tap.dispatched Tap.touchend (Ok tt);
              Tap.dispatched Tap.click (Ok tt)]
       (Tap.run [] Tap.initial)) = 1%nat.
Proof.
  exact (proj1 (proj2 X13_tap_runs_handler_once) []
           [Tap.dispatched Tap.pointerup (Ok tt); Tap.dispatched Tap.touchend (Ok tt);
            Tap.dispatched Tap.click (Ok tt)]
           eq_refl ltac:(discriminate) eq_refl).
Defined.

(** ** Play and pause *)

Lemma loop_idle w :
  isXR (app w) = false -> playing w = false ->
  completes App.loop w = true /\ forall c, draws c (exec App.loop w) = draws c w.
Proof.
  intros HXR Hp.
  assert (E : App.loop w =
              (let* id := App.window_requestAnimationFrame in
               modify (with_app (App.set_previewAnimId (Some id)))) w).
  { rewrite (loop_unfold w HXR). unfold playing in Hp.
    destruct (video (player w)) as [vid|]; [rewrite Hp|]; reflexivity. }
  split.
  - unfold completes. rewrite E. reflexivity.
  - intros c. unfold exec. rewrite E. unfold draws.
    apply (f_equal m_draws). apply (proj1 (registration_keeps_gl w) c).
Qed.

(** X14.  [togglePlayPause()] answers what it asked for, not what the
    element does.  Without a video it returns [false] and does nothing.
    On a paused video it calls [play()] once and returns [true] whatever
    comes of it: when the browser lets playback begin, [paused] is false
    as soon as [play()] returns; when it does not, the rejection is
    swallowed, the video stays paused and [isPlaying()] says so although
    [true] was returned.  Nothing but [paused] changes on the element.  On
    a playing video it pauses at once and returns [false]; the preview
    loop then keeps ticking but draws nothing: the next tick completes and
    registers again, and no canvas gets a draw. *)
Theorem X14_togglePlayPause_reports_request :
  forall w,
    (video (player w) = None -> Playback.togglePlayPause w = (Ok false, w)) /\
    (forall v, video (player w) = Some v -> paused v = true ->
       let w' := exec Playback.togglePlayPause w in
       fst (Playback.togglePlayPause w) = Ok true /\
       host w' = log_calls [video_play] (host w) /\
       chroma w' = chroma w /\ app w' = app w /\ ui w' = ui w /\
       video (player w')
       = Some (mkVideo (negb (play_allowed v)) (videoWidth v) (videoHeight v)
                       (currentFrame v) (origin_clean v) (play_allowed v)) /\
       isReady (player w') = isReady (player w) /\
       Playback.isPlaying w' = (Ok (Some (play_allowed v)), w')) /\
    (forall v, video (player w) = Some v -> paused v = false ->
       let w' := exec Playback.togglePlayPause w in
       fst (Playback.togglePlayPause w) = Ok false /\
       host w' = host w /\ chroma w' = chroma w /\ app w' = app w /\ ui w' = ui w /\
       video (player w')
       = Some (mkVideo true (videoWidth v) (videoHeight v) (currentFrame v)
                       (origin_clean v) (play_allowed v)) /\
       isReady (player w') = isReady (player w) /\
       Playback.isPlaying w' = (Ok (Some false), w') /\
       (isXR (app w) = false ->
        completes App.loop w' = true /\
        raf_pending (host (exec App.loop w')) = raf_pending (host w) ++ [raf_next (host w)] /\
        forall c, draws c (exec App.loop w') = draws c w)).
Proof.
  intros w. split; [|split].
  - intros Hv. unfold Playback.togglePlayPause, bind, get. rewrite Hv. reflexivity.
  - intros v Hv Hp w'. subst w'.
    destruct w as [h ch [vd rd] u ap]. simpl in Hv. subst vd.
    destruct v as [pz vw vh cf oc pa]. simpl in Hp. subst pz.
    destruct pa; repeat split.
  - intros v Hv Hp w'.
    assert (E : Playback.togglePlayPause w
                = (Ok false, with_player (VideoPlayer.set_paused true) w)).
    { unfold Playback.togglePlayPause, Playback.pause, bind, get, modify, ret.
      rewrite Hv, Hp, Hv. reflexivity. }
    assert (Ew : w' = with_player (VideoPlayer.set_paused true) w)
      by (subst w'; unfold exec; rewrite E; reflexivity).
    rewrite E, Ew. simpl fst.
    split; [reflexivity|]. split; [reflexivity|]. split; [reflexivity|].
    split; [reflexivity|]. split; [reflexivity|].
    split; [simpl; rewrite Hv; reflexivity|].
    split; [reflexivity|].
    split.
    { unfold Playback.isPlaying, bind, get, ret. simpl. rewrite Hv. reflexivity. }
    intros HXR.
    set (wp := with_player (VideoPlayer.set_paused true) w).
    assert (Hidle : playing wp = false).
    { unfold playing, wp. simpl. rewrite Hv. simpl. apply andb_false_r. }
    assert (HXR' : isXR (app wp) = false) by exact HXR.
    destruct (loop_idle wp HXR' Hidle) as (Hc & Hd).
    split; [exact Hc|]. split.
    + destruct (loop_effect wp) as (_ & _ & _ & _ & _ & _ & L). cbv zeta in L.
      destruct L as [(_ & _ & _ & [H|H])|(_ & _ & L1 & _)]; [congruence|congruence|exact L1].
    + intros c. rewrite (Hd c). reflexivity.
Qed.

Lemma X14_togglePlayPause_reports_request_witness :
  (video (player playing_session) = Some sample_video /\
   paused sample_video = false /\
   fst (Playback.togglePlayPause playing_session) = Ok false /\
   video (player (exec Playback.togglePlayPause playing_session))
   = Some (mkVideo true 1920 1080 7 true true)) /\
  (video (player muted_session) = Some blocked_video /\
   paused blocked_video = true /\
   fst (Playback.togglePlayPause muted_session) = Ok true /\
   video (player (exec Playback.togglePlayPause muted_session)) = Some blocked_video).
Proof.
  split.
  - split; [reflexivity|]. split; [reflexivity|].
    destruct (X14_togglePlayPause_reports_request playing_session) as (_ & _ & H).
    destruct (H sample_video eq_refl eq_refl) as (Hr & _ & _ & _ & _ & Hv & _).
    split; [exact Hr | exact Hv].
  - split; [reflexivity|]. split; [reflexivity|].
    destruct (X14_togglePlayPause_reports_request muted_session) as (_ & H & _).
    destruct (H blocked_video eq_refl eq_refl) as (Hr & _ & _ & _ & _ & Hv & _).
    split; [exact Hr | exact Hv].
Defined.

(** ** Loading a video *)

Lemma filter_anonymous_canplay k l :
  forallb is_anonymous_canplay l = true ->
  List.filter (fun f => negb (Loader.Fn_eqb f (Loader.onCanPlay k))) l = l.
Proof.
  induction l as [|f l IH]; simpl; [reflexivity|].
  intros H. apply andb_true_iff in H. destruct H as [Hf Hl].
  destruct f; try discriminate. simpl. rewrite (IH Hl). reflexivity.
Qed.

Lemma filter_anonymous_error k l :
  forallb is_anonymous_error l = true ->
  List.filter (fun f => negb (Loader.Fn_eqb f (Loader.onError k))) l = l.
Proof.
  induction l as [|f l IH]; simpl; [reflexivity|].
  intros H. apply andb_true_iff in H. destruct H as [Hf Hl].
  destruct f; try discriminate. simpl. rewrite (IH Hl). reflexivity.
Qed.

(** [cleanup_listeners] asks to remove functions that were never
    registered: it removes nothing. *)
Lemma cleanup_listeners_removes_nothing k s :
  anonymous_only s -> Loader.cleanup_listeners k s = s.
Proof.
  intros [Hc He]. unfold Loader.cleanup_listeners, Loader.set_listeners.
  rewrite (filter_anonymous_canplay k _ Hc), (filter_anonymous_error k _ He).
  destruct s; reflexivity.
Qed.

Lemma anonymous_only_set_isReady b s :
  anonymous_only s -> anonymous_only (Loader.set_isReady b s).
Proof. intros H. exact H. Qed.

Lemma fold_canplay l :
  forall s, anonymous_only s -> forallb is_anonymous_canplay l = true ->
    fold_left Loader.run_listener l s
    = match l with [] => s | _ => Loader.set_isReady true s end.
Proof.
  induction l as [|f l IH]; intros s Hs Hl; [reflexivity|].
  simpl in Hl. apply andb_true_iff in Hl. destruct Hl as [Hf Hl].
  destruct f as [k|k|k|k]; try discriminate. cbn [fold_left].
  change (Loader.run_listener s (Loader.anonymous_canplay k))
    with (Loader.set_isReady true (Loader.cleanup_listeners k s)).
  rewrite (cleanup_listeners_removes_nothing _ s Hs).
  rewrite (IH _ (anonymous_only_set_isReady true s Hs) Hl).
  destruct l; reflexivity.
Qed.

Lemma fold_error l :
  forall s, anonymous_only s -> forallb is_anonymous_error l = true ->
    fold_left Loader.run_listener l s
    = match l with [] => s | _ => Loader.set_isReady false s end.
Proof.
  induction l as [|f l IH]; intros s Hs Hl; [reflexivity|].
  simpl in Hl. apply andb_true_iff in Hl. destruct Hl as [Hf Hl].
  destruct f as [k|k|k|k]; try discriminate. cbn [fold_left].
  change (Loader.run_listener s (Loader.anonymous_error k))
    with (Loader.set_isReady false (Loader.cleanup_listeners k s)).
  rewrite (cleanup_listeners_removes_nothing _ s Hs).
  rewrite (IH _ (anonymous_only_set_isReady false s Hs) Hl).
  destruct l; reflexivity.
Qed.

(** [loadDirect] on an element whose listeners are anonymous functions:
    everything it leaves behind. *)
Lemma loadDirect_runs url withCors ev s :
  anonymous_only s ->
  Loader.loadDirect url withCors ev s =
  (match ev with
   | Loader.canplay => Ok tt
   | Loader.error code => Throw (Loader.error_message code)
   | Loader.timeout => Throw "Video load timed out."%string
   end,
   Loader.mkState
     (Loader.video s)
     (match ev with
      | Loader.canplay => true
      | Loader.error _ => false
      | Loader.timeout => Loader.isReady s
      end)
     (Loader.currentBlobUrl s)
     (if withCors then Some "anonymous"%string else None)
     (Some url)
     (Loader.canplay_listeners s ++ [Loader.anonymous_canplay (Loader.loadDirect_calls s)])
     (Loader.error_listeners s ++ [Loader.anonymous_error (Loader.loadDirect_calls s)])
     (S (Loader.loadDirect_calls s))
     (Loader.next_blob s) (Loader.live_blobs s) (Loader.fetched s) (Loader.statuses s)).
Proof.
  intros [Hc He]. unfold Loader.loadDirect. cbv zeta.
  set (s1 := Loader.mkState _ _ _ _ _ _ _ _ _ _ _ _).
  assert (H1 : anonymous_only s1).
  { split; simpl; rewrite forallb_app; simpl; [rewrite Hc | rewrite He]; reflexivity. }
  destruct ev as [|code|].
  - rewrite (fold_canplay _ s1 H1 (proj1 H1)). unfold s1. simpl.
    destruct (Loader.canplay_listeners s ++ _) eqn:E; [|reflexivity].
    apply app_eq_nil in E. destruct E as [_ E]. discriminate.
  - rewrite (fold_error _ s1 H1 (proj2 H1)). unfold s1. simpl.
    destruct (Loader.error_listeners s ++ _) eqn:E; [|reflexivity].
    apply app_eq_nil in E. destruct E as [_ E]. discriminate.
  - rewrite (cleanup_listeners_removes_nothing _ s1 H1). reflexivity.
Qed.

Ltac wf_loader :=
  match goal with
  | H : anonymous_only _ |- anonymous_only _ =>
      first [ exact H
            | destruct H as [? ?]; split; simpl; rewrite ?forallb_app; simpl;
              repeat match goal with
                     | E : forallb _ _ = true |- _ => rewrite E
                     end; reflexivity ]
  end.

Ltac conj_split := repeat match goal with |- _ /\ _ => split end.

Ltac loader_fin :=
  intros; conj_split;
  first [ reflexivity | wf_loader | discriminate | lia | assumption | congruence ].

(** One iteration of the proxy loop. *)
Lemma iteration_runs enc proxy i url report a s :
  anonymous_only s ->
  let r := Loader.iteration enc proxy i url report a s in
  let s' := snd r in
  let made := fetch_yields_blob (fst a) in
  fst r = proxy_succeeds a /\
  anonymous_only s' /\
  Loader.video s' = Loader.video s /\
  Loader.fetched s' = Loader.fetched s ++ [(proxy ++ enc url)%string] /\
  Loader.statuses s'
  = Loader.statuses s ++
    (if report then [("Bypassing CORS (proxy " ++ pretty (i + 1)%nat ++ ")...")%string]
     else []) /\
  Loader.next_blob s' = (if made then S (Loader.next_blob s) else Loader.next_blob s) /\
  Loader.live_blobs s'
  = Loader.live_blobs s ++ (if made then [Loader.next_blob s] else []) /\
  Loader.currentBlobUrl s'
  = (if made then Some (Loader.next_blob s) else Loader.currentBlobUrl s) /\
  Loader.loadDirect_calls s'
  = (if made then S (Loader.loadDirect_calls s) else Loader.loadDirect_calls s) /\
  length (Loader.canplay_listeners s')
  = (if made then S (length (Loader.canplay_listeners s))
     else length (Loader.canplay_listeners s)) /\
  length (Loader.error_listeners s')
  = (if made then S (length (Loader.error_listeners s))
     else length (Loader.error_listeners s)) /\
  (proxy_succeeds a = true ->
   made = true /\
   Loader.isReady s' = true /\ Loader.crossOrigin s' = Some "anonymous"%string /\
   Loader.src s' = Some (Loader.BlobUrl (Loader.next_blob s))) /\
  (proxy_succeeds a = false -> Loader.isReady s = false -> Loader.isReady s' = false).
Proof.
  intros Hwf r s' made. subst r s' made.
  destruct a as [fa le]. unfold Loader.iteration. cbv zeta. cbn [fst snd].
  generalize ("Bypassing CORS (proxy " ++ pretty (i + 1)%nat ++ ")...")%string.
  generalize (proxy ++ enc url)%string. intros target msg.
  destruct fa as [m|ok status body].
  { destruct report; simpl; rewrite ?app_nil_r;
      conj_split; loader_fin. }
  destruct ok.
  2:{ destruct report; simpl; rewrite ?app_nil_r;
        conj_split; loader_fin. }
  destruct body as [m|size].
  { destruct report; simpl; rewrite ?app_nil_r;
      conj_split; loader_fin. }
  unfold Loader.fetchAsBlob, fetch_yields_blob, proxy_succeeds. cbv zeta. cbn [negb].
  destruct (size <? 1000)%nat eqn:Hsize.
  { destruct report, le; simpl; rewrite ?app_nil_r;
      conj_split; loader_fin. }
  cbn [negb].
  rewrite loadDirect_runs by (destruct report; wf_loader).
  destruct report, le; simpl; rewrite ?app_nil_r, ?length_app; simpl;
    conj_split; loader_fin.
Qed.

Ltac loader_fields :=
  cbn [Loader.video Loader.isReady Loader.currentBlobUrl Loader.crossOrigin
       Loader.src Loader.canplay_listeners Loader.error_listeners
       Loader.loadDirect_calls Loader.next_blob Loader.live_blobs
       Loader.fetched Loader.statuses fst snd].

(** The state in which [load] makes its first attempt. *)
Lemma load_prologue report s :
  anonymous_only s ->
  let s2 := Loader.onStatus report "Loading video..."
              (Loader.set_isReady false
                 (Loader.cleanup (if Loader.video s then s else Loader.create s))) in
  anonymous_only s2 /\
  Loader.video s2 = true /\ Loader.isReady s2 = false /\
  Loader.fetched s2 = Loader.fetched s /\
  Loader.statuses s2
  = Loader.statuses s ++ (if report then ["Loading video..."%string] else []) /\
  Loader.next_blob s2 = Loader.next_blob s /\
  Loader.live_blobs s2 = Loader.live_blobs (Loader.cleanup s) /\
  Loader.currentBlobUrl s2 = None /\
  Loader.canplay_listeners s2 = Loader.canplay_listeners s /\
  Loader.error_listeners s2 = Loader.error_listeners s /\
  Loader.loadDirect_calls s2 = Loader.loadDirect_calls s.
Proof.
  intros Hwf. cbv zeta. split.
  { destruct s as [[|] rdy [cur|] co sr cl el k nb lb fe st]; destruct report; exact Hwf. }
  destruct s as [[|] rdy [cur|] co sr cl el k nb lb fe st]; destruct report;
    cbn [Loader.onStatus Loader.set_isReady Loader.cleanup Loader.create];
    loader_fields; rewrite ?app_nil_r; conj_split; reflexivity.
Qed.

Lemma proxy_succeeds_yields a :
  proxy_succeeds a = true -> fetch_yields_blob (fst a) = true.
Proof.
  destruct a as [[m|[|] st [m|sz]] [|c|]]; simpl; congruence.
Qed.

Lemma proxy_message_1 :
  ("Bypassing CORS (proxy " ++ pretty (0 + 1)%nat ++ ")...")%string
  = "Bypassing CORS (proxy 1)..."%string.
Proof. vm_compute. reflexivity. Qed.

Lemma proxy_message_2 :
  ("Bypassing CORS (proxy " ++ pretty (1 + 1)%nat ++ ")...")%string
  = "Bypassing CORS (proxy 2)..."%string.
Proof. vm_compute. reflexivity. Qed.

(** What a [load] leaves behind, attempt by attempt. *)
Lemma load_runs enc url report a s :
  anonymous_only s ->
  let r := Loader.load enc url report a s in
  let s' := snd r in
  let d := is_canplay (Loader.direct a) in
  let p0 := proxy_succeeds (Loader.proxy a 0) in
  let p1 := proxy_succeeds (Loader.proxy a 1) in
  let l := is_canplay (Loader.without_cors a) in
  let b0 := fetch_yields_blob (fst (Loader.proxy a 0)) in
  let b1 := fetch_yields_blob (fst (Loader.proxy a 1)) in
  fst r = (if d || p0 || p1 || l then Ok tt
           else Throw "Could not load video. Check the URL and try a direct .mp4 link."%string) /\
  Loader.isReady s' = (d || p0 || p1 || l) /\
  Loader.video s' = true /\
  anonymous_only s' /\
  Loader.fetched s'
  = Loader.fetched s ++
    (if d then [] else if p0 then [proxy_request enc url 0]
     else [proxy_request enc url 0; proxy_request enc url 1]) /\
  Loader.crossOrigin s' = (if d || p0 || p1 then Some "anonymous"%string else None) /\
  Loader.src s'
  = (if d then Some (Loader.Url url)
     else if p0 then Some (Loader.BlobUrl (Loader.next_blob s))
     else if p1 then Some (Loader.BlobUrl (if b0 then S (Loader.next_blob s)
                                           else Loader.next_blob s))
     else Some (Loader.Url url)) /\
  Loader.statuses s'
  = Loader.statuses s ++
    (if report then
       "Loading video..."%string ::
       (if d then [] else
          "Bypassing CORS (proxy 1)..."%string ::
          (if p0 then [] else
             "Bypassing CORS (proxy 2)..."%string ::
             (if p1 then [] else ["Loading without CORS (preview only)..."%string])))
     else []) /\
  Loader.next_blob s'
  = (if d then Loader.next_blob s
     else if p0 then S (Loader.next_blob s)
     else (if b1 then S else id) ((if b0 then S else id) (Loader.next_blob s))) /\
  Loader.live_blobs s'
  = Loader.live_blobs (Loader.cleanup s) ++
    (if d then [] else if p0 then [Loader.next_blob s]
     else (if b0 then [Loader.next_blob s] else []) ++
          (if b1 then [(if b0 then S else id) (Loader.next_blob s)] else [])) /\
  Loader.currentBlobUrl s'
  = (if d then None else if p0 then Some (Loader.next_blob s)
     else if b1 then Some ((if b0 then S else id) (Loader.next_blob s))
     else if b0 then Some (Loader.next_blob s) else None) /\
  Loader.loadDirect_calls s' = (Loader.loadDirect_calls s + loadDirect_count a)%nat /\
  length (Loader.canplay_listeners s')
  = (length (Loader.canplay_listeners s) + loadDirect_count a)%nat /\
  length (Loader.error_listeners s')
  = (length (Loader.error_listeners s) + loadDirect_count a)%nat.
Proof.
  intros Hwf r s' d p0 p1 l b0 b1. subst s'.
  assert (Er : r = Loader.load enc url report a s) by reflexivity. clearbody r.
  unfold loadDirect_count. cbv zeta. fold d p0 p1 b0 b1.
  unfold Loader.load in Er. cbv zeta in Er.
  destruct (load_prologue report s Hwf)
    as (W2 & V2 & R2 & Fe2 & St2 & N2 & L2 & C2 & Li2 & Le2 & K2).
  cbv zeta in W2, V2, R2, Fe2, St2, N2, L2, C2, Li2, Le2, K2.
  set (s2 := Loader.onStatus report "Loading video..." _) in *.
  rewrite (loadDirect_runs _ _ _ s2 W2) in Er.
  set (s3 := Loader.mkState _ _ _ _ _ _ _ _ _ _ _ _) in Er.
  assert (W3 : anonymous_only s3)
    by (split; simpl; rewrite forallb_app; simpl;
        [rewrite (proj1 W2) | rewrite (proj2 W2)]; reflexivity).
  destruct (Loader.direct a) as [|code|] eqn:Ed; subst d; cbn [is_canplay orb];
    cbn iota in Er.
  { subst r. cbn [fst snd]. conj_split; try exact W3; unfold s3; loader_fields;
      rewrite ?length_app, ?V2, ?Fe2, ?St2, ?N2, ?L2, ?C2, ?Li2, ?Le2, ?K2;
      destruct report; rewrite ?app_nil_r; try reflexivity; simpl; lia. }
  all: assert (R3 : Loader.isReady s3 = false) by (simpl; try exact R2; reflexivity).
  all: unfold Loader.CORS_PROXIES in Er; cbn [Loader.try_proxies] in Er.
  all: destruct (iteration_runs enc "https://corsproxy.io/?url=" 0 url report
                   (Loader.proxy a 0) s3 W3)
         as (A1 & A2 & A3 & A4 & A5 & A6 & A7 & A8 & A9 & A10 & A10' & A11 & A12);
       cbv zeta in A1, A2, A3, A4, A5, A6, A7, A8, A9, A10, A10', A11, A12;
       fold p0 b0 in A1, A6, A7, A8, A9, A10, A10', A11, A12;
       rewrite proxy_message_1 in A5;
       destruct (Loader.iteration enc "https://corsproxy.io/?url=" 0 url report
                   (Loader.proxy a 0) s3) as [ok0 s4];
       cbn [fst snd] in A1, A2, A3, A4, A5, A6, A7, A8, A9, A10, A10', A11, A12;
       subst ok0.
  all: destruct p0 eqn:Ep0; cbn [orb]; cbn iota in Er.
  1,3: subst r; cbn [fst snd];
       destruct (A11 eq_refl) as (Hb0 & B1 & B2 & B3);
       rewrite Hb0 in *;
       conj_split; try exact A2;
       rewrite ?B1, ?B2, ?B3, ?A3, ?A4, ?A5, ?A6, ?A7, ?A8, ?A9, ?A10, ?A10';
       unfold s3; loader_fields;
       rewrite ?length_app, ?V2, ?Fe2, ?St2, ?N2, ?L2, ?Li2, ?Le2, ?K2;
       destruct report; rewrite <- ?app_assoc; try reflexivity; simpl; lia.
  all: destruct (iteration_runs enc "https://api.allorigins.win/raw?url=" 1 url report
                   (Loader.proxy a 1) s4 A2)
         as (D1 & D2 & D3 & D4 & D5 & D6 & D7 & D8 & D9 & D10 & D10' & D11 & D12);
       cbv zeta in D1, D2, D3, D4, D5, D6, D7, D8, D9, D10, D10', D11, D12;
       fold p1 b1 in D1, D6, D7, D8, D9, D10, D10', D11, D12;
       rewrite proxy_message_2 in D5;
       destruct (Loader.iteration enc "https://api.allorigins.win/raw?url=" 1 url report
                   (Loader.proxy a 1) s4) as [ok1 s5];
       cbn [fst snd] in D1, D2, D3, D4, D5, D6, D7, D8, D9, D10, D10', D11, D12;
       subst ok1.
  all: pose proof (A12 eq_refl R3) as R4.
  all: destruct p1 eqn:Ep1; cbn [orb]; cbn iota in Er.
  1,3: subst r; cbn [fst snd];
       destruct (D11 eq_refl) as (Hb1 & B1 & B2 & B3);
       rewrite Hb1 in *;
       conj_split; try exact D2;
       rewrite ?B1, ?B2, ?B3, ?D3, ?D4, ?D5, ?D6, ?D7, ?D8, ?D9, ?D10, ?D10',
         ?A3, ?A4, ?A5, ?A6, ?A7, ?A8, ?A9, ?A10, ?A10';
       unfold s3; loader_fields;
       rewrite ?length_app, ?V2, ?Fe2, ?St2, ?N2, ?L2, ?Li2, ?Le2, ?K2;
       destruct report, b0; rewrite <- ?app_assoc; try reflexivity; simpl; lia.
  all: pose proof (D12 eq_refl R4) as R5.
  all: set (s6 := Loader.onStatus report "Loading without CORS (preview only)..." s5) in Er.
  all: assert (W6 : anonymous_only s6) by (unfold s6, Loader.onStatus; destruct report; exact D2).
  all: rewrite (loadDirect_runs _ _ _ s6 W6) in Er.
  all: assert (F6 : Loader.video s6 = Loader.video s5 /\ Loader.isReady s6 = false /\
                    Loader.fetched s6 = Loader.fetched s5 /\
                    Loader.statuses s6
                    = Loader.statuses s5 ++
                      (if report then ["Loading without CORS (preview only)..."%string]
                       else []) /\
                    Loader.next_blob s6 = Loader.next_blob s5 /\
                    Loader.live_blobs s6 = Loader.live_blobs s5 /\
                    Loader.currentBlobUrl s6 = Loader.currentBlobUrl s5 /\
                    Loader.canplay_listeners s6 = Loader.canplay_listeners s5 /\
                    Loader.error_listeners s6 = Loader.error_listeners s5 /\
                    Loader.loadDirect_calls s6 = Loader.loadDirect_calls s5)
         by (unfold s6, Loader.onStatus; destruct report; simpl; rewrite ?app_nil_r;
             conj_split; try reflexivity; exact R5).
  all: destruct F6 as (V6 & R6 & Fe6 & St6 & N6 & L6 & C6 & Li6 & Le6 & K6).
  all: set (s7 := Loader.mkState _ _ _ _ _ _ _ _ _ _ _ _) in Er.
  all: assert (W7 : anonymous_only s7)
         by (split; simpl; rewrite forallb_app; simpl;
             [rewrite (proj1 W6) | rewrite (proj2 W6)]; reflexivity).
  all: destruct (Loader.without_cors a) as [|code'|] eqn:El; subst l;
       cbn [is_canplay]; cbn iota in Er; subst r; cbn [fst snd];
       (split; [reflexivity|]);
       (split; [unfold s7; loader_fields; try exact R6; reflexivity|]);
       (split; [unfold s7; loader_fields; rewrite V6, D3, A3; exact V2|]);
       (split; [exact W7|]);
       conj_split; unfold s7; loader_fields;
       rewrite ?length_app, ?Fe6, ?St6, ?N6, ?L6, ?C6, ?Li6, ?Le6, ?K6,
         ?D3, ?D4, ?D5, ?D6, ?D7, ?D8, ?D9, ?D10, ?D10',
         ?A3, ?A4, ?A5, ?A6, ?A7, ?A8, ?A9, ?A10, ?A10';
       unfold s3; loader_fields;
       rewrite ?length_app, ?Fe2, ?St2, ?N2, ?L2, ?C2, ?Li2, ?Le2, ?K2;
       destruct report, b0, b1; rewrite <- ?app_assoc; try reflexivity; simpl; lia.
Qed.



Lemma cleanup_keeps_abandoned id s :
  abandoned id s -> In id (Loader.live_blobs (Loader.cleanup s)).
Proof.
  intros (Hin & Hcur & _). unfold Loader.cleanup.
  destruct (Loader.currentBlobUrl s) as [c|] eqn:Ec; [|exact Hin].
  cbn [Loader.live_blobs]. apply filter_In. split; [exact Hin|].
  apply negb_true_iff, Nat.eqb_neq. congruence.
Qed.

Lemma load_keeps_abandoned enc url report a b s :
  anonymous_only s -> abandoned b s ->
  abandoned b (snd (Loader.load enc url report a s)).
Proof.
  intros Hwf Hab.
  destruct (load_runs enc url report a s Hwf)
    as (_ & _ & _ & _ & _ & _ & _ & _ & Hn & Hl & Hc & _).
  cbv zeta in Hn, Hl, Hc.
  pose proof (cleanup_keeps_abandoned b s Hab) as Hin.
  destruct Hab as (_ & _ & Hlt).
  unfold abandoned. rewrite Hn, Hl, Hc.
  split; [apply in_or_app; left; exact Hin|].
  destruct (is_canplay (Loader.direct a)), (proxy_succeeds (Loader.proxy a 0)),
    (fetch_yields_blob (fst (Loader.proxy a 0))),
    (fetch_yields_blob (fst (Loader.proxy a 1)));
    unfold id; split; try congruence; try lia;
    intros E; injection E; lia.
Qed.

Lemma run_loads_keep_abandoned enc id loads :
  forall s, anonymous_only s -> abandoned id s ->
    anonymous_only (run_loads enc loads s) /\ abandoned id (run_loads enc loads s).
Proof.
  induction loads as [|[[url report] a] loads IH]; intros s Hwf Hab; [split; assumption|].
  unfold run_loads. cbn [fold_left fst snd]. apply IH.
  - exact (proj1 (proj2 (proj2 (proj2 (load_runs enc url report a s Hwf))))).
  - apply load_keeps_abandoned; assumption.
Qed.

(** X16.  When the first proxy's response is turned into an object URL
    that the element then fails to load, and the second proxy's response
    is turned into another, the first object URL is lost: only the second
    is tracked, and no later [load] or [cleanup] ever revokes the first. *)
Theorem X16_abandoned_proxy_blob_is_never_revoked enc url report a s later :
  anonymous_only s ->
  first_blob_abandoned a = true ->
  let s' := snd (Loader.load enc url report a s) in
  let s'' := run_loads enc later s' in
  Loader.currentBlobUrl s' = Some (S (Loader.next_blob s)) /\
  In (Loader.next_blob s) (Loader.live_blobs s'') /\
  In (Loader.next_blob s) (Loader.live_blobs (Loader.cleanup s'')) /\
  Loader.currentBlobUrl s'' <> Some (Loader.next_blob s).
Proof.
  intros Hwf Ha s' s''.
  unfold first_blob_abandoned in Ha.
  apply andb_true_iff in Ha. destruct Ha as [Ha Hb1].
  apply andb_true_iff in Ha. destruct Ha as [Ha Hp0].
  apply andb_true_iff in Ha. destruct Ha as [Hd Hb0].
  apply negb_true_iff in Hd, Hp0.
  destruct (load_runs enc url report a s Hwf)
    as (_ & _ & _ & Hwf' & _ & _ & _ & _ & Hn & Hl & Hc & _).
  cbv zeta in Hwf', Hn, Hl, Hc. fold s' in Hwf', Hn, Hl, Hc.
  rewrite Hd, Hp0, Hb0, Hb1 in Hn, Hl, Hc.
  assert (Hab : abandoned (Loader.next_blob s) s').
  { unfold abandoned. rewrite Hn, Hl, Hc. split; [|split].
    - apply in_or_app. right. simpl. left. reflexivity.
    - intros E. injection E. lia.
    - lia. }
  destruct (run_loads_keep_abandoned enc (Loader.next_blob s) later s' Hwf' Hab)
    as (_ & Hab'').
  fold s'' in Hab''.
  split; [exact Hc|]. split; [exact (proj1 Hab'')|].
  split; [apply cleanup_keeps_abandoned; exact Hab''|exact (proj1 (proj2 Hab''))].
Qed.

Lemma X16_abandoned_proxy_blob_is_never_revoked_witness :
  anonymous_only Loader.initial /\ first_blob_abandoned sample_answers = true /\
  In 0%nat
     (Loader.live_blobs
        (Loader.cleanup
           (run_loads (fun u => u) [("https://example.org/next.mp4"%string, false, sample_answers)]
              (snd (Loader.load (fun u => u) "https://example.org/clip.mp4" true
                      sample_answers Loader.initial))))).
Proof.
  split; [split; reflexivity|]. split; [reflexivity|].
  exact (proj1 (proj2 (proj2
    (X16_abandoned_proxy_blob_is_never_revoked (fun u => u) "https://example.org/clip.mp4"
       true sample_answers Loader.initial
       [("https://example.org/next.mp4"%string, false, sample_answers)]
       (conj eq_refl eq_refl) eq_refl)))).
Defined.

Lemma loadDirect_count_positive a : (1 <= loadDirect_count a)%nat.
Proof.
  unfold loadDirect_count. cbv zeta.
  destruct (is_canplay (Loader.direct a)), (proxy_succeeds (Loader.proxy a 0)),
    (proxy_succeeds (Loader.proxy a 1)); lia.
Qed.

Lemma run_loads_listeners enc loads :
  forall s, anonymous_only s ->
    let s' := run_loads enc loads s in
    anonymous_only s' /\
    (length (Loader.canplay_listeners s') + Loader.loadDirect_calls s
     = length (Loader.canplay_listeners s) + Loader.loadDirect_calls s')%nat /\
    (length (Loader.error_listeners s') + Loader.loadDirect_calls s
     = length (Loader.error_listeners s) + Loader.loadDirect_calls s')%nat /\
    (Loader.loadDirect_calls s + length loads <= Loader.loadDirect_calls s')%nat.
Proof.
  induction loads as [|[[url report] a] loads IH]; intros s Hwf.
  - cbv zeta. unfold run_loads. cbn [fold_left length].
    split; [exact Hwf|]. split; [lia|]. split; lia.
  - cbv zeta. unfold run_loads. cbn [fold_left fst snd length].
    destruct (load_runs enc url report a s Hwf)
      as (_ & _ & _ & Hwf' & _ & _ & _ & _ & _ & _ & _ & Hk & Hc & He).
    cbv zeta in Hwf', Hk, Hc, He.
    destruct (IH _ Hwf') as (W & C & E & K). cbv zeta in W, C, E, K.
    unfold run_loads in W, C, E, K.
    pose proof (loadDirect_count_positive a).
    split; [exact W|]. split; [lia|]. split; lia.
Qed.

(** X17.  The listeners [loadDirect] registers are never removed, because
    [cleanup_listeners] names functions that were never registered.  After
    any sequence of loads the element carries one [canplay] and one
    [error] listener for every [loadDirect] call ever made, at least one
    per load; so a later [canplay] event sets [isReady] and a later
    [error] event clears it, whatever the loads had left. *)
Theorem X17_load_listeners_pile_up enc l loads :
  let s := run_loads enc (l :: loads) Loader.initial in
  length (Loader.canplay_listeners s) = Loader.loadDirect_calls s /\
  length (Loader.error_listeners s) = Loader.loadDirect_calls s /\
  (S (length loads) <= Loader.loadDirect_calls s)%nat /\
  (forall k, Loader.cleanup_listeners k s = s) /\
  Loader.isReady (later_canplay s) = true /\
  Loader.isReady (later_error s) = false.
Proof.
  assert (W0 : anonymous_only Loader.initial) by (split; reflexivity).
  destruct (run_loads_listeners enc (l :: loads) Loader.initial W0) as (W & C & E & K).
  cbv zeta in W, C, E, K |- *.
  set (s := run_loads enc (l :: loads) Loader.initial) in *.
  cbn [Loader.initial Loader.canplay_listeners Loader.error_listeners
       Loader.loadDirect_calls length] in C, E, K.
  split; [lia|]. split; [lia|]. split; [lia|].
  split; [intros k; apply cleanup_listeners_removes_nothing; exact W|].
  unfold later_canplay, later_error.
  rewrite (fold_canplay _ s W (proj1 W)), (fold_error _ s W (proj2 W)).
  destruct (Loader.canplay_listeners s) eqn:Ec; [simpl in C; lia|].
  destruct (Loader.error_listeners s) eqn:Ee; [simpl in E; lia|].
  split; reflexivity.
Qed.

Lemma setStatus_loader msg type p :
  LoadForm.loader (LoadForm.setStatus msg type p) = LoadForm.loader p.
Proof. reflexivity. Qed.



